(** * el_malloc: an explicit free-list allocator over one fixed heap region

    Shallow embedding of [el_malloc.c].  The C functions read and write
    block headers and footers that live inside the heap bytes themselves,
    so the embedding keeps a byte-addressed memory and threads it through
    a small state-and-error monad: every C statement that dereferences a
    pointer becomes a load or a store, and a load or store outside the
    mapped ranges is a fault. *)

From Stdlib Require Import String ZArith List Lia Bool Permutation.
Import ListNotations.
Open Scope Z_scope.

(** ** Machine integers and the byte memory *)

(** [size_t] and pointers are 64-bit: arithmetic wraps modulo [2^64]. *)
Definition wrap (x : Z) : Z := x mod 18446744073709551616.

(** Memory holds one byte (a number in [0,256)) per address. *)
Definition mem : Type := Z -> Z.

Definition read8 (m : mem) (a : Z) : Z := m a.

Definition write8 (m : mem) (a v : Z) : mem :=
  fun x => if x =? a then v mod 256 else m x.

(** Little-endian 8-byte word at [a]. *)
Definition read64 (m : mem) (a : Z) : Z :=
  m a + 256 * (m (a + 1) + 256 * (m (a + 2) + 256 * (m (a + 3) + 256 *
  (m (a + 4) + 256 * (m (a + 5) + 256 * (m (a + 6) + 256 * m (a + 7))))))).

Definition write64 (m : mem) (a v : Z) : mem :=
  fun x =>
    if x =? a then v mod 256
    else if x =? a + 1 then (v / 256) mod 256
    else if x =? a + 2 then (v / 65536) mod 256
    else if x =? a + 3 then (v / 16777216) mod 256
    else if x =? a + 4 then (v / 4294967296) mod 256
    else if x =? a + 5 then (v / 1099511627776) mod 256
    else if x =? a + 6 then (v / 281474976710656) mod 256
    else if x =? a + 7 then (v / 72057594037927936) mod 256
    else m x.

(** ** The monad: memory state, faults and loop fuel *)

Inductive outcome (A : Type) : Type :=
| Ok (a : A) (m : mem)
| Fault
| Timeout.
Arguments Ok {A} a m.
Arguments Fault {A}.
Arguments Timeout {A}.

Definition M (A : Type) : Type := mem -> outcome A.

Definition ret {A} (a : A) : M A := fun m => Ok a m.

Definition bind {A B} (c : M A) (k : A -> M B) : M B :=
  fun m => match c m with
           | Ok a m' => k a m'
           | Fault => Fault
           | Timeout => Timeout
           end.

Notation "x <- c ;; k" := (bind c (fun x => k))
  (at level 61, c at next level, right associativity).
Notation "c ;;; k" := (bind c (fun _ => k))
  (at level 61, right associativity).

(** ** Layout of the records declared in [el_malloc.h] *)

(** Modelled from the spec: [el_malloc.h] (record declarations, the
    [EL_*] constants and the [PTR_PLUS_BYTES]/[PTR_MINUS_BYTES] helpers)
    is not among the sources.  The spec fixes a header
    [size, state, next, prev], a footer [size], and one constant
    overhead of header plus footer; the dump format documented in
    [el_malloc.c] shows an overhead of 40 bytes and a footer 32 + size
    bytes above its header, hence a 32-byte header and an 8-byte
    footer.  Fields are laid out in declaration order on an LP64
    machine. *)
Definition sizeof_blockhead : Z := 32.
Definition sizeof_blockfoot : Z := 8.
Definition EL_BLOCK_OVERHEAD : Z := sizeof_blockhead + sizeof_blockfoot.

Definition off_size : Z := 0.
Definition off_state : Z := 8.
Definition off_next : Z := 16.
Definition off_prev : Z := 24.

(** Block states are characters. *)
Definition EL_AVAILABLE : Z := 97.    (* 'a' *)
Definition EL_USED : Z := 117.        (* 'u' *)
Definition EL_BEGIN_BLOCK : Z := 66.  (* 'B' *)
Definition EL_END_BLOCK : Z := 69.    (* 'E' *)
Definition EL_UNINITIALIZED : Z := 12345.

Definition NULL : Z := 0.

(** [el_blocklist_t]: two sentinel headers, pointers to them, counters. *)
Definition off_beg_actual : Z := 0.
Definition off_end_actual : Z := 32.
Definition off_beg : Z := 64.
Definition off_end : Z := 72.
Definition off_length : Z := 80.
Definition off_bytes : Z := 88.
Definition sizeof_blocklist : Z := 96.

(** [el_ctl_t]: heap bounds, the two lists and pointers to them. *)
Definition off_heap_bytes : Z := 0.
Definition off_heap_start : Z := 8.
Definition off_heap_end : Z := 16.
Definition off_avail_actual : Z := 24.
Definition off_used_actual : Z := 120.
Definition off_avail : Z := 216.
Definition off_used : Z := 224.
Definition sizeof_ctl : Z := 232.

Definition PTR_PLUS_BYTES (ptr off : Z) : Z := wrap (ptr + off).
Definition PTR_MINUS_BYTES (ptr off : Z) : Z := wrap (ptr - off).

(** The abstract picture of a heap: its blocks in address order, each
    with header address, payload size and state. *)
Record block : Type := mkBlock { b_addr : Z; b_size : Z; b_state : Z }.

(** The address space the program runs in: where [mmap] places the heap
    ([EL_HEAP_START_ADDRESS], [EL_HEAP_INITIAL_SIZE] of the absent
    header) and where the linker places the global [el_ctl]. *)
Record env : Type := mkEnv {
  env_heap_base : Z;
  env_heap_size : Z;
  env_ctl : Z
}.

Section Allocator.

Variable e : env.
Local Abbreviation heap_base := (env_heap_base e).
Local Abbreviation heap_size := (env_heap_size e).
Local Abbreviation ctl := (env_ctl e).

(** ** Memory accesses *)

Definition in_heap (a n : Z) : bool :=
  (heap_base <=? a) && (a + n <=? heap_base + heap_size).

Definition in_ctl (a n : Z) : bool :=
  (ctl <=? a) && (a + n <=? ctl + sizeof_ctl).

Definition mapped (a n : Z) : bool := in_heap a n || in_ctl a n.

Definition load64 (a : Z) : M Z :=
  fun m => if mapped a 8 then Ok (read64 m a) m else Fault.

Definition store64 (a v : Z) : M unit :=
  fun m => if mapped a 8 then Ok tt (write64 m a v) else Fault.

Definition load8 (a : Z) : M Z :=
  fun m => if mapped a 1 then Ok (read8 m a) m else Fault.

Definition store8 (a v : Z) : M unit :=
  fun m => if mapped a 1 then Ok tt (write8 m a v) else Fault.

(** Field accessors, one per [p->field] of the source. *)
Definition get_size (p : Z) : M Z := load64 (p + off_size).
Definition set_size (p v : Z) : M unit := store64 (p + off_size) v.
Definition get_state (p : Z) : M Z := load8 (p + off_state).
Definition set_state (p v : Z) : M unit := store8 (p + off_state) v.
Definition get_next (p : Z) : M Z := load64 (p + off_next).
Definition set_next (p v : Z) : M unit := store64 (p + off_next) v.
Definition get_prev (p : Z) : M Z := load64 (p + off_prev).
Definition set_prev (p v : Z) : M unit := store64 (p + off_prev) v.

Definition get_beg (list : Z) : M Z := load64 (list + off_beg).
Definition get_end (list : Z) : M Z := load64 (list + off_end).
Definition get_length (list : Z) : M Z := load64 (list + off_length).
Definition get_bytes (list : Z) : M Z := load64 (list + off_bytes).

Definition ctl_avail : M Z := load64 (ctl + off_avail).
Definition ctl_used : M Z := load64 (ctl + off_used).
Definition ctl_heap_start : M Z := load64 (ctl + off_heap_start).
Definition ctl_heap_end : M Z := load64 (ctl + off_heap_end).

(** ** Pointer arithmetic between headers and footers *)

Definition el_get_footer (head : Z) : M Z :=
  size <- get_size head ;;
  ret (PTR_PLUS_BYTES head (wrap (sizeof_blockhead + size))).

Definition el_get_header (foot : Z) : M Z :=
  size <- load64 foot ;;
  ret (PTR_MINUS_BYTES foot (wrap (sizeof_blockhead + size))).

Definition el_block_above (blk : Z) : M Z :=
  size <- get_size blk ;;
  let higher := PTR_PLUS_BYTES blk (wrap (size + EL_BLOCK_OVERHEAD)) in
  heap_end <- ctl_heap_end ;;
  if higher >=? heap_end then ret NULL else ret higher.

Definition el_block_below (blk : Z) : M Z :=
  heap_start <- ctl_heap_start ;;
  if negb (blk =? heap_start) then
    let previous := PTR_MINUS_BYTES blk sizeof_blockfoot in
    el_get_header previous
  else ret NULL.

(** ** Block lists *)

Definition el_init_blocklist (list : Z) : M unit :=
  store64 (list + off_beg) (list + off_beg_actual) ;;;
  beg <- get_beg list ;; set_state beg EL_BEGIN_BLOCK ;;;
  beg <- get_beg list ;; set_size beg EL_UNINITIALIZED ;;;
  store64 (list + off_end) (list + off_end_actual) ;;;
  en <- get_end list ;; set_state en EL_END_BLOCK ;;;
  en <- get_end list ;; set_size en EL_UNINITIALIZED ;;;
  beg <- get_beg list ;; en <- get_end list ;; set_next beg en ;;;
  beg <- get_beg list ;; set_prev beg NULL ;;;
  en <- get_end list ;; set_next en NULL ;;;
  en <- get_end list ;; beg <- get_beg list ;; set_prev en beg ;;;
  store64 (list + off_length) 0 ;;;
  store64 (list + off_bytes) 0.

Definition el_add_block_front (list blk : Z) : M unit :=
  beg <- get_beg list ;; first <- get_next beg ;; set_next blk first ;;;
  beg <- get_beg list ;; set_prev blk beg ;;;
  nx <- get_next blk ;; set_prev nx blk ;;;
  pv <- get_prev blk ;; set_next pv blk ;;;
  len <- get_length list ;; store64 (list + off_length) (wrap (len + 1)) ;;;
  bytes <- get_bytes list ;; size <- get_size blk ;;
  store64 (list + off_bytes) (wrap (bytes + wrap (size + EL_BLOCK_OVERHEAD))).

Definition el_remove_block (list blk : Z) : M unit :=
  pv <- get_prev blk ;; nx <- get_next blk ;; set_next pv nx ;;;
  nx <- get_next blk ;; pv <- get_prev blk ;; set_prev nx pv ;;;
  len <- get_length list ;; store64 (list + off_length) (wrap (len - 1)) ;;;
  bytes <- get_bytes list ;; size <- get_size blk ;;
  store64 (list + off_bytes) (wrap (bytes - wrap (size + EL_BLOCK_OVERHEAD))).

(** ** Initialisation *)

(** The call of [mmap] as it goes when the kernel grants the address
    asked for: zero-filled pages at [EL_HEAP_START_ADDRESS].  It is the
    one answer with which [el_init] gets past its [assert]; the kernel's
    other answers are in [Process.mmap] below. *)
Definition mmap_anonymous : M Z :=
  fun m => Ok heap_base
             (fun x => if (heap_base <=? x) && (x <? heap_base + heap_size)
                       then 0 else m x).

(** What [el_init] does to the memory on such a call.  The whole call,
    with the [assert] and the message on [stderr], is [Process.el_init]. *)
Definition el_init : M Z :=
  heap <- mmap_anonymous ;;
  store64 (ctl + off_heap_bytes) heap_size ;;;
  store64 (ctl + off_heap_start) heap ;;;
  hb <- load64 (ctl + off_heap_bytes) ;;
  store64 (ctl + off_heap_end) (PTR_PLUS_BYTES heap hb) ;;;
  hb <- load64 (ctl + off_heap_bytes) ;;
  if hb <? EL_BLOCK_OVERHEAD then ret (-1)
  else
    el_init_blocklist (ctl + off_avail_actual) ;;;
    el_init_blocklist (ctl + off_used_actual) ;;;
    store64 (ctl + off_avail) (ctl + off_avail_actual) ;;;
    store64 (ctl + off_used) (ctl + off_used_actual) ;;;
    hb <- load64 (ctl + off_heap_bytes) ;;
    let size := wrap (hb - EL_BLOCK_OVERHEAD) in
    ablock <- ctl_heap_start ;;
    set_size ablock size ;;;
    set_state ablock EL_AVAILABLE ;;;
    afoot <- el_get_footer ablock ;;
    store64 afoot size ;;;
    avail <- ctl_avail ;;
    el_add_block_front avail ablock ;;;
    ret 0.

(** ** Allocation *)

(** The [while] loop of [el_find_first_avail], one iteration per unit
    of fuel. *)
Fixpoint find_loop (fuel : nat) (size current : Z) : M Z :=
  match fuel with
  | O => fun _ => Timeout
  | S fuel' =>
      avail <- ctl_avail ;;
      en <- get_end avail ;;
      if current =? en then ret NULL
      else
        csize <- get_size current ;;
        if csize >=? wrap (size + EL_BLOCK_OVERHEAD) then ret current
        else
          nx <- get_next current ;;
          find_loop fuel' size nx
  end.

Definition el_find_first_avail (fuel : nat) (size : Z) : M Z :=
  avail <- ctl_avail ;;
  beg <- get_beg avail ;;
  current <- get_next beg ;;
  find_loop fuel size current.

Definition el_split_block (blk new_size : Z) : M Z :=
  original <- get_size blk ;;
  bsize <- get_size blk ;;
  if bsize <? wrap (new_size + EL_BLOCK_OVERHEAD) then ret NULL
  else
    set_size blk new_size ;;;
    foot <- el_get_footer blk ;;
    store64 foot new_size ;;;
    new_block <- el_block_above blk ;;
    set_size new_block (wrap (wrap (original - new_size) - EL_BLOCK_OVERHEAD)) ;;;
    new_foot <- el_get_footer new_block ;;
    store64 new_foot (wrap (wrap (original - new_size) - EL_BLOCK_OVERHEAD)) ;;;
    ret new_block.

Definition el_malloc (fuel : nat) (nbytes : Z) : M Z :=
  blk <- el_find_first_avail fuel nbytes ;;
  if blk =? NULL then ret NULL
  else
    avail <- ctl_avail ;;
    el_remove_block avail blk ;;;
    allocated_block <- el_split_block blk nbytes ;;
    if negb (allocated_block =? NULL) then
      set_state blk EL_USED ;;;
      used <- ctl_used ;;
      el_add_block_front used blk ;;;
      set_state allocated_block EL_AVAILABLE ;;;
      avail <- ctl_avail ;;
      el_add_block_front avail allocated_block ;;;
      ret (PTR_PLUS_BYTES blk sizeof_blockhead)
    else
      avail <- ctl_avail ;;
      el_add_block_front avail blk ;;;
      ret NULL.

(** ** Release *)

Definition el_merge_block_with_above (lower : Z) : M unit :=
  if lower =? NULL then ret tt
  else
    lstate <- get_state lower ;;
    if negb (lstate =? EL_AVAILABLE) then ret tt
    else
      higher <- el_block_above lower ;;
      if higher =? NULL then ret tt
      else
        hstate <- get_state higher ;;
        if negb (hstate =? EL_AVAILABLE) then ret tt
        else
          avail <- ctl_avail ;;
          el_remove_block avail lower ;;;
          avail <- ctl_avail ;;
          el_remove_block avail higher ;;;
          lsize <- get_size lower ;;
          hsize <- get_size higher ;;
          let new_size := wrap (wrap (lsize + hsize) + EL_BLOCK_OVERHEAD) in
          set_size lower new_size ;;;
          foot <- el_get_footer higher ;;
          store64 foot new_size ;;;
          avail <- ctl_avail ;;
          el_add_block_front avail lower.

Definition el_free (ptr : Z) : M unit :=
  let blk := PTR_MINUS_BYTES ptr sizeof_blockhead in
  used <- ctl_used ;;
  el_remove_block used blk ;;;
  set_state blk EL_AVAILABLE ;;;
  avail <- ctl_avail ;;
  el_add_block_front avail blk ;;;
  el_merge_block_with_above blk ;;;
  below <- el_block_below blk ;;
  el_merge_block_with_above below.

(** ** Reading the heap: pure views used by the specifications *)

Definition size_at (m : mem) (p : Z) : Z := read64 m (p + off_size).
Definition state_at (m : mem) (p : Z) : Z := read8 m (p + off_state).
Definition next_at (m : mem) (p : Z) : Z := read64 m (p + off_next).
Definition prev_at (m : mem) (p : Z) : Z := read64 m (p + off_prev).
Definition foot_at (m : mem) (p size : Z) : Z :=
  read64 m (p + sizeof_blockhead + size).

Definition avail_list : Z := ctl + off_avail_actual.
Definition used_list : Z := ctl + off_used_actual.
Definition beg_of (list : Z) : Z := list + off_beg_actual.
Definition end_of (list : Z) : Z := list + off_end_actual.

(** Assumptions on the address space: the heap and [el_ctl] are
    disjoint, neither contains address 0 and both end below [2^64]. *)
Definition env_ok : Prop :=
  0 < heap_base /\ 0 <= heap_size /\
  heap_base + heap_size < 18446744073709551616 /\
  0 < ctl /\ ctl + sizeof_ctl < 18446744073709551616 /\
  (ctl + sizeof_ctl <= heap_base \/ heap_base + heap_size <= ctl).

(** The scalar fields of [el_ctl] as [el_init] leaves them. *)
Definition ctl_ok (m : mem) : Prop :=
  read64 m (ctl + off_heap_bytes) = heap_size /\
  read64 m (ctl + off_heap_start) = heap_base /\
  read64 m (ctl + off_heap_end) = heap_base + heap_size /\
  read64 m (ctl + off_avail) = avail_list /\
  read64 m (ctl + off_used) = used_list /\
  read64 m (avail_list + off_beg) = beg_of avail_list /\
  read64 m (avail_list + off_end) = end_of avail_list /\
  read64 m (used_list + off_beg) = beg_of used_list /\
  read64 m (used_list + off_end) = end_of used_list.

(** Blocks [bs] tile the byte range from [lo] to [hi] without gaps. *)
Fixpoint tiled (lo : Z) (bs : list block) (hi : Z) : Prop :=
  match bs with
  | [] => lo = hi
  | b :: r =>
      b_addr b = lo /\ 0 <= b_size b /\
      tiled (lo + b_size b + EL_BLOCK_OVERHEAD) r hi
  end.

(** The bytes of block [b] carry its size in header and footer and its
    state in the header. *)
Definition block_ok (m : mem) (b : block) : Prop :=
  size_at m (b_addr b) = b_size b /\
  state_at m (b_addr b) = b_state b /\
  foot_at m (b_addr b) (b_size b) = b_size b.

Definition phys (m : mem) (bs : list block) : Prop :=
  tiled heap_base bs (heap_base + heap_size) /\ Forall (block_ok m) bs.

Definition state_ok (b : block) : Prop :=
  b_state b = EL_AVAILABLE \/ b_state b = EL_USED.

(** Intrusive links: [x], then the nodes [l], then [en], each pointing
    to its successor through [next] and to its predecessor through
    [prev]. *)
Fixpoint linked (m : mem) (x : Z) (l : list Z) (en : Z) : Prop :=
  match l with
  | [] => next_at m x = en /\ prev_at m en = x
  | y :: r => next_at m x = y /\ prev_at m y = x /\ linked m y r en
  end.

Fixpoint sum_bytes (m : mem) (l : list Z) : Z :=
  match l with
  | [] => 0
  | a :: r => size_at m a + EL_BLOCK_OVERHEAD + sum_bytes m r
  end.

(** The list record at [list] holds exactly the nodes [l], front to
    back, with matching counters. *)
Definition list_ok (m : mem) (lst : Z) (l : list Z) : Prop :=
  linked m (beg_of lst) l (end_of lst) /\
  read64 m (lst + off_length) = Z.of_nat (length l) /\
  read64 m (lst + off_bytes) = sum_bytes m l.

Definition addrs (bs : list block) : list Z := map b_addr bs.

Definition members (st : Z) (bs : list block) : list Z :=
  addrs (filter (fun b => b_state b =? st) bs).

(** The heap representation: memory [m] holds the blocks [bs] in
    address order, the available list holds [la] and the used list
    [lu], front to back. *)
Definition heap_rep (m : mem) (bs : list block) (la lu : list Z) : Prop :=
  ctl_ok m /\ phys m bs /\ Forall state_ok bs /\
  list_ok m avail_list la /\ list_ok m used_list lu /\
  Permutation la (members EL_AVAILABLE bs) /\
  Permutation lu (members EL_USED bs).

(** No two physically adjacent blocks are both available. *)
Fixpoint no_adjacent_avail (bs : list block) : Prop :=
  match bs with
  | b :: ((c :: _) as r) =>
      ~ (b_state b = EL_AVAILABLE /\ b_state c = EL_AVAILABLE) /\
      no_adjacent_avail r
  | _ => True
  end.

(** First-fit over the abstract list order: the first address of [l]
    whose recorded size reaches [bound]. *)
Fixpoint first_fit (m : mem) (bound : Z) (l : list Z) : Z :=
  match l with
  | [] => NULL
  | a :: r => if size_at m a >=? bound then a else first_fit m bound r
  end.

End Allocator.

(** ** Calls into the C library

    [printf], [fprintf], [mmap] and [munmap] act outside the byte
    memory.  A call is recorded, in order: a print with the format
    string as the source writes it and the values of the arguments the
    source passes, [mmap] with the address and length asked for and the
    address the kernel returned, [munmap] with its address and
    length. *)
Inductive arg : Type :=
| AInt (z : Z)
| AStr (s : string).

Inductive stream : Type :=
| stderr.

Inductive event : Type :=
| EvPrintf (fmt : string) (args : list arg)
| EvFprintf (to : stream) (fmt : string) (args : list arg)
| EvMmap (addr len got : Z)
| EvMunmap (addr len : Z).

(** Computations that also extend the record of library calls. *)
Definition IO (A : Type) : Type := list event -> M (A * list event).

Definition io_ret {A} (a : A) : IO A := fun o => ret (a, o).

Definition io_bind {A B} (c : IO A) (k : A -> IO B) : IO B :=
  fun o => bind (c o) (fun r => k (fst r) (snd r)).

Definition lift {A} (c : M A) : IO A :=
  fun o => bind c (fun a => ret (a, o)).

Definition emit (ev : event) : IO unit := fun o => ret (tt, o ++ [ev]).

Definition printf (fmt : string) (args : list arg) : IO unit :=
  emit (EvPrintf fmt args).

Notation "x <~ c ;; k" := (io_bind c (fun x => k))
  (at level 61, c at next level, right associativity).
Notation "c ;;~ k" := (io_bind c (fun _ => k))
  (at level 61, right associativity).

Definition INT_MAX : Z := 2147483647.

(** [i++] on an [int]: signed overflow is undefined. *)
Definition int_succ (i : Z) : M Z :=
  fun m => if i + 1 <=? INT_MAX then Ok (i + 1) m else Fault.

Section Reports.

Variable e : env.

(** The [for] loop of [el_print_blocklist], one iteration per unit of
    fuel; [i] is never negative, so its conversion to [size_t] for the
    comparison with [list->length] is [i] itself. *)
Fixpoint print_loop (fuel : nat) (list i blk : Z) : IO unit :=
  match fuel with
  | O => fun _ _ => Timeout
  | S fuel' =>
      len <~ lift (get_length e list) ;;
      if i <? len then
        printf "  " [] ;;~
        blk' <~ lift (get_next e blk) ;;
        printf "[%3d] head @ %p " [AInt i; AInt blk'] ;;~
        st <~ lift (get_state e blk') ;;
        sz <~ lift (get_size e blk') ;;
        printf "{state: %c  size: %5lu}\n" [AInt st; AInt sz] ;;~
        foot <~ lift (el_get_footer e blk') ;;
        printf "%6s" [AStr EmptyString] ;;~
        printf "  foot @ %p " [AInt foot] ;;~
        fsz <~ lift (load64 e foot) ;;
        printf "{size: %5lu}" [AInt fsz] ;;~
        printf "\n" [] ;;~
        i' <~ lift (int_succ i) ;;
        print_loop fuel' list i' blk'
      else io_ret tt
  end.

Definition el_print_blocklist (fuel : nat) (list : Z) : IO unit :=
  len <~ lift (get_length e list) ;;
  bytes <~ lift (get_bytes e list) ;;
  printf "{length: %3lu  bytes: %5lu}\n" [AInt len; AInt bytes] ;;~
  blk <~ lift (get_beg e list) ;;
  print_loop fuel list 0 blk.

Definition el_print_stats (fuel : nat) : IO unit :=
  printf "HEAP STATS (overhead per node: %lu)\n" [AInt EL_BLOCK_OVERHEAD] ;;~
  hs <~ lift (ctl_heap_start e) ;;
  printf "heap_start:  %p\n" [AInt hs] ;;~
  he <~ lift (ctl_heap_end e) ;;
  printf "heap_end:    %p\n" [AInt he] ;;~
  hb <~ lift (load64 e (env_ctl e + off_heap_bytes)) ;;
  printf "total_bytes: %lu\n" [AInt hb] ;;~
  printf "AVAILABLE LIST: " [] ;;~
  avail <~ lift (ctl_avail e) ;;
  el_print_blocklist fuel avail ;;~
  printf "USED LIST: " [] ;;~
  used <~ lift (ctl_used e) ;;
  el_print_blocklist fuel used.

End Reports.

(** ** The process around the allocator

    [el_init] asks the kernel for the heap and [el_cleanup] gives it
    back, so whether the heap region can be addressed changes over a
    run.  A process is its byte memory, whether the region at
    [EL_HEAP_START_ADDRESS] is mapped, and the record of its library
    calls. *)
Record process : Type := mkProcess {
  p_mem : mem;
  p_heap : bool;
  p_out : list event
}.

Inductive signal : Type :=
| SIGSEGV
| SIGABRT.

Inductive result (A : Type) : Type :=
| Returned (a : A) (p : process)
| Killed (s : signal)
| OutOfFuel.
Arguments Returned {A} a p.
Arguments Killed {A} s.
Arguments OutOfFuel {A}.

Definition Sys (A : Type) : Type := process -> result A.

(** [(void * ) -1]. *)
Definition MAP_FAILED : Z := 18446744073709551615.

(** The ranges the process can address: [el_ctl] is a global and always
    there, the heap only while it is mapped. *)
Definition space (e : env) (heap_mapped : bool) : env :=
  if heap_mapped then e else mkEnv (env_heap_base e) 0 (env_ctl e).

Module Process.

Definition ret {A} (a : A) : Sys A := fun p => Returned a p.

Definition bind {A B} (c : Sys A) (k : A -> Sys B) : Sys B :=
  fun p => match c p with
           | Returned a p' => k a p'
           | Killed s => Killed s
           | OutOfFuel => OutOfFuel
           end.

Notation "x <-- c ;; k" := (bind c (fun x => k))
  (at level 61, c at next level, right associativity).
Notation "c ;;- k" := (bind c (fun _ => k))
  (at level 61, right associativity).

Section Calls.

Variable e : env.
Local Abbreviation heap_base := (env_heap_base e).
Local Abbreviation heap_size := (env_heap_size e).
Local Abbreviation ctl := (env_ctl e).

(** A statement or a call of the allocator, run by the process: its
    loads and stores go to the ranges mapped at that moment, and one
    outside them kills the process. *)
Definition call {A} (c : env -> M A) : Sys A :=
  fun p => match c (space e (p_heap p)) (p_mem p) with
           | Ok a m => Returned a (mkProcess m (p_heap p) (p_out p))
           | Fault => Killed SIGSEGV
           | Timeout => OutOfFuel
           end.

(** [mmap(EL_HEAP_START_ADDRESS, EL_HEAP_INITIAL_SIZE,
    PROT_READ | PROT_WRITE, MAP_PRIVATE | MAP_ANONYMOUS, -1, 0)].
    Without [MAP_FIXED] the address is a hint and the kernel decides
    where the mapping goes: [answer] is the address it returns,
    [MAP_FAILED] if it refuses.  It cannot return the hint for a length
    of 0, which it refuses, nor while the region is still mapped, since
    it never places a mapping over another one; such an answer is read
    as a refusal.  A mapping at the hint is the heap, zero-filled; a
    mapping placed elsewhere is not among the ranges the allocator
    addresses. *)
Definition mmap (answer : Z) : Sys Z :=
  fun p =>
    let got := if (heap_size <=? 0) || (p_heap p && (answer =? heap_base))
               then MAP_FAILED else answer in
    Returned got
      (mkProcess
         (if got =? heap_base
          then fun x => if (heap_base <=? x) && (x <? heap_base + heap_size)
                        then 0 else p_mem p x
          else p_mem p)
         (p_heap p || (got =? heap_base))
         (p_out p ++ [EvMmap heap_base heap_size got])).

(** [munmap(addr, len)].  The process tracks one region, the heap: the
    call unmaps it when it starts at the heap's address and spans the
    heap's length.  [el_cleanup] passes the start and size [el_ctl]
    records, which are the heap's after [el_init], and NULL with the
    heap's size after [el_cleanup], a range where nothing is mapped; a
    range that cuts into the heap from elsewhere or into [el_ctl] is
    beyond this model. *)
Definition munmap (addr len : Z) : Sys unit :=
  fun p =>
    Returned tt
      (mkProcess (p_mem p)
         (p_heap p &&
          negb ((0 <? len) && (addr =? heap_base) && (heap_size <=? len)))
         (p_out p ++ [EvMunmap addr len])).

(** [assert]: the process aborts when the condition does not hold (the
    source includes [assert.h] and does not define [NDEBUG]). *)
Definition assert (cond : bool) : Sys unit :=
  fun p => if cond then Returned tt p else Killed SIGABRT.

Definition fprintf (to : stream) (fmt : string) (args : list arg) : Sys unit :=
  fun p =>
    Returned tt
      (mkProcess (p_mem p) (p_heap p) (p_out p ++ [EvFprintf to fmt args])).

Definition el_init (answer : Z) : Sys Z :=
  heap <-- mmap answer ;;
  assert (heap =? heap_base) ;;-
  call (fun s => store64 s (ctl + off_heap_bytes) heap_size) ;;-
  call (fun s => store64 s (ctl + off_heap_start) heap) ;;-
  hb <-- call (fun s => load64 s (ctl + off_heap_bytes)) ;;
  call (fun s => store64 s (ctl + off_heap_end) (PTR_PLUS_BYTES heap hb)) ;;-
  hb <-- call (fun s => load64 s (ctl + off_heap_bytes)) ;;
  if hb <? EL_BLOCK_OVERHEAD then
    hb <-- call (fun s => load64 s (ctl + off_heap_bytes)) ;;
    fprintf stderr "el_init: heap size %ld to small for a block overhead %ld\n"
      [AInt hb; AInt EL_BLOCK_OVERHEAD] ;;-
    ret (-1)
  else
    call (fun s => el_init_blocklist s (ctl + off_avail_actual)) ;;-
    call (fun s => el_init_blocklist s (ctl + off_used_actual)) ;;-
    call (fun s => store64 s (ctl + off_avail) (ctl + off_avail_actual)) ;;-
    call (fun s => store64 s (ctl + off_used) (ctl + off_used_actual)) ;;-
    hb <-- call (fun s => load64 s (ctl + off_heap_bytes)) ;;
    let size := wrap (hb - EL_BLOCK_OVERHEAD) in
    ablock <-- call (fun s => ctl_heap_start s) ;;
    call (fun s => set_size s ablock size) ;;-
    call (fun s => set_state s ablock EL_AVAILABLE) ;;-
    afoot <-- call (fun s => el_get_footer s ablock) ;;
    call (fun s => store64 s afoot size) ;;-
    avail <-- call (fun s => ctl_avail s) ;;
    call (fun s => el_add_block_front s avail ablock) ;;-
    ret 0.

Definition el_cleanup : Sys unit :=
  hs <-- call (fun s => ctl_heap_start s) ;;
  hb <-- call (fun s => load64 s (ctl + off_heap_bytes)) ;;
  munmap hs hb ;;-
  call (fun s => store64 s (ctl + off_heap_start) NULL) ;;-
  call (fun s => store64 s (ctl + off_heap_end) NULL).

End Calls.

End Process.

(** What the dump of one list entry consists of: index, header
    address, state and size, then footer address and footer size. *)
Definition entry_events (i a st sz : Z) : list event :=
  [EvPrintf "  " [];
   EvPrintf "[%3d] head @ %p " [AInt i; AInt a];
   EvPrintf "{state: %c  size: %5lu}\n" [AInt st; AInt sz];
   EvPrintf "%6s" [AStr EmptyString];
   EvPrintf "  foot @ %p " [AInt (a + sizeof_blockhead + sz)];
   EvPrintf "{size: %5lu}" [AInt sz];
   EvPrintf "\n" []].

Fixpoint list_events (m : mem) (st i : Z) (l : list Z) : list event :=
  match l with
  | [] => []
  | a :: r => entry_events i a st (size_at m a) ++ list_events m st (i + 1) r
  end.

Definition blocklist_events (m : mem) (st : Z) (l : list Z) : list event :=
  EvPrintf "{length: %3lu  bytes: %5lu}\n"
    [AInt (Z.of_nat (List.length l)); AInt (sum_bytes m l)]
  :: list_events m st 0 l.

(** Two 32-byte headers that do not overlap. *)
Definition sep32 (a b : Z) : Prop := a + 32 <= b \/ b + 32 <= a.

(** [m'] differs from [m] at most on the addresses in [W]. *)
Definition differ_only (m m' : mem) (W : Z -> Prop) : Prop :=
  forall x, ~ W x -> m' x = m x.

(** Bytes of the link fields ([next], [prev]) of the headers [ns]. *)
Definition link_bytes (ns : list Z) (x : Z) : Prop :=
  exists p, In p ns /\ p + off_next <= x < p + sizeof_blockhead.

(** Bytes of the counters ([length], [bytes]) of a list record. *)
Definition counter_bytes (lst : Z) (x : Z) : Prop :=
  lst + off_length <= x < lst + sizeof_blocklist.

(** Bytes of the fields a block is described by: header size and
    state, and footer. *)
Definition meta_bytes (b : block) (x : Z) : Prop :=
  b_addr b + off_size <= x <= b_addr b + off_state \/
  b_addr b + sizeof_blockhead + b_size b <= x
    < b_addr b + b_size b + EL_BLOCK_OVERHEAD.

(** Bytes a list record with nodes [l] is read through: the links of
    its sentinels, its counters, and size and links of its nodes. *)
Definition list_bytes (lst : Z) (l : list Z) (x : Z) : Prop :=
  beg_of lst + off_next <= x < beg_of lst + off_prev \/
  end_of lst + off_prev <= x < end_of lst + sizeof_blockhead \/
  counter_bytes lst x \/
  exists p, In p l /\
    (p + off_size <= x < p + off_state \/
     p + off_next <= x < p + sizeof_blockhead).

(** Bytes of the pointer and bound fields of [el_ctl]. *)
Definition ctl_ptr_bytes (e : env) (x : Z) : Prop :=
  env_ctl e <= x < env_ctl e + off_avail_actual \/
  env_ctl e + off_avail <= x < env_ctl e + sizeof_ctl \/
  avail_list e + off_beg <= x < avail_list e + off_length \/
  used_list e + off_beg <= x < used_list e + off_length.

Definition is_list (e : env) (lst : Z) : Prop :=
  lst = avail_list e \/ lst = used_list e.

(** Header addresses that fit the address space and pairwise do not
    overlap. *)
Definition nodes_sep (ns : list Z) : Prop :=
  (forall p, In p ns -> 0 <= p /\ p + 32 <= 18446744073709551616) /\
  (forall p q, In p ns -> In q ns -> p = q \/ sep32 p q).

(** Bytes occupied by the blocks [bs], overhead included. *)
Fixpoint total (bs : list block) : Z :=
  match bs with
  | [] => 0
  | b :: r => b_size b + EL_BLOCK_OVERHEAD + total r
  end.

(** A list node: a block header of [bs] or a sentinel of a list. *)
Definition node_of (e : env) (bs : list block) (p : Z) : Prop :=
  In p (addrs bs) \/
  exists lst, is_list e lst /\ (p = beg_of lst \/ p = end_of lst).

(** The structural part of the heap representation, which also holds
    between the steps of an operation: blocks tile the heap, both lists
    are well linked over distinct block headers. *)
Definition heap_pre (e : env) (m : mem) (bs : list block)
    (la lu : list Z) : Prop :=
  ctl_ok e m /\ phys e m bs /\
  list_ok m (avail_list e) la /\ list_ok m (used_list e) lu /\
  NoDup (la ++ lu) /\ incl (la ++ lu) (addrs bs).

(** Bytes from a block's header to its footer. *)
Definition extent_bytes (a size : Z) (x : Z) : Prop :=
  a <= x < a + size + EL_BLOCK_OVERHEAD.

(** Bytes of a block's payload, between its header and its footer. *)
Definition payload_bytes (b : block) (x : Z) : Prop :=
  b_addr b + sizeof_blockhead <= x < b_addr b + sizeof_blockhead + b_size b.

Definition payload_of (bs : list block) (x : Z) : Prop :=
  exists b, In b bs /\ payload_bytes b x.

(** [m'] holds what [m] holds in every payload byte of the blocks [bs]. *)
Definition keeps_payloads (bs : list block) (m m' : mem) : Prop :=
  forall x, payload_of bs x -> m' x = m x.

(** The heap states an application reaches, with the payload addresses
    it holds ([live]): a successful [el_init], then calls of [el_malloc]
    whose bound [nbytes + overhead] stays within [size_t], and calls of
    [el_free] on addresses handed out and not released since. *)
Inductive reaches (e : env) : mem -> list Z -> Prop :=
| reaches_init m0 m :
    el_init e m0 = Ok 0 m -> reaches e m []
| reaches_malloc m live fuel n p m' :
    reaches e m live ->
    0 <= n -> n + EL_BLOCK_OVERHEAD < 18446744073709551616 ->
    el_malloc e fuel n m = Ok p m' ->
    reaches e m' (if p =? NULL then live else p :: live)
| reaches_free m live p m' :
    reaches e m live -> In p live ->
    el_free e p m = Ok tt m' ->
    reaches e m' (remove Z.eq_dec p live).

(** ** A concrete address space and some runs on it *)

(** The heap of the dump in [el_malloc.c]: 4096 bytes mapped at
    [0x600000000000]; [el_ctl] sits in the data segment. *)
Definition demo : env := mkEnv 105553116266496 4096 4210752.

(** All memory is zero before [el_init] ([el_ctl] is initialised to
    [{}] and [mmap] hands out zero pages). *)
Definition boot : mem := fun _ => 0.

Definition value_of {A} (o : outcome A) : option A :=
  match o with Ok a _ => Some a | _ => None end.

Definition memory_of {A} (o : outcome A) : mem :=
  match o with Ok _ m => m | _ => boot end.

Definition base : Z := env_heap_base demo.

Definition fresh_heap : mem := memory_of (el_init demo boot).

(** The smallest request whose bound [nbytes + overhead] wraps to 0. *)
Definition wrapping_request : Z := 18446744073709551616 - EL_BLOCK_OVERHEAD.

(** Two allocations, the second with a wrapping size. *)
Definition wrapped_run : outcome (Z * Z) :=
  (p1 <- el_malloc demo 4 16 ;;
   p2 <- el_malloc demo 4 wrapping_request ;;
   ret (p1, p2)) fresh_heap.

(** The same, followed by a third allocation and the release of the
    first and the third. *)
Definition adjacent_run : outcome (Z * Z * Z) :=
  (p1 <- el_malloc demo 4 16 ;;
   p2 <- el_malloc demo 4 wrapping_request ;;
   p3 <- el_malloc demo 4 100 ;;
   el_free demo p1 ;;;
   el_free demo p3 ;;;
   ret (p1, p2, p3)) fresh_heap.

Definition after_first_alloc : mem := memory_of (el_malloc demo 4 16 fresh_heap).

(** Available blocks of payload sizes 128, 64, 256 in list order. *)
Definition three_sizes_heap : mem :=
  memory_of
    ((p64 <- el_malloc demo 4 64 ;;
      _ <- el_malloc demo 4 8 ;;
      p128 <- el_malloc demo 4 128 ;;
      _ <- el_malloc demo 4 3440 ;;
      el_free demo p64 ;;;
      el_free demo p128) fresh_heap).

(** The same blocks with the 64-byte block at the front of the list. *)
Definition small_first_heap : mem :=
  memory_of
    ((p64 <- el_malloc demo 4 64 ;;
      _ <- el_malloc demo 4 8 ;;
      p128 <- el_malloc demo 4 128 ;;
      _ <- el_malloc demo 4 3440 ;;
      el_free demo p128 ;;;
      el_free demo p64) fresh_heap).

(** A used block between two available ones. *)
Definition sandwich_heap : mem :=
  memory_of
    ((pa <- el_malloc demo 4 16 ;;
      _ <- el_malloc demo 4 16 ;;
      pc <- el_malloc demo 4 16 ;;
      el_free demo pa ;;;
      el_free demo pc) fresh_heap).

(** Three blocks in use below the available rest. *)
Definition three_used_heap : mem :=
  memory_of
    ((_ <- el_malloc demo 4 16 ;;
      _ <- el_malloc demo 4 16 ;;
      el_malloc demo 4 16) fresh_heap).

(** The same after the release of the lowest block. *)
Definition lower_free_heap : mem :=
  memory_of
    ((p1 <- el_malloc demo 4 16 ;;
      _ <- el_malloc demo 4 16 ;;
      _ <- el_malloc demo 4 16 ;;
      el_free demo p1) fresh_heap).

(** The first half of a release: the block at [base] has moved to the
    available list and is not merged yet. *)
Definition half_released_heap : mem :=
  memory_of
    ((used <- ctl_used demo ;;
      el_remove_block demo used base ;;;
      set_state demo base EL_AVAILABLE ;;;
      avail <- ctl_avail demo ;;
      el_add_block_front demo avail base) after_first_alloc).

(** The fresh heap with its block taken off the available list. *)
Definition detached_heap : mem :=
  memory_of (el_remove_block demo (avail_list demo) base fresh_heap).


(** ** Basic facts about the byte memory *)

Ltac unf :=
  unfold avail_list, used_list, beg_of, end_of, sep32 in *;
  unfold EL_BLOCK_OVERHEAD in *;
  unfold sizeof_blockhead, sizeof_blockfoot,
    off_size, off_state, off_next, off_prev,
    off_beg_actual, off_end_actual, off_beg, off_end, off_length, off_bytes,
    sizeof_blocklist, off_heap_bytes, off_heap_start, off_heap_end,
    off_avail_actual, off_used_actual, off_avail, off_used, sizeof_ctl,
    NULL in *.

Ltac addr := unf; lia.

Ltac eqb_false :=
  repeat match goal with
  | |- context [?x =? ?y] =>
      replace (x =? y) with false by (symmetry; apply Z.eqb_neq; lia)
  end.

Lemma wrap_small x : 0 <= x < 18446744073709551616 -> wrap x = x.
Proof. intros H. unfold wrap. apply Z.mod_small. exact H. Qed.

Lemma geb_false x y : x < y -> (x >=? y) = false.
Proof. intros H. rewrite Z.geb_leb. apply Z.leb_gt. exact H. Qed.

Lemma geb_true x y : y <= x -> (x >=? y) = true.
Proof. intros H. rewrite Z.geb_leb. apply Z.leb_le. exact H. Qed.

Lemma wrap_range x : 0 <= wrap x < 18446744073709551616.
Proof. unfold wrap. apply Z.mod_pos_bound. lia. Qed.

Lemma bytes_join v :
  v mod 256 + 256 * ((v / 256) mod 256 + 256 * ((v / 65536) mod 256 + 256 *
   ((v / 16777216) mod 256 + 256 * ((v / 4294967296) mod 256 + 256 *
   ((v / 1099511627776) mod 256 + 256 * ((v / 281474976710656) mod 256 + 256 *
   ((v / 72057594037927936) mod 256))))))) = wrap v.
Proof.
  unfold wrap.
  rewrite (Z.rem_mul_r v 72057594037927936 256 ltac:(lia) ltac:(lia)
           : v mod 18446744073709551616 = _).
  rewrite (Z.rem_mul_r v 281474976710656 256 ltac:(lia) ltac:(lia)
           : v mod 72057594037927936 = _).
  rewrite (Z.rem_mul_r v 1099511627776 256 ltac:(lia) ltac:(lia)
           : v mod 281474976710656 = _).
  rewrite (Z.rem_mul_r v 4294967296 256 ltac:(lia) ltac:(lia)
           : v mod 1099511627776 = _).
  rewrite (Z.rem_mul_r v 16777216 256 ltac:(lia) ltac:(lia)
           : v mod 4294967296 = _).
  rewrite (Z.rem_mul_r v 65536 256 ltac:(lia) ltac:(lia)
           : v mod 16777216 = _).
  rewrite (Z.rem_mul_r v 256 256 ltac:(lia) ltac:(lia) : v mod 65536 = _).
  ring.
Qed.

Lemma write64_outside m a v x :
  x < a \/ a + 8 <= x -> write64 m a v x = m x.
Proof. intros H. unfold write64. eqb_false. reflexivity. Qed.

Lemma write8_outside m a v x : x <> a -> write8 m a v x = m x.
Proof. intros H. unfold write8. eqb_false. reflexivity. Qed.

Lemma read64_ext m m' a :
  (forall x, a <= x < a + 8 -> m' x = m x) -> read64 m' a = read64 m a.
Proof.
  intros H. unfold read64.
  rewrite (H a), (H (a + 1)), (H (a + 2)), (H (a + 3)), (H (a + 4)),
    (H (a + 5)), (H (a + 6)), (H (a + 7)) by lia.
  reflexivity.
Qed.

Lemma read64_write64_same m a v : read64 (write64 m a v) a = wrap v.
Proof.
  unfold read64, write64. rewrite Z.eqb_refl.
  repeat match goal with
  | |- context [?x =? ?y] =>
      first [ replace (x =? y) with true by (symmetry; apply Z.eqb_eq; lia)
            | replace (x =? y) with false by (symmetry; apply Z.eqb_neq; lia) ]
  end.
  apply bytes_join.
Qed.

Lemma read64_write64_eq m a b v :
  b = a -> 0 <= v < 18446744073709551616 -> read64 (write64 m a v) b = v.
Proof. intros -> Hv. rewrite read64_write64_same. apply wrap_small, Hv. Qed.

Lemma read64_write64_other m a v b :
  b + 8 <= a \/ a + 8 <= b -> read64 (write64 m a v) b = read64 m b.
Proof. intros H. apply read64_ext. intros x Hx. apply write64_outside. lia. Qed.

Lemma read64_write8_other m a v b :
  a < b \/ b + 8 <= a -> read64 (write8 m a v) b = read64 m b.
Proof. intros H. apply read64_ext. intros x Hx. apply write8_outside. lia. Qed.

Lemma read8_write64_other m a v b :
  b < a \/ a + 8 <= b -> read8 (write64 m a v) b = read8 m b.
Proof. intros H. unfold read8. apply write64_outside. exact H. Qed.

Lemma read8_write8_same m a v : read8 (write8 m a v) a = v mod 256.
Proof. unfold read8, write8. rewrite Z.eqb_refl. reflexivity. Qed.

Lemma read8_write8_other m a v b :
  b <> a -> read8 (write8 m a v) b = read8 m b.
Proof. intros H. unfold read8. apply write8_outside. exact H. Qed.

(** Frames: what a write leaves alone. *)

Lemma read64_write64_at m a v b :
  b = a -> read64 (write64 m a v) b = wrap v.
Proof. intros ->. apply read64_write64_same. Qed.

Lemma read8_write8_at m a v b :
  b = a -> read8 (write8 m a v) b = v mod 256.
Proof. intros ->. apply read8_write8_same. Qed.

(** Push reads through the writes that precede them. *)
Ltac rw :=
  repeat first
    [ rewrite read64_write64_at by addr
    | rewrite read64_write64_other by addr
    | rewrite read8_write64_other by addr
    | rewrite read64_write8_other by addr
    | rewrite read8_write8_at by addr
    | rewrite read8_write8_other by addr ].

Ltac unwrap :=
  repeat match goal with
  | |- context [wrap ?x] => rewrite (wrap_small x) by (unf; lia)
  end.

Ltac views := unfold size_at, state_at, next_at, prev_at, foot_at in *.

Lemma differ_only_refl m W : differ_only m m W.
Proof. intros x _. reflexivity. Qed.

Lemma differ_only_trans m1 m2 m3 (W : Z -> Prop) :
  differ_only m1 m2 W -> differ_only m2 m3 W -> differ_only m1 m3 W.
Proof. intros H12 H23 x Hx. rewrite (H23 x Hx). apply H12, Hx. Qed.

Lemma differ_only_weaken m m' (W W' : Z -> Prop) :
  differ_only m m' W -> (forall x, W x -> W' x) -> differ_only m m' W'.
Proof. intros H HW x Hx. apply H. intros Hw. apply Hx, HW, Hw. Qed.

Lemma differ_only_write64 m a v (W : Z -> Prop) :
  (forall x, a <= x < a + 8 -> W x) -> differ_only m (write64 m a v) W.
Proof.
  intros HW x Hx. apply write64_outside.
  destruct (Z_lt_le_dec x a) as [Hlt | Hge]; [left; exact Hlt |].
  destruct (Z_lt_le_dec x (a + 8)) as [Hlt | Hge']; [| right; exact Hge'].
  exfalso. apply Hx, HW. lia.
Qed.

Lemma differ_only_write8 m a v (W : Z -> Prop) :
  W a -> differ_only m (write8 m a v) W.
Proof.
  intros HW x Hx. apply write8_outside. intros ->. apply Hx, HW.
Qed.

Lemma differ_read64 m m' (W : Z -> Prop) a :
  differ_only m m' W -> (forall x, a <= x < a + 8 -> ~ W x) ->
  read64 m' a = read64 m a.
Proof. intros H HW. apply read64_ext. intros x Hx. apply H, HW, Hx. Qed.

Lemma differ_read8 m m' (W : Z -> Prop) a :
  differ_only m m' W -> ~ W a -> read8 m' a = read8 m a.
Proof. intros H HW. unfold read8. apply H, HW. Qed.

(** ** Running the monad *)

Lemma bind_ok {A B} (c : M A) (k : A -> M B) m a m1 :
  c m = Ok a m1 -> bind c k m = k a m1.
Proof. intros H. unfold bind. rewrite H. reflexivity. Qed.

Lemma bind_ret {A B} (a : A) (k : A -> M B) m : bind (ret a) k m = k a m.
Proof. reflexivity. Qed.

Lemma bind_inv {A B} (c : M A) (k : A -> M B) m r m' :
  bind c k m = Ok r m' -> exists a m1, c m = Ok a m1 /\ k a m1 = Ok r m'.
Proof.
  unfold bind. destruct (c m) as [a m1 | |]; intros H; try discriminate.
  exists a, m1. auto.
Qed.

Lemma ret_inv {A} (a r : A) m m' : ret a m = Ok r m' -> r = a /\ m' = m.
Proof. unfold ret. intros H. inversion H. auto. Qed.

Section Proofs.

Variable e : env.
Hypothesis He : env_ok e.
Local Abbreviation heap_base := (env_heap_base e).
Local Abbreviation heap_size := (env_heap_size e).
Local Abbreviation ctl := (env_ctl e).

Lemma mapped_heap a n :
  heap_base <= a -> a + n <= heap_base + heap_size -> mapped e a n = true.
Proof.
  intros H1 H2. unfold mapped, in_heap.
  apply orb_true_iff. left. apply andb_true_iff. split; apply Z.leb_le; lia.
Qed.

Lemma mapped_ctl a n :
  ctl <= a -> a + n <= ctl + sizeof_ctl -> mapped e a n = true.
Proof.
  intros H1 H2. unfold mapped, in_ctl.
  apply orb_true_iff. right. apply andb_true_iff. split; apply Z.leb_le; lia.
Qed.

Lemma mapped_any a n :
  (heap_base <= a /\ a + n <= heap_base + heap_size) \/
  (ctl <= a /\ a + n <= ctl + sizeof_ctl) -> mapped e a n = true.
Proof.
  intros [(H1 & H2) | (H1 & H2)]; [apply mapped_heap | apply mapped_ctl];
    assumption.
Qed.

Lemma mapped_inv a n :
  mapped e a n = true ->
  (heap_base <= a /\ a + n <= heap_base + heap_size) \/
  (ctl <= a /\ a + n <= ctl + sizeof_ctl).
Proof.
  unfold mapped, in_heap, in_ctl. intros H.
  apply orb_true_iff in H. destruct H as [H | H];
    apply andb_true_iff in H; destruct H as [H1 H2];
    apply Z.leb_le in H1; apply Z.leb_le in H2; [left | right]; lia.
Qed.

Lemma bind_load64 {B} a (k : Z -> M B) m :
  mapped e a 8 = true -> bind (load64 e a) k m = k (read64 m a) m.
Proof. intros H. unfold bind, load64. rewrite H. reflexivity. Qed.

Lemma bind_store64 {B} a v (k : unit -> M B) m :
  mapped e a 8 = true -> bind (store64 e a v) k m = k tt (write64 m a v).
Proof. intros H. unfold bind, store64. rewrite H. reflexivity. Qed.

Lemma store64_ok a v m :
  mapped e a 8 = true -> store64 e a v m = Ok tt (write64 m a v).
Proof. intros H. unfold store64. rewrite H. reflexivity. Qed.

Lemma load64_ok a m :
  mapped e a 8 = true -> load64 e a m = Ok (read64 m a) m.
Proof. intros H. unfold load64. rewrite H. reflexivity. Qed.

Lemma load8_ok a m :
  mapped e a 1 = true -> load8 e a m = Ok (read8 m a) m.
Proof. intros H. unfold load8. rewrite H. reflexivity. Qed.

Lemma store64_inv a v m r m' :
  store64 e a v m = Ok r m' -> mapped e a 8 = true /\ m' = write64 m a v.
Proof.
  unfold store64. destruct (mapped e a 8); intros H; inversion H. auto.
Qed.

Lemma store8_inv a v m r m' :
  store8 e a v m = Ok r m' -> mapped e a 1 = true /\ m' = write8 m a v.
Proof.
  unfold store8. destruct (mapped e a 1); intros H; inversion H. auto.
Qed.

Lemma load64_inv a m r m' :
  load64 e a m = Ok r m' -> mapped e a 8 = true /\ m' = m /\ r = read64 m a.
Proof.
  unfold load64. destruct (mapped e a 8); intros H; inversion H. auto.
Qed.

Lemma bind_load8 {B} a (k : Z -> M B) m :
  mapped e a 1 = true -> bind (load8 e a) k m = k (read8 m a) m.
Proof. intros H. unfold bind, load8. rewrite H. reflexivity. Qed.

Lemma bind_store8 {B} a v (k : unit -> M B) m :
  mapped e a 1 = true -> bind (store8 e a v) k m = k tt (write8 m a v).
Proof. intros H. unfold bind, store8. rewrite H. reflexivity. Qed.

(** ** Geometry of a tiling *)

Lemma tiled_le lo bs hi : tiled lo bs hi -> lo <= hi.
Proof.
  revert lo. induction bs as [| b r IH]; intros lo H; simpl in H.
  - lia.
  - destruct H as (Ha & Hs & Hr). apply IH in Hr. unf. lia.
Qed.

Lemma tiled_app lo l1 l2 hi :
  tiled lo (l1 ++ l2) hi <-> exists mid, tiled lo l1 mid /\ tiled mid l2 hi.
Proof.
  revert lo. induction l1 as [| b r IH]; intros lo; simpl.
  - split.
    + intros H. exists lo. split; [reflexivity | exact H].
    + intros (mid & -> & H). exact H.
  - split.
    + intros (Ha & Hs & Hr). apply IH in Hr. destruct Hr as (mid & H1 & H2).
      exists mid. repeat split; assumption.
    + intros (mid & (Ha & Hs & H1) & H2). repeat split; try assumption.
      apply IH. exists mid. split; assumption.
Qed.

Lemma tiled_in lo bs hi b :
  tiled lo bs hi -> In b bs ->
  lo <= b_addr b /\ 0 <= b_size b /\
  b_addr b + b_size b + EL_BLOCK_OVERHEAD <= hi.
Proof.
  revert lo. induction bs as [| c r IH]; intros lo H Hin; simpl in *.
  - contradiction.
  - destruct H as (Ha & Hs & Hr). destruct Hin as [-> | Hin].
    + apply tiled_le in Hr. unf. lia.
    + destruct (IH _ Hr Hin) as (H1 & H2 & H3). unf. lia.
Qed.

Lemma tiled_sep lo bs hi b1 b2 :
  tiled lo bs hi -> In b1 bs -> In b2 bs ->
  b1 = b2 \/
  b_addr b1 + b_size b1 + EL_BLOCK_OVERHEAD <= b_addr b2 \/
  b_addr b2 + b_size b2 + EL_BLOCK_OVERHEAD <= b_addr b1.
Proof.
  revert lo. induction bs as [| c r IH]; intros lo H H1 H2; simpl in *.
  - contradiction.
  - destruct H as (Ha & Hs & Hr).
    destruct H1 as [-> | H1], H2 as [-> | H2].
    + left. reflexivity.
    + right. left. destruct (tiled_in _ _ _ _ Hr H2) as (H3 & _). lia.
    + right. right. destruct (tiled_in _ _ _ _ Hr H1) as (H3 & _). lia.
    + exact (IH _ Hr H1 H2).
Qed.

Lemma tiled_split lo s1 b s2 hi :
  tiled lo (s1 ++ b :: s2) hi ->
  tiled lo s1 (b_addr b) /\ 0 <= b_size b /\
  tiled (b_addr b + b_size b + EL_BLOCK_OVERHEAD) s2 hi.
Proof.
  intros H. apply tiled_app in H. destruct H as (mid & H1 & H2).
  simpl in H2. destruct H2 as (Ha & Hs & Hr). subst mid. auto.
Qed.

Lemma addrs_in bs p : In p (addrs bs) -> exists b, In b bs /\ b_addr b = p.
Proof.
  unfold addrs. intros H. apply in_map_iff in H.
  destruct H as (b & Hb & Hin). exists b. auto.
Qed.

Lemma in_addrs bs b : In b bs -> In (b_addr b) (addrs bs).
Proof. intros H. unfold addrs. apply in_map. exact H. Qed.

(** A block header address inside the heap. *)
Lemma addrs_range bs p :
  tiled heap_base bs (heap_base + heap_size) -> In p (addrs bs) ->
  heap_base <= p /\ p + EL_BLOCK_OVERHEAD <= heap_base + heap_size.
Proof.
  intros Ht Hp. apply addrs_in in Hp. destruct Hp as (b & Hb & <-).
  destruct (tiled_in _ _ _ _ Ht Hb) as (H1 & H2 & H3). lia.
Qed.

Lemma addrs_sep lo bs hi p q :
  tiled lo bs hi -> In p (addrs bs) -> In q (addrs bs) ->
  p = q \/ p + EL_BLOCK_OVERHEAD <= q \/ q + EL_BLOCK_OVERHEAD <= p.
Proof.
  intros Ht Hp Hq. apply addrs_in in Hp, Hq.
  destruct Hp as (b1 & Hb1 & <-), Hq as (b2 & Hb2 & <-).
  destruct (tiled_in _ _ _ _ Ht Hb1) as (_ & H1 & _).
  destruct (tiled_in _ _ _ _ Ht Hb2) as (_ & H2 & _).
  destruct (tiled_sep _ _ _ _ _ Ht Hb1 Hb2) as [-> | [H | H]]; [auto | |]; lia.
Qed.

Lemma tiled_addr_inj lo bs hi b1 b2 :
  tiled lo bs hi -> In b1 bs -> In b2 bs -> b_addr b1 = b_addr b2 -> b1 = b2.
Proof.
  intros Ht H1 H2 Heq.
  destruct (tiled_in _ _ _ _ Ht H1) as (_ & Hs1 & _).
  destruct (tiled_in _ _ _ _ Ht H2) as (_ & Hs2 & _).
  destruct (tiled_sep _ _ _ _ _ Ht H1 H2) as [H | [H | H]]; [exact H | |];
    unf; lia.
Qed.

(** ** Frames for the physical blocks and the control record *)

Lemma block_ok_frame m m' (W : Z -> Prop) b :
  block_ok m b -> differ_only m m' W ->
  (forall x, W x -> ~ meta_bytes b x) -> 0 <= b_size b -> block_ok m' b.
Proof.
  intros (H1 & H2 & H3) Hd HW Hs. unfold block_ok, size_at, state_at, foot_at.
  rewrite (differ_read64 m m' W), (differ_read8 m m' W),
    (differ_read64 m m' W); auto.
  - intros x Hx Hw. apply (HW x Hw). unfold meta_bytes. unf. lia.
  - intros Hw. apply (HW _ Hw). unfold meta_bytes. unf. lia.
  - intros x Hx Hw. apply (HW x Hw). unfold meta_bytes. unf. lia.
Qed.

Lemma phys_frame m m' (W : Z -> Prop) bs :
  phys e m bs -> differ_only m m' W ->
  (forall b x, In b bs -> W x -> ~ meta_bytes b x) -> phys e m' bs.
Proof.
  intros (Ht & Hb) Hd HW. split; [exact Ht |].
  rewrite Forall_forall in *. intros b Hin.
  apply (block_ok_frame m m' W);
    [ apply Hb, Hin | exact Hd | intros x Hw; apply HW; assumption
    | apply (tiled_in _ _ _ _ Ht Hin) ].
Qed.

Lemma link_not_meta lo bs hi p b x :
  tiled lo bs hi -> In p (addrs bs) -> In b bs ->
  p + off_next <= x < p + sizeof_blockhead -> ~ meta_bytes b x.
Proof.
  intros Ht Hp Hb Hx. apply addrs_in in Hp. destruct Hp as (c & Hc & <-).
  destruct (tiled_in _ _ _ _ Ht Hb) as (_ & Hs & _).
  destruct (tiled_in _ _ _ _ Ht Hc) as (_ & Hsc & _).
  unfold meta_bytes.
  destruct (tiled_sep _ _ _ _ _ Ht Hb Hc) as [-> | [H | H]]; unf; lia.
Qed.

Lemma ctl_not_meta bs b x :
  tiled heap_base bs (heap_base + heap_size) -> In b bs ->
  ctl <= x < ctl + sizeof_ctl -> ~ meta_bytes b x.
Proof.
  intros Ht Hb Hx. destruct (tiled_in _ _ _ _ Ht Hb) as (H1 & H2 & H3).
  unfold meta_bytes. destruct He as (E1 & E2 & E3 & E4 & E5 & E6). unf. lia.
Qed.

Lemma ctl_ok_frame m m' (W : Z -> Prop) :
  ctl_ok e m -> differ_only m m' W ->
  (forall x, W x -> ~ ctl_ptr_bytes e x) -> ctl_ok e m'.
Proof.
  intros H Hd HW. unfold ctl_ok in *.
  assert (R : forall a, (forall x, a <= x < a + 8 -> ctl_ptr_bytes e x) ->
                        read64 m' a = read64 m a).
  { intros a Ha. apply (differ_read64 m m' W); [exact Hd |].
    intros x Hx Hw. apply (HW x Hw), Ha, Hx. }
  rewrite !R; [exact H | | | | | | | | |];
    intros x Hx; unfold ctl_ptr_bytes; unf; lia.
Qed.

(** ** Linked chains *)

Lemma linked_app m x l1 y l2 en :
  linked m x (l1 ++ y :: l2) en <-> linked m x l1 y /\ linked m y l2 en.
Proof.
  revert x. induction l1 as [| z r IH]; intros x; simpl.
  - tauto.
  - rewrite IH. tauto.
Qed.

Lemma last_cons (x y : Z) r : last (y :: r) x = last r y.
Proof.
  revert x y. induction r as [| z r IH]; intros x y; [reflexivity |].
  change (last (y :: z :: r) x) with (last (z :: r) x).
  rewrite (IH x z). symmetry. apply (IH y z).
Qed.

Lemma linked_prev_last m x l a :
  linked m x l a -> prev_at m a = last l x /\ next_at m (last l x) = a.
Proof.
  revert x. induction l as [| y r IH]; intros x H; simpl in H.
  - simpl. tauto.
  - destruct H as (H1 & H2 & H3). rewrite last_cons. apply IH, H3.
Qed.

Lemma linked_next_head m a l en :
  linked m a l en -> next_at m a = hd en l.
Proof. destruct l; simpl; tauto. Qed.

Lemma linked_frame m m' x l en :
  linked m x l en ->
  (forall p, In p (x :: l) -> next_at m' p = next_at m p) ->
  (forall p, In p (l ++ [en]) -> prev_at m' p = prev_at m p) ->
  linked m' x l en.
Proof.
  revert x. induction l as [| y r IH]; intros x H Hn Hp; simpl in *.
  - destruct H as (H1 & H2). rewrite Hn, Hp; auto.
  - destruct H as (H1 & H2 & H3). rewrite Hn, Hp by auto.
    repeat split; try assumption.
    apply IH; [exact H3 | intros p Hin; apply Hn; auto
              | intros p Hin; apply Hp; auto].
Qed.

Lemma last_in (x : Z) l : In (last l x) (x :: l).
Proof.
  revert x. induction l as [| y r IH]; intros x.
  - simpl. auto.
  - rewrite last_cons. right. apply IH.
Qed.

Lemma nodes_sep_incl N N' : nodes_sep N -> incl N' N -> nodes_sep N'.
Proof.
  intros (H1 & H2) Hi. split.
  - intros p Hp. apply H1, Hi, Hp.
  - intros p q Hp Hq. apply H2; apply Hi; assumption.
Qed.

Lemma linked_retarget m N x l1 a nx :
  nodes_sep N -> incl (x :: nx :: l1) N -> NoDup (x :: l1) -> ~ In nx l1 ->
  linked m x l1 a ->
  linked (write64 (write64 m (last l1 x + off_next) nx)
                  (nx + off_prev) (last l1 x)) x l1 nx.
Proof.
  intros (Hr & Hs). revert x.
  induction l1 as [| y r IH]; intros x Hi Hnd Hnx H; simpl in H.
  - simpl last. simpl linked.
    assert (Hx : In x N) by (apply Hi; simpl; auto).
    assert (Hn : In nx N) by (apply Hi; simpl; auto).
    pose proof (Hr _ Hx). pose proof (Hr _ Hn). pose proof (Hs _ _ Hx Hn).
    views. split; rw; apply wrap_small; lia.
  - destruct H as (H1 & H2 & H3). rewrite last_cons.
    assert (Hx : In x N) by (apply Hi; simpl; auto).
    assert (Hn : In nx N) by (apply Hi; simpl; auto).
    assert (Hy : In y N) by (apply Hi; simpl; auto).
    assert (Hl : In (last r y) N).
    { apply Hi. right. right. apply last_in. }
    assert (Hlx : last r y <> x).
    { intros Heq. inversion Hnd as [| ? ? Hnin _]. apply Hnin.
      rewrite <- Heq. apply last_in. }
    assert (Hny : nx <> y) by (intros ->; apply Hnx; simpl; auto).
    pose proof (Hs _ _ Hx Hn). pose proof (Hs _ _ Hl Hx).
    pose proof (Hs _ _ Hy Hn). pose proof (Hs _ _ Hl Hy).
    simpl linked. repeat split.
    + views. rw. exact H1.
    + views. rw. exact H2.
    + apply IH.
      * intros p Hp. apply Hi. simpl in Hp |- *. tauto.
      * inversion Hnd; assumption.
      * intros Hin. apply Hnx. simpl. auto.
      * exact H3.
Qed.

Lemma linked_unlink m x l1 a l2 en :
  nodes_sep (x :: l1 ++ a :: l2 ++ [en]) ->
  NoDup (x :: l1 ++ a :: l2 ++ [en]) ->
  linked m x (l1 ++ a :: l2) en ->
  linked (write64 (write64 m (prev_at m a + off_next) (next_at m a))
                  (next_at m a + off_prev) (prev_at m a)) x (l1 ++ l2) en.
Proof.
  intros Hsep Hnd H. apply linked_app in H. destruct H as (H1 & H2).
  destruct (linked_prev_last _ _ _ _ H1) as (Hpv & _).
  pose proof (linked_next_head _ _ _ _ H2) as Hnx.
  rewrite Hpv, Hnx.
  set (N := x :: l1 ++ a :: l2 ++ [en]) in *.
  assert (Hxl1 : NoDup (x :: l1)).
  { change N with ((x :: l1) ++ a :: l2 ++ [en]) in Hnd.
    apply NoDup_app_remove_r in Hnd. exact Hnd. }
  assert (Hin_l1 : forall p, In p (x :: l1) -> In p N).
  { intros p Hp. unfold N. change (In p ((x :: l1) ++ a :: l2 ++ [en])).
    apply in_or_app. left. exact Hp. }
  assert (Hin_l2 : forall p, In p (l2 ++ [en]) -> In p N).
  { intros p Hp. unfold N. right. apply in_or_app. right. right. exact Hp. }
  assert (Hdisj : forall p, In p (l2 ++ [en]) -> ~ In p (x :: l1 ++ [a])).
  { intros p Hp Hq.
    assert (Hnd' : NoDup ((x :: l1 ++ [a]) ++ l2 ++ [en])).
    { simpl. rewrite <- app_assoc. exact Hnd. }
    clear - Hnd' Hp Hq. revert Hnd' Hq.
    generalize (x :: l1 ++ [a]) as u. induction u as [| z u IH]; intros Hnd Hq.
    - contradiction.
    - simpl in Hnd. inversion Hnd as [| ? ? Hz Hu]; subst.
      destruct Hq as [-> | Hq]; [| exact (IH Hu Hq)].
      apply Hz. apply in_or_app. right. exact Hp. }
  assert (Hhd : In (hd en l2) (l2 ++ [en])).
  { destruct l2; simpl; auto. }
  assert (Hnx1 : ~ In (hd en l2) l1).
  { intros Hin. apply (Hdisj _ Hhd). right. apply in_or_app. left. exact Hin. }
  assert (Hret := linked_retarget m N x l1 a (hd en l2) Hsep).
  destruct l2 as [| nx r].
  - rewrite app_nil_r. simpl hd in *. apply Hret; auto.
    intros p [<- | [<- | Hp]]; [apply Hin_l1 | apply Hin_l2 | apply Hin_l1];
      simpl; auto.
  - simpl hd in *. apply linked_app. split.
    + apply Hret; auto.
      intros p [<- | [<- | Hp]]; [apply Hin_l1 | apply Hin_l2 | apply Hin_l1];
        simpl; auto.
    + simpl in H2. destruct H2 as (_ & _ & H2).
      destruct Hsep as (Hr & Hs).
      assert (Hlast : In (last l1 x) (x :: l1)) by apply last_in.
      apply (linked_frame m); [exact H2 | |].
      * intros p Hp. views.
        assert (HpN : In p N) by (apply Hin_l2; simpl; simpl in Hp;
          destruct Hp as [-> | Hp]; [auto | right; apply in_or_app; auto]).
        assert (Hpne : p <> last l1 x).
        { intros ->. apply (Hdisj (last l1 x)).
          - simpl. simpl in Hp. destruct Hp as [<- | Hp]; [auto |].
            right. apply in_or_app. auto.
          - simpl in Hlast |- *. destruct Hlast as [Hl | Hl]; [auto |].
            right. apply in_or_app. auto. }
        pose proof (Hs _ _ HpN (Hin_l1 _ Hlast)).
        pose proof (Hs _ _ HpN (Hin_l2 nx ltac:(simpl; auto))).
        rw. reflexivity.
      * intros p Hp. views.
        assert (HpN : In p N) by (apply Hin_l2; simpl; auto).
        assert (Hpne : p <> nx).
        { intros ->.
          assert (Hn : NoDup (a :: nx :: r ++ [en])).
          { apply (NoDup_app_remove_l (x :: l1)). exact Hnd. }
          inversion Hn as [| ? ? _ Hn']. inversion Hn'. contradiction. }
        pose proof (Hs _ _ HpN (Hin_l1 _ Hlast)).
        pose proof (Hs _ _ HpN (Hin_l2 nx ltac:(simpl; auto))).
        rw. reflexivity.
Qed.

Lemma linked_push m x l en a :
  nodes_sep (x :: a :: l ++ [en]) -> NoDup (x :: a :: l ++ [en]) ->
  linked m x l en ->
  linked (write64 (write64 (write64 (write64 m
            (a + off_next) (next_at m x)) (a + off_prev) x)
            (next_at m x + off_prev) a) (x + off_next) a) x (a :: l) en.
Proof.
  intros (Hr & Hs) Hnd H.
  pose proof (linked_next_head _ _ _ _ H) as Hnx. rewrite Hnx.
  set (N := x :: a :: l ++ [en]) in *.
  assert (Hx : In x N) by (unfold N; simpl; auto).
  assert (Ha : In a N) by (unfold N; simpl; auto).
  assert (Hl : forall p, In p (l ++ [en]) -> In p N).
  { intros p Hp. unfold N. simpl. auto. }
  assert (Hhd : In (hd en l) (l ++ [en])) by (destruct l; simpl; auto).
  assert (Hxa : x <> a).
  { intros ->. inversion Hnd as [| ? ? Hn _]. apply Hn. simpl. auto. }
  assert (Hxl : forall p, In p (l ++ [en]) -> p <> x /\ p <> a).
  { intros p Hp. inversion Hnd as [| ? ? Hn1 Hnd1]; subst.
    inversion Hnd1 as [| ? ? Hn2 _]; subst. split; intros ->.
    - apply Hn1. simpl. auto.
    - apply Hn2. exact Hp. }
  pose proof (Hr _ Hx). pose proof (Hr _ Ha). pose proof (Hs _ _ Hx Ha).
  pose proof (Hr _ (Hl _ Hhd)) as Rf.
  pose proof (Hs _ _ (Hl _ Hhd) Hx) as Sfx.
  pose proof (Hs _ _ (Hl _ Hhd) Ha) as Sfa.
  destruct (Hxl _ Hhd) as (Nfx & Nfa).
  simpl linked. split; [| split].
  - views. rw. apply wrap_small. lia.
  - views. rw. apply wrap_small. lia.
  - destruct l as [| y r]; simpl hd in *.
    + simpl linked. views. split; rw; apply wrap_small; lia.
    + simpl in H. destruct H as (L1 & L2 & L3). simpl linked.
      split; [| split].
      * views. rw. apply wrap_small. lia.
      * views. rw. apply wrap_small. lia.
      * apply (linked_frame m); [exact L3 | |].
        -- intros p Hp.
           assert (Hp' : In p ((y :: r) ++ [en])).
           { simpl. simpl in Hp. destruct Hp as [-> | Hp]; [auto |].
             right. apply in_or_app. auto. }
           destruct (Hxl _ Hp') as (Npx & Npa).
           pose proof (Hs _ _ (Hl _ Hp') Hx). pose proof (Hs _ _ (Hl _ Hp') Ha).
           pose proof (Hs _ _ (Hl _ Hp') (Hl _ Hhd)).
           views. rw. reflexivity.
        -- intros p Hp.
           assert (Hp' : In p ((y :: r) ++ [en])) by (simpl; auto).
           destruct (Hxl _ Hp') as (Npx & Npa).
           assert (Npy : p <> y).
           { intros ->. inversion Hnd as [| ? ? _ Hnd1].
             inversion Hnd1 as [| ? ? _ Hnd2]. simpl in Hnd2.
             inversion Hnd2. contradiction. }
           pose proof (Hs _ _ (Hl _ Hp') Hx). pose proof (Hs _ _ (Hl _ Hp') Ha).
           pose proof (Hs _ _ (Hl _ Hp') (Hl _ Hhd)).
           views. rw. reflexivity.
Qed.

(** ** Counters *)

Lemma sum_bytes_app m l1 l2 :
  sum_bytes m (l1 ++ l2) = sum_bytes m l1 + sum_bytes m l2.
Proof. induction l1 as [| a r IH]; simpl; [reflexivity | rewrite IH; ring]. Qed.

Lemma sum_bytes_frame m m' l :
  (forall p, In p l -> size_at m' p = size_at m p) ->
  sum_bytes m' l = sum_bytes m l.
Proof.
  induction l as [| a r IH]; intros H; simpl; [reflexivity |].
  rewrite H by (simpl; auto). rewrite IH; [reflexivity |].
  intros p Hp. apply H. simpl. auto.
Qed.

Lemma total_app s1 s2 : total (s1 ++ s2) = total s1 + total s2.
Proof. induction s1 as [| b r IH]; simpl; [reflexivity | rewrite IH; ring]. Qed.

Lemma tiled_total lo bs hi : tiled lo bs hi -> total bs = hi - lo.
Proof.
  revert lo. induction bs as [| b r IH]; intros lo H; simpl in *.
  - lia.
  - destruct H as (Ha & Hs & Hr). rewrite (IH _ Hr). lia.
Qed.

Lemma tiled_NoDup lo bs hi : tiled lo bs hi -> NoDup (addrs bs).
Proof.
  revert lo. induction bs as [| b r IH]; intros lo H; simpl in *.
  - constructor.
  - destruct H as (Ha & Hs & Hr). constructor; [| exact (IH _ Hr)].
    intros Hin. apply addrs_in in Hin. destruct Hin as (c & Hc & Heq).
    destruct (tiled_in _ _ _ _ Hr Hc) as (H1 & _). unf. lia.
Qed.

Lemma sum_bytes_le_total m l :
  forall bs, NoDup l -> incl l (addrs bs) -> NoDup (addrs bs) ->
  (forall b, In b bs -> 0 <= b_size b /\ size_at m (b_addr b) = b_size b) ->
  EL_BLOCK_OVERHEAD * Z.of_nat (length l) <= sum_bytes m l <= total bs.
Proof.
  induction l as [| a r IH]; intros bs Hnd Hi Hnb Hb.
  - simpl. assert (0 <= total bs); [| unf; lia].
    clear - Hb. induction bs as [| b s IHs]; simpl; [lia |].
    destruct (Hb b (or_introl eq_refl)) as (H0 & _).
    assert (0 <= total s) by (apply IHs; intros c Hc; apply Hb; right; exact Hc).
    unf. lia.
  - assert (Ha : In a (addrs bs)) by (apply Hi; simpl; auto).
    apply addrs_in in Ha. destruct Ha as (b & Hbin & Hba).
    destruct (in_split _ _ Hbin) as (s1 & s2 & ->).
    inversion Hnd as [| ? ? Har Hndr]; subst.
    unfold addrs in Hnb. rewrite map_app in Hnb. simpl in Hnb.
    destruct (Hb b Hbin) as (Hs0 & Hsz).
    assert (IHr := IH (s1 ++ s2) Hndr).
    assert (Hincl : incl r (addrs (s1 ++ s2))).
    { intros p Hp. assert (Hp' : In p (addrs (s1 ++ b :: s2))) by (apply Hi; right; exact Hp).
      unfold addrs in *. rewrite map_app in *. simpl in Hp'.
      apply in_app_or in Hp'. apply in_or_app.
      destruct Hp' as [Hp' | [Hp' | Hp']]; [auto | | auto].
      exfalso. apply Har. rewrite Hp'. exact Hp. }
    assert (Hnd2 : NoDup (addrs (s1 ++ s2))).
    { unfold addrs. rewrite map_app. apply NoDup_remove_1 in Hnb. exact Hnb. }
    specialize (IHr Hincl Hnd2).
    assert (Hb2 : forall c, In c (s1 ++ s2) ->
                   0 <= b_size c /\ size_at m (b_addr c) = b_size c).
    { intros c Hc. apply Hb. apply in_app_or in Hc. apply in_or_app.
      simpl. tauto. }
    specialize (IHr Hb2).
    rewrite total_app in *. simpl total. simpl sum_bytes. simpl length.
    rewrite Hsz. rewrite Nat2Z.inj_succ. unf. lia.
Qed.

Lemma list_bounds m bs l :
  phys e m bs -> NoDup l -> incl l (addrs bs) ->
  EL_BLOCK_OVERHEAD * Z.of_nat (length l) <= sum_bytes m l <= heap_size.
Proof.
  intros (Ht & Hb) Hnd Hi.
  pose proof (sum_bytes_le_total m l bs Hnd Hi (tiled_NoDup _ _ _ Ht)) as H.
  rewrite (tiled_total _ _ _ Ht) in H.
  replace (heap_base + heap_size - heap_base) with heap_size in H by lia.
  apply H. intros b Hin. split.
  - apply (tiled_in _ _ _ _ Ht Hin).
  - rewrite Forall_forall in Hb. apply (Hb b Hin).
Qed.

(** ** Frames for list records *)

Lemma list_ok_frame m m' (W : Z -> Prop) lst l :
  list_ok m lst l -> differ_only m m' W ->
  (forall x, W x -> ~ list_bytes lst l x) -> list_ok m' lst l.
Proof.
  intros (H1 & H2 & H3) Hd HW.
  assert (R : forall a, (forall x, a <= x < a + 8 -> list_bytes lst l x) ->
                        read64 m' a = read64 m a).
  { intros a Ha. apply (differ_read64 m m' W); [exact Hd |].
    intros x Hx Hw. apply (HW x Hw), Ha, Hx. }
  unfold list_ok. split; [| split].
  - apply (linked_frame m); [exact H1 | |].
    + intros p Hp. unfold next_at. apply R. intros x Hx.
      unfold list_bytes. destruct Hp as [<- | Hp].
      * left. unf. lia.
      * right. right. right. exists p. split; [exact Hp |]. unf. lia.
    + intros p Hp. unfold prev_at. apply R. intros x Hx.
      unfold list_bytes. apply in_app_or in Hp. destruct Hp as [Hp | [<- | []]].
      * right. right. right. exists p. split; [exact Hp |]. unf. lia.
      * right. left. unf. lia.
  - rewrite R; [exact H2 |]. intros x Hx. unfold list_bytes, counter_bytes.
    right. right. left. unf. lia.
  - rewrite R.
    + rewrite H3. symmetry. apply sum_bytes_frame. intros p Hp.
      unfold size_at. apply R. intros x Hx. unfold list_bytes.
      right. right. right. exists p. split; [exact Hp |]. unf. lia.
    + intros x Hx. unfold list_bytes, counter_bytes.
      right. right. left. unf. lia.
Qed.

(** Where list nodes live. *)

Lemma node_range bs p :
  tiled heap_base bs (heap_base + heap_size) -> node_of e bs p ->
  (heap_base <= p /\ p + EL_BLOCK_OVERHEAD <= heap_base + heap_size) \/
  (ctl + off_avail_actual <= p /\ p + sizeof_blockhead <= ctl + off_avail).
Proof.
  intros Ht [Hp | (lst & [-> | ->] & [-> | ->])].
  - left. apply (addrs_range _ _ Ht Hp).
  - right. unf. lia.
  - right. unf. lia.
  - right. unf. lia.
  - right. unf. lia.
Qed.

Lemma list_nodes bs lst l :
  is_list e lst -> incl l (addrs bs) ->
  forall p, In p (beg_of lst :: l ++ [end_of lst]) -> node_of e bs p.
Proof.
  intros HL Hi p [<- | Hp].
  - right. exists lst. auto.
  - apply in_app_or in Hp. destruct Hp as [Hp | [<- | []]].
    + left. apply Hi, Hp.
    + right. exists lst. auto.
Qed.

Lemma list_nodes_sep bs lst l :
  tiled heap_base bs (heap_base + heap_size) -> is_list e lst ->
  NoDup l -> incl l (addrs bs) ->
  nodes_sep (beg_of lst :: l ++ [end_of lst]) /\
  NoDup (beg_of lst :: l ++ [end_of lst]).
Proof.
  intros Ht HL Hnd Hi. pose proof He as (E1 & E2 & E3 & E4 & E5 & E6).
  assert (Hh : forall p, In p l ->
            heap_base <= p /\ p + EL_BLOCK_OVERHEAD <= heap_base + heap_size).
  { intros p Hp. apply (addrs_range _ _ Ht), Hi, Hp. }
  assert (HLr : ctl + off_avail_actual <= lst /\
                lst + sizeof_blocklist <= ctl + off_avail).
  { destruct HL as [-> | ->]; unf; lia. }
  split; [split |].
  - intros p [<- | Hp]; [unf; lia |].
    apply in_app_or in Hp. destruct Hp as [Hp | [<- | []]].
    + apply Hh in Hp. unf. lia.
    + unf. lia.
  - intros p q Hp Hq.
    assert (C : forall r, In r (beg_of lst :: l ++ [end_of lst]) ->
                r = beg_of lst \/ In r l \/ r = end_of lst).
    { intros r [<- | Hr]; [auto |]. apply in_app_or in Hr.
      destruct Hr as [Hr | [<- | []]]; auto. }
    assert (G : forall r, In r (beg_of lst :: l ++ [end_of lst]) ->
                (heap_base <= r /\
                 r + EL_BLOCK_OVERHEAD <= heap_base + heap_size /\ In r l) \/
                r = beg_of lst \/ r = end_of lst).
    { intros r Hr. destruct (C _ Hr) as [-> | [Hr' | ->]]; auto.
      left. destruct (Hh _ Hr'). auto. }
    destruct (G _ Hp) as [(P1 & P2 & P3) | [-> | ->]],
             (G _ Hq) as [(Q1 & Q2 & Q3) | [-> | ->]];
      try (left; reflexivity); try (right; unf; lia).
    destruct (addrs_sep _ _ _ p q Ht (Hi _ P3) (Hi _ Q3)) as [-> | Hs];
      [left; reflexivity | right; unf; lia].
  - constructor.
    + intros Hin. apply in_app_or in Hin. destruct Hin as [Hin | [Hin | []]].
      * apply Hh in Hin. unf. lia.
      * unf. lia.
    + apply NoDup_app; [exact Hnd | constructor; [intros [] | constructor] |].
      intros a Ha [<- | []]. apply Hh in Ha. unf. lia.
Qed.

(** ** Unlinking a node *)

Ltac mp := apply mapped_any; addr.

Ltac step :=
  first [ rewrite bind_load64 by mp | rewrite bind_store64 by mp
        | rewrite bind_load8 by mp | rewrite bind_store8 by mp ];
  cbv beta.

Lemma is_list_range lst :
  is_list e lst ->
  ctl + off_avail_actual <= lst /\ lst + sizeof_blocklist <= ctl + off_avail.
Proof. intros [-> | ->]; unf; lia. Qed.

Lemma remove_sem m bs lst l1 a l2 :
  phys e m bs -> is_list e lst ->
  list_ok m lst (l1 ++ a :: l2) ->
  NoDup (l1 ++ a :: l2) -> incl (l1 ++ a :: l2) (addrs bs) ->
  exists m',
    el_remove_block e lst a m = Ok tt m' /\
    list_ok m' lst (l1 ++ l2) /\
    differ_only m m'
      (fun x => link_bytes (beg_of lst :: l1 ++ l2 ++ [end_of lst]) x \/
                counter_bytes lst x).
Proof.
  intros Hph HL (Hlk & Hlen & Hby) Hnd Hi.
  pose proof Hph as (Ht & Hb).
  pose proof He as (E1 & E2 & E3 & E4 & E5 & E6).
  pose proof (is_list_range _ HL) as HLr.
  destruct (list_nodes_sep bs lst _ Ht HL Hnd Hi) as (Hsep & HndN).
  rewrite <- app_assoc in Hsep, HndN. simpl in Hsep, HndN.
  pose proof (list_bounds m bs _ Hph Hnd Hi) as Hbd.
  pose proof Hlk as Hlk0.
  apply linked_app in Hlk. destruct Hlk as (Hl1 & Hl2).
  destruct (linked_prev_last _ _ _ _ Hl1) as (Hpv & _).
  pose proof (linked_next_head _ _ _ _ Hl2) as Hnx.
  set (N := beg_of lst :: l1 ++ a :: l2 ++ [end_of lst]) in *.
  assert (HpvN : In (prev_at m a) N).
  { rewrite Hpv. unfold N. change (In (last l1 (beg_of lst))
      ((beg_of lst :: l1) ++ a :: l2 ++ [end_of lst])).
    apply in_or_app. left. apply last_in. }
  assert (HnxN : In (next_at m a) N).
  { rewrite Hnx. unfold N. right. apply in_or_app. right. right.
    destruct l2; simpl; auto. }
  assert (HaN : In a N).
  { unfold N. right. apply in_or_app. right. simpl. auto. }
  assert (Hpva : prev_at m a <> a).
  { rewrite Hpv. intros Heq.
    change N with ((beg_of lst :: l1) ++ a :: l2 ++ [end_of lst]) in HndN.
    apply NoDup_remove_2 in HndN. apply HndN. apply in_or_app. left.
    rewrite <- Heq. apply last_in. }
  assert (Hnxa : next_at m a <> a).
  { rewrite Hnx. intros Heq.
    change N with ((beg_of lst :: l1) ++ a :: l2 ++ [end_of lst]) in HndN.
    apply NoDup_remove_2 in HndN. apply HndN. apply in_or_app. right.
    rewrite <- Heq. destruct l2; simpl; auto. }
  destruct Hsep as (Hr & Hs).
  pose proof (Hs _ _ HpvN HaN) as S1. pose proof (Hs _ _ HnxN HaN) as S2.
  assert (Hnode : forall p, In p N -> node_of e bs p).
  { intros p Hp. apply (list_nodes bs lst (l1 ++ a :: l2) HL Hi).
    rewrite <- app_assoc. exact Hp. }
  assert (HcaseN : forall p, In p N ->
            (heap_base <= p /\
             p + EL_BLOCK_OVERHEAD <= heap_base + heap_size) \/
            p = beg_of lst \/ p = end_of lst).
  { intros p [<- | Hp]; [auto |]. rewrite app_comm_cons, app_assoc in Hp.
    apply in_app_or in Hp. destruct Hp as [Hp | [<- | []]]; [| auto]. left.
    apply (addrs_range _ _ Ht), Hi, Hp. }
  pose proof (HcaseN _ HpvN) as R1.
  pose proof (HcaseN _ HnxN) as R2.
  assert (Ra : heap_base <= a /\ a + EL_BLOCK_OVERHEAD <= heap_base + heap_size).
  { apply (addrs_range _ _ Ht). apply Hi. apply in_or_app. simpl. auto. }
  pose proof (Hr _ HpvN) as B1. pose proof (Hr _ HnxN) as B2.
  set (pv := prev_at m a) in *. set (nx := next_at m a) in *.
  assert (Hsz : 0 <= size_at m a).
  { assert (Hain : In a (addrs bs)) by (apply Hi, in_or_app; simpl; auto).
    apply addrs_in in Hain. destruct Hain as (b & Hbin & <-).
    rewrite Forall_forall in Hb. destruct (Hb b Hbin) as (-> & _).
    apply (tiled_in _ _ _ _ Ht Hbin). }
  rewrite sum_bytes_app in Hbd, Hby. simpl sum_bytes in Hbd, Hby.
  rewrite length_app in Hbd, Hlen. simpl length in Hbd, Hlen.
  rewrite Nat2Z.inj_add, Nat2Z.inj_succ in Hbd, Hlen.
  assert (Hb1 : 0 <= sum_bytes m l1 /\ 0 <= sum_bytes m l2).
  { split.
    - assert (X := list_bounds m bs l1 Hph). 
      assert (NoDup l1) by (apply NoDup_app_remove_r in Hnd; exact Hnd).
      assert (incl l1 (addrs bs)) by (intros p Hp; apply Hi, in_or_app; auto).
      specialize (X H H0). unf. lia.
    - assert (X := list_bounds m bs l2 Hph).
      assert (NoDup l2).
      { apply NoDup_app_remove_l in Hnd. inversion Hnd; assumption. }
      assert (incl l2 (addrs bs)).
      { intros p Hp; apply Hi, in_or_app; simpl; auto. }
      specialize (X H H0). unf. lia. }
  eexists. split; [| split].
  - unfold el_remove_block, get_prev, get_next, set_next, set_prev,
      get_length, get_bytes, get_size.
    assert (Epv : read64 m (a + off_prev) = pv) by reflexivity.
    assert (Enx : read64 m (a + off_next) = nx) by reflexivity.
    clearbody pv nx.
    step. rewrite Epv. step. rewrite Enx. step.
    step. rw. rewrite Enx. step. rw. rewrite Epv. step.
    step. rw. step. step. rw. step. rw.
    apply store64_ok. mp.
  - assert (Epv : read64 m (a + off_prev) = pv) by reflexivity.
    assert (Enx : read64 m (a + off_next) = nx) by reflexivity.
    clearbody pv nx.
    assert (Hcase : forall p, In p (beg_of lst :: (l1 ++ l2) ++ [end_of lst]) ->
              (heap_base <= p /\
               p + EL_BLOCK_OVERHEAD <= heap_base + heap_size) \/
              p = beg_of lst \/ p = end_of lst).
    { intros p [<- | Hp]; [auto |]. apply in_app_or in Hp.
      destruct Hp as [Hp | [<- | []]]; [| auto]. left.
      apply (addrs_range _ _ Ht), Hi. apply in_app_or in Hp.
      apply in_or_app. simpl. tauto. }
    unfold list_ok. split; [| split].
    + pose proof (linked_unlink m (beg_of lst) l1 a l2 (end_of lst)
                    (conj Hr Hs) HndN Hlk0) as Hu.
      replace (prev_at m a) with pv in Hu by (symmetry; exact Epv).
      replace (next_at m a) with nx in Hu by (symmetry; exact Enx).
      apply (linked_frame _ _ _ _ _ Hu).
      * intros p Hp.
        assert (Hp' : In p (beg_of lst :: (l1 ++ l2) ++ [end_of lst])).
        { simpl. simpl in Hp. destruct Hp as [Hp | Hp]; [auto |].
          right. apply in_or_app. auto. }
        destruct (Hcase _ Hp') as [Hh | [-> | ->]]; views; rw; reflexivity.
      * intros p Hp.
        assert (Hp' : In p (beg_of lst :: (l1 ++ l2) ++ [end_of lst])).
        { simpl. auto. }
        destruct (Hcase _ Hp') as [Hh | [-> | ->]]; views; rw; reflexivity.
    + rw. rewrite Hlen. rewrite length_app, Nat2Z.inj_add.
      unwrap. lia.
    + rw. rewrite Hby. rewrite sum_bytes_app.
      assert (F : forall l, incl l (l1 ++ a :: l2) ->
                sum_bytes (write64 (write64 (write64 (write64 m
                  (pv + off_next) nx) (nx + off_prev) pv)
                  (lst + off_length) (wrap (read64 m (lst + off_length) - 1)))
                  (lst + off_bytes)
                  (wrap (sum_bytes m l1 +
                     (size_at m a + EL_BLOCK_OVERHEAD + sum_bytes m l2) -
                     wrap (read64 m (a + off_size) + EL_BLOCK_OVERHEAD)))) l
                = sum_bytes m l).
      { intros l Hl. apply sum_bytes_frame. intros p Hp.
        assert (Hh : heap_base <= p /\
                     p + EL_BLOCK_OVERHEAD <= heap_base + heap_size).
        { apply (addrs_range _ _ Ht), Hi, Hl, Hp. }
        assert (HpN : In p N).
        { unfold N. right. rewrite app_comm_cons, app_assoc.
          apply in_or_app. left. apply Hl, Hp. }
        pose proof (Hs _ _ HpN HpvN). pose proof (Hs _ _ HpN HnxN).
        views. rw. reflexivity. }
      rewrite !F.
      * fold (size_at m a). unwrap. ring.
      * intros p Hp. apply in_or_app. simpl. auto.
      * intros p Hp. apply in_or_app. auto.
  - assert (Epv : read64 m (a + off_prev) = pv) by reflexivity.
    assert (Enx : read64 m (a + off_next) = nx) by reflexivity.
    clearbody pv nx.
    assert (Hpv' : In pv (beg_of lst :: l1 ++ l2 ++ [end_of lst])).
    { rewrite Hpv. change (In (last l1 (beg_of lst))
        ((beg_of lst :: l1) ++ l2 ++ [end_of lst])).
      apply in_or_app. left. apply last_in. }
    assert (Hnx' : In nx (beg_of lst :: l1 ++ l2 ++ [end_of lst])).
    { rewrite Hnx. right. apply in_or_app. right. destruct l2; simpl; auto. }
    repeat (eapply differ_only_trans;
            [| apply differ_only_write64; intros x Hx]).
    + apply differ_only_refl.
    + left. exists pv. split; [exact Hpv' |]. unf. lia.
    + left. exists nx. split; [exact Hnx' |]. unf. lia.
    + right. unfold counter_bytes. unf. lia.
    + right. unfold counter_bytes. unf. lia.
Qed.

(** ** Linking a node at the front *)

Lemma ctl_ok_beg m lst :
  ctl_ok e m -> is_list e lst -> read64 m (lst + off_beg) = beg_of lst.
Proof.
  intros (_ & _ & _ & _ & _ & H1 & _ & H2 & _) [-> | ->]; assumption.
Qed.

Lemma ctl_ok_end m lst :
  ctl_ok e m -> is_list e lst -> read64 m (lst + off_end) = end_of lst.
Proof.
  intros (_ & _ & _ & _ & _ & _ & H1 & _ & H2) [-> | ->]; assumption.
Qed.

Lemma add_sem m bs lst l a :
  ctl_ok e m -> phys e m bs -> is_list e lst -> list_ok m lst l ->
  NoDup (a :: l) -> incl (a :: l) (addrs bs) ->
  exists m',
    el_add_block_front e lst a m = Ok tt m' /\
    list_ok m' lst (a :: l) /\
    differ_only m m'
      (fun x => link_bytes (beg_of lst :: a :: l ++ [end_of lst]) x \/
                counter_bytes lst x).
Proof.
  intros Hc Hph HL (Hlk & Hlen & Hby) Hnd Hi.
  pose proof Hph as (Ht & Hb).
  pose proof He as (E1 & E2 & E3 & E4 & E5 & E6).
  pose proof (is_list_range _ HL) as HLr.
  pose proof (ctl_ok_beg _ _ Hc HL) as Hbeg.
  destruct (list_nodes_sep bs lst _ Ht HL Hnd Hi) as (Hsep & HndN).
  simpl in Hsep, HndN.
  pose proof (list_bounds m bs _ Hph Hnd Hi) as Hbd.
  assert (Hndl : NoDup l) by (inversion Hnd; assumption).
  assert (Hil : incl l (addrs bs)) by (intros p Hp; apply Hi; right; exact Hp).
  pose proof (list_bounds m bs _ Hph Hndl Hil) as Hbdl.
  pose proof (linked_next_head _ _ _ _ Hlk) as Hfirst.
  set (N := beg_of lst :: a :: l ++ [end_of lst]) in *.
  assert (HcaseN : forall p, In p N ->
            (heap_base <= p /\
             p + EL_BLOCK_OVERHEAD <= heap_base + heap_size) \/
            p = beg_of lst \/ p = end_of lst).
  { intros p [<- | Hp]; [auto |]. rewrite app_comm_cons in Hp.
    apply in_app_or in Hp. destruct Hp as [Hp | [<- | []]]; [| auto]. left.
    apply (addrs_range _ _ Ht), Hi, Hp. }
  assert (HfN : In (next_at m (beg_of lst)) N).
  { rewrite Hfirst. unfold N. right. right. destruct l; simpl; auto. }
  assert (HaN : In a N) by (unfold N; simpl; auto).
  assert (HbN : In (beg_of lst) N) by (unfold N; simpl; auto).
  assert (Hfa : next_at m (beg_of lst) <> a).
  { rewrite Hfirst. intros Heq. inversion HndN as [| ? ? _ Hn1].
    inversion Hn1 as [| ? ? Hn2 _]. apply Hn2. rewrite <- Heq.
    destruct l; simpl; auto. }
  assert (Hfb : next_at m (beg_of lst) <> beg_of lst).
  { rewrite Hfirst. intros Heq. inversion HndN as [| ? ? Hn1 _].
    apply Hn1. rewrite <- Heq. right. destruct l; simpl; auto. }
  destruct Hsep as (Hr & Hs).
  pose proof (Hs _ _ HfN HaN) as S1. pose proof (Hs _ _ HfN HbN) as S2.
  pose proof (HcaseN _ HfN) as R1.
  pose proof (Hr _ HfN) as B1.
  assert (Ra : heap_base <= a /\ a + EL_BLOCK_OVERHEAD <= heap_base + heap_size).
  { apply (addrs_range _ _ Ht). apply Hi. simpl. auto. }
  assert (Hsz : 0 <= size_at m a /\
                size_at m a + EL_BLOCK_OVERHEAD <= heap_size).
  { assert (Hain : In a (addrs bs)) by (apply Hi; simpl; auto).
    apply addrs_in in Hain. destruct Hain as (b & Hbin & <-).
    rewrite Forall_forall in Hb. destruct (Hb b Hbin) as (-> & _).
    pose proof (tiled_in _ _ _ _ Ht Hbin). lia. }
  simpl sum_bytes in Hbd. simpl length in Hbd.
  rewrite Nat2Z.inj_succ in Hbd.
  set (first := next_at m (beg_of lst)) in *.
  assert (Efirst : read64 m (beg_of lst + off_next) = first) by reflexivity.
  assert (Esz : read64 m (a + off_size) = size_at m a) by reflexivity.
  clearbody first.
  eexists. split; [| split].
  - unfold el_add_block_front, get_beg, get_prev, get_next, set_next, set_prev,
      get_length, get_bytes, get_size.
    step. rewrite Hbeg. step. rewrite Efirst. step.
    step. rw. rewrite Hbeg. step.
    step. rw. unwrap. step.
    step. rw. unwrap. step.
    step. rw. step.
    step. rw. step. rw.
    apply store64_ok. mp.
  - unfold list_ok. split; [| split].
    + pose proof (linked_push m (beg_of lst) l (end_of lst) a
                    (conj Hr Hs) HndN Hlk) as Hu.
      replace (next_at m (beg_of lst)) with first in Hu
        by (symmetry; exact Efirst).
      apply (linked_frame _ _ _ _ _ Hu).
      * intros p Hp.
        assert (Hp' : In p N).
        { unfold N. simpl. simpl in Hp. destruct Hp as [Hp | [Hp | Hp]];
            [auto | auto |]. right. right. apply in_or_app. auto. }
        destruct (HcaseN _ Hp') as [Hh | [-> | ->]]; views; rw; reflexivity.
      * intros p Hp.
        assert (Hp' : In p N) by (unfold N; simpl; simpl in Hp; tauto).
        destruct (HcaseN _ Hp') as [Hh | [-> | ->]]; views; rw; reflexivity.
    + rw. rewrite Hlen. simpl length. rewrite Nat2Z.inj_succ.
      unwrap. lia.
    + rw. rewrite Hby, Esz. simpl sum_bytes.
      assert (F : forall m1, 
                (forall p, In p (a :: l) -> size_at m1 p = size_at m p) ->
                size_at m1 a + EL_BLOCK_OVERHEAD + sum_bytes m1 l
                = size_at m a + EL_BLOCK_OVERHEAD + sum_bytes m l).
      { intros m1 Hm1. rewrite (Hm1 a) by (simpl; auto).
        rewrite (sum_bytes_frame m m1 l); [reflexivity |].
        intros p Hp. apply Hm1. simpl. auto. }
      rewrite F.
      * unwrap. ring.
      * intros p Hp.
        assert (Hh : heap_base <= p /\
                     p + EL_BLOCK_OVERHEAD <= heap_base + heap_size).
        { apply (addrs_range _ _ Ht), Hi, Hp. }
        assert (HpN : In p N).
        { unfold N. right. rewrite app_comm_cons. apply in_or_app. auto. }
        pose proof (Hs _ _ HpN HfN). pose proof (Hs _ _ HpN HaN).
        views. rw. reflexivity.
  - assert (Hf' : In first (beg_of lst :: a :: l ++ [end_of lst])) by exact HfN.
    repeat (eapply differ_only_trans;
            [| apply differ_only_write64; intros x Hx]).
    + apply differ_only_refl.
    + left. exists a. split; [exact HaN |]. unf. lia.
    + left. exists a. split; [exact HaN |]. unf. lia.
    + left. exists first. split; [exact Hf' |]. unf. lia.
    + left. exists (beg_of lst). split; [exact HbN |]. unf. lia.
    + right. unfold counter_bytes. unf. lia.
    + right. unfold counter_bytes. unf. lia.
Qed.

(** ** What link and counter updates leave alone *)

Lemma links_frame_phys m m' bs ns lst :
  phys e m bs ->
  differ_only m m' (fun x => link_bytes ns x \/ counter_bytes lst x) ->
  is_list e lst -> (forall p, In p ns -> node_of e bs p) -> phys e m' bs.
Proof.
  intros Hph Hd HL Hn. pose proof Hph as (Ht & _).
  pose proof (is_list_range _ HL) as HLr.
  apply (phys_frame m m' _ bs Hph Hd).
  intros b x Hb [(p & Hp & Hx) | Hx].
  - destruct (Hn p Hp) as [Ha | (l' & HL' & Hs)].
    + apply (link_not_meta _ _ _ p b x Ht Ha Hb Hx).
    + apply (ctl_not_meta bs b x Ht Hb).
      pose proof (is_list_range _ HL'). destruct Hs as [-> | ->]; unf; lia.
  - apply (ctl_not_meta bs b x Ht Hb). unfold counter_bytes in Hx. unf. lia.
Qed.

Lemma links_frame_ctl m m' bs ns lst :
  ctl_ok e m -> tiled heap_base bs (heap_base + heap_size) ->
  differ_only m m' (fun x => link_bytes ns x \/ counter_bytes lst x) ->
  is_list e lst -> (forall p, In p ns -> node_of e bs p) -> ctl_ok e m'.
Proof.
  intros Hc Ht Hd HL Hn. pose proof He as (E1 & E2 & E3 & E4 & E5 & E6).
  apply (ctl_ok_frame m m' _ Hc Hd).
  intros x [(p & Hp & Hx) | Hx]; unfold ctl_ptr_bytes.
  - destruct (Hn p Hp) as [Ha | (l' & HL' & Hs)].
    + pose proof (addrs_range _ _ Ht Ha). unf. lia.
    + destruct HL' as [-> | ->], Hs as [-> | ->]; unf; lia.
  - unfold counter_bytes in Hx. destruct HL as [-> | ->]; unf; lia.
Qed.

Lemma links_frame_list m m' bs ns lst lst' l' :
  list_ok m lst' l' -> tiled heap_base bs (heap_base + heap_size) ->
  differ_only m m' (fun x => link_bytes ns x \/ counter_bytes lst x) ->
  is_list e lst -> is_list e lst' -> lst' <> lst ->
  (forall p, In p ns ->
     (In p (addrs bs) /\ ~ In p l') \/ p = beg_of lst \/ p = end_of lst) ->
  incl l' (addrs bs) -> list_ok m' lst' l'.
Proof.
  intros Hl Ht Hd HL HL' Hne Hn Hi.
  pose proof He as (E1 & E2 & E3 & E4 & E5 & E6).
  apply (list_ok_frame m m' _ lst' l' Hl Hd).
  assert (Hll : (lst = avail_list e /\ lst' = used_list e) \/
                (lst = used_list e /\ lst' = avail_list e)).
  { destruct HL as [-> | ->], HL' as [-> | ->]; auto; contradiction. }
  intros x [(p & Hp & Hx) | Hx]; unfold list_bytes, counter_bytes.
  - destruct (Hn p Hp) as [(Ha & Hnl) | Hs].
    + pose proof (addrs_range _ _ Ht Ha) as Rp.
      intros [Hb | [Hb | [Hb | (q & Hq & Hb)]]].
      * destruct HL' as [-> | ->]; unf; lia.
      * destruct HL' as [-> | ->]; unf; lia.
      * destruct HL' as [-> | ->]; unf; lia.
      * assert (p <> q) by (intros ->; contradiction).
        destruct (addrs_sep _ _ _ p q Ht Ha (Hi _ Hq)) as [-> | Hs];
          [contradiction | unf; lia].
    + intros [Hb | [Hb | [Hb | (q & Hq & Hb)]]].
      * destruct Hll as [(-> & ->) | (-> & ->)], Hs as [-> | ->]; unf; lia.
      * destruct Hll as [(-> & ->) | (-> & ->)], Hs as [-> | ->]; unf; lia.
      * destruct Hll as [(-> & ->) | (-> & ->)], Hs as [-> | ->]; unf; lia.
      * pose proof (addrs_range _ _ Ht (Hi _ Hq)) as Rq.
        destruct Hll as [(-> & ->) | (-> & ->)], Hs as [-> | ->]; unf; lia.
  - unfold counter_bytes in Hx.
    intros [Hb | [Hb | [Hb | (q & Hq & Hb)]]].
    + destruct Hll as [(-> & ->) | (-> & ->)]; unf; lia.
    + destruct Hll as [(-> & ->) | (-> & ->)]; unf; lia.
    + destruct Hll as [(-> & ->) | (-> & ->)]; unf; lia.
    + pose proof (addrs_range _ _ Ht (Hi _ Hq)) as Rq.
      destruct Hll as [(-> & ->) | (-> & ->)]; unf; lia.
Qed.

(** ** List operations on the structural invariant *)

Lemma NoDup_app_parts (l1 l2 : list Z) :
  NoDup (l1 ++ l2) ->
  NoDup l1 /\ NoDup l2 /\ (forall p, In p l1 -> ~ In p l2).
Proof.
  intros H. split; [| split].
  - apply NoDup_app_remove_r in H. exact H.
  - apply NoDup_app_remove_l in H. exact H.
  - induction l1 as [| z r IH]; intros p Hp; [contradiction |].
    simpl in H. inversion H as [| ? ? Hz Hr]; subst.
    destruct Hp as [-> | Hp].
    + intros Hin. apply Hz. apply in_or_app. auto.
    + apply (IH Hr p Hp).
Qed.

Lemma lists_differ : used_list e <> avail_list e.
Proof. unf. lia. Qed.

Lemma remove_gen m bs lst lst' l1 a l2 l' :
  ctl_ok e m -> phys e m bs -> is_list e lst -> is_list e lst' ->
  lst' <> lst ->
  list_ok m lst (l1 ++ a :: l2) -> list_ok m lst' l' ->
  NoDup ((l1 ++ a :: l2) ++ l') -> incl ((l1 ++ a :: l2) ++ l') (addrs bs) ->
  exists m',
    el_remove_block e lst a m = Ok tt m' /\
    ctl_ok e m' /\ phys e m' bs /\
    list_ok m' lst (l1 ++ l2) /\ list_ok m' lst' l'.
Proof.
  intros Hc Hph HL HL' Hne Hl Hl' Hnd Hi.
  pose proof Hph as (Ht & _).
  destruct (NoDup_app_parts _ _ Hnd) as (Hnd1 & Hnd2 & Hdis).
  assert (Hi1 : incl (l1 ++ a :: l2) (addrs bs)).
  { intros p Hp. apply Hi, in_or_app. auto. }
  assert (Hi2 : incl l' (addrs bs)).
  { intros p Hp. apply Hi, in_or_app. auto. }
  destruct (remove_sem m bs lst l1 a l2 Hph HL Hl Hnd1 Hi1)
    as (m' & Hex & Hl1 & Hd).
  assert (Hn : forall p, In p (beg_of lst :: l1 ++ l2 ++ [end_of lst]) ->
             (In p (addrs bs) /\ ~ In p l') \/
             p = beg_of lst \/ p = end_of lst).
  { intros p [<- | Hp]; [auto |]. rewrite app_assoc in Hp.
    apply in_app_or in Hp. destruct Hp as [Hp | [<- | []]]; [| auto].
    assert (Hp' : In p (l1 ++ a :: l2)).
    { apply in_app_or in Hp. apply in_or_app. simpl. tauto. }
    left. split; [apply Hi1, Hp' | apply Hdis, Hp']. }
  assert (Hnode : forall p, In p (beg_of lst :: l1 ++ l2 ++ [end_of lst]) ->
                  node_of e bs p).
  { intros p Hp. destruct (Hn p Hp) as [(Ha & _) | Hs]; [left; exact Ha |].
    right. exists lst. auto. }
  exists m'. split; [exact Hex |]. split; [| split; [| split]].
  - apply (links_frame_ctl m m' bs _ lst Hc Ht Hd HL Hnode).
  - apply (links_frame_phys m m' bs _ lst Hph Hd HL Hnode).
  - exact Hl1.
  - apply (links_frame_list m m' bs _ lst lst' l' Hl' Ht Hd HL HL' Hne Hn Hi2).
Qed.

Lemma add_gen m bs lst lst' l a l' :
  ctl_ok e m -> phys e m bs -> is_list e lst -> is_list e lst' ->
  lst' <> lst ->
  list_ok m lst l -> list_ok m lst' l' ->
  NoDup ((a :: l) ++ l') -> incl ((a :: l) ++ l') (addrs bs) ->
  exists m',
    el_add_block_front e lst a m = Ok tt m' /\
    ctl_ok e m' /\ phys e m' bs /\
    list_ok m' lst (a :: l) /\ list_ok m' lst' l'.
Proof.
  intros Hc Hph HL HL' Hne Hl Hl' Hnd Hi.
  pose proof Hph as (Ht & _).
  destruct (NoDup_app_parts _ _ Hnd) as (Hnd1 & Hnd2 & Hdis).
  assert (Hi1 : incl (a :: l) (addrs bs)).
  { intros p Hp. apply Hi, in_or_app. auto. }
  assert (Hi2 : incl l' (addrs bs)).
  { intros p Hp. apply Hi, in_or_app. auto. }
  destruct (add_sem m bs lst l a Hc Hph HL Hl Hnd1 Hi1)
    as (m' & Hex & Hl1 & Hd).
  assert (Hn : forall p, In p (beg_of lst :: a :: l ++ [end_of lst]) ->
             (In p (addrs bs) /\ ~ In p l') \/
             p = beg_of lst \/ p = end_of lst).
  { intros p [<- | Hp]; [auto |]. rewrite app_comm_cons in Hp.
    apply in_app_or in Hp. destruct Hp as [Hp | [<- | []]]; [| auto].
    left. split; [apply Hi1, Hp | apply Hdis, Hp]. }
  assert (Hnode : forall p, In p (beg_of lst :: a :: l ++ [end_of lst]) ->
                  node_of e bs p).
  { intros p Hp. destruct (Hn p Hp) as [(Ha & _) | Hs]; [left; exact Ha |].
    right. exists lst. auto. }
  exists m'. split; [exact Hex |]. split; [| split; [| split]].
  - apply (links_frame_ctl m m' bs _ lst Hc Ht Hd HL Hnode).
  - apply (links_frame_phys m m' bs _ lst Hph Hd HL Hnode).
  - exact Hl1.
  - apply (links_frame_list m m' bs _ lst lst' l' Hl' Ht Hd HL HL' Hne Hn Hi2).
Qed.

Lemma pre_remove_avail m bs l1 a l2 lu :
  heap_pre e m bs (l1 ++ a :: l2) lu ->
  exists m',
    el_remove_block e (avail_list e) a m = Ok tt m' /\
    heap_pre e m' bs (l1 ++ l2) lu.
Proof.
  intros (Hc & Hph & Hla & Hlu & Hnd & Hi).
  destruct (remove_gen m bs (avail_list e) (used_list e) l1 a l2 lu)
    as (m' & Hex & Hc' & Hph' & Hla' & Hlu'); auto.
  - left. reflexivity.
  - right. reflexivity.
  - apply lists_differ.
  - exists m'. split; [exact Hex |]. unfold heap_pre.
    refine (conj Hc' (conj Hph' (conj _ (conj _ (conj _ _)))));
      try assumption.
    + rewrite <- app_assoc in Hnd |- *. simpl in Hnd.
      apply NoDup_remove_1 in Hnd. exact Hnd.
    + intros p Hp. apply Hi. apply in_app_or in Hp. apply in_or_app.
      destruct Hp as [Hp | Hp]; [left | auto].
      apply in_app_or in Hp. apply in_or_app. simpl. tauto.
Qed.

Lemma pre_remove_used m bs la l1 a l2 :
  heap_pre e m bs la (l1 ++ a :: l2) ->
  exists m',
    el_remove_block e (used_list e) a m = Ok tt m' /\
    heap_pre e m' bs la (l1 ++ l2).
Proof.
  intros (Hc & Hph & Hla & Hlu & Hnd & Hi).
  destruct (remove_gen m bs (used_list e) (avail_list e) l1 a l2 la)
    as (m' & Hex & Hc' & Hph' & Hlu' & Hla'); auto.
  - right. reflexivity.
  - left. reflexivity.
  - intros Heq. apply lists_differ. symmetry. exact Heq.
  - apply (Permutation_NoDup (Permutation_app_comm _ _) Hnd).
  - intros p Hp. apply Hi. apply in_app_or in Hp. apply in_or_app. tauto.
  - exists m'. split; [exact Hex |]. unfold heap_pre.
    refine (conj Hc' (conj Hph' (conj _ (conj _ (conj _ _)))));
      try assumption.
    + rewrite app_assoc in Hnd |- *. apply NoDup_remove_1 in Hnd. exact Hnd.
    + intros p Hp. apply Hi. apply in_app_or in Hp. apply in_or_app.
      destruct Hp as [Hp | Hp]; [auto | right].
      apply in_app_or in Hp. apply in_or_app. simpl. tauto.
Qed.

Lemma pre_add_avail m bs la lu a :
  heap_pre e m bs la lu -> In a (addrs bs) -> ~ In a (la ++ lu) ->
  exists m',
    el_add_block_front e (avail_list e) a m = Ok tt m' /\
    heap_pre e m' bs (a :: la) lu.
Proof.
  intros (Hc & Hph & Hla & Hlu & Hnd & Hi) Ha Hna.
  destruct (add_gen m bs (avail_list e) (used_list e) la a lu)
    as (m' & Hex & Hc' & Hph' & Hla' & Hlu'); auto.
  - left. reflexivity.
  - right. reflexivity.
  - apply lists_differ.
  - simpl. constructor; assumption.
  - intros p [<- | Hp]; [exact Ha | apply Hi, Hp].
  - exists m'. split; [exact Hex |]. unfold heap_pre.
    refine (conj Hc' (conj Hph' (conj _ (conj _ (conj _ _)))));
      try assumption.
    + simpl. constructor; assumption.
    + intros p [<- | Hp]; [exact Ha | apply Hi, Hp].
Qed.

Lemma pre_add_used m bs la lu a :
  heap_pre e m bs la lu -> In a (addrs bs) -> ~ In a (la ++ lu) ->
  exists m',
    el_add_block_front e (used_list e) a m = Ok tt m' /\
    heap_pre e m' bs la (a :: lu).
Proof.
  intros (Hc & Hph & Hla & Hlu & Hnd & Hi) Ha Hna.
  assert (Hnd' : NoDup ((a :: lu) ++ la)).
  { simpl. constructor.
    - intros Hin. apply Hna. apply in_app_or in Hin. apply in_or_app. tauto.
    - apply (Permutation_NoDup (Permutation_app_comm _ _) Hnd). }
  destruct (add_gen m bs (used_list e) (avail_list e) lu a la)
    as (m' & Hex & Hc' & Hph' & Hlu' & Hla'); auto.
  - right. reflexivity.
  - left. reflexivity.
  - intros Heq. apply lists_differ. symmetry. exact Heq.
  - intros p [<- | Hp]; [exact Ha |]. apply Hi. apply in_app_or in Hp.
    apply in_or_app. tauto.
  - exists m'. split; [exact Hex |]. unfold heap_pre.
    refine (conj Hc' (conj Hph' (conj _ (conj _ (conj _ _)))));
      try assumption.
    + apply (Permutation_NoDup (Permutation_app_comm _ _)).
      simpl. exact Hnd'.
    + intros p Hp. apply in_app_or in Hp. destruct Hp as [Hp | [<- | Hp]].
      * apply Hi, in_or_app. auto.
      * exact Ha.
      * apply Hi, in_or_app. auto.
Qed.

(** ** What writes inside one block's extent leave alone *)

Lemma block_ok_outside m m' (W : Z -> Prop) lo s hi :
  tiled lo s hi -> Forall (block_ok m) s -> differ_only m m' W ->
  (forall x, W x -> x < lo \/ hi <= x) -> Forall (block_ok m') s.
Proof.
  intros Ht Hb Hd HW. rewrite Forall_forall in *. intros b Hin.
  destruct (tiled_in _ _ _ _ Ht Hin) as (H1 & H2 & H3).
  apply (block_ok_frame m m' W b (Hb b Hin) Hd); [| exact H2].
  intros x Hw. specialize (HW x Hw). unfold meta_bytes. unf. lia.
Qed.

Lemma extent_frame m m' a sz la lu :
  ctl_ok e m -> list_ok m (avail_list e) la -> list_ok m (used_list e) lu ->
  differ_only m m' (extent_bytes a sz) ->
  heap_base <= a -> a + sz + EL_BLOCK_OVERHEAD <= heap_base + heap_size ->
  (forall q, In q (la ++ lu) ->
     q + EL_BLOCK_OVERHEAD <= a \/ a + sz + EL_BLOCK_OVERHEAD <= q) ->
  ctl_ok e m' /\ list_ok m' (avail_list e) la /\ list_ok m' (used_list e) lu.
Proof.
  intros Hc Hla Hlu Hd Ha1 Ha2 Hq.
  pose proof He as (E1 & E2 & E3 & E4 & E5 & E6).
  split; [| split].
  - apply (ctl_ok_frame m m' _ Hc Hd). intros x Hx.
    unfold extent_bytes in Hx. unfold ctl_ptr_bytes. unf. lia.
  - apply (list_ok_frame m m' _ _ _ Hla Hd). intros x Hx.
    unfold extent_bytes in Hx. unfold list_bytes, counter_bytes.
    intros [Hb | [Hb | [Hb | (q & Hin & Hb)]]]; try (unf; lia).
    specialize (Hq q (in_or_app _ _ _ (or_introl Hin))). unf. lia.
  - apply (list_ok_frame m m' _ _ _ Hlu Hd). intros x Hx.
    unfold extent_bytes in Hx. unfold list_bytes, counter_bytes.
    intros [Hb | [Hb | [Hb | (q & Hin & Hb)]]]; try (unf; lia).
    specialize (Hq q (in_or_app _ _ _ (or_intror Hin))). unf. lia.
Qed.

(** Nodes other than [a] lie outside the extent of block [a]. *)
Lemma nodes_outside s1 b s2 l :
  tiled heap_base (s1 ++ b :: s2) (heap_base + heap_size) ->
  incl l (addrs (s1 ++ b :: s2)) -> ~ In (b_addr b) l ->
  forall q, In q l ->
    q + EL_BLOCK_OVERHEAD <= b_addr b \/
    b_addr b + b_size b + EL_BLOCK_OVERHEAD <= q.
Proof.
  intros Ht Hi Hn q Hq.
  assert (Hqa : In q (addrs (s1 ++ b :: s2))) by (apply Hi, Hq).
  apply addrs_in in Hqa. destruct Hqa as (c & Hc & <-).
  assert (Hb : In b (s1 ++ b :: s2)) by (apply in_or_app; simpl; auto).
  destruct (tiled_in _ _ _ _ Ht Hc) as (_ & Hs & _).
  destruct (tiled_sep _ _ _ _ _ Ht Hc Hb) as [-> | [H | H]].
  - contradiction.
  - left. unf. lia.
  - right. exact H.
Qed.

Lemma addrs_app s1 s2 : addrs (s1 ++ s2) = addrs s1 ++ addrs s2.
Proof. unfold addrs. apply map_app. Qed.

(** ** Changing the state of a block that is in no list *)

Lemma pre_set_state m s1 a sz st s2 la lu st' :
  heap_pre e m (s1 ++ mkBlock a sz st :: s2) la lu ->
  ~ In a (la ++ lu) -> 0 <= st' < 256 ->
  exists m',
    set_state e a st' m = Ok tt m' /\
    heap_pre e m' (s1 ++ mkBlock a sz st' :: s2) la lu.
Proof.
  intros (Hc & (Ht & Hb) & Hla & Hlu & Hnd & Hi) Hna Hst.
  pose proof He as (E1 & E2 & E3 & E4 & E5 & E6).
  destruct (tiled_split _ _ _ _ _ Ht) as (Ht1 & Hsz & Ht2). simpl in *.
  pose proof (tiled_le _ _ _ Ht1) as L1. pose proof (tiled_le _ _ _ Ht2) as L2.
  exists (write8 m (a + off_state) st'). split.
  { unfold set_state, store8. rewrite mapped_any by (unf; lia). reflexivity. }
  assert (Hd : differ_only m (write8 m (a + off_state) st') (extent_bytes a sz)).
  { apply differ_only_write8. unfold extent_bytes. unf. lia. }
  assert (Hout := nodes_outside s1 (mkBlock a sz st) s2 (la ++ lu) Ht Hi Hna).
  simpl in Hout.
  destruct (extent_frame m _ a sz la lu Hc Hla Hlu Hd) as (Hc' & Hla' & Hlu');
    [lia | unf; lia | exact Hout |].
  apply Forall_app in Hb. destruct Hb as (Hb1 & Hb2).
  inversion Hb2 as [| ? ? (B1 & B2 & B3) Hb3]; subst. simpl in *.
  unfold heap_pre, phys. refine (conj Hc' (conj (conj _ _) (conj Hla'
    (conj Hlu' (conj Hnd _))))).
  - apply tiled_app. exists a. split; [exact Ht1 |]. simpl. auto.
  - apply Forall_app. split; [| constructor].
    + apply (block_ok_outside m _ _ _ _ _ Ht1 Hb1 Hd).
      unfold extent_bytes. intros x Hx. lia.
    + unfold block_ok. simpl. views. rw. repeat split; try assumption.
      apply Z.mod_small. lia.
    + apply (block_ok_outside m _ _ _ _ _ Ht2 Hb3 Hd).
      unfold extent_bytes. intros x Hx. lia.
  - rewrite addrs_app in *. simpl in *. exact Hi.
Qed.

(** ** Header and footer arithmetic *)

Lemma el_get_footer_ok m head sz :
  size_at m head = sz -> 0 <= sz ->
  heap_base <= head ->
  head + sz + EL_BLOCK_OVERHEAD <= heap_base + heap_size ->
  el_get_footer e head m = Ok (head + sizeof_blockhead + sz) m.
Proof.
  intros Hs H0 H1 H2. pose proof He as (E1 & E2 & E3 & E4 & E5 & E6).
  unfold el_get_footer, get_size. views. step. rewrite Hs.
  unfold ret, PTR_PLUS_BYTES. unwrap. f_equal. unf. lia.
Qed.

Lemma el_block_above_ok m blk sz :
  ctl_ok e m -> size_at m blk = sz -> 0 <= sz ->
  heap_base <= blk ->
  blk + sz + EL_BLOCK_OVERHEAD <= heap_base + heap_size ->
  el_block_above e blk m =
    Ok (if blk + sz + EL_BLOCK_OVERHEAD >=? heap_base + heap_size
        then NULL else blk + sz + EL_BLOCK_OVERHEAD) m.
Proof.
  intros Hc Hs H0 H1 H2. pose proof He as (E1 & E2 & E3 & E4 & E5 & E6).
  destruct Hc as (_ & _ & Hend & _).
  unfold el_block_above, get_size, ctl_heap_end. views. step. rewrite Hs.
  step. rewrite Hend. unfold PTR_PLUS_BYTES. unwrap.
  replace (blk + (sz + EL_BLOCK_OVERHEAD))
    with (blk + sz + EL_BLOCK_OVERHEAD) by lia.
  destruct (blk + sz + EL_BLOCK_OVERHEAD >=? heap_base + heap_size);
    reflexivity.
Qed.

(** ** Splitting a block that is in no list *)

Lemma pre_split m s1 a sz st s2 la lu n :
  heap_pre e m (s1 ++ mkBlock a sz st :: s2) la lu ->
  ~ In a (la ++ lu) -> 0 <= n -> n + EL_BLOCK_OVERHEAD <= sz ->
  exists m' g,
    el_split_block e a n m = Ok (a + n + EL_BLOCK_OVERHEAD) m' /\
    heap_pre e m'
      (s1 ++ mkBlock a n st ::
             mkBlock (a + n + EL_BLOCK_OVERHEAD)
                     (sz - n - EL_BLOCK_OVERHEAD) g :: s2) la lu.
Proof.
  intros (Hc & (Ht & Hb) & Hla & Hlu & Hnd & Hi) Hna Hn0 Hn.
  pose proof He as (E1 & E2 & E3 & E4 & E5 & E6).
  destruct (tiled_split _ _ _ _ _ Ht) as (Ht1 & Hsz & Ht2). simpl in *.
  pose proof (tiled_le _ _ _ Ht1) as L1. pose proof (tiled_le _ _ _ Ht2) as L2.
  apply Forall_app in Hb. destruct Hb as (Hb1 & Hb2).
  inversion Hb2 as [| ? ? (B1 & B2 & B3) Hb3]; subst. simpl in *.
  pose proof Hc as (_ & _ & Hend & _).
  set (m1 := write64 m (a + off_size) n).
  set (m2 := write64 m1 (a + sizeof_blockhead + n) n).
  set (m3 := write64 m2 (a + n + EL_BLOCK_OVERHEAD + off_size)
                     (sz - n - EL_BLOCK_OVERHEAD)).
  set (m4 := write64 m3 (a + n + EL_BLOCK_OVERHEAD + sizeof_blockhead
                          + (sz - n - EL_BLOCK_OVERHEAD))
                     (sz - n - EL_BLOCK_OVERHEAD)).
  assert (Hex : el_split_block e a n m = Ok (a + n + EL_BLOCK_OVERHEAD) m4).
  { unfold el_split_block, get_size, set_size. views.
    step. step. rewrite B1.
    replace (sz <? wrap (n + EL_BLOCK_OVERHEAD)) with false
      by (symmetry; apply Z.ltb_ge; unwrap; lia).
    step. fold m1.
    assert (C1 : ctl_ok e m1 /\ size_at m1 a = n).
    { split.
      - apply (ctl_ok_frame m m1 (extent_bytes a sz) Hc).
        + apply differ_only_write64. unfold extent_bytes. intros. unf. lia.
        + unfold extent_bytes, ctl_ptr_bytes. intros. unf. lia.
      - unfold m1. views. rw. unwrap. reflexivity. }
    destruct C1 as (Hc1 & Hs1).
    rewrite (bind_ok _ _ _ _ _ (el_get_footer_ok m1 a n Hs1 Hn0 ltac:(lia)
               ltac:(unf; lia))).
    step. fold m2.
    assert (C2 : ctl_ok e m2 /\ size_at m2 a = n).
    { split.
      - apply (ctl_ok_frame m1 m2 (extent_bytes a sz) Hc1).
        + apply differ_only_write64. unfold extent_bytes. intros. unf. lia.
        + unfold extent_bytes, ctl_ptr_bytes. intros. unf. lia.
      - unfold m2. views. rw. exact Hs1. }
    destruct C2 as (Hc2 & Hs2).
    rewrite (bind_ok _ _ _ _ _ (el_block_above_ok m2 a n Hc2 Hs2 Hn0
               ltac:(lia) ltac:(unf; lia))).
    replace (a + n + EL_BLOCK_OVERHEAD >=? heap_base + heap_size) with false
      by (symmetry; apply geb_false; unf; lia).
    unwrap. step. fold m3.
    assert (Hs3 : size_at m3 (a + n + EL_BLOCK_OVERHEAD)
                  = sz - n - EL_BLOCK_OVERHEAD).
    { unfold m3. views. rw. unwrap. reflexivity. }
    rewrite (bind_ok _ _ _ _ _ (el_get_footer_ok m3 _ _ Hs3 ltac:(lia)
               ltac:(unf; lia) ltac:(unf; lia))).
    step. reflexivity. }
  exists m4, (state_at m4 (a + n + EL_BLOCK_OVERHEAD)).
  split; [exact Hex |].
  assert (Hd : differ_only m m4 (extent_bytes a sz)).
  { unfold m4, m3, m2, m1.
    repeat (eapply differ_only_trans;
            [| apply differ_only_write64; intros x Hx]);
      [apply differ_only_refl | | | |]; unfold extent_bytes; unf; lia. }
  assert (Hout := nodes_outside s1 (mkBlock a sz st) s2 (la ++ lu) Ht Hi Hna).
  simpl in Hout.
  destruct (extent_frame m _ a sz la lu Hc Hla Hlu Hd) as (Hc' & Hla' & Hlu');
    [lia | unf; lia | exact Hout |].
  unfold heap_pre, phys. refine (conj Hc' (conj (conj _ _) (conj Hla'
    (conj Hlu' (conj Hnd _))))).
  - apply tiled_app. exists a. split; [exact Ht1 |]. simpl.
    repeat split; try lia.
    replace (a + n + EL_BLOCK_OVERHEAD + (sz - n - EL_BLOCK_OVERHEAD)
             + EL_BLOCK_OVERHEAD) with (a + sz + EL_BLOCK_OVERHEAD) by lia.
    exact Ht2.
  - apply Forall_app. split; [| constructor; [| constructor]].
    + apply (block_ok_outside m _ _ _ _ _ Ht1 Hb1 Hd).
      unfold extent_bytes. intros x Hx. lia.
    + unfold block_ok. simpl. unfold m4, m3, m2, m1. views. rw. unwrap.
      repeat split; assumption.
    + unfold block_ok. simpl. repeat split.
      * unfold m4, m3, m2, m1. views. rw. unwrap. reflexivity.
      * unfold m4, m3, m2, m1. views. rw. unwrap. reflexivity.
    + apply (block_ok_outside m _ _ _ _ _ Ht2 Hb3 Hd).
      unfold extent_bytes. intros x Hx. lia.
  - rewrite addrs_app in *. simpl in *. intros p Hp.
    specialize (Hi p Hp). apply in_app_or in Hi. apply in_or_app.
    simpl in *. tauto.
Qed.

(** ** First-fit search *)

Lemma first_fit_some m bound l a :
  first_fit m bound l = a -> a <> NULL ->
  exists l1 l2, l = l1 ++ a :: l2 /\ bound <= size_at m a /\
                (forall p, In p l1 -> size_at m p < bound).
Proof.
  induction l as [| y r IH]; simpl; intros H Ha.
  - congruence.
  - destruct (size_at m y >=? bound) eqn:E.
    + subst a. exists [], r. rewrite Z.geb_leb in E. apply Z.leb_le in E.
      repeat split; [exact E | intros p []].
    + destruct (IH H Ha) as (l1 & l2 & -> & Hb & Hp).
      exists (y :: l1), l2. repeat split; [exact Hb |].
      intros p [<- | Hin]; [| apply Hp, Hin].
      rewrite Z.geb_leb in E. apply Z.leb_gt in E. exact E.
Qed.

Lemma first_fit_none m bound l :
  first_fit m bound l = NULL -> (forall p, In p l -> p <> NULL) ->
  forall p, In p l -> size_at m p < bound.
Proof.
  induction l as [| y r IH]; simpl; intros H Hn p Hp; [contradiction |].
  destruct (size_at m y >=? bound) eqn:E.
  - exfalso. apply (Hn y); auto.
  - destruct Hp as [<- | Hp].
    + rewrite Z.geb_leb in E. apply Z.leb_gt in E. exact E.
    + apply IH; auto.
Qed.

Lemma find_loop_ok m n l : forall x fuel,
  ctl_ok e m -> linked m x l (end_of (avail_list e)) ->
  (forall p, In p l ->
     heap_base <= p /\ p + EL_BLOCK_OVERHEAD <= heap_base + heap_size) ->
  (length l < fuel)%nat ->
  find_loop e fuel n (next_at m x) m
  = Ok (first_fit m (wrap (n + EL_BLOCK_OVERHEAD)) l) m.
Proof.
  pose proof He as (E1 & E2 & E3 & E4 & E5 & E6).
  induction l as [| y r IH]; intros x fuel Hc Hl Hr Hf.
  - destruct fuel as [| f]; [simpl in Hf; lia |].
    simpl in Hl. destruct Hl as (Hn & _). rewrite Hn.
    pose proof Hc as (_ & _ & _ & Hav & _ & _ & Hen & _).
    simpl. unfold ctl_avail, get_end. step. rewrite Hav. step. rewrite Hen.
    rewrite Z.eqb_refl. reflexivity.
  - destruct fuel as [| f]; [simpl in Hf; lia |].
    simpl in Hl. destruct Hl as (Hn & _ & Hl). rewrite Hn.
    pose proof Hc as (_ & _ & _ & Hav & _ & _ & Hen & _).
    pose proof (Hr y (or_introl eq_refl)) as Ry.
    simpl find_loop. unfold ctl_avail, get_end, get_size, get_next.
    step. rewrite Hav. step. rewrite Hen.
    replace (y =? end_of (avail_list e)) with false
      by (symmetry; apply Z.eqb_neq; unf; lia).
    step. simpl first_fit. unfold size_at.
    destruct (read64 m (y + off_size) >=? wrap (n + EL_BLOCK_OVERHEAD)).
    + reflexivity.
    + step. apply IH; auto.
      * intros p Hp. apply Hr. right. exact Hp.
      * simpl in Hf. lia.
Qed.

Lemma el_find_first_avail_ok m bs la lu fuel n :
  heap_pre e m bs la lu -> (length la < fuel)%nat ->
  el_find_first_avail e fuel n m
  = Ok (first_fit m (wrap (n + EL_BLOCK_OVERHEAD)) la) m.
Proof.
  intros (Hc & (Ht & _) & (Hl & _) & _ & _ & Hi) Hf.
  pose proof He as (E1 & E2 & E3 & E4 & E5 & E6).
  pose proof Hc as (_ & _ & _ & Hav & _ & Hbeg & _).
  unfold el_find_first_avail, ctl_avail, get_beg, get_next.
  step. rewrite Hav. step. rewrite Hbeg. step.
  apply (find_loop_ok m n la (beg_of (avail_list e)) fuel Hc Hl); auto.
  intros p Hp. apply (addrs_range _ _ Ht), Hi, in_or_app. auto.
Qed.

(** ** Membership bookkeeping *)

Lemma members_app st s1 s2 :
  members st (s1 ++ s2) = members st s1 ++ members st s2.
Proof. unfold members. rewrite filter_app. apply addrs_app. Qed.

Lemma members_incl st bs : incl (members st bs) (addrs bs).
Proof.
  unfold members, addrs. intros p Hp. apply in_map_iff in Hp.
  destruct Hp as (b & <- & Hb). apply filter_In in Hb. apply in_map, Hb.
Qed.

Lemma members_in st bs p :
  In p (members st bs) <-> exists b, In b bs /\ b_addr b = p /\ b_state b = st.
Proof.
  unfold members, addrs. rewrite in_map_iff. split.
  - intros (b & <- & Hb). apply filter_In in Hb. destruct Hb as (Hb & Hs).
    apply Z.eqb_eq in Hs. exists b. auto.
  - intros (b & Hb & <- & Hs). exists b. split; [reflexivity |].
    apply filter_In. split; [exact Hb | apply Z.eqb_eq, Hs].
Qed.

Lemma members_cons_same st a sz s :
  members st (mkBlock a sz st :: s) = a :: members st s.
Proof. unfold members. simpl. rewrite Z.eqb_refl. reflexivity. Qed.

Lemma members_cons_other st st' a sz s :
  st' <> st -> members st (mkBlock a sz st' :: s) = members st s.
Proof.
  intros H. unfold members. simpl.
  replace (st' =? st) with false by (symmetry; apply Z.eqb_neq; exact H).
  reflexivity.
Qed.

Lemma members_NoDup bs st1 st2 :
  NoDup (addrs bs) -> st1 <> st2 ->
  NoDup (members st1 bs ++ members st2 bs).
Proof.
  intros Hnd Hne. induction bs as [| [a sz st] r IH]; [constructor |].
  simpl in Hnd. inversion Hnd as [| ? ? Ha Hr]; subst. specialize (IH Hr).
  assert (Hnot : ~ In a (members st1 r ++ members st2 r)).
  { intros Hin. apply Ha. apply in_app_or in Hin.
    destruct Hin as [Hin | Hin]; apply (members_incl _ _ _ Hin). }
  destruct (Z.eq_dec st st1) as [-> | N1].
  - rewrite members_cons_same, (members_cons_other st2 st1) by exact Hne.
    simpl. constructor; assumption.
  - destruct (Z.eq_dec st st2) as [-> | N2].
    + rewrite members_cons_same, (members_cons_other st1 st2) by exact N1.
      apply (Permutation_NoDup (Permutation_middle _ _ _)).
      constructor; assumption.
    + rewrite !members_cons_other by assumption. exact IH.
Qed.

Lemma states_differ : EL_AVAILABLE <> EL_USED.
Proof. unfold EL_AVAILABLE, EL_USED. lia. Qed.

Lemma heap_rep_pre m bs la lu :
  heap_rep e m bs la lu -> heap_pre e m bs la lu.
Proof.
  intros (Hc & Hph & Hst & Hla & Hlu & Pa & Pu).
  pose proof Hph as (Ht & _).
  unfold heap_pre. refine (conj Hc (conj Hph (conj Hla (conj Hlu
    (conj _ _))))).
  - apply (Permutation_NoDup (l := members EL_AVAILABLE bs
                                    ++ members EL_USED bs)).
    + apply Permutation_app; symmetry; assumption.
    + apply members_NoDup; [apply (tiled_NoDup _ _ _ Ht) |].
      apply states_differ.
  - intros p Hp. apply in_app_or in Hp. destruct Hp as [Hp | Hp].
    + apply (members_incl EL_AVAILABLE). apply (Permutation_in _ Pa Hp).
    + apply (members_incl EL_USED). apply (Permutation_in _ Pu Hp).
Qed.

(** ** Allocation on a well-formed heap *)

Lemma block_ok_mid m s1 b s2 :
  Forall (block_ok m) (s1 ++ b :: s2) -> block_ok m b.
Proof.
  intros H. rewrite Forall_forall in H. apply H, in_or_app. simpl. auto.
Qed.

Lemma block_ok_mid2 m s1 b c s2 :
  Forall (block_ok m) (s1 ++ b :: c :: s2) -> block_ok m c.
Proof.
  intros H. rewrite Forall_forall in H. apply H, in_or_app. simpl. auto.
Qed.

Lemma pre_ctl m bs la lu : heap_pre e m bs la lu -> ctl_ok e m.
Proof. intros (H & _). exact H. Qed.

Lemma ctl_avail_ok m :
  ctl_ok e m -> ctl_avail e m = Ok (avail_list e) m.
Proof.
  intros (_ & _ & _ & H & _). pose proof He as (E1 & E2 & E3 & E4 & E5 & E6).
  unfold ctl_avail. rewrite load64_ok by mp. rewrite H. reflexivity.
Qed.

Lemma ctl_used_ok m :
  ctl_ok e m -> ctl_used e m = Ok (used_list e) m.
Proof.
  intros (_ & _ & _ & _ & H & _). pose proof He as (E1 & E2 & E3 & E4 & E5 & E6).
  unfold ctl_used. rewrite load64_ok by mp. rewrite H. reflexivity.
Qed.

Lemma in_rep_avail m bs la lu a :
  heap_rep e m bs la lu -> In a la ->
  exists s1 sz s2, bs = s1 ++ mkBlock a sz EL_AVAILABLE :: s2 /\
                   size_at m a = sz.
Proof.
  intros (_ & (_ & Hb) & _ & _ & _ & Pa & _) Ha.
  apply (Permutation_in _ Pa) in Ha. apply members_in in Ha.
  destruct Ha as ([a' sz st] & Hin & Haddr & Hst). simpl in *. subst.
  destruct (in_split _ _ Hin) as (s1 & s2 & ->).
  exists s1, sz, s2. split; [reflexivity |].
  rewrite Forall_forall in Hb. apply (Hb _ Hin).
Qed.

Lemma in_rep_used m bs la lu a :
  heap_rep e m bs la lu -> In a lu ->
  exists s1 sz s2, bs = s1 ++ mkBlock a sz EL_USED :: s2 /\
                   size_at m a = sz.
Proof.
  intros (_ & (_ & Hb) & _ & _ & _ & _ & Pu) Ha.
  apply (Permutation_in _ Pu) in Ha. apply members_in in Ha.
  destruct Ha as ([a' sz st] & Hin & Haddr & Hst). simpl in *. subst.
  destruct (in_split _ _ Hin) as (s1 & s2 & ->).
  exists s1, sz, s2. split; [reflexivity |].
  rewrite Forall_forall in Hb. apply (Hb _ Hin).
Qed.

(** An address strictly inside a block's extent is no block header. *)
Lemma inner_not_addr s1 b s2 x lo hi :
  tiled lo (s1 ++ b :: s2) hi ->
  b_addr b < x < b_addr b + b_size b + EL_BLOCK_OVERHEAD ->
  ~ In x (addrs (s1 ++ b :: s2)).
Proof.
  intros Ht Hx Hin. apply addrs_in in Hin. destruct Hin as (c & Hc & <-).
  assert (Hb : In b (s1 ++ b :: s2)) by (apply in_or_app; simpl; auto).
  destruct (tiled_in _ _ _ _ Ht Hc) as (_ & Hs & _).
  destruct (tiled_sep _ _ _ _ _ Ht Hc Hb) as [-> | [H | H]]; unf; lia.
Qed.

Lemma rep_block_state m s1 a sz st s2 la lu :
  heap_rep e m (s1 ++ mkBlock a sz st :: s2) la lu ->
  size_at m a = sz /\
  (In a la -> st = EL_AVAILABLE) /\ (In a lu -> st = EL_USED).
Proof.
  intros (_ & (Ht & Hb) & _ & _ & _ & Pa & Pu).
  assert (Hin : In (mkBlock a sz st) (s1 ++ mkBlock a sz st :: s2)).
  { apply in_or_app. simpl. auto. }
  split; [apply (block_ok_mid _ _ _ _ Hb) | split]; intros Ha.
  - apply (Permutation_in _ Pa) in Ha. apply members_in in Ha.
    destruct Ha as (b & Hbin & Haddr & Hst).
    rewrite (tiled_addr_inj _ _ _ _ _ Ht Hbin Hin Haddr) in Hst. exact Hst.
  - apply (Permutation_in _ Pu) in Ha. apply members_in in Ha.
    destruct Ha as (b & Hbin & Haddr & Hst).
    rewrite (tiled_addr_inj _ _ _ _ _ Ht Hbin Hin Haddr) in Hst. exact Hst.
Qed.

Lemma malloc_at m s1 a sz st s2 la lu fuel n :
  heap_rep e m (s1 ++ mkBlock a sz st :: s2) la lu -> 0 <= n ->
  n + EL_BLOCK_OVERHEAD < 18446744073709551616 ->
  (length la < fuel)%nat ->
  first_fit m (n + EL_BLOCK_OVERHEAD) la = a -> a <> NULL ->
  exists l1 l2 m',
    st = EL_AVAILABLE /\
    la = l1 ++ a :: l2 /\
    (forall p, In p l1 -> size_at m p < n + EL_BLOCK_OVERHEAD) /\
    n + EL_BLOCK_OVERHEAD <= sz /\
    el_malloc e fuel n m = Ok (a + sizeof_blockhead) m' /\
    heap_rep e m'
      (s1 ++ mkBlock a n EL_USED ::
             mkBlock (a + n + EL_BLOCK_OVERHEAD)
                     (sz - n - EL_BLOCK_OVERHEAD) EL_AVAILABLE :: s2)
      ((a + n + EL_BLOCK_OVERHEAD) :: l1 ++ l2) (a :: lu).
Proof.
  intros Hrep Hn0 Hn Hf Hff Ha.
  pose proof He as (E1 & E2 & E3 & E4 & E5 & E6).
  destruct (first_fit_some _ _ _ _ Hff Ha) as (l1 & l2 & -> & Hbound & Hl1).
  destruct (rep_block_state _ _ _ _ _ _ _ _ Hrep) as (Hsz & Hav & _).
  assert (Est : st = EL_AVAILABLE).
  { apply Hav. apply in_or_app. simpl. auto. }
  subst st.
  pose proof (heap_rep_pre _ _ _ _ Hrep) as Hpre.
  rewrite Hsz in Hbound.
  exists l1, l2.
  pose proof Hrep as (_ & (Ht & _) & Hst & _ & _ & Pa & Pu).
  destruct (tiled_split _ _ _ _ _ Ht) as (Ht1 & Hsz0 & Ht2). simpl in *.
  pose proof (tiled_le _ _ _ Ht1) as L1. pose proof (tiled_le _ _ _ Ht2) as L2.
  pose proof Hpre as (_ & _ & _ & _ & Hnd & Hi).
  assert (Hna : ~ In a ((l1 ++ l2) ++ lu)).
  { rewrite <- app_assoc in Hnd |- *. apply NoDup_remove_2 in Hnd. exact Hnd. }
  assert (Hi0 : incl ((l1 ++ l2) ++ lu)
                  (addrs (s1 ++ mkBlock a sz EL_AVAILABLE :: s2))).
  { intros p Hp. apply Hi. apply in_app_or in Hp. apply in_or_app.
    destruct Hp as [Hp | Hp]; [left | auto].
    apply in_app_or in Hp. apply in_or_app. simpl. tauto. }
  set (a' := a + n + EL_BLOCK_OVERHEAD) in *.
  assert (Hna' : ~ In a' (addrs (s1 ++ mkBlock a sz EL_AVAILABLE :: s2))).
  { apply (inner_not_addr _ _ _ _ _ _ Ht). simpl. unfold a'. unf. lia. }
  (* the steps of el_malloc *)
  pose proof (el_find_first_avail_ok m _ _ _ fuel n Hpre Hf) as Hfind.
  rewrite (wrap_small (n + EL_BLOCK_OVERHEAD)) in Hfind by (unf; lia).
  rewrite Hff in Hfind.
  destruct (pre_remove_avail m _ l1 a l2 lu Hpre) as (m1 & Hex1 & Hpre1).
  destruct (pre_split m1 s1 a sz EL_AVAILABLE s2 _ lu n Hpre1 Hna Hn0 Hbound)
    as (m2 & g & Hex2 & Hpre2). fold a' in Hex2, Hpre2.
  destruct (pre_set_state m2 s1 a n EL_AVAILABLE _ _ lu EL_USED Hpre2 Hna)
    as (m3 & Hex3 & Hpre3); [unfold EL_USED; lia |].
  destruct (pre_add_used m3 _ _ lu a Hpre3) as (m4 & Hex4 & Hpre4).
  { rewrite addrs_app. apply in_or_app. simpl. auto. }
  { exact Hna. }
  assert (Hpre4' : heap_pre e m4
            ((s1 ++ [mkBlock a n EL_USED]) ++
             mkBlock a' (sz - n - EL_BLOCK_OVERHEAD) g :: s2)
            (l1 ++ l2) (a :: lu)).
  { rewrite <- app_assoc. exact Hpre4. }
  assert (Hna4 : ~ In a' ((l1 ++ l2) ++ a :: lu)).
  { intros Hin. apply in_app_or in Hin. destruct Hin as [Hin | [Hin | Hin]].
    - apply Hna', Hi0, in_or_app. auto.
    - unfold a' in Hin. unf. lia.
    - apply Hna', Hi0, in_or_app. auto. }
  destruct (pre_set_state m4 _ a' _ g s2 _ _ EL_AVAILABLE Hpre4' Hna4)
    as (m5 & Hex5 & Hpre5); [unfold EL_AVAILABLE; lia |].
  rewrite <- app_assoc in Hpre5. simpl in Hpre5.
  destruct (pre_add_avail m5 _ _ _ a' Hpre5) as (m6 & Hex6 & Hpre6).
  { rewrite addrs_app. apply in_or_app. simpl. auto. }
  { exact Hna4. }
  exists m6. split; [reflexivity |]. split; [reflexivity |].
  split; [exact Hl1 |]. split; [exact Hbound |]. split.
  - unfold el_malloc.
    rewrite (bind_ok _ _ _ _ _ Hfind).
    replace (a =? NULL) with false by (symmetry; apply Z.eqb_neq; exact Ha).
    rewrite (bind_ok _ _ _ _ _ (ctl_avail_ok m (pre_ctl _ _ _ _ Hpre))).
    rewrite (bind_ok _ _ _ _ _ Hex1).
    rewrite (bind_ok _ _ _ _ _ Hex2).
    replace (a' =? NULL) with false
      by (symmetry; apply Z.eqb_neq; unfold a'; unf; lia).
    change (negb false) with true. cbv iota.
    rewrite (bind_ok _ _ _ _ _ Hex3).
    rewrite (bind_ok _ _ _ _ _ (ctl_used_ok m3 (pre_ctl _ _ _ _ Hpre3))).
    rewrite (bind_ok _ _ _ _ _ Hex4).
    rewrite (bind_ok _ _ _ _ _ Hex5).
    rewrite (bind_ok _ _ _ _ _ (ctl_avail_ok m5 (pre_ctl _ _ _ _ Hpre5))).
    rewrite (bind_ok _ _ _ _ _ Hex6).
    unfold ret, PTR_PLUS_BYTES. unwrap. reflexivity.
  - destruct Hpre6 as (Hc6 & Hph6 & Hla6 & Hlu6 & _).
    unfold heap_rep. refine (conj Hc6 (conj Hph6 (conj _ (conj Hla6
      (conj Hlu6 (conj _ _)))))).
    + apply Forall_app in Hst. destruct Hst as (Hst1 & Hst2).
      inversion Hst2; subst. apply Forall_app. split; [assumption |].
      constructor; [right; reflexivity |].
      constructor; [left; reflexivity | assumption].
    + rewrite members_app in Pa |- *.
      rewrite members_cons_same in Pa.
      rewrite (members_cons_other EL_AVAILABLE EL_USED)
        by (intros Heq; symmetry in Heq; exact (states_differ Heq)).
      rewrite members_cons_same.
      apply Permutation_app_inv in Pa.
      apply Permutation_cons_app. exact Pa.
    + rewrite members_app in Pu |- *.
      rewrite (members_cons_other EL_USED EL_AVAILABLE) in Pu
        by apply states_differ.
      rewrite members_cons_same.
      rewrite (members_cons_other EL_USED EL_AVAILABLE)
        by apply states_differ.
      apply Permutation_cons_app. exact Pu.
Qed.

(** ** When allocation reports no memory *)

Lemma mapped_nonnull a n : mapped e a n = true -> 0 <= n -> a > 0.
Proof.
  intros H Hn. pose proof He as (E1 & E2 & E3 & E4 & E5 & E6).
  apply mapped_inv in H. lia.
Qed.

(** Whatever [el_split_block] returns once its size test has passed is
    the address it has just stored a header at. *)
Lemma split_not_null m a n r m' :
  heap_base <= a -> a + EL_BLOCK_OVERHEAD <= heap_base + heap_size ->
  wrap (n + EL_BLOCK_OVERHEAD) <= size_at m a ->
  el_split_block e a n m = Ok r m' -> r <> NULL.
Proof.
  intros H1 H2 Hs H. pose proof He as (E1 & E2 & E3 & E4 & E5 & E6).
  unfold el_split_block, get_size, set_size in H. views.
  rewrite bind_load64 in H by mp. rewrite bind_load64 in H by mp.
  replace (read64 m (a + off_size) <? wrap (n + EL_BLOCK_OVERHEAD))
    with false in H by (symmetry; apply Z.ltb_ge; exact Hs).
  rewrite bind_store64 in H by mp.
  apply bind_inv in H. destruct H as (foot & m1 & _ & H).
  apply bind_inv in H. destruct H as (u1 & m2 & _ & H).
  apply bind_inv in H. destruct H as (nb & m3 & _ & H).
  apply bind_inv in H. destruct H as (u2 & m4 & Hst & H).
  apply bind_inv in H. destruct H as (nf & m5 & _ & H).
  apply bind_inv in H. destruct H as (u3 & m6 & _ & H).
  apply ret_inv in H. destruct H as (-> & _).
  apply store64_inv in Hst. destruct Hst as (Hm & _).
  apply mapped_nonnull in Hm; [| lia]. unf. lia.
Qed.

Lemma malloc_null m bs la lu fuel n m' :
  heap_rep e m bs la lu -> (length la < fuel)%nat ->
  el_malloc e fuel n m = Ok NULL m' ->
  m' = m /\ first_fit m (wrap (n + EL_BLOCK_OVERHEAD)) la = NULL.
Proof.
  intros Hrep Hf H. pose proof He as (E1 & E2 & E3 & E4 & E5 & E6).
  pose proof (heap_rep_pre _ _ _ _ Hrep) as Hpre.
  pose proof (el_find_first_avail_ok m _ _ _ fuel n Hpre Hf) as Hfind.
  unfold el_malloc in H. rewrite (bind_ok _ _ _ _ _ Hfind) in H.
  remember (first_fit m (wrap (n + EL_BLOCK_OVERHEAD)) la) as a eqn:Hff.
  symmetry in Hff.
  destruct (a =? NULL) eqn:Ea.
  - apply ret_inv in H. destruct H as (_ & ->).
    apply Z.eqb_eq in Ea. auto.
  - exfalso. apply Z.eqb_neq in Ea.
    destruct (first_fit_some m _ la a Hff Ea) as (l1 & l2 & Hla & Hb & _).
    subst la.
    assert (Ra : heap_base <= a /\
                 a + EL_BLOCK_OVERHEAD <= heap_base + heap_size).
    { destruct Hpre as (_ & (Ht & _) & _ & _ & _ & Hi).
      apply (addrs_range _ _ Ht), Hi, in_or_app. left.
      apply in_or_app. simpl. auto. }
    rewrite (bind_ok _ _ _ _ _ (ctl_avail_ok m (pre_ctl _ _ _ _ Hpre))) in H.
    destruct (pre_remove_avail m _ l1 a l2 lu Hpre) as (m1 & Hex1 & Hpre1).
    rewrite (bind_ok _ _ _ _ _ Hex1) in H.
    assert (Hsz1 : size_at m1 a = size_at m a).
    { destruct (in_rep_avail m bs _ lu a Hrep) as (s1 & sz & s2 & -> & Hsz).
      { apply in_or_app. simpl. auto. }
      destruct Hpre1 as (_ & (_ & Hb1) & _).
      rewrite Forall_forall in Hb1.
      destruct (Hb1 (mkBlock a sz EL_AVAILABLE)) as (Hs1 & _).
      { apply in_or_app. simpl. auto. }
      simpl in Hs1. congruence. }
    apply bind_inv in H. destruct H as (ab & m2 & Hsp & H).
    assert (Hab : ab <> NULL).
    { apply (split_not_null m1 a n ab m2); try tauto. rewrite Hsz1. exact Hb. }
    replace (ab =? NULL) with false in H
      by (symmetry; apply Z.eqb_neq; exact Hab).
    change (negb false) with true in H. cbv iota in H.
    apply bind_inv in H. destruct H as (u1 & m3 & _ & H).
    apply bind_inv in H. destruct H as (u2 & m4 & _ & H).
    apply bind_inv in H. destruct H as (u3 & m5 & _ & H).
    apply bind_inv in H. destruct H as (u4 & m6 & _ & H).
    apply bind_inv in H. destruct H as (u5 & m7 & _ & H).
    apply bind_inv in H. destruct H as (u6 & m8 & _ & H).
    apply ret_inv in H. destruct H as (H & _).
    unfold PTR_PLUS_BYTES in H. rewrite wrap_small in H by (unf; lia).
    unf. lia.
Qed.

(** ** Coalescing *)

Lemma remove_split (l : list Z) a :
  NoDup l -> In a l ->
  exists l1 l2, l = l1 ++ a :: l2 /\ remove Z.eq_dec a l = l1 ++ l2.
Proof.
  intros Hnd Ha. destruct (in_split _ _ Ha) as (l1 & l2 & ->).
  exists l1, l2. split; [reflexivity |].
  pose proof (NoDup_remove_2 _ _ _ Hnd) as Hn.
  rewrite remove_app. simpl.
  destruct (Z.eq_dec a a) as [_ | N]; [| contradiction].
  rewrite !notin_remove; [reflexivity | |];
    intros Hin; apply Hn, in_or_app; auto.
Qed.

Lemma pre_merge_mem m s1 a sa sta c sc stc s2 la lu :
  heap_pre e m (s1 ++ mkBlock a sa sta :: mkBlock c sc stc :: s2) la lu ->
  ~ In a (la ++ lu) -> ~ In c (la ++ lu) ->
  heap_pre e
    (write64 (write64 m (a + off_size) (sa + sc + EL_BLOCK_OVERHEAD))
             (c + sizeof_blockhead + sc) (sa + sc + EL_BLOCK_OVERHEAD))
    (s1 ++ mkBlock a (sa + sc + EL_BLOCK_OVERHEAD) sta :: s2) la lu.
Proof.
  intros (Hc & (Ht & Hb) & Hla & Hlu & Hnd & Hi) Hna Hnc.
  pose proof He as (E1 & E2 & E3 & E4 & E5 & E6).
  destruct (tiled_split _ _ _ _ _ Ht) as (Ht1 & Hsa & Ht2). simpl in *.
  destruct Ht2 as (Hca & Hsc & Ht2).
  pose proof (tiled_le _ _ _ Ht1) as L1. pose proof (tiled_le _ _ _ Ht2) as L2.
  apply Forall_app in Hb. destruct Hb as (Hb1 & Hb2).
  inversion Hb2 as [| ? ? (A1 & A2 & A3) Hb3]; subst.
  inversion Hb3 as [| ? ? (C1 & C2 & C3) Hb4]; subst. simpl in *.
  set (new := sa + sc + EL_BLOCK_OVERHEAD) in *.
  set (c := a + sa + EL_BLOCK_OVERHEAD) in *.
  set (m' := write64 (write64 m (a + off_size) new)
                     (c + sizeof_blockhead + sc) new).
  assert (Hd : differ_only m m' (extent_bytes a new)).
  { unfold m'.
    repeat (eapply differ_only_trans;
            [| apply differ_only_write64; intros x Hx]);
      [apply differ_only_refl | |]; unfold extent_bytes, new, c; unf; lia. }
  assert (Hout : forall q, In q (la ++ lu) ->
            q + EL_BLOCK_OVERHEAD <= a \/ a + new + EL_BLOCK_OVERHEAD <= q).
  { intros q Hq.
    pose proof (nodes_outside s1 (mkBlock a sa sta)
                  (mkBlock c sc stc :: s2) (la ++ lu) Ht Hi Hna q Hq) as O1.
    assert (Ht' : tiled heap_base
              ((s1 ++ [mkBlock a sa sta]) ++ mkBlock c sc stc :: s2)
              (heap_base + heap_size)).
    { rewrite <- app_assoc. exact Ht. }
    assert (Hi' : incl (la ++ lu)
              (addrs ((s1 ++ [mkBlock a sa sta]) ++ mkBlock c sc stc :: s2))).
    { rewrite <- app_assoc. exact Hi. }
    pose proof (nodes_outside _ (mkBlock c sc stc) s2 (la ++ lu)
                  Ht' Hi' Hnc q Hq) as O2.
    simpl in O1, O2. unfold new, c in *. unf. lia. }
  destruct (extent_frame m m' a new la lu Hc Hla Hlu Hd) as (Hc' & Hla' & Hlu');
    [lia | unfold new, c in *; unf; lia | exact Hout |].
  unfold heap_pre, phys. refine (conj Hc' (conj (conj _ _) (conj Hla'
    (conj Hlu' (conj Hnd _))))).
  - apply tiled_app. exists a. split; [exact Ht1 |]. simpl.
    repeat split; [unfold new; unf; lia |].
    replace (a + new + EL_BLOCK_OVERHEAD) with (c + sc + EL_BLOCK_OVERHEAD)
      by (unfold new, c; lia).
    exact Ht2.
  - apply Forall_app. split; [| constructor].
    + apply (block_ok_outside m _ _ _ _ _ Ht1 Hb1 Hd).
      unfold extent_bytes. intros x Hx. lia.
    + unfold block_ok. simpl. unfold m'. views.
      replace (a + sizeof_blockhead + new) with (c + sizeof_blockhead + sc)
        by (unfold new, c; unf; lia).
      rw. unwrap. repeat split; try reflexivity. exact A2.
    + apply (block_ok_outside m _ _ _ _ _ Ht2 Hb4 Hd).
      unfold extent_bytes, new, c. intros x Hx. unf. lia.
  - intros p Hp. pose proof (Hi p Hp) as Hp'.
    rewrite addrs_app in *. simpl in *.
    apply in_app_or in Hp'. apply in_or_app.
    destruct Hp' as [Hp' | [Hp' | [Hp' | Hp']]]; auto.
    + right. left. exact Hp'.
    + exfalso. apply Hnc. rewrite Hp'. exact Hp.
    + right. right. exact Hp'.
Qed.

Lemma get_state_ok m a :
  heap_base <= a -> a + EL_BLOCK_OVERHEAD <= heap_base + heap_size ->
  get_state e a m = Ok (state_at m a) m.
Proof.
  intros H1 H2. unfold get_state, state_at. apply load8_ok. mp.
Qed.

Lemma get_size_ok m a :
  heap_base <= a -> a + EL_BLOCK_OVERHEAD <= heap_base + heap_size ->
  get_size e a m = Ok (size_at m a) m.
Proof.
  intros H1 H2. unfold get_size, size_at. apply load64_ok. mp.
Qed.

Lemma merge_do m s1 a sa c sc s2 la lu :
  heap_rep e m
    (s1 ++ mkBlock a sa EL_AVAILABLE :: mkBlock c sc EL_AVAILABLE :: s2)
    la lu ->
  exists m',
    el_merge_block_with_above e a m = Ok tt m' /\
    heap_rep e m'
      (s1 ++ mkBlock a (sa + sc + EL_BLOCK_OVERHEAD) EL_AVAILABLE :: s2)
      (a :: remove Z.eq_dec c (remove Z.eq_dec a la)) lu.
Proof.
  intros Hrep. pose proof He as (E1 & E2 & E3 & E4 & E5 & E6).
  pose proof (heap_rep_pre _ _ _ _ Hrep) as Hpre.
  pose proof Hrep as (Hc & (Ht & Hb) & Hst & _ & _ & Pa & Pu).
  pose proof Hpre as (_ & _ & _ & _ & Hnd & Hi).
  destruct (tiled_split _ _ _ _ _ Ht) as (Ht1 & Hsa & Ht2). simpl in Ht2.
  destruct Ht2 as (Hca & Hsc & Ht2). simpl in Ht1, Hca, Hsa, Hsc, Ht2.
  pose proof (tiled_le _ _ _ Ht1) as L1. pose proof (tiled_le _ _ _ Ht2) as L2.
  destruct (block_ok_mid _ _ _ _ Hb) as (A1 & A2 & A3).
  destruct (block_ok_mid2 _ _ _ _ _ Hb) as (C1 & C2 & C3).
  simpl in A1, A2, A3, C1, C2, C3.
  assert (Hac : a <> c) by (unf; lia).
  (* both blocks are members of the available list *)
  assert (Hala : In a la).
  { apply (Permutation_in _ (Permutation_sym Pa)). apply members_in.
    exists (mkBlock a sa EL_AVAILABLE). repeat split.
    apply in_or_app. simpl. auto. }
  assert (Hcla : In c la).
  { apply (Permutation_in _ (Permutation_sym Pa)). apply members_in.
    exists (mkBlock c sc EL_AVAILABLE). repeat split.
    apply in_or_app. simpl. auto. }
  destruct (NoDup_app_parts _ _ Hnd) as (Hndla & Hndlu & Hdis).
  destruct (remove_split la a Hndla Hala) as (l1 & l2 & Ela & Er1).
  rewrite Er1.
  assert (Hndr : NoDup (l1 ++ l2)).
  { rewrite Ela in Hndla. apply NoDup_remove_1 in Hndla. exact Hndla. }
  assert (Hcr : In c (l1 ++ l2)).
  { rewrite Ela in Hcla. apply in_app_or in Hcla. apply in_or_app.
    destruct Hcla as [H | [H | H]]; [auto | contradiction | auto]. }
  destruct (remove_split _ c Hndr Hcr) as (l3 & l4 & Er & Er2).
  rewrite Er2.
  (* run the function *)
  rewrite Ela in Hpre.
  destruct (pre_remove_avail m _ l1 a l2 lu Hpre) as (m1 & Hex1 & Hpre1).
  rewrite Er in Hpre1.
  destruct (pre_remove_avail m1 _ l3 c l4 lu Hpre1) as (m2 & Hex2 & Hpre2).
  assert (Hna : ~ In a ((l3 ++ l4) ++ lu)).
  { intros Hin. apply in_app_or in Hin. destruct Hin as [Hin | Hin].
    - rewrite Ela in Hndla. apply NoDup_remove_2 in Hndla. apply Hndla.
      rewrite Er. apply in_app_or in Hin. apply in_or_app. simpl. tauto.
    - apply (Hdis a Hala Hin). }
  assert (Hnc : ~ In c ((l3 ++ l4) ++ lu)).
  { intros Hin. apply in_app_or in Hin. destruct Hin as [Hin | Hin].
    - rewrite Er in Hndr. apply NoDup_remove_2 in Hndr. apply Hndr, Hin.
    - apply (Hdis c Hcla Hin). }
  pose proof (pre_merge_mem m2 s1 a sa _ c sc _ s2 _ lu Hpre2 Hna Hnc) as Hpre3.
  set (m3 := write64 (write64 m2 (a + off_size) (sa + sc + EL_BLOCK_OVERHEAD))
                     (c + sizeof_blockhead + sc)
                     (sa + sc + EL_BLOCK_OVERHEAD)) in *.
  destruct (pre_add_avail m3 _ _ lu a Hpre3) as (m4 & Hex4 & Hpre4).
  { rewrite addrs_app. apply in_or_app. simpl. auto. }
  { exact Hna. }
  pose proof Hpre2 as (Hc2 & (_ & Hb2') & _).
  destruct (block_ok_mid _ _ _ _ Hb2') as (A1' & A2' & A3').
  destruct (block_ok_mid2 _ _ _ _ _ Hb2') as (C1' & C2' & C3').
  simpl in A1', A2', A3', C1', C2', C3'.
  exists m4. split.
  - unfold el_merge_block_with_above.
    replace (a =? NULL) with false by (symmetry; apply Z.eqb_neq; unf; lia).
    rewrite (bind_ok _ _ _ _ _ (get_state_ok m a ltac:(lia) ltac:(unf; lia))).
    rewrite A2, Z.eqb_refl. change (negb true) with false. cbv iota.
    rewrite (bind_ok _ _ _ _ _ (el_block_above_ok m a sa Hc A1 Hsa
               ltac:(lia) ltac:(unf; lia))).
    rewrite geb_false by (unf; lia). rewrite <- Hca.
    replace (c =? NULL) with false by (symmetry; apply Z.eqb_neq; unf; lia).
    rewrite (bind_ok _ _ _ _ _ (get_state_ok m c ltac:(unf; lia)
               ltac:(unf; lia))).
    rewrite C2, Z.eqb_refl. change (negb true) with false. cbv iota.
    rewrite (bind_ok _ _ _ _ _ (ctl_avail_ok m Hc)).
    rewrite (bind_ok _ _ _ _ _ Hex1).
    rewrite (bind_ok _ _ _ _ _ (ctl_avail_ok m1 (pre_ctl _ _ _ _ Hpre1))).
    rewrite (bind_ok _ _ _ _ _ Hex2).
    rewrite (bind_ok _ _ _ _ _ (get_size_ok m2 a ltac:(lia) ltac:(unf; lia))).
    rewrite (bind_ok _ _ _ _ _ (get_size_ok m2 c ltac:(unf; lia)
               ltac:(unf; lia))).
    rewrite A1', C1'. unwrap.
    unfold set_size. step.
    assert (Hsc3 : size_at (write64 m2 (a + off_size)
                     (sa + sc + EL_BLOCK_OVERHEAD)) c = sc).
    { views. rw. exact C1'. }
    rewrite (bind_ok _ _ _ _ _ (el_get_footer_ok _ c sc Hsc3 Hsc
               ltac:(unf; lia) ltac:(unf; lia))).
    step. fold m3.
    rewrite (bind_ok _ _ _ _ _ (ctl_avail_ok m3 (pre_ctl _ _ _ _ Hpre3))).
    exact Hex4.
  - destruct Hpre4 as (Hc4 & Hph4 & Hla4 & Hlu4 & _).
    unfold heap_rep. refine (conj Hc4 (conj Hph4 (conj _ (conj Hla4
      (conj Hlu4 (conj _ _)))))).
    + apply Forall_app in Hst. destruct Hst as (Hst1 & Hst2).
      inversion Hst2 as [| ? ? _ Hst3]; subst.
      inversion Hst3 as [| ? ? _ Hst4]; subst.
      apply Forall_app. split; [assumption |].
      constructor; [left; reflexivity | assumption].
    + rewrite members_app in Pa |- *.
      rewrite !members_cons_same in Pa. rewrite members_cons_same.
      rewrite Ela in Pa. apply Permutation_app_inv in Pa.
      rewrite Er in Pa.
      apply Permutation_app_inv in Pa.
      apply Permutation_cons_app. exact Pa.
    + rewrite members_app in Pu |- *.
      rewrite !(members_cons_other EL_USED EL_AVAILABLE) in Pu
        by apply states_differ.
      rewrite (members_cons_other EL_USED EL_AVAILABLE)
        by apply states_differ.
      exact Pu.
Qed.

Lemma merge_null m : el_merge_block_with_above e NULL m = Ok tt m.
Proof. reflexivity. Qed.

Lemma merge_noop_state m s1 a sa st s2 la lu :
  heap_pre e m (s1 ++ mkBlock a sa st :: s2) la lu -> st <> EL_AVAILABLE ->
  el_merge_block_with_above e a m = Ok tt m.
Proof.
  intros (Hc & (Ht & Hb) & _) Hst.
  pose proof He as (E1 & E2 & E3 & E4 & E5 & E6).
  destruct (tiled_split _ _ _ _ _ Ht) as (Ht1 & Hsa & Ht2).
  simpl in Ht1, Hsa, Ht2.
  pose proof (tiled_le _ _ _ Ht1) as L1. pose proof (tiled_le _ _ _ Ht2) as L2.
  destruct (block_ok_mid _ _ _ _ Hb) as (A1 & A2 & A3). simpl in A1, A2, A3.
  unfold el_merge_block_with_above.
  replace (a =? NULL) with false by (symmetry; apply Z.eqb_neq; unf; lia).
  rewrite (bind_ok _ _ _ _ _ (get_state_ok m a ltac:(lia) ltac:(unf; lia))).
  rewrite A2.
  replace (st =? EL_AVAILABLE) with false
    by (symmetry; apply Z.eqb_neq; exact Hst).
  reflexivity.
Qed.

Lemma merge_noop_top m s1 a sa la lu :
  heap_pre e m (s1 ++ [mkBlock a sa EL_AVAILABLE]) la lu ->
  el_merge_block_with_above e a m = Ok tt m.
Proof.
  intros (Hc & (Ht & Hb) & _).
  pose proof He as (E1 & E2 & E3 & E4 & E5 & E6).
  destruct (tiled_split _ _ _ _ _ Ht) as (Ht1 & Hsa & Ht2).
  simpl in Ht1, Hsa, Ht2.
  pose proof (tiled_le _ _ _ Ht1) as L1.
  destruct (block_ok_mid _ _ _ _ Hb) as (A1 & A2 & A3). simpl in A1, A2, A3.
  unfold el_merge_block_with_above.
  replace (a =? NULL) with false by (symmetry; apply Z.eqb_neq; unf; lia).
  rewrite (bind_ok _ _ _ _ _ (get_state_ok m a ltac:(lia) ltac:(unf; lia))).
  rewrite A2, Z.eqb_refl. change (negb true) with false. cbv iota.
  rewrite (bind_ok _ _ _ _ _ (el_block_above_ok m a sa Hc A1 Hsa
             ltac:(lia) ltac:(unf; lia))).
  rewrite geb_true by lia. reflexivity.
Qed.

Lemma merge_noop_above m s1 a sa c sc stc s2 la lu :
  heap_pre e m
    (s1 ++ mkBlock a sa EL_AVAILABLE :: mkBlock c sc stc :: s2) la lu ->
  stc <> EL_AVAILABLE ->
  el_merge_block_with_above e a m = Ok tt m.
Proof.
  intros (Hc & (Ht & Hb) & _) Hst.
  pose proof He as (E1 & E2 & E3 & E4 & E5 & E6).
  destruct (tiled_split _ _ _ _ _ Ht) as (Ht1 & Hsa & Ht2). simpl in Ht2.
  destruct Ht2 as (Hca & Hsc & Ht2). simpl in Ht1, Hca, Hsa, Hsc, Ht2.
  pose proof (tiled_le _ _ _ Ht1) as L1. pose proof (tiled_le _ _ _ Ht2) as L2.
  destruct (block_ok_mid _ _ _ _ Hb) as (A1 & A2 & A3).
  destruct (block_ok_mid2 _ _ _ _ _ Hb) as (C1 & C2 & C3).
  simpl in A1, A2, A3, C1, C2, C3.
  unfold el_merge_block_with_above.
  replace (a =? NULL) with false by (symmetry; apply Z.eqb_neq; unf; lia).
  rewrite (bind_ok _ _ _ _ _ (get_state_ok m a ltac:(lia) ltac:(unf; lia))).
  rewrite A2, Z.eqb_refl. change (negb true) with false. cbv iota.
  rewrite (bind_ok _ _ _ _ _ (el_block_above_ok m a sa Hc A1 Hsa
             ltac:(lia) ltac:(unf; lia))).
  rewrite geb_false by (unf; lia). rewrite <- Hca.
  replace (c =? NULL) with false by (symmetry; apply Z.eqb_neq; unf; lia).
  rewrite (bind_ok _ _ _ _ _ (get_state_ok m c ltac:(unf; lia)
             ltac:(unf; lia))).
  rewrite C2.
  replace (stc =? EL_AVAILABLE) with false
    by (symmetry; apply Z.eqb_neq; exact Hst).
  reflexivity.
Qed.

(** ** The block below *)

Lemma block_below_first m a sa st s2 la lu :
  heap_pre e m (mkBlock a sa st :: s2) la lu ->
  el_block_below e a m = Ok NULL m.
Proof.
  intros (Hc & (Ht & _) & _). simpl in Ht. destruct Ht as (Ha & _).
  pose proof He as (E1 & E2 & E3 & E4 & E5 & E6).
  pose proof Hc as (_ & Hstart & _).
  unfold el_block_below, ctl_heap_start. step. rewrite Hstart.
  rewrite Ha, Z.eqb_refl. reflexivity.
Qed.

Lemma block_below_some m s1 z sz stz a sa st s2 la lu :
  heap_pre e m (s1 ++ mkBlock z sz stz :: mkBlock a sa st :: s2) la lu ->
  el_block_below e a m = Ok z m.
Proof.
  intros (Hc & (Ht & Hb) & _).
  pose proof He as (E1 & E2 & E3 & E4 & E5 & E6).
  destruct (tiled_split _ _ _ _ _ Ht) as (Ht1 & Hsz & Ht2). simpl in Ht2.
  destruct Ht2 as (Haz & Hsa & Ht2). simpl in Ht1, Haz, Hsz, Hsa, Ht2.
  pose proof (tiled_le _ _ _ Ht1) as L1. pose proof (tiled_le _ _ _ Ht2) as L2.
  destruct (block_ok_mid _ _ _ _ Hb) as (Z1 & Z2 & Z3). simpl in Z1, Z2, Z3.
  pose proof Hc as (_ & Hstart & _).
  unfold el_block_below, ctl_heap_start. step. rewrite Hstart.
  replace (a =? heap_base) with false
    by (symmetry; apply Z.eqb_neq; unf; lia).
  change (negb false) with true. cbv iota.
  unfold el_get_header, PTR_MINUS_BYTES.
  rewrite (wrap_small (a - sizeof_blockfoot)) by (unf; lia).
  assert (Hf : read64 m (a - sizeof_blockfoot) = sz).
  { unfold foot_at in Z3.
    transitivity (read64 m (z + sizeof_blockhead + sz)); [| exact Z3].
    f_equal. unf. lia. }
  step. rewrite Hf. unfold ret. unwrap. f_equal. unf. lia.
Qed.

(** ** Release *)

(** The first half of [el_free]: the block moves from the used list to
    the front of the available list. *)
Lemma free_release m s1 a sz s2 la lu :
  heap_rep e m (s1 ++ mkBlock a sz EL_USED :: s2) la lu ->
  exists m3,
    heap_rep e m3 (s1 ++ mkBlock a sz EL_AVAILABLE :: s2)
      (a :: la) (remove Z.eq_dec a lu) /\
    el_free e (a + sizeof_blockhead) m =
      (el_merge_block_with_above e a ;;;
       below <- el_block_below e a ;;
       el_merge_block_with_above e below) m3.
Proof.
  intros Hrep. pose proof He as (E1 & E2 & E3 & E4 & E5 & E6).
  pose proof (heap_rep_pre _ _ _ _ Hrep) as Hpre.
  pose proof Hrep as (Hc & (Ht & Hb) & Hst & _ & _ & Pa & Pu).
  pose proof Hpre as (_ & _ & _ & _ & Hnd & Hi).
  destruct (tiled_split _ _ _ _ _ Ht) as (Ht1 & Hsa & Ht2).
  simpl in Ht1, Hsa, Ht2.
  pose proof (tiled_le _ _ _ Ht1) as L1. pose proof (tiled_le _ _ _ Ht2) as L2.
  destruct (NoDup_app_parts _ _ Hnd) as (Hndla & Hndlu & Hdis).
  assert (Halu : In a lu).
  { apply (Permutation_in _ (Permutation_sym Pu)). apply members_in.
    exists (mkBlock a sz EL_USED). repeat split.
    apply in_or_app. simpl. auto. }
  destruct (remove_split lu a Hndlu Halu) as (u1 & u2 & Elu & Er).
  rewrite Er. rewrite Elu in Hpre.
  destruct (pre_remove_used m _ la u1 a u2 Hpre) as (m1 & Hex1 & Hpre1).
  assert (Hna : ~ In a (la ++ u1 ++ u2)).
  { intros Hin. apply in_app_or in Hin. destruct Hin as [Hin | Hin].
    - apply (Hdis a Hin Halu).
    - rewrite Elu in Hndlu. apply NoDup_remove_2 in Hndlu. apply Hndlu, Hin. }
  destruct (pre_set_state m1 s1 a sz EL_USED s2 la _ EL_AVAILABLE Hpre1 Hna)
    as (m2 & Hex2 & Hpre2); [unfold EL_AVAILABLE; lia |].
  destruct (pre_add_avail m2 _ la _ a Hpre2) as (m3 & Hex3 & Hpre3).
  { rewrite addrs_app. apply in_or_app. simpl. auto. }
  { exact Hna. }
  exists m3. split.
  - destruct Hpre3 as (Hc3 & Hph3 & Hla3 & Hlu3 & _).
    unfold heap_rep. refine (conj Hc3 (conj Hph3 (conj _ (conj Hla3
      (conj Hlu3 (conj _ _)))))).
    + apply Forall_app in Hst. destruct Hst as (Hst1 & Hst2).
      inversion Hst2 as [| ? ? _ Hst3]; subst.
      apply Forall_app. split; [assumption |].
      constructor; [left; reflexivity | assumption].
    + rewrite members_app in Pa |- *.
      rewrite (members_cons_other EL_AVAILABLE EL_USED) in Pa
        by (intros Heq; symmetry in Heq; exact (states_differ Heq)).
      rewrite members_cons_same. apply Permutation_cons_app. exact Pa.
    + rewrite members_app in Pu |- *. rewrite members_cons_same in Pu.
      rewrite (members_cons_other EL_USED EL_AVAILABLE)
        by apply states_differ.
      rewrite Elu in Pu. apply Permutation_app_inv in Pu. exact Pu.
  - unfold el_free, PTR_MINUS_BYTES.
    replace (wrap (a + sizeof_blockhead - sizeof_blockhead)) with a
      by (rewrite wrap_small; unf; lia).
    rewrite (bind_ok _ _ _ _ _ (ctl_used_ok m Hc)).
    rewrite (bind_ok _ _ _ _ _ Hex1).
    rewrite (bind_ok _ _ _ _ _ Hex2).
    rewrite (bind_ok _ _ _ _ _ (ctl_avail_ok m2 (pre_ctl _ _ _ _ Hpre2))).
    rewrite (bind_ok _ _ _ _ _ Hex3).
    reflexivity.
Qed.

(** ** Initialisation *)

Lemma init_blocklist_ok m lst :
  is_list e lst ->
  exists m',
    el_init_blocklist e lst m = Ok tt m' /\
    differ_only m m' (fun x => lst <= x < lst + sizeof_blocklist) /\
    read64 m' (lst + off_beg) = beg_of lst /\
    read64 m' (lst + off_end) = end_of lst /\
    list_ok m' lst [].
Proof.
  intros HL. pose proof He as (E1 & E2 & E3 & E4 & E5 & E6).
  pose proof (is_list_range _ HL) as HLr.
  eexists. split; [| split; [| split; [| split]]].
  - unfold el_init_blocklist, get_beg, get_end, set_state, set_size,
      set_next, set_prev.
    repeat (step; rw; unwrap). apply store64_ok. mp.
  - repeat (eapply differ_only_trans;
            [| first [ apply differ_only_write64; intros x Hx
                     | apply differ_only_write8 ] ]);
      [apply differ_only_refl | ..]; unf; lia.
  - rw. unwrap. reflexivity.
  - rw. unwrap. reflexivity.
  - unfold list_ok. simpl. views. repeat split; rw; unwrap; reflexivity.
Qed.

Lemma init_ok m0 :
  EL_BLOCK_OVERHEAD <= heap_size ->
  exists m,
    el_init e m0 = Ok 0 m /\
    heap_rep e m
      [mkBlock heap_base (heap_size - EL_BLOCK_OVERHEAD) EL_AVAILABLE]
      [heap_base] [].
Proof.
  intros Hsz. pose proof He as (E1 & E2 & E3 & E4 & E5 & E6).
  set (mz := fun x => if (heap_base <=? x) && (x <? heap_base + heap_size)
                      then 0 else m0 x).
  set (ma := write64 (write64 (write64 mz (ctl + off_heap_bytes) heap_size)
               (ctl + off_heap_start) heap_base)
               (ctl + off_heap_end) (heap_base + heap_size)).
  destruct (init_blocklist_ok ma (avail_list e) (or_introl eq_refl))
    as (m1 & Hex1 & Hd1 & Hb1 & He1 & Hl1).
  destruct (init_blocklist_ok m1 (used_list e) (or_intror eq_refl))
    as (m2 & Hex2 & Hd2 & Hb2 & He2 & Hl2).
  set (m3 := write64 (write64 m2 (ctl + off_avail) (avail_list e))
               (ctl + off_used) (used_list e)).
  set (size := heap_size - EL_BLOCK_OVERHEAD).
  set (m6 := write64 (write8 (write64 m3 (heap_base + off_size) size)
               (heap_base + off_state) EL_AVAILABLE)
               (heap_base + sizeof_blockhead + size) size).
  (* scalar fields written before the lists are initialised *)
  assert (F2 : forall a, ctl + off_heap_bytes <= a ->
                 a + 8 <= ctl + off_avail_actual ->
                 read64 m2 a = read64 ma a).
  { intros a H1 H2.
    rewrite (differ_read64 m1 m2 _ a Hd2) by (intros; unf; lia).
    apply (differ_read64 ma m1 _ a Hd1). intros; unf; lia. }
  assert (Hd16 : differ_only m1 m6
            (fun x => (used_list e <= x < used_list e + sizeof_blocklist) \/
                      (ctl + off_avail <= x < ctl + sizeof_ctl) \/
                      (heap_base <= x < heap_base + heap_size))).
  { apply (differ_only_trans m1 m2).
    - apply (differ_only_weaken _ _ _ _ Hd2). intros x Hx. left. exact Hx.
    - unfold m6, m3.
      repeat (eapply differ_only_trans;
            [| first [ apply differ_only_write64; intros x Hx
                     | apply differ_only_write8 ] ]);
      [apply differ_only_refl | ..]; unfold size; unf; lia. }
  assert (Hd26 : differ_only m2 m6
            (fun x => (ctl + off_avail <= x < ctl + sizeof_ctl) \/
                      (heap_base <= x < heap_base + heap_size))).
  { unfold m6, m3.
    repeat (eapply differ_only_trans;
            [| first [ apply differ_only_write64; intros x Hx
                     | apply differ_only_write8 ] ]);
      [apply differ_only_refl | ..]; unfold size; unf; lia. }
  assert (Hc6 : ctl_ok e m6).
  { unfold ctl_ok.
    assert (G : forall a, ctl + off_heap_bytes <= a ->
                  a + 8 <= ctl + off_avail_actual ->
                  read64 m6 a = read64 ma a).
    { intros a H1 H2. rewrite <- (F2 a H1 H2).
      apply (differ_read64 m2 m6 _ a Hd26). intros; unf; lia. }
    rewrite (G (ctl + off_heap_bytes)), (G (ctl + off_heap_start)),
      (G (ctl + off_heap_end)) by (unf; lia).
    rewrite (differ_read64 m1 m6 _ (avail_list e + off_beg) Hd16)
      by (intros; unf; lia).
    rewrite (differ_read64 m1 m6 _ (avail_list e + off_end) Hd16)
      by (intros; unf; lia).
    rewrite (differ_read64 m2 m6 _ (used_list e + off_beg) Hd26)
      by (intros; unf; lia).
    rewrite (differ_read64 m2 m6 _ (used_list e + off_end) Hd26)
      by (intros; unf; lia).
    split; [unfold ma; rw; unwrap; reflexivity |].
    split; [unfold ma; rw; unwrap; reflexivity |].
    split; [unfold ma; rw; unwrap; reflexivity |].
    split; [unfold m6, m3; rw; unwrap; reflexivity |].
    split; [unfold m6, m3; rw; unwrap; reflexivity |].
    repeat split; assumption. }
  assert (Hpre6 : heap_pre e m6 [mkBlock heap_base size EL_AVAILABLE] [] []).
  { unfold heap_pre. refine (conj Hc6 (conj (conj _ _) (conj _ (conj _
      (conj _ _))))).
    - simpl. repeat split; unfold size; unf; lia.
    - constructor; [| constructor]. unfold block_ok. simpl. unfold m6. views.
      repeat split; rw; unwrap; try reflexivity;
        try (unfold size; unf; lia).
    - apply (list_ok_frame m1 m6 _ _ _ Hl1 Hd16).
      intros x Hx. unfold list_bytes, counter_bytes.
      intros [Hb | [Hb | [Hb | (q & [] & _)]]]; unf; lia.
    - apply (list_ok_frame m2 m6 _ _ _ Hl2 Hd26).
      intros x Hx. unfold list_bytes, counter_bytes.
      intros [Hb | [Hb | [Hb | (q & [] & _)]]]; unf; lia.
    - constructor.
    - intros p []. }
  destruct (pre_add_avail m6 _ [] [] heap_base Hpre6) as (m7 & Hex7 & Hpre7).
  { simpl. auto. }
  { intros []. }
  exists m7. split.
  - unfold el_init, mmap_anonymous.
    unfold bind at 1. fold mz.
    step. step. step. rw. unwrap. unfold PTR_PLUS_BYTES. unwrap. step.
    fold ma. step.
    replace (read64 ma (ctl + off_heap_bytes)) with heap_size
      by (unfold ma; rw; unwrap; reflexivity).
    replace (heap_size <? EL_BLOCK_OVERHEAD) with false
      by (symmetry; apply Z.ltb_ge; exact Hsz).
    rewrite (bind_ok _ _ _ _ _ Hex1).
    rewrite (bind_ok _ _ _ _ _ Hex2).
    step. step.
    change (write64 (write64 m2 (ctl + off_avail) (ctl + off_avail_actual))
              (ctl + off_used) (ctl + off_used_actual)) with m3.
    step.
    replace (read64 m3 (ctl + off_heap_bytes)) with heap_size.
    2:{ unfold m3. rw. rewrite F2 by (unf; lia).
        unfold ma. rw. unwrap. reflexivity. }
    unfold ctl_heap_start. step.
    replace (read64 m3 (ctl + off_heap_start)) with heap_base.
    2:{ unfold m3. rw. rewrite F2 by (unf; lia).
        unfold ma. rw. unwrap. reflexivity. }
    unfold set_size, set_state. step. step.
    rewrite (wrap_small (heap_size - EL_BLOCK_OVERHEAD)) by (unf; lia).
    fold size.
    assert (Hs5 : size_at (write8 (write64 m3 (heap_base + off_size) size)
                     (heap_base + off_state) EL_AVAILABLE) heap_base = size).
    { views. rw. unwrap. reflexivity. }
    rewrite (bind_ok _ _ _ _ _ (el_get_footer_ok _ heap_base size Hs5
               ltac:(unfold size; unf; lia) ltac:(lia)
               ltac:(unfold size; unf; lia))).
    step. fold m6.
    rewrite (bind_ok _ _ _ _ _ (ctl_avail_ok m6 Hc6)).
    rewrite (bind_ok _ _ _ _ _ Hex7). reflexivity.
  - destruct Hpre7 as (Hc7 & Hph7 & Hla7 & Hlu7 & _).
    unfold heap_rep. refine (conj Hc7 (conj Hph7 (conj _ (conj Hla7
      (conj Hlu7 (conj _ _)))))).
    + constructor; [left; reflexivity | constructor].
    + rewrite members_cons_same. apply Permutation_refl.
    + rewrite (members_cons_other EL_USED EL_AVAILABLE)
        by apply states_differ.
      apply Permutation_refl.
Qed.

Lemma init_small m0 :
  heap_size < EL_BLOCK_OVERHEAD -> exists m, el_init e m0 = Ok (-1) m.
Proof.
  intros Hsz. pose proof He as (E1 & E2 & E3 & E4 & E5 & E6).
  eexists. unfold el_init, mmap_anonymous. unfold bind at 1.
  step. step. step. rw. unwrap. step. step. rw. unwrap.
  replace (heap_size <? EL_BLOCK_OVERHEAD) with true
    by (symmetry; apply Z.ltb_lt; exact Hsz).
  reflexivity.
Qed.

Lemma malloc_none m bs la lu fuel n :
  heap_rep e m bs la lu -> (length la < fuel)%nat ->
  first_fit m (wrap (n + EL_BLOCK_OVERHEAD)) la = NULL ->
  el_malloc e fuel n m = Ok NULL m.
Proof.
  intros Hrep Hf Hff.
  pose proof (heap_rep_pre _ _ _ _ Hrep) as Hpre.
  pose proof (el_find_first_avail_ok m _ _ _ fuel n Hpre Hf) as Hfind.
  unfold el_malloc. rewrite (bind_ok _ _ _ _ _ Hfind). rewrite Hff.
  reflexivity.
Qed.

Lemma split_refuses m a n :
  heap_base <= a -> a + EL_BLOCK_OVERHEAD <= heap_base + heap_size ->
  size_at m a < wrap (n + EL_BLOCK_OVERHEAD) ->
  el_split_block e a n m = Ok NULL m.
Proof.
  intros H1 H2 Hs. pose proof He as (E1 & E2 & E3 & E4 & E5 & E6).
  unfold el_split_block, get_size. views. step. step.
  replace (read64 m (a + off_size) <? wrap (n + EL_BLOCK_OVERHEAD)) with true
    by (symmetry; apply Z.ltb_lt; exact Hs).
  reflexivity.
Qed.

(** Header to footer and back, at the level of the two C helpers. *)
Lemma footer_header_roundtrip m head :
  0 <= head < 18446744073709551616 ->
  mapped e (head + off_size) 8 = true ->
  mapped e (wrap (head + wrap (sizeof_blockhead + size_at m head))) 8 = true ->
  read64 m (wrap (head + wrap (sizeof_blockhead + size_at m head)))
    = size_at m head ->
  (foot <- el_get_footer e head ;; el_get_header e foot) m = Ok head m.
Proof.
  intros Hh Hm1 Hm2 Hf.
  assert (Hfoot : el_get_footer e head m
            = Ok (wrap (head + wrap (sizeof_blockhead + size_at m head))) m).
  { unfold el_get_footer, get_size, PTR_PLUS_BYTES.
    rewrite bind_load64 by exact Hm1. reflexivity. }
  rewrite (bind_ok _ _ _ _ _ Hfoot).
  unfold el_get_header, PTR_MINUS_BYTES.
  rewrite bind_load64 by exact Hm2. rewrite Hf.
  unfold ret. f_equal. unfold wrap.
  rewrite Zminus_mod_idemp_l, Zminus_mod_idemp_r.
  rewrite <- (Zminus_mod_idemp_l (head + _)).
  rewrite Zplus_mod_idemp_r.
  rewrite Zminus_mod_idemp_l.
  replace (head + (sizeof_blockhead + size_at m head)
           - (sizeof_blockhead + size_at m head)) with head by ring.
  apply Z.mod_small. exact Hh.
Qed.

Lemma remove_head_notin (l : list Z) a :
  ~ In a l -> remove Z.eq_dec a (a :: l) = l.
Proof.
  intros H. simpl. destruct (Z.eq_dec a a) as [_ | N]; [| contradiction].
  apply notin_remove. exact H.
Qed.

Lemma remove_cons_other (l : list Z) a b :
  a <> b -> remove Z.eq_dec a (b :: l) = b :: remove Z.eq_dec a l.
Proof.
  intros H. simpl. destruct (Z.eq_dec a b) as [E | _]; [contradiction |].
  reflexivity.
Qed.

Lemma free_both m s1 a sa b sb c sc s2 la lu :
  heap_rep e m
    (s1 ++ mkBlock a sa EL_AVAILABLE :: mkBlock b sb EL_USED ::
           mkBlock c sc EL_AVAILABLE :: s2) la lu ->
  exists m',
    el_free e (b + sizeof_blockhead) m = Ok tt m' /\
    heap_rep e m'
      (s1 ++ mkBlock a (sa + sb + sc + 2 * EL_BLOCK_OVERHEAD) EL_AVAILABLE
          :: s2)
      (a :: remove Z.eq_dec a (remove Z.eq_dec c la))
      (remove Z.eq_dec b lu).
Proof.
  intros Hrep.
  pose proof (heap_rep_pre _ _ _ _ Hrep) as (_ & (Ht & _) & _ & _ & Hnd & _).
  pose proof Hrep as (_ & _ & _ & _ & _ & Pa & Pu).
  destruct (NoDup_app_parts _ _ Hnd) as (Hndla & Hndlu & Hdis).
  assert (Hblu : In b lu).
  { apply (Permutation_in _ (Permutation_sym Pu)). apply members_in.
    exists (mkBlock b sb EL_USED). repeat split.
    apply in_or_app. simpl. auto. }
  assert (Hbla : ~ In b la) by (intros H; exact (Hdis b H Hblu)).
  assert (Hab : a <> b).
  { destruct (tiled_split _ _ _ _ _ Ht) as (_ & Hsa & Ht2). simpl in Ht2.
    destruct Ht2 as (Hb & _). simpl in Hb, Hsa. unf. lia. }
  assert (Hrep' : heap_rep e m
            ((s1 ++ [mkBlock a sa EL_AVAILABLE]) ++ mkBlock b sb EL_USED ::
             mkBlock c sc EL_AVAILABLE :: s2) la lu).
  { rewrite <- app_assoc. exact Hrep. }
  destruct (free_release m _ b sb _ la lu Hrep') as (m3 & Hrep3 & Hfree).
  destruct (merge_do m3 _ b sb c sc s2 _ _ Hrep3) as (m4 & Hex4 & Hrep4).
  rewrite remove_head_notin in Hrep4 by exact Hbla.
  rewrite <- app_assoc in Hrep4. simpl in Hrep4.
  pose proof (block_below_some m4 s1 a sa _ b _ _ s2 _ _
                (heap_rep_pre _ _ _ _ Hrep4)) as Hbelow.
  destruct (merge_do m4 s1 a sa b _ s2 _ _ Hrep4) as (m5 & Hex5 & Hrep5).
  rewrite (remove_cons_other _ a b Hab) in Hrep5.
  rewrite remove_head_notin in Hrep5.
  2:{ intros Hin. apply in_remove in Hin. destruct Hin as (Hin & _).
      apply in_remove in Hin. destruct Hin as (Hin & _). exact (Hbla Hin). }
  exists m5. split.
  - rewrite Hfree. rewrite (bind_ok _ _ _ _ _ Hex4).
    rewrite (bind_ok _ _ _ _ _ Hbelow). exact Hex5.
  - replace (sa + sb + sc + 2 * EL_BLOCK_OVERHEAD)
      with (sa + (sb + sc + EL_BLOCK_OVERHEAD) + EL_BLOCK_OVERHEAD) by lia.
    exact Hrep5.
Qed.

Lemma remove_mid (l1 l2 : list Z) a :
  NoDup (l1 ++ a :: l2) -> remove Z.eq_dec a (l1 ++ a :: l2) = l1 ++ l2.
Proof.
  intros Hnd. pose proof (NoDup_remove_2 _ _ _ Hnd) as Hn.
  rewrite remove_app. simpl.
  destruct (Z.eq_dec a a) as [_ | N]; [| contradiction].
  rewrite !notin_remove; [reflexivity | |];
    intros Hin; apply Hn, in_or_app; auto.
Qed.

Lemma remove_length (l : list Z) a :
  NoDup l -> In a l -> S (length (remove Z.eq_dec a l)) = length l.
Proof.
  intros Hnd Ha. destruct (remove_split l a Hnd Ha) as (l1 & l2 & -> & ->).
  rewrite !length_app. simpl. lia.
Qed.

Lemma rep_avail_nodes m bs la lu p :
  heap_rep e m bs la lu -> In p la ->
  heap_base <= p /\ p + EL_BLOCK_OVERHEAD <= heap_base + heap_size.
Proof.
  intros Hrep Hp.
  destruct (heap_rep_pre _ _ _ _ Hrep) as (_ & (Ht & _) & _ & _ & _ & Hi).
  apply (addrs_range _ _ Ht), Hi, in_or_app. auto.
Qed.

(** ** Adjacent available blocks *)

Lemma naa_cons b c s :
  no_adjacent_avail (b :: c :: s) <->
  ~ (b_state b = EL_AVAILABLE /\ b_state c = EL_AVAILABLE) /\
  no_adjacent_avail (c :: s).
Proof. apply iff_refl. Qed.

Lemma naa_tail b s : no_adjacent_avail (b :: s) -> no_adjacent_avail s.
Proof.
  destruct s as [| c r]; intros H; [exact I |].
  apply naa_cons in H. exact (proj2 H).
Qed.

Lemma naa_app_l s1 s2 : no_adjacent_avail (s1 ++ s2) -> no_adjacent_avail s1.
Proof.
  induction s1 as [| b s1 IH]; intros H; [exact I |].
  destruct s1 as [| c s1]; [exact I |].
  change (no_adjacent_avail (b :: c :: (s1 ++ s2))) in H.
  apply naa_cons in H. destruct H as (H1 & H2).
  apply naa_cons. split; [exact H1 | apply IH; exact H2].
Qed.

Lemma naa_app_r s1 s2 : no_adjacent_avail (s1 ++ s2) -> no_adjacent_avail s2.
Proof.
  induction s1 as [| b s1 IH]; intros H; [exact H |].
  change (no_adjacent_avail (b :: (s1 ++ s2))) in H.
  apply IH, (naa_tail _ _ H).
Qed.

(** Two stretches that overlap in one block. *)
Lemma naa_join s1 b s2 :
  no_adjacent_avail (s1 ++ [b]) -> no_adjacent_avail (b :: s2) ->
  no_adjacent_avail (s1 ++ b :: s2).
Proof.
  induction s1 as [| x s1 IH]; intros H1 H2; [exact H2 |].
  destruct s1 as [| y s1].
  - change (no_adjacent_avail (x :: b :: [])) in H1.
    change (no_adjacent_avail (x :: b :: s2)).
    apply naa_cons in H1. apply naa_cons. split; [exact (proj1 H1) | exact H2].
  - change (no_adjacent_avail (x :: y :: (s1 ++ [b]))) in H1.
    change (no_adjacent_avail (x :: y :: (s1 ++ b :: s2))).
    apply naa_cons in H1. destruct H1 as (H3 & H4).
    apply naa_cons. split; [exact H3 | exact (IH H4 H2)].
Qed.

Lemma naa_head_state b b' s :
  b_state b = b_state b' ->
  no_adjacent_avail (b :: s) -> no_adjacent_avail (b' :: s).
Proof.
  intros E H. destruct s as [| c r]; [exact I |].
  apply naa_cons in H. apply naa_cons. rewrite <- E. exact H.
Qed.

Lemma naa_last_state s b b' :
  b_state b = b_state b' ->
  no_adjacent_avail (s ++ [b]) -> no_adjacent_avail (s ++ [b']).
Proof.
  intros E. induction s as [| x s IH]; intros H; [exact I |].
  destruct s as [| y s].
  - change (no_adjacent_avail (x :: b :: [])) in H.
    change (no_adjacent_avail (x :: b' :: [])).
    apply naa_cons in H. apply naa_cons. rewrite <- E.
    split; [exact (proj1 H) | exact I].
  - change (no_adjacent_avail (x :: y :: (s ++ [b]))) in H.
    change (no_adjacent_avail (x :: y :: (s ++ [b']))).
    apply naa_cons in H. destruct H as (H1 & H2).
    apply naa_cons. split; [exact H1 | exact (IH H2)].
Qed.

Lemma naa_snoc_other s u :
  b_state u <> EL_AVAILABLE ->
  no_adjacent_avail s -> no_adjacent_avail (s ++ [u]).
Proof.
  intros Hu. induction s as [| x s IH]; intros H; [exact I |].
  destruct s as [| y s].
  - change (no_adjacent_avail (x :: u :: [])).
    apply naa_cons. split; [intros (_ & Hc); exact (Hu Hc) | exact I].
  - change (no_adjacent_avail (x :: y :: (s ++ [u]))).
    apply naa_cons in H. destruct H as (H1 & H2).
    apply naa_cons. split; [exact H1 | exact (IH H2)].
Qed.

(** ** Release in every neighbourhood *)

Lemma rep_state_cases m s1 b s2 la lu :
  heap_rep e m (s1 ++ b :: s2) la lu ->
  b_state b = EL_AVAILABLE \/ b_state b = EL_USED.
Proof.
  intros (_ & _ & Hst & _). apply Forall_app in Hst.
  destruct Hst as (_ & Hst). inversion Hst; assumption.
Qed.

(** Merging upwards from an available block [a]: whatever lies above,
    the call returns and [a] is not followed by an available block. *)
Lemma merge_above_any m s1 a sz s2 la lu :
  heap_rep e m (s1 ++ mkBlock a sz EL_AVAILABLE :: s2) la lu ->
  no_adjacent_avail s2 ->
  exists m' sz' s2' la',
    el_merge_block_with_above e a m = Ok tt m' /\
    heap_rep e m' (s1 ++ mkBlock a sz' EL_AVAILABLE :: s2') la' lu /\
    no_adjacent_avail (mkBlock a sz' EL_AVAILABLE :: s2').
Proof.
  intros Hrep Hn. pose proof (heap_rep_pre _ _ _ _ Hrep) as Hpre.
  destruct s2 as [| [c sc stc] s2'].
  - exists m, sz, [], la.
    split; [exact (merge_noop_top _ _ _ _ _ _ Hpre) |].
    split; [exact Hrep | exact I].
  - assert (Hst : stc = EL_AVAILABLE \/ stc = EL_USED).
    { apply (rep_state_cases m (s1 ++ [mkBlock a sz EL_AVAILABLE])
               (mkBlock c sc stc) s2' la lu).
      rewrite <- app_assoc. exact Hrep. }
    destruct Hst as [-> | ->].
    + destruct (merge_do _ _ _ _ _ _ _ _ _ Hrep) as (m' & Hex & Hrep').
      exists m', (sz + sc + EL_BLOCK_OVERHEAD), s2',
        (a :: remove Z.eq_dec c (remove Z.eq_dec a la)).
      split; [exact Hex |]. split; [exact Hrep' |].
      apply (naa_head_state (mkBlock c sc EL_AVAILABLE));
        [reflexivity | exact Hn].
    + exists m, sz, (mkBlock c sc EL_USED :: s2'), la.
      split.
      { apply (merge_noop_above _ _ _ _ _ _ _ _ _ _ Hpre).
        intros Heq. symmetry in Heq. exact (states_differ Heq). }
      split; [exact Hrep |].
      apply naa_cons. split; [| exact Hn].
      simpl. intros (_ & Heq). symmetry in Heq. exact (states_differ Heq).
Qed.

(** The second half of [el_free]: merging the block below, if there is
    one and it is available, with [a]. *)
Lemma merge_below_any m s1 a sz s2 la lu :
  heap_rep e m (s1 ++ mkBlock a sz EL_AVAILABLE :: s2) la lu ->
  no_adjacent_avail s1 ->
  no_adjacent_avail (mkBlock a sz EL_AVAILABLE :: s2) ->
  exists m' bs' la',
    (below <- el_block_below e a ;; el_merge_block_with_above e below) m
      = Ok tt m' /\
    heap_rep e m' bs' la' lu /\ no_adjacent_avail bs'.
Proof.
  intros Hrep Hn1 Hn2.
  induction s1 as [| [z sz0 stz] s1' _] using rev_ind.
  - pose proof (heap_rep_pre _ _ _ _ Hrep) as Hpre. simpl in Hpre.
    exists m, (mkBlock a sz EL_AVAILABLE :: s2), la.
    split; [| split; [exact Hrep | exact Hn2]].
    rewrite (bind_ok _ _ _ _ _ (block_below_first _ _ _ _ _ _ _ Hpre)).
    apply merge_null.
  - pose proof (rep_state_cases m s1' (mkBlock z sz0 stz)
                  (mkBlock a sz EL_AVAILABLE :: s2) la lu) as Hst.
    rewrite <- app_assoc in Hrep. simpl in Hrep.
    specialize (Hst Hrep). simpl in Hst.
    pose proof (heap_rep_pre _ _ _ _ Hrep) as Hpre.
    pose proof (block_below_some _ _ _ _ _ _ _ _ _ _ _ Hpre) as Hbelow.
    destruct Hst as [-> | ->].
    + destruct (merge_do _ _ _ _ _ _ _ _ _ Hrep) as (m' & Hex & Hrep').
      exists m',
        (s1' ++ mkBlock z (sz0 + sz + EL_BLOCK_OVERHEAD) EL_AVAILABLE :: s2),
        (z :: remove Z.eq_dec a (remove Z.eq_dec z la)).
      split; [rewrite (bind_ok _ _ _ _ _ Hbelow); exact Hex |].
      split; [exact Hrep' |].
      apply naa_join.
      * apply (naa_last_state _ (mkBlock z sz0 EL_AVAILABLE));
          [reflexivity | exact Hn1].
      * apply (naa_head_state (mkBlock a sz EL_AVAILABLE));
          [reflexivity | exact Hn2].
    + exists m,
        (s1' ++ mkBlock z sz0 EL_USED :: mkBlock a sz EL_AVAILABLE :: s2), la.
      split.
      { rewrite (bind_ok _ _ _ _ _ Hbelow).
        apply (merge_noop_state _ _ _ _ _ _ _ _ Hpre).
        intros Heq. symmetry in Heq. exact (states_differ Heq). }
      split; [exact Hrep |].
      apply naa_join; [exact Hn1 |].
      apply naa_cons. split; [| exact Hn2].
      simpl. intros (Heq & _). symmetry in Heq. exact (states_differ Heq).
Qed.

(** [el_free] on a used block returns, keeps the heap well formed and
    leaves no two adjacent available blocks. *)
Lemma free_ok m s1 a sz s2 la lu :
  heap_rep e m (s1 ++ mkBlock a sz EL_USED :: s2) la lu ->
  no_adjacent_avail (s1 ++ mkBlock a sz EL_USED :: s2) ->
  exists m' bs' la',
    el_free e (a + sizeof_blockhead) m = Ok tt m' /\
    heap_rep e m' bs' la' (remove Z.eq_dec a lu) /\
    no_adjacent_avail bs'.
Proof.
  intros Hrep Hn.
  destruct (free_release _ _ _ _ _ _ _ Hrep) as (m3 & Hrep3 & Hfree).
  destruct (merge_above_any _ _ _ _ _ _ _ Hrep3)
    as (m4 & sz' & s2' & la4 & Hex4 & Hrep4 & Hn4).
  { apply naa_app_r in Hn. exact (naa_tail _ _ Hn). }
  destruct (merge_below_any _ _ _ _ _ _ _ Hrep4 (naa_app_l _ _ Hn) Hn4)
    as (m5 & bs' & la' & Hex5 & Hrep5 & Hn5).
  exists m5, bs', la'. split; [| split; assumption].
  rewrite Hfree. rewrite (bind_ok _ _ _ _ _ Hex4). exact Hex5.
Qed.

(** ** Allocation with any fuel that suffices *)

(** More fuel does not change a search that has returned. *)
Lemma find_loop_mono fuel : forall fuel' size cur m r m',
  (fuel <= fuel')%nat ->
  find_loop e fuel size cur m = Ok r m' ->
  find_loop e fuel' size cur m = Ok r m'.
Proof.
  induction fuel as [| fuel IH]; intros fuel' size cur m r m' Hle H;
    [discriminate |].
  destruct fuel' as [| fuel']; [lia |].
  simpl in H |- *.
  apply bind_inv in H. destruct H as (av & m1 & Hav & H).
  rewrite (bind_ok _ _ _ _ _ Hav).
  apply bind_inv in H. destruct H as (en & m2 & Hen & H).
  rewrite (bind_ok _ _ _ _ _ Hen).
  destruct (cur =? en); [exact H |].
  apply bind_inv in H. destruct H as (cs & m3 & Hcs & H).
  rewrite (bind_ok _ _ _ _ _ Hcs).
  destruct (cs >=? wrap (size + EL_BLOCK_OVERHEAD)); [exact H |].
  apply bind_inv in H. destruct H as (nx & m4 & Hnx & H).
  rewrite (bind_ok _ _ _ _ _ Hnx).
  apply (IH fuel'); [lia | exact H].
Qed.

Lemma el_malloc_mono fuel fuel' n m p m' :
  (fuel <= fuel')%nat ->
  el_malloc e fuel n m = Ok p m' -> el_malloc e fuel' n m = Ok p m'.
Proof.
  intros Hle H. unfold el_malloc in H |- *.
  apply bind_inv in H. destruct H as (blk & m1 & Hf & H).
  assert (Hf' : el_find_first_avail e fuel' n m = Ok blk m1).
  { unfold el_find_first_avail in Hf |- *.
    apply bind_inv in Hf. destruct Hf as (av & m2 & Hav & Hf).
    rewrite (bind_ok _ _ _ _ _ Hav).
    apply bind_inv in Hf. destruct Hf as (bg & m3 & Hbg & Hf).
    rewrite (bind_ok _ _ _ _ _ Hbg).
    apply bind_inv in Hf. destruct Hf as (cu & m4 & Hcu & Hf).
    rewrite (bind_ok _ _ _ _ _ Hcu).
    exact (find_loop_mono _ _ _ _ _ _ _ Hle Hf). }
  rewrite (bind_ok _ _ _ _ _ Hf'). exact H.
Qed.

(** A request whose bound does not wrap: whatever [el_malloc] returns,
    the heap stays well formed; a non-NULL result is the payload of a
    block new at the front of the used list. *)
Lemma malloc_ok m bs la lu fuel n p m' :
  heap_rep e m bs la lu -> no_adjacent_avail bs ->
  0 <= n -> n + EL_BLOCK_OVERHEAD < 18446744073709551616 ->
  el_malloc e fuel n m = Ok p m' ->
  (p = NULL /\ m' = m) \/
  (exists a bs' la',
     p = a + sizeof_blockhead /\ p <> NULL /\ ~ In a lu /\
     heap_rep e m' bs' la' (a :: lu) /\ no_adjacent_avail bs').
Proof.
  intros Hrep Hn Hn0 Hnb Hex.
  apply (el_malloc_mono fuel (fuel + S (length la))) in Hex; [| lia].
  assert (Hfu : (length la < fuel + S (length la))%nat) by lia.
  remember (first_fit m (n + EL_BLOCK_OVERHEAD) la) as a eqn:Hff.
  symmetry in Hff.
  destruct (Z.eq_dec a NULL) as [Ha | Ha].
  - left. rewrite Ha in Hff.
    pose proof (malloc_none m bs la lu _ n Hrep Hfu) as Hnone.
    rewrite wrap_small in Hnone by (unf; lia).
    rewrite (Hnone Hff) in Hex. inversion Hex. auto.
  - right.
    destruct (first_fit_some _ _ _ _ Hff Ha) as (l1 & l2 & Ela & _ & _).
    assert (Hin : In a la) by (rewrite Ela; apply in_or_app; simpl; auto).
    destruct (in_rep_avail _ _ _ _ _ Hrep Hin) as (s1 & sz & s2 & Ebs & _).
    rewrite Ebs in Hrep, Hn.
    destruct (malloc_at m s1 a sz EL_AVAILABLE s2 la lu _ n
                Hrep Hn0 Hnb Hfu Hff Ha)
      as (k1 & k2 & m2 & _ & _ & _ & _ & Hex2 & Hrep2).
    rewrite Hex2 in Hex. inversion Hex; subst p m2.
    pose proof (rep_avail_nodes _ _ _ _ _ Hrep Hin) as Hr.
    pose proof He as (E1 & _).
    exists a, (s1 ++ mkBlock a n EL_USED ::
                 mkBlock (a + n + EL_BLOCK_OVERHEAD)
                   (sz - n - EL_BLOCK_OVERHEAD) EL_AVAILABLE :: s2),
      ((a + n + EL_BLOCK_OVERHEAD) :: k1 ++ k2).
    split; [reflexivity |]. split; [unf; lia |]. split.
    { destruct (heap_rep_pre _ _ _ _ Hrep) as (_ & _ & _ & _ & Hnd & _).
      destruct (NoDup_app_parts _ _ Hnd) as (_ & _ & Hdis).
      exact (Hdis a Hin). }
    split; [exact Hrep2 |].
    apply naa_join.
    + apply naa_snoc_other; [simpl; intros Heq; symmetry in Heq;
                             exact (states_differ Heq) |].
      exact (naa_app_l _ _ Hn).
    + apply naa_cons. split.
      * simpl. intros (Heq & _). symmetry in Heq. exact (states_differ Heq).
      * apply (naa_head_state (mkBlock a sz EL_AVAILABLE));
          [reflexivity | exact (naa_app_r _ _ Hn)].
Qed.

(** ** States reached by requests that do not wrap *)

Lemma perm_remove (l l' : list Z) x :
  NoDup l -> Permutation l (x :: l') ->
  Permutation (remove Z.eq_dec x l) l'.
Proof.
  intros Hnd Hp.
  assert (Hin : In x l).
  { apply (Permutation_in _ (Permutation_sym Hp)). simpl. auto. }
  destruct (remove_split l x Hnd Hin) as (l1 & l2 & El & Er).
  rewrite Er. rewrite El in Hp. apply Permutation_sym in Hp.
  apply Permutation_cons_app_inv in Hp. apply Permutation_sym. exact Hp.
Qed.

Lemma payloads_NoDup (l : list Z) :
  NoDup l -> NoDup (map (fun x => x + sizeof_blockhead) l).
Proof.
  induction 1 as [| a l Ha _ IH]; simpl; constructor; [| exact IH].
  intros Hin. apply in_map_iff in Hin. destruct Hin as (b & Hb & Hin).
  assert (b = a) by lia. subst b. exact (Ha Hin).
Qed.

Lemma live_release live lu a :
  NoDup lu -> In a lu ->
  Permutation live (map (fun x => x + sizeof_blockhead) lu) ->
  Permutation (remove Z.eq_dec (a + sizeof_blockhead) live)
    (map (fun x => x + sizeof_blockhead) (remove Z.eq_dec a lu)).
Proof.
  intros Hnd Hin Hp.
  destruct (remove_split lu a Hnd Hin) as (u1 & u2 & El & Er).
  rewrite Er. apply perm_remove.
  - apply (Permutation_NoDup (Permutation_sym Hp)).
    exact (payloads_NoDup _ Hnd).
  - rewrite El in Hp. rewrite map_app in Hp |- *. simpl in Hp.
    apply (Permutation_trans Hp). apply Permutation_sym.
    apply Permutation_middle.
Qed.

(** Every state reached by [el_init] and calls whose size bound does
    not wrap is a well-formed heap: header and footer of each block
    agree, each list holds the blocks of its state with matching
    counters, no two adjacent blocks are both available, and the
    addresses held by the application are the payloads of the used
    list. *)
Theorem bounded_calls_keep_heap m live :
  reaches e m live ->
  exists bs la lu,
    heap_rep e m bs la lu /\ no_adjacent_avail bs /\
    Permutation live (map (fun a => a + sizeof_blockhead) lu).
Proof.
  induction 1 as [m0 m Hinit
                 | m live fuel n p m' Hr IH Hn0 Hnb Hex
                 | m live p m' Hr IH Hin Hex].
  - destruct (Z_lt_le_dec heap_size EL_BLOCK_OVERHEAD) as [Hs | Hs].
    + destruct (init_small m0 Hs) as (m1 & H1). rewrite H1 in Hinit.
      discriminate.
    + destruct (init_ok m0 Hs) as (m1 & H1 & Hrep). rewrite H1 in Hinit.
      inversion Hinit; subst m1.
      exists [mkBlock heap_base (heap_size - EL_BLOCK_OVERHEAD) EL_AVAILABLE],
        [heap_base], [].
      split; [exact Hrep |]. split; [exact I | constructor].
  - destruct IH as (bs & la & lu & Hrep & Hn & Hp).
    destruct (malloc_ok _ _ _ _ _ _ _ _ Hrep Hn Hn0 Hnb Hex)
      as [(-> & ->) | (a & bs' & la' & -> & Hnz & _ & Hrep' & Hn')].
    + rewrite Z.eqb_refl. exists bs, la, lu. auto.
    + replace (a + sizeof_blockhead =? NULL) with false
        by (symmetry; apply Z.eqb_neq; exact Hnz).
      exists bs', la', (a :: lu).
      split; [exact Hrep' |]. split; [exact Hn' |].
      simpl. apply perm_skip. exact Hp.
  - destruct IH as (bs & la & lu & Hrep & Hn & Hp).
    pose proof (Permutation_in _ Hp Hin) as Hin'.
    apply in_map_iff in Hin'. destruct Hin' as (a & <- & Ha).
    destruct (in_rep_used _ _ _ _ _ Hrep Ha) as (s1 & sz & s2 & Ebs & _).
    rewrite Ebs in Hrep, Hn.
    destruct (free_ok _ _ _ _ _ _ _ Hrep Hn)
      as (m2 & bs' & la' & Hex2 & Hrep' & Hn').
    rewrite Hex2 in Hex. inversion Hex; subst m2.
    exists bs', la', (remove Z.eq_dec a lu).
    split; [exact Hrep' |]. split; [exact Hn' |].
    destruct (heap_rep_pre _ _ _ _ Hrep) as (_ & _ & _ & _ & Hnd & _).
    destruct (NoDup_app_parts _ _ Hnd) as (_ & Hndlu & _).
    exact (live_release _ _ _ Hndlu Ha Hp).
Qed.

(** In such a state both calls return: [el_malloc] for every request
    whose bound does not wrap, given fuel for the length of the
    available list, and [el_free] for every address held. *)
Theorem bounded_calls_return m live :
  reaches e m live ->
  (forall n, 0 <= n -> n + EL_BLOCK_OVERHEAD < 18446744073709551616 ->
     exists fuel p m', el_malloc e fuel n m = Ok p m') /\
  (forall p, In p live -> exists m', el_free e p m = Ok tt m').
Proof.
  intros Hr.
  destruct (bounded_calls_keep_heap _ _ Hr) as (bs & la & lu & Hrep & Hn & Hp).
  split.
  - intros n Hn0 Hnb. exists (S (length la)).
    remember (first_fit m (n + EL_BLOCK_OVERHEAD) la) as a eqn:Hff.
    symmetry in Hff.
    destruct (Z.eq_dec a NULL) as [Ha | Ha].
    + exists NULL, m. apply (malloc_none m bs la lu); [exact Hrep | lia |].
      rewrite wrap_small by (unf; lia). rewrite Hff. exact Ha.
    + destruct (first_fit_some _ _ _ _ Hff Ha) as (l1 & l2 & Ela & _ & _).
      assert (Hin : In a la) by (rewrite Ela; apply in_or_app; simpl; auto).
      destruct (in_rep_avail _ _ _ _ _ Hrep Hin) as (s1 & sz & s2 & Ebs & _).
      rewrite Ebs in Hrep.
      destruct (malloc_at m s1 a sz EL_AVAILABLE s2 la lu (S (length la)) n
                  Hrep Hn0 Hnb (Nat.lt_succ_diag_r _) Hff Ha)
        as (k1 & k2 & m2 & _ & _ & _ & _ & Hex2 & _).
      exists (a + sizeof_blockhead), m2. exact Hex2.
  - intros p Hin.
    pose proof (Permutation_in _ Hp Hin) as Hin'.
    apply in_map_iff in Hin'. destruct Hin' as (a & <- & Ha).
    destruct (in_rep_used _ _ _ _ _ Hrep Ha) as (s1 & sz & s2 & Ebs & _).
    rewrite Ebs in Hrep, Hn.
    destruct (free_ok _ _ _ _ _ _ _ Hrep Hn) as (m2 & _ & _ & Hex2 & _).
    exists m2. exact Hex2.
Qed.

(** ** The claims that hold for every request *)

(** C2, as amended.  For a request [s] whose bound [s + overhead] does
    not wrap, [el_find_first_avail] returns the first block of the
    available list, front to back, whose payload size is at least
    [s + overhead], and returns NULL exactly when no block of the list
    reaches that bound.  In particular, with available blocks of payload
    sizes 128, 64 and 256 in list order a request of 50 selects the
    128-byte block; the 64-byte block does not reach the bound 50 + 40. *)
Theorem find_first_avail_first_fit m bs la lu fuel s :
  heap_rep e m bs la lu -> 0 <= s ->
  s + EL_BLOCK_OVERHEAD < 18446744073709551616 ->
  (length la < fuel)%nat ->
  exists r,
    el_find_first_avail e fuel s m = Ok r m /\
    ((r = NULL /\ forall p, In p la -> size_at m p < s + EL_BLOCK_OVERHEAD) \/
     (r <> NULL /\ exists l1 l2,
        la = l1 ++ r :: l2 /\ s + EL_BLOCK_OVERHEAD <= size_at m r /\
        forall p, In p l1 -> size_at m p < s + EL_BLOCK_OVERHEAD)) /\
    (forall p q t,
       s = 50 -> la = [p; q; t] ->
       size_at m p = 128 -> size_at m q = 64 -> size_at m t = 256 ->
       r = p /\ size_at m q < s + EL_BLOCK_OVERHEAD).
Proof.
  intros Hrep Hs0 Hs Hf. pose proof He as (E1 & E2 & E3 & E4 & E5 & E6).
  pose proof (heap_rep_pre _ _ _ _ Hrep) as Hpre.
  pose proof (el_find_first_avail_ok m _ _ _ fuel s Hpre Hf) as Hfind.
  rewrite (wrap_small (s + EL_BLOCK_OVERHEAD)) in Hfind by (unf; lia).
  exists (first_fit m (s + EL_BLOCK_OVERHEAD) la).
  split; [exact Hfind |]. split.
  - destruct (Z.eq_dec (first_fit m (s + EL_BLOCK_OVERHEAD) la) NULL)
      as [E0 | N0].
    + left. split; [exact E0 |]. apply (first_fit_none _ _ _ E0).
      intros p Hp. pose proof (rep_avail_nodes _ _ _ _ _ Hrep Hp). unf. lia.
    + right. split; [exact N0 |].
      apply (first_fit_some _ _ _ _ eq_refl N0).
  - intros p q t -> -> Hp Hq Ht. simpl. rewrite Hp.
    split; [reflexivity | rewrite Hq; unf; lia].
Qed.

(** C4.  Whenever [el_malloc] returns NULL on a well-formed heap, the
    memory it leaves is the memory it was given, for every request size;
    and on the heap [el_init] has just set up, with [U = heap_bytes -
    overhead] usable bytes, [el_malloc (U + 1)] returns NULL and leaves
    that heap as it is. *)
Theorem allocate_none_leaves_heap :
  (forall m bs la lu fuel n m',
     heap_rep e m bs la lu -> (length la < fuel)%nat ->
     el_malloc e fuel n m = Ok NULL m' -> m' = m) /\
  (forall m0 m fuel,
     el_init e m0 = Ok 0 m -> (1 < fuel)%nat ->
     el_malloc e fuel (heap_size - EL_BLOCK_OVERHEAD + 1) m = Ok NULL m).
Proof.
  pose proof He as (E1 & E2 & E3 & E4 & E5 & E6). split.
  - intros m bs la lu fuel n m' Hrep Hf H.
    apply (malloc_null m bs la lu fuel n m' Hrep Hf H).
  - intros m0 m fuel Hinit Hf.
    destruct (Z_lt_le_dec heap_size EL_BLOCK_OVERHEAD) as [Hlt | Hge].
    { destruct (init_small m0 Hlt) as (m' & Hm'). congruence. }
    destruct (init_ok m0 Hge) as (m' & Hm' & Hrep).
    assert (m' = m) by congruence. subst m'.
    apply (malloc_none m _ _ _ fuel _ Hrep); [simpl; lia |].
    destruct (rep_block_state m [] _ _ _ [] _ _ Hrep) as (Hsz & _).
    simpl. rewrite Hsz. rewrite wrap_small by (unf; lia).
    replace (heap_size - EL_BLOCK_OVERHEAD >=?
             heap_size - EL_BLOCK_OVERHEAD + 1 + EL_BLOCK_OVERHEAD)
      with false by (symmetry; apply geb_false; unf; lia).
    reflexivity.
Qed.

(** C5.  When a USED block B lies physically between an AVAILABLE block
    A below and an AVAILABLE block C above, [el_free] of B's payload
    leaves one AVAILABLE block at A's address spanning all three, of
    payload size [A.size + B.size + C.size + 2 * overhead], with header
    and footer agreeing; it sits once, at the front, in the available
    list, whose length field is 2 less than with A, the freed B and C as
    three members. *)
Theorem release_merges_both_neighbours m s1 a sa b sb c sc s2 la lu :
  heap_rep e m
    (s1 ++ mkBlock a sa EL_AVAILABLE :: mkBlock b sb EL_USED ::
           mkBlock c sc EL_AVAILABLE :: s2) la lu ->
  exists m',
    el_free e (b + sizeof_blockhead) m = Ok tt m' /\
    heap_rep e m'
      (s1 ++ mkBlock a (sa + sb + sc + 2 * EL_BLOCK_OVERHEAD) EL_AVAILABLE
          :: s2)
      (a :: remove Z.eq_dec a (remove Z.eq_dec c la))
      (remove Z.eq_dec b lu) /\
    size_at m' a = sa + sb + sc + 2 * EL_BLOCK_OVERHEAD /\
    foot_at m' a (sa + sb + sc + 2 * EL_BLOCK_OVERHEAD)
      = sa + sb + sc + 2 * EL_BLOCK_OVERHEAD /\
    state_at m' a = EL_AVAILABLE /\
    ~ In a (remove Z.eq_dec a (remove Z.eq_dec c la)) /\
    ~ In b (a :: remove Z.eq_dec a (remove Z.eq_dec c la)) /\
    ~ In c (a :: remove Z.eq_dec a (remove Z.eq_dec c la)) /\
    read64 m' (avail_list e + off_length)
      = Z.of_nat (length la) + 1 - 2.
Proof.
  intros Hrep.
  destruct (free_both m s1 a sa b sb c sc s2 la lu Hrep)
    as (m' & Hex & Hrep').
  pose proof (heap_rep_pre _ _ _ _ Hrep) as (_ & (Ht & _) & _ & _ & Hnd & _).
  pose proof Hrep as (_ & _ & _ & _ & _ & Pa & Pu).
  destruct (NoDup_app_parts _ _ Hnd) as (Hndla & Hndlu & Hdis).
  destruct (tiled_split _ _ _ _ _ Ht) as (_ & Hsa & Ht2). simpl in Ht2.
  destruct Ht2 as (Hb & Hsb & Hc & Hsc & _). simpl in Hsa, Hb, Hsb, Hc, Hsc.
  assert (Hala : In a la).
  { apply (Permutation_in _ (Permutation_sym Pa)). apply members_in.
    exists (mkBlock a sa EL_AVAILABLE). repeat split.
    apply in_or_app. simpl. auto. }
  assert (Hcla : In c la).
  { apply (Permutation_in _ (Permutation_sym Pa)). apply members_in.
    exists (mkBlock c sc EL_AVAILABLE). repeat split.
    apply in_or_app. simpl. auto. }
  assert (Hblu : In b lu).
  { apply (Permutation_in _ (Permutation_sym Pu)). apply members_in.
    exists (mkBlock b sb EL_USED). repeat split.
    apply in_or_app. simpl. auto. }
  assert (Hac : a <> c) by (unf; lia).
  assert (Hab : a <> b) by (unf; lia).
  exists m'. split; [exact Hex |]. split; [exact Hrep' |].
  destruct (rep_block_state m' s1 a _ _ s2 _ _ Hrep') as (Hsz' & _).
  pose proof Hrep' as (_ & (_ & Hb') & _ & (_ & Hlen & _) & _).
  destruct (block_ok_mid _ _ _ _ Hb') as (_ & B2 & B3). simpl in B2, B3.
  split; [exact Hsz' |]. split; [exact B3 |]. split; [exact B2 |].
  split; [apply remove_In |].
  split.
  { intros [Heq | Hin]; [exact (Hab Heq) |].
    apply in_remove in Hin. destruct Hin as (Hin & _).
    apply in_remove in Hin. destruct Hin as (Hin & _).
    exact (Hdis b Hin Hblu). }
  split.
  { intros [Heq | Hin]; [exact (Hac Heq) |].
    apply in_remove in Hin. destruct Hin as (Hin & _).
    exact (remove_In Z.eq_dec la c Hin). }
  rewrite Hlen. simpl length.
  assert (L1 := remove_length la c Hndla Hcla).
  assert (Hndr : NoDup (remove Z.eq_dec c la)).
  { destruct (remove_split la c Hndla Hcla) as (l1 & l2 & E1 & ->).
    rewrite E1 in Hndla. apply NoDup_remove_1 in Hndla. exact Hndla. }
  assert (Har : In a (remove Z.eq_dec c la)).
  { apply in_in_remove; assumption. }
  assert (L2 := remove_length _ a Hndr Har).
  lia.
Qed.

(** C6, as amended.  When the block that first-fit selects for a
    request of [n] bytes has exactly [n + overhead] payload bytes,
    [el_malloc] does split it: the block becomes a USED block of [n]
    bytes at the front of the used list, and the remainder, a block of
    payload size 0 right above it, becomes AVAILABLE at the front of the
    available list. *)
Theorem exact_fit_is_split m s1 a st s2 la lu fuel n :
  heap_rep e m (s1 ++ mkBlock a (n + EL_BLOCK_OVERHEAD) st :: s2) la lu ->
  0 <= n -> (length la < fuel)%nat ->
  first_fit m (n + EL_BLOCK_OVERHEAD) la = a -> a <> NULL ->
  exists m',
    el_malloc e fuel n m = Ok (a + sizeof_blockhead) m' /\
    heap_rep e m'
      (s1 ++ mkBlock a n EL_USED ::
             mkBlock (a + n + EL_BLOCK_OVERHEAD) 0 EL_AVAILABLE :: s2)
      ((a + n + EL_BLOCK_OVERHEAD) :: remove Z.eq_dec a la) (a :: lu).
Proof.
  intros Hrep Hn0 Hf Hff Ha. pose proof He as (E1 & E2 & E3 & E4 & E5 & E6).
  pose proof (heap_rep_pre _ _ _ _ Hrep) as (_ & (Ht & _) & _ & _ & Hnd & _).
  destruct (tiled_split _ _ _ _ _ Ht) as (Ht1 & _ & Ht2). simpl in Ht1, Ht2.
  pose proof (tiled_le _ _ _ Ht1) as L1. pose proof (tiled_le _ _ _ Ht2) as L2.
  destruct (malloc_at m s1 a _ st s2 la lu fuel n Hrep Hn0
              ltac:(unf; lia) Hf Hff Ha)
    as (l1 & l2 & m' & _ & Ela & _ & _ & Hex & Hrep').
  exists m'. split; [exact Hex |].
  replace (n + EL_BLOCK_OVERHEAD - n - EL_BLOCK_OVERHEAD) with 0 in Hrep'
    by lia.
  subst la. rewrite remove_mid; [exact Hrep' |].
  apply NoDup_app_remove_r in Hnd. exact Hnd.
Qed.

(** Once [el_find_first_avail] has returned a block for a request,
    [el_split_block] on that block with the same size passes its size
    test, which is the very threshold the search used, and so does not
    return NULL; when the request does not wrap it returns the
    remainder block.  Hence [el_malloc] returns NULL only when the
    search found nothing.  What the split does after its test on a
    request that wraps is not covered here. *)
Theorem split_after_find_passes_test m bs la lu fuel n :
  heap_rep e m bs la lu -> 0 <= n < 18446744073709551616 ->
  (length la < fuel)%nat ->
  exists a,
    el_find_first_avail e fuel n m = Ok a m /\
    (a <> NULL ->
     exists m1,
       (avail <- ctl_avail e ;; el_remove_block e avail a) m = Ok tt m1 /\
       wrap (n + EL_BLOCK_OVERHEAD) <= size_at m1 a /\
       (forall r m2, el_split_block e a n m1 = Ok r m2 -> r <> NULL) /\
       (n + EL_BLOCK_OVERHEAD < 18446744073709551616 ->
        exists m2,
          el_split_block e a n m1 = Ok (a + n + EL_BLOCK_OVERHEAD) m2 /\
          a + n + EL_BLOCK_OVERHEAD <> NULL)) /\
    (forall m', el_malloc e fuel n m = Ok NULL m' -> a = NULL).
Proof.
  intros Hrep Hn Hf. pose proof He as (E1 & E2 & E3 & E4 & E5 & E6).
  pose proof (heap_rep_pre _ _ _ _ Hrep) as Hpre.
  pose proof (el_find_first_avail_ok m _ _ _ fuel n Hpre Hf) as Hfind.
  exists (first_fit m (wrap (n + EL_BLOCK_OVERHEAD)) la).
  split; [exact Hfind |]. split.
  - intros Ha.
    destruct (first_fit_some _ _ _ _ eq_refl Ha) as (l1 & l2 & Ela & Hb & _).
    set (a := first_fit m (wrap (n + EL_BLOCK_OVERHEAD)) la) in *.
    clearbody a. subst la.
    destruct (in_rep_avail m bs _ lu a Hrep) as (s1 & sz & s2 & -> & Hsz).
    { apply in_or_app. simpl. auto. }
    destruct (pre_remove_avail m _ l1 a l2 lu Hpre) as (m1 & Hex1 & Hpre1).
    pose proof Hpre1 as (_ & (Ht & Hb1) & _ & _ & Hnd1 & _).
    destruct (block_ok_mid _ _ _ _ Hb1) as (Hsz1 & _). simpl in Hsz1.
    destruct (tiled_split _ _ _ _ _ Ht) as (Ht1 & Hsz0 & Ht2).
    simpl in Ht1, Hsz0, Ht2.
    pose proof (tiled_le _ _ _ Ht1) as L1.
    pose proof (tiled_le _ _ _ Ht2) as L2.
    exists m1. split; [| split; [| split]].
    + rewrite (bind_ok _ _ _ _ _ (ctl_avail_ok m (pre_ctl _ _ _ _ Hpre))).
      exact Hex1.
    + rewrite Hsz1, <- Hsz. exact Hb.
    + intros r m2 H. apply (split_not_null m1 a n r m2); try (unf; lia).
      exact H.
    + intros Hw. rewrite wrap_small in Hb by (unf; lia). rewrite Hsz in Hb.
      assert (Hna : ~ In a ((l1 ++ l2) ++ lu)).
      { pose proof (heap_rep_pre _ _ _ _ Hrep) as (_ & _ & _ & _ & Hnd & _).
        rewrite <- app_assoc in Hnd |- *.
        apply NoDup_remove_2 in Hnd. exact Hnd. }
      destruct (pre_split m1 s1 a sz _ s2 _ lu n Hpre1 Hna ltac:(lia) Hb)
        as (m2 & g & Hex2 & _).
      exists m2. split; [exact Hex2 | unf; lia].
  - intros m' H.
    apply (malloc_null m bs la lu fuel n m' Hrep Hf H).
Qed.

(** ** Further properties of reached states *)

Lemma reaches_heap_size m live :
  reaches e m live -> EL_BLOCK_OVERHEAD <= heap_size.
Proof.
  induction 1 as [m0 m Hinit | | ]; try assumption.
  destruct (Z_lt_le_dec heap_size EL_BLOCK_OVERHEAD) as [Hs | Hs];
    [| exact Hs].
  destruct (init_small m0 Hs) as (m1 & H1). rewrite H1 in Hinit.
  discriminate.
Qed.

Lemma sum_bytes_perm m l l' :
  Permutation l l' -> sum_bytes m l = sum_bytes m l'.
Proof.
  induction 1 as [| x l l' _ IH | x y l | l l' l'' _ IH1 _ IH2]; simpl;
    [reflexivity | rewrite IH; reflexivity | ring | congruence].
Qed.

Lemma sum_bytes_members m bs :
  Forall (block_ok m) bs -> Forall state_ok bs ->
  sum_bytes m (members EL_AVAILABLE bs) + sum_bytes m (members EL_USED bs)
  = total bs.
Proof.
  induction bs as [| [a sz st] bs IH]; intros Hb Hs; [reflexivity |].
  inversion Hb as [| ? ? (Hsz & _) Hb']; subst.
  inversion Hs as [| ? ? Hst Hs']; subst.
  specialize (IH Hb' Hs'). unfold state_ok in Hst. simpl in Hsz, Hst.
  destruct Hst as [-> | ->].
  - rewrite members_cons_same.
    rewrite (members_cons_other EL_USED EL_AVAILABLE) by apply states_differ.
    simpl. rewrite Hsz. lia.
  - rewrite members_cons_same.
    rewrite (members_cons_other EL_AVAILABLE EL_USED)
      by (intros Heq; symmetry in Heq; exact (states_differ Heq)).
    simpl. rewrite Hsz. lia.
Qed.

Lemma naa_all_avail bs :
  (forall b, In b bs -> b_state b = EL_AVAILABLE) ->
  no_adjacent_avail bs -> (length bs <= 1)%nat.
Proof.
  intros Ha Hn. destruct bs as [| b [| c r]]; simpl; try lia.
  apply naa_cons in Hn. destruct Hn as (Hn & _). exfalso. apply Hn.
  split; apply Ha; simpl; auto.
Qed.

(** X12.  In every state reached by requests that do not wrap, each
    address the application holds is the payload of a block inside the
    heap, and the blocks of two different addresses held do not
    overlap: one ends, footer included, before the header of the
    other begins. *)
Theorem live_payloads_disjoint m live :
  reaches e m live ->
  (forall p, In p live ->
     heap_base + sizeof_blockhead <= p /\
     0 <= size_at m (p - sizeof_blockhead) /\
     p + size_at m (p - sizeof_blockhead) + sizeof_blockfoot
       <= heap_base + heap_size) /\
  (forall p q, In p live -> In q live -> p <> q ->
     p + size_at m (p - sizeof_blockhead) + sizeof_blockfoot
       <= q - sizeof_blockhead \/
     q + size_at m (q - sizeof_blockhead) + sizeof_blockfoot
       <= p - sizeof_blockhead).
Proof.
  intros Hr.
  destruct (bounded_calls_keep_heap _ _ Hr)
    as (bs & la & lu & Hrep & _ & Hp).
  pose proof Hrep as (_ & (Ht & _) & _).
  assert (Hblk : forall p, In p live ->
            exists b, In b bs /\ b_addr b = p - sizeof_blockhead /\
                      b_size b = size_at m (p - sizeof_blockhead)).
  { intros p Hin. pose proof (Permutation_in _ Hp Hin) as Hin'.
    apply in_map_iff in Hin'. destruct Hin' as (a & <- & Ha).
    destruct (in_rep_used _ _ _ _ _ Hrep Ha) as (s1 & sz & s2 & Ebs & Hsz).
    exists (mkBlock a sz EL_USED). simpl.
    replace (a + sizeof_blockhead - sizeof_blockhead) with a by lia.
    split; [rewrite Ebs; apply in_or_app; simpl; auto |].
    split; [reflexivity | symmetry; exact Hsz]. }
  split.
  - intros p Hin. destruct (Hblk p Hin) as (b & Hb & Ea & Es).
    pose proof (tiled_in _ _ _ _ Ht Hb) as Hrange.
    rewrite Ea, Es in Hrange. unf. lia.
  - intros p q Hpi Hqi Hne.
    destruct (Hblk p Hpi) as (b & Hb & Ea & Es).
    destruct (Hblk q Hqi) as (c & Hc & Ea' & Es').
    destruct (tiled_sep _ _ _ _ _ Ht Hb Hc) as [Heq | Hsep].
    + exfalso. apply Hne. subst c. lia.
    + rewrite Ea, Es, Ea', Es' in Hsep. unf. lia.
Qed.

(** X13.  In every state reached by requests that do not wrap, the
    [bytes] counters of the two lists add up to the heap size (no byte
    of the heap is lost or counted twice), and the used list's [length]
    is the number of addresses the application holds. *)
Theorem bytes_are_conserved m live :
  reaches e m live ->
  read64 m (avail_list e + off_bytes) + read64 m (used_list e + off_bytes)
    = heap_size /\
  read64 m (used_list e + off_length) = Z.of_nat (length live).
Proof.
  intros Hr.
  destruct (bounded_calls_keep_heap _ _ Hr)
    as (bs & la & lu & Hrep & _ & Hp).
  destruct Hrep as (_ & (Ht & Hb) & Hs & (_ & _ & Hba) & (_ & Hlu & Hbu)
                    & Pa & Pu).
  split.
  - rewrite Hba, Hbu.
    rewrite (sum_bytes_perm _ _ _ Pa), (sum_bytes_perm _ _ _ Pu).
    rewrite (sum_bytes_members _ _ Hb Hs).
    rewrite (tiled_total _ _ _ Ht). lia.
  - rewrite Hlu. rewrite (Permutation_length Hp). rewrite length_map.
    reflexivity.
Qed.

(** X14.  When the application holds no address any more, in a state
    reached by requests that do not wrap, the heap is again the one
    available block [el_init] set up: every release has coalesced. *)
Theorem released_heap_is_one_block m :
  reaches e m [] ->
  heap_rep e m
    [mkBlock heap_base (heap_size - EL_BLOCK_OVERHEAD) EL_AVAILABLE]
    [heap_base] [].
Proof.
  intros Hr. pose proof (reaches_heap_size _ _ Hr) as Hsz.
  destruct (bounded_calls_keep_heap _ _ Hr)
    as (bs & la & lu & Hrep & Hn & Hp).
  apply Permutation_nil in Hp. apply map_eq_nil in Hp. subst lu.
  pose proof Hrep as (_ & (Ht & _) & Hs & _ & _ & Pa & Pu).
  apply Permutation_nil in Pu.
  assert (Hall : forall b, In b bs -> b_state b = EL_AVAILABLE).
  { intros b Hb. rewrite Forall_forall in Hs.
    destruct (Hs b Hb) as [Ha | Hu]; [exact Ha |]. exfalso.
    assert (Hin : In (b_addr b) (members EL_USED bs)).
    { apply members_in. exists b. auto. }
    rewrite Pu in Hin. exact Hin. }
  pose proof (naa_all_avail _ Hall Hn) as Hlen.
  destruct bs as [| [a sz st] [| c r]]; simpl in Hlen; try lia.
  - simpl in Ht. unf. lia.
  - pose proof (Hall _ (or_introl eq_refl)) as Hst. simpl in Hst. subst st.
    simpl in Ht. destruct Ht as (Ha & _ & Hhi). subst a.
    assert (sz = heap_size - EL_BLOCK_OVERHEAD) by lia. subst sz.
    rewrite members_cons_same in Pa. simpl in Pa.
    apply Permutation_sym, Permutation_length_1_inv in Pa. subst la.
    exact Hrep.
Qed.

(** ** Allocation and release composed *)

(** X10.  On the heap [el_init] has just set up, a request whose bound
    does not wrap is granted exactly when it is at most the heap size
    less twice the block overhead: the block itself and the remainder
    the split creates each need a header and a footer.  A granted
    request gets the payload of the block at the heap start; a refused
    one leaves the memory as it is. *)
Theorem fresh_heap_limit m0 m fuel n :
  el_init e m0 = Ok 0 m -> 0 <= n ->
  n + EL_BLOCK_OVERHEAD < 18446744073709551616 -> (1 < fuel)%nat ->
  (n <= heap_size - 2 * EL_BLOCK_OVERHEAD ->
   exists m', el_malloc e fuel n m = Ok (heap_base + sizeof_blockhead) m') /\
  (heap_size - 2 * EL_BLOCK_OVERHEAD < n ->
   el_malloc e fuel n m = Ok NULL m).
Proof.
  intros Hinit Hn0 Hnb Hf. pose proof He as (E1 & E2 & E3 & E4 & E5 & E6).
  destruct (Z_lt_le_dec heap_size EL_BLOCK_OVERHEAD) as [Hlt | Hge].
  { destruct (init_small m0 Hlt) as (m' & Hm'). congruence. }
  destruct (init_ok m0 Hge) as (m' & Hm' & Hrep).
  assert (m' = m) by congruence. subst m'.
  destruct (rep_block_state m [] _ _ _ [] _ _ Hrep) as (Hsz & _).
  split; intros Hcmp.
  - destruct (malloc_at m [] heap_base _ EL_AVAILABLE [] [heap_base] []
                fuel n Hrep Hn0 Hnb)
      as (_ & _ & m' & _ & _ & _ & _ & Hex & _).
    + simpl. lia.
    + simpl. rewrite Hsz.
      rewrite geb_true by (unf; lia). reflexivity.
    + unf. lia.
    + exists m'. exact Hex.
  - apply (malloc_none m _ _ _ fuel _ Hrep); [simpl; lia |].
    simpl. rewrite Hsz. rewrite wrap_small by (unf; lia).
    rewrite geb_false by (unf; lia). reflexivity.
Qed.

(** X11.  On a well-formed heap without adjacent available blocks,
    releasing the address a request has just been granted undoes the
    request: the blocks are laid out as before it, sizes and states,
    the used list is as before, and the available list holds the same
    blocks, with the block that was split now at its front. *)
Theorem malloc_free_round_trip m bs la lu fuel n p m1 :
  heap_rep e m bs la lu -> no_adjacent_avail bs ->
  0 <= n -> n + EL_BLOCK_OVERHEAD < 18446744073709551616 ->
  el_malloc e fuel n m = Ok p m1 -> p <> NULL ->
  exists m2,
    el_free e p m1 = Ok tt m2 /\
    heap_rep e m2 bs
      ((p - sizeof_blockhead) :: remove Z.eq_dec (p - sizeof_blockhead) la)
      lu.
Proof.
  intros Hrep Hn Hn0 Hnb Hex Hp.
  apply (el_malloc_mono fuel (fuel + S (length la))) in Hex; [| lia].
  assert (Hfu : (length la < fuel + S (length la))%nat) by lia.
  remember (first_fit m (n + EL_BLOCK_OVERHEAD) la) as a eqn:Hff.
  symmetry in Hff.
  destruct (Z.eq_dec a NULL) as [Ha | Ha].
  { exfalso. rewrite Ha in Hff.
    pose proof (malloc_none m bs la lu _ n Hrep Hfu) as Hnone.
    rewrite wrap_small in Hnone by (unf; lia).
    rewrite (Hnone Hff) in Hex. inversion Hex. subst p. exact (Hp eq_refl). }
  destruct (first_fit_some _ _ _ _ Hff Ha) as (l1 & l2 & Ela & _ & _).
  assert (Hin : In a la) by (rewrite Ela; apply in_or_app; simpl; auto).
  destruct (in_rep_avail _ _ _ _ _ Hrep Hin) as (s1 & sz & s2 & Ebs & _).
  subst bs.
  destruct (malloc_at m s1 a sz EL_AVAILABLE s2 la lu _ n
              Hrep Hn0 Hnb Hfu Hff Ha)
    as (k1 & k2 & m1' & _ & Ek & _ & Hle & Hex1 & Hrep1).
  rewrite Hex1 in Hex. inversion Hex; subst p m1'. clear Hex.
  replace (a + sizeof_blockhead - sizeof_blockhead) with a by lia.
  destruct (heap_rep_pre _ _ _ _ Hrep) as (_ & _ & _ & _ & Hnd & _).
  destruct (NoDup_app_parts _ _ Hnd) as (Hndla & _ & Hdis).
  destruct (heap_rep_pre _ _ _ _ Hrep1) as (_ & _ & _ & _ & Hnd1 & _).
  destruct (NoDup_app_parts _ _ Hnd1) as (Hndla1 & _ & _).
  set (r := a + n + EL_BLOCK_OVERHEAD) in *.
  assert (Har : a <> r) by (unfold r; unf; lia).
  assert (Hak : ~ In a (k1 ++ k2)).
  { rewrite Ek in Hndla. exact (NoDup_remove_2 _ _ _ Hndla). }
  assert (Hrk : ~ In r (k1 ++ k2)).
  { inversion Hndla1; assumption. }
  destruct (free_release m1 s1 a n _ _ _ Hrep1) as (m3 & Hrep3 & Hfree).
  rewrite remove_head_notin in Hrep3 by (exact (Hdis a Hin)).
  destruct (merge_do m3 s1 a n r _ s2 _ _ Hrep3) as (m4 & Hex4 & Hrep4).
  rewrite remove_head_notin in Hrep4
    by (intros [Heq | Hi]; [exact (Har (eq_sym Heq)) | exact (Hak Hi)]).
  rewrite remove_head_notin in Hrep4 by exact Hrk.
  replace (n + (sz - n - EL_BLOCK_OVERHEAD) + EL_BLOCK_OVERHEAD) with sz
    in Hrep4 by lia.
  rewrite Ek. rewrite (remove_mid k1 k2 a) by (rewrite <- Ek; exact Hndla).
  pose proof (heap_rep_pre _ _ _ _ Hrep4) as Hpre4.
  exists m4. split; [| exact Hrep4].
  rewrite Hfree. rewrite (bind_ok _ _ _ _ _ Hex4).
  induction s1 as [| [z sz0 stz] s1' _] using rev_ind.
  - simpl in Hpre4.
    rewrite (bind_ok _ _ _ _ _ (block_below_first _ _ _ _ _ _ _ Hpre4)).
    apply merge_null.
  - rewrite <- app_assoc in Hrep4, Hpre4, Hn. simpl in Hrep4, Hpre4, Hn.
    rewrite (bind_ok _ _ _ _ _
               (block_below_some _ _ _ _ _ _ _ _ _ _ _ Hpre4)).
    apply (merge_noop_state _ _ _ _ _ _ _ _ Hpre4).
    apply naa_app_r in Hn. apply naa_cons in Hn. destruct Hn as (Hn & _).
    simpl in Hn. intros Hst. apply Hn. split; [exact Hst | reflexivity].
Qed.

(** From a reached state every request that does not wrap and every
    release of an address held lead to a reached state. *)
Lemma reaches_after_malloc m live n :
  reaches e m live -> 0 <= n ->
  n + EL_BLOCK_OVERHEAD < 18446744073709551616 ->
  exists fuel p m',
    el_malloc e fuel n m = Ok p m' /\
    reaches e m' (if p =? NULL then live else p :: live).
Proof.
  intros Hr Hn0 Hnb.
  destruct (bounded_calls_return _ _ Hr) as (Hm & _).
  destruct (Hm n Hn0 Hnb) as (fuel & p & m' & Hex).
  exists fuel, p, m'. split; [exact Hex |].
  exact (reaches_malloc e m live fuel n p m' Hr Hn0 Hnb Hex).
Qed.

Lemma reaches_after_free m live p :
  reaches e m live -> In p live ->
  exists m', el_free e p m = Ok tt m' /\
             reaches e m' (remove Z.eq_dec p live).
Proof.
  intros Hr Hin.
  destruct (bounded_calls_return _ _ Hr) as (_ & Hf).
  destruct (Hf p Hin) as (m' & Hex).
  exists m'. split; [exact Hex |].
  exact (reaches_free e m live p m' Hr Hin Hex).
Qed.

(** ** Merging and releasing, case by case *)

Lemma above_noop m s1 a sz s2 la lu :
  heap_rep e m (s1 ++ mkBlock a sz EL_AVAILABLE :: s2) la lu ->
  (forall c s, s2 = c :: s -> b_state c <> EL_AVAILABLE) ->
  el_merge_block_with_above e a m = Ok tt m.
Proof.
  intros Hrep Hc. pose proof (heap_rep_pre _ _ _ _ Hrep) as Hpre.
  destruct s2 as [| [c sc stc] s2'].
  - exact (merge_noop_top _ _ _ _ _ _ Hpre).
  - apply (merge_noop_above _ _ _ _ _ _ _ _ _ _ Hpre).
    exact (Hc _ _ eq_refl).
Qed.

Lemma below_noop m s1 a sz st s2 la lu :
  heap_rep e m (s1 ++ mkBlock a sz st :: s2) la lu ->
  (forall s z, s1 = s ++ [z] -> b_state z <> EL_AVAILABLE) ->
  (below <- el_block_below e a ;; el_merge_block_with_above e below) m
  = Ok tt m.
Proof.
  intros Hrep Hz. pose proof (heap_rep_pre _ _ _ _ Hrep) as Hpre.
  induction s1 as [| [z sz0 stz] s1' _] using rev_ind.
  - simpl in Hpre.
    rewrite (bind_ok _ _ _ _ _ (block_below_first _ _ _ _ _ _ _ Hpre)).
    apply merge_null.
  - pose proof (Hz _ _ eq_refl) as Hst. simpl in Hst.
    rewrite <- app_assoc in Hpre. simpl in Hpre.
    rewrite (bind_ok _ _ _ _ _
               (block_below_some _ _ _ _ _ _ _ _ _ _ _ Hpre)).
    exact (merge_noop_state _ _ _ _ _ _ _ _ Hpre Hst).
Qed.

Lemma rep_used_in m s1 b sb s2 la lu :
  heap_rep e m (s1 ++ mkBlock b sb EL_USED :: s2) la lu ->
  In b lu /\ ~ In b la.
Proof.
  intros Hrep.
  destruct (heap_rep_pre _ _ _ _ Hrep) as (_ & _ & _ & _ & Hnd & _).
  destruct (NoDup_app_parts _ _ Hnd) as (_ & _ & Hdis).
  destruct Hrep as (_ & _ & _ & _ & _ & _ & Pu).
  assert (Hin : In b lu).
  { apply (Permutation_in _ (Permutation_sym Pu)). apply members_in.
    exists (mkBlock b sb EL_USED). repeat split.
    apply in_or_app. simpl. auto. }
  split; [exact Hin | intros H; exact (Hdis b H Hin)].
Qed.

(** X15.  [el_merge_block_with_above] leaves the memory as it is
    unless both the block it is given and the block right above it are
    AVAILABLE: when it is given NULL, a block that is not AVAILABLE, the
    topmost block of the heap, or a block below one that is not
    AVAILABLE. *)
Theorem merge_needs_two_available m s1 a sz st s2 la lu :
  heap_rep e m (s1 ++ mkBlock a sz st :: s2) la lu ->
  st <> EL_AVAILABLE \/
  (forall c s, s2 = c :: s -> b_state c <> EL_AVAILABLE) ->
  el_merge_block_with_above e a m = Ok tt m /\
  el_merge_block_with_above e NULL m = Ok tt m.
Proof.
  intros Hrep Hcase. split; [| apply merge_null].
  destruct Hcase as [Hst | Hc].
  - exact (merge_noop_state _ _ _ _ _ _ _ _ (heap_rep_pre _ _ _ _ Hrep) Hst).
  - destruct (rep_state_cases _ _ _ _ _ _ Hrep) as [Hs | Hs]; simpl in Hs.
    + subst st. exact (above_noop _ _ _ _ _ _ _ Hrep Hc).
    + apply (merge_noop_state _ _ _ _ _ _ _ _ (heap_rep_pre _ _ _ _ Hrep)).
      rewrite Hs. intros Heq. symmetry in Heq. exact (states_differ Heq).
Qed.

Lemma rep_avail_length m bs la lu :
  heap_rep e m bs la lu ->
  read64 m (avail_list e + off_length) = Z.of_nat (length la) /\
  read64 m (avail_list e + off_bytes)
    = total (filter (fun b => b_state b =? EL_AVAILABLE) bs).
Proof.
  intros (_ & (_ & Hb) & _ & (_ & Hl & Hby) & _ & Pa & _).
  split; [exact Hl |]. rewrite Hby. rewrite (sum_bytes_perm _ _ _ Pa).
  unfold members. clear - Hb.
  induction bs as [| [a sz st] bs IH]; [reflexivity |].
  inversion Hb as [| ? ? (Hsz & _) Hb']; subst. simpl in Hsz. simpl.
  destruct (st =? EL_AVAILABLE); simpl; rewrite (IH Hb');
    [rewrite Hsz |]; reflexivity.
Qed.

(** X16.  Merging an AVAILABLE block with the AVAILABLE block right
    above it gives one AVAILABLE block with the lower block's address
    and the two sizes plus one overhead; the available list gets one
    shorter while its [bytes] counter stays the same: the header and
    footer that disappear are counted as payload from then on. *)
Theorem merge_keeps_bytes_counter m s1 a sa c sc s2 la lu :
  heap_rep e m
    (s1 ++ mkBlock a sa EL_AVAILABLE :: mkBlock c sc EL_AVAILABLE :: s2)
    la lu ->
  exists m' la',
    el_merge_block_with_above e a m = Ok tt m' /\
    heap_rep e m'
      (s1 ++ mkBlock a (sa + sc + EL_BLOCK_OVERHEAD) EL_AVAILABLE :: s2)
      (a :: la') lu /\
    read64 m' (avail_list e + off_length)
      = read64 m (avail_list e + off_length) - 1 /\
    read64 m' (avail_list e + off_bytes)
      = read64 m (avail_list e + off_bytes).
Proof.
  intros Hrep.
  destruct (merge_do _ _ _ _ _ _ _ _ _ Hrep) as (m' & Hex & Hrep').
  exists m', (remove Z.eq_dec c (remove Z.eq_dec a la)).
  split; [exact Hex |]. split; [exact Hrep' |].
  destruct (rep_avail_length _ _ _ _ Hrep) as (Hl & Hb).
  destruct (rep_avail_length _ _ _ _ Hrep') as (Hl' & Hb').
  rewrite Hl, Hl', Hb, Hb'.
  destruct (heap_rep_pre _ _ _ _ Hrep) as (_ & (Ht & _) & _ & _ & Hnd & _).
  destruct (NoDup_app_parts _ _ Hnd) as (Hndla & _ & _).
  pose proof Hrep as (_ & _ & _ & _ & _ & Pa & _).
  assert (Hala : In a la).
  { apply (Permutation_in _ (Permutation_sym Pa)). apply members_in.
    exists (mkBlock a sa EL_AVAILABLE). repeat split.
    apply in_or_app. simpl. auto. }
  assert (Hcla : In c la).
  { apply (Permutation_in _ (Permutation_sym Pa)). apply members_in.
    exists (mkBlock c sc EL_AVAILABLE). repeat split.
    apply in_or_app. simpl. auto. }
  assert (Hac : a <> c).
  { destruct (tiled_split _ _ _ _ _ Ht) as (_ & Hsa & Ht2). simpl in Ht2.
    destruct Ht2 as (Hc & _). simpl in Hc, Hsa. unf. lia. }
  split.
  - simpl length.
    assert (L1 := remove_length la a Hndla Hala).
    assert (Hndr : NoDup (remove Z.eq_dec a la)).
    { destruct (remove_split la a Hndla Hala) as (l1 & l2 & E1 & ->).
      rewrite E1 in Hndla. apply NoDup_remove_1 in Hndla. exact Hndla. }
    assert (Hcr : In c (remove Z.eq_dec a la)).
    { apply in_in_remove; [intros Heq; exact (Hac (eq_sym Heq)) | exact Hcla]. }
    assert (L2 := remove_length _ c Hndr Hcr).
    lia.
  - rewrite !filter_app, !total_app. simpl.
    rewrite ?Z.eqb_refl. simpl. lia.
Qed.

(** X17.  Releasing a USED block neither of whose neighbours is
    AVAILABLE (or which has none on that side) only moves it: the block
    keeps its size, becomes AVAILABLE, leaves the used list and goes to
    the front of the available list; every other block stays as it
    is. *)
Theorem release_without_available_neighbour m s1 b sb s2 la lu :
  heap_rep e m (s1 ++ mkBlock b sb EL_USED :: s2) la lu ->
  (forall s z, s1 = s ++ [z] -> b_state z <> EL_AVAILABLE) ->
  (forall c s, s2 = c :: s -> b_state c <> EL_AVAILABLE) ->
  exists m',
    el_free e (b + sizeof_blockhead) m = Ok tt m' /\
    heap_rep e m' (s1 ++ mkBlock b sb EL_AVAILABLE :: s2)
      (b :: la) (remove Z.eq_dec b lu).
Proof.
  intros Hrep Hz Hc.
  destruct (free_release _ _ _ _ _ _ _ Hrep) as (m3 & Hrep3 & Hfree).
  exists m3. split; [| exact Hrep3].
  rewrite Hfree.
  rewrite (bind_ok _ _ _ _ _ (above_noop _ _ _ _ _ _ _ Hrep3 Hc)).
  exact (below_noop _ _ _ _ _ _ _ _ Hrep3 Hz).
Qed.

(** X18.  Releasing a USED block B whose upper neighbour C is
    AVAILABLE, and whose lower neighbour is not, leaves one AVAILABLE
    block at B's address of payload size [B.size + C.size + overhead];
    it takes the front of the available list, which C leaves. *)
Theorem release_merges_above m s1 b sb c sc s2 la lu :
  heap_rep e m
    (s1 ++ mkBlock b sb EL_USED :: mkBlock c sc EL_AVAILABLE :: s2) la lu ->
  (forall s z, s1 = s ++ [z] -> b_state z <> EL_AVAILABLE) ->
  exists m',
    el_free e (b + sizeof_blockhead) m = Ok tt m' /\
    heap_rep e m'
      (s1 ++ mkBlock b (sb + sc + EL_BLOCK_OVERHEAD) EL_AVAILABLE :: s2)
      (b :: remove Z.eq_dec c la) (remove Z.eq_dec b lu).
Proof.
  intros Hrep Hz.
  destruct (rep_used_in _ _ _ _ _ _ _ Hrep) as (_ & Hbla).
  destruct (free_release _ _ _ _ _ _ _ Hrep) as (m3 & Hrep3 & Hfree).
  destruct (merge_do _ _ _ _ _ _ _ _ _ Hrep3) as (m4 & Hex4 & Hrep4).
  rewrite remove_head_notin in Hrep4 by exact Hbla.
  exists m4. split; [| exact Hrep4].
  rewrite Hfree. rewrite (bind_ok _ _ _ _ _ Hex4).
  exact (below_noop _ _ _ _ _ _ _ _ Hrep4 Hz).
Qed.

(** X19.  Releasing a USED block B whose lower neighbour A is
    AVAILABLE, and whose upper neighbour is not, leaves one AVAILABLE
    block at A's address of payload size [A.size + B.size + overhead];
    A moves to the front of the available list and B's address is in
    neither list. *)
Theorem release_merges_below m s1 a sa b sb s2 la lu :
  heap_rep e m
    (s1 ++ mkBlock a sa EL_AVAILABLE :: mkBlock b sb EL_USED :: s2) la lu ->
  (forall c s, s2 = c :: s -> b_state c <> EL_AVAILABLE) ->
  exists m',
    el_free e (b + sizeof_blockhead) m = Ok tt m' /\
    heap_rep e m'
      (s1 ++ mkBlock a (sa + sb + EL_BLOCK_OVERHEAD) EL_AVAILABLE :: s2)
      (a :: remove Z.eq_dec a la) (remove Z.eq_dec b lu) /\
    ~ In b (a :: remove Z.eq_dec a la).
Proof.
  intros Hrep Hc.
  assert (Hrep' : heap_rep e m
            ((s1 ++ [mkBlock a sa EL_AVAILABLE]) ++ mkBlock b sb EL_USED :: s2)
            la lu).
  { rewrite <- app_assoc. exact Hrep. }
  destruct (rep_used_in _ _ _ _ _ _ _ Hrep') as (_ & Hbla).
  destruct (heap_rep_pre _ _ _ _ Hrep) as (_ & (Ht & _) & _).
  assert (Hab : a <> b).
  { destruct (tiled_split _ _ _ _ _ Ht) as (_ & Hsa & Ht2). simpl in Ht2.
    destruct Ht2 as (Hb & _). simpl in Hb, Hsa. unf. lia. }
  destruct (free_release _ _ _ _ _ _ _ Hrep') as (m3 & Hrep3 & Hfree).
  pose proof (above_noop _ _ _ _ _ _ _ Hrep3 Hc) as Hex4.
  rewrite <- app_assoc in Hrep3. simpl in Hrep3.
  pose proof (block_below_some _ _ _ _ _ _ _ _ _ _ _
                (heap_rep_pre _ _ _ _ Hrep3)) as Hbelow.
  destruct (merge_do _ _ _ _ _ _ _ _ _ Hrep3) as (m5 & Hex5 & Hrep5).
  rewrite (remove_cons_other _ a b Hab) in Hrep5.
  rewrite remove_head_notin in Hrep5.
  2:{ intros Hin. apply in_remove in Hin. exact (Hbla (proj1 Hin)). }
  exists m5. split; [| split; [exact Hrep5 |]].
  - rewrite Hfree. rewrite (bind_ok _ _ _ _ _ Hex4).
    rewrite (bind_ok _ _ _ _ _ Hbelow). exact Hex5.
  - intros [Heq | Hin]; [exact (Hab Heq) |].
    apply in_remove in Hin. exact (Hbla (proj1 Hin)).
Qed.

(** ** Headers, footers and neighbours *)

(** X3.  For every block of a well-formed heap, [el_get_footer] of its
    header is the address 32 + size bytes above it, [el_get_header] of
    that footer is the header again, and the two compose to the
    identity in either order; neither changes the memory. *)
Theorem header_footer_inverse m s1 a sz st s2 la lu :
  heap_rep e m (s1 ++ mkBlock a sz st :: s2) la lu ->
  el_get_footer e a m = Ok (a + sizeof_blockhead + sz) m /\
  el_get_header e (a + sizeof_blockhead + sz) m = Ok a m /\
  (foot <- el_get_footer e a ;; el_get_header e foot) m = Ok a m /\
  (head <- el_get_header e (a + sizeof_blockhead + sz) ;;
   el_get_footer e head) m = Ok (a + sizeof_blockhead + sz) m.
Proof.
  intros (_ & (Ht & Hb) & _). pose proof He as (E1 & E2 & E3 & E4 & E5 & E6).
  destruct (tiled_split _ _ _ _ _ Ht) as (Ht1 & Hsz & Ht2).
  simpl in Ht1, Hsz, Ht2.
  pose proof (tiled_le _ _ _ Ht1) as L1. pose proof (tiled_le _ _ _ Ht2) as L2.
  destruct (block_ok_mid _ _ _ _ Hb) as (B1 & _ & B3). simpl in B1, B3.
  assert (Hfoot : el_get_footer e a m = Ok (a + sizeof_blockhead + sz) m).
  { apply (el_get_footer_ok m a sz B1 Hsz); unf; lia. }
  assert (Hhead : el_get_header e (a + sizeof_blockhead + sz) m = Ok a m).
  { unfold el_get_header, PTR_MINUS_BYTES. step.
    unfold foot_at in B3. rewrite B3. unfold ret. unwrap.
    f_equal. unf. lia. }
  split; [exact Hfoot |]. split; [exact Hhead |]. split.
  - rewrite (bind_ok _ _ _ _ _ Hfoot). exact Hhead.
  - rewrite (bind_ok _ _ _ _ _ Hhead). exact Hfoot.
Qed.

(** X4.  For two blocks of a well-formed heap that lie next to each
    other, [el_block_above] of the lower one is the upper one and
    [el_block_below] of the upper one is the lower one, so each undoes
    the other. *)
Theorem neighbours_are_inverse m s1 z sz stz a sa st s2 la lu :
  heap_rep e m (s1 ++ mkBlock z sz stz :: mkBlock a sa st :: s2) la lu ->
  el_block_above e z m = Ok a m /\
  el_block_below e a m = Ok z m /\
  (up <- el_block_above e z ;; el_block_below e up) m = Ok z m /\
  (down <- el_block_below e a ;; el_block_above e down) m = Ok a m.
Proof.
  intros Hrep. pose proof (heap_rep_pre _ _ _ _ Hrep) as Hpre.
  pose proof Hrep as (Hc & (Ht & Hb) & _).
  pose proof He as (E1 & E2 & E3 & E4 & E5 & E6).
  destruct (tiled_split _ _ _ _ _ Ht) as (Ht1 & Hsz & Ht2). simpl in Ht2.
  destruct Ht2 as (Haz & Hsa & Ht2). simpl in Ht1, Haz, Hsz, Hsa, Ht2.
  pose proof (tiled_le _ _ _ Ht1) as L1. pose proof (tiled_le _ _ _ Ht2) as L2.
  destruct (block_ok_mid _ _ _ _ Hb) as (Z1 & _). simpl in Z1.
  assert (Hup : el_block_above e z m = Ok a m).
  { rewrite (el_block_above_ok m z sz Hc Z1 Hsz) by (unf; lia).
    rewrite geb_false by (unf; lia). rewrite Haz. reflexivity. }
  pose proof (block_below_some _ _ _ _ _ _ _ _ _ _ _ Hpre) as Hdown.
  split; [exact Hup |]. split; [exact Hdown |]. split.
  - rewrite (bind_ok _ _ _ _ _ Hup). exact Hdown.
  - rewrite (bind_ok _ _ _ _ _ Hdown). exact Hup.
Qed.

(** X5.  At the ends of a well-formed heap there is no neighbour:
    [el_block_below] of the first block and [el_block_above] of the
    last block return NULL. *)
Theorem heap_ends_have_no_neighbour m bs la lu :
  heap_rep e m bs la lu ->
  (forall b s, bs = b :: s -> el_block_below e (b_addr b) m = Ok NULL m) /\
  (forall s b, bs = s ++ [b] -> el_block_above e (b_addr b) m = Ok NULL m).
Proof.
  intros Hrep. pose proof (heap_rep_pre _ _ _ _ Hrep) as Hpre.
  pose proof He as (E1 & E2 & E3 & E4 & E5 & E6). split.
  - intros [a sz st] s ->. simpl.
    exact (block_below_first _ _ _ _ _ _ _ Hpre).
  - intros s [a sz st] ->. simpl.
    pose proof Hrep as (Hc & (Ht & Hb) & _).
    destruct (tiled_split _ _ _ _ _ Ht) as (Ht1 & Hsz & Ht2).
    simpl in Ht1, Hsz, Ht2. pose proof (tiled_le _ _ _ Ht1) as L1.
    destruct (block_ok_mid _ _ _ _ Hb) as (B1 & _). simpl in B1.
    rewrite (el_block_above_ok m a sz Hc B1 Hsz) by (unf; lia).
    rewrite geb_true by (unf; lia). reflexivity.
Qed.

(** ** The list operations composed *)

Lemma sum_bytes_phys m m' bs l :
  phys e m bs -> phys e m' bs -> incl l (addrs bs) ->
  sum_bytes m' l = sum_bytes m l.
Proof.
  intros (_ & Hb) (_ & Hb') Hi. apply sum_bytes_frame.
  intros p Hp. apply Hi, addrs_in in Hp. destruct Hp as (b & Hin & <-).
  rewrite Forall_forall in Hb, Hb'.
  destruct (Hb b Hin) as (-> & _). destruct (Hb' b Hin) as (-> & _).
  reflexivity.
Qed.

(** X6.  Adding a block that is in neither list to the front of the
    used list makes it the first member, raises [length] by 1 and
    [bytes] by the block's size plus overhead; removing it again gives
    back the list as it was, members and counters. *)
Theorem add_front_then_remove m bs la lu a :
  heap_pre e m bs la lu -> In a (addrs bs) -> ~ In a (la ++ lu) ->
  exists m1 m2,
    el_add_block_front e (used_list e) a m = Ok tt m1 /\
    heap_pre e m1 bs la (a :: lu) /\
    read64 m1 (used_list e + off_length)
      = read64 m (used_list e + off_length) + 1 /\
    read64 m1 (used_list e + off_bytes)
      = read64 m (used_list e + off_bytes) + size_at m a
        + EL_BLOCK_OVERHEAD /\
    el_remove_block e (used_list e) a m1 = Ok tt m2 /\
    heap_pre e m2 bs la lu /\
    read64 m2 (used_list e + off_length)
      = read64 m (used_list e + off_length) /\
    read64 m2 (used_list e + off_bytes)
      = read64 m (used_list e + off_bytes).
Proof.
  intros Hpre Ha Hna.
  destruct (pre_add_used m bs la lu a Hpre Ha Hna) as (m1 & Hex1 & Hpre1).
  destruct (pre_remove_used m1 bs la [] a lu Hpre1) as (m2 & Hex2 & Hpre2).
  simpl in Hpre2.
  exists m1, m2.
  pose proof Hpre as (_ & Hph & _ & (_ & Hl & Hb) & _ & Hi).
  pose proof Hpre1 as (_ & Hph1 & _ & (_ & Hl1 & Hb1) & _ & Hi1).
  pose proof Hpre2 as (_ & Hph2 & _ & (_ & Hl2 & Hb2) & _ & _).
  assert (Hiu : incl (a :: lu) (addrs bs)).
  { intros p Hp. apply Hi1, in_or_app. right. exact Hp. }
  split; [exact Hex1 |]. split; [exact Hpre1 |]. split.
  { rewrite Hl1, Hl. simpl length. lia. }
  split.
  { rewrite Hb1, Hb. rewrite (sum_bytes_phys m m1 bs _ Hph Hph1 Hiu).
    simpl. lia. }
  split; [exact Hex2 |]. split; [exact Hpre2 |]. split.
  { rewrite Hl2, Hl. reflexivity. }
  rewrite Hb2, Hb. apply (sum_bytes_phys m m2 bs _ Hph Hph2).
  intros p Hp. apply Hiu. right. exact Hp.
Qed.

(** X7.  Removing a member of the available list and adding it to the
    front again moves it to the front: the other members keep their
    order, and [length] and [bytes] end as they began. *)
Theorem remove_then_add_front m bs l1 a l2 lu :
  heap_pre e m bs (l1 ++ a :: l2) lu ->
  exists m1 m2,
    el_remove_block e (avail_list e) a m = Ok tt m1 /\
    heap_pre e m1 bs (l1 ++ l2) lu /\
    el_add_block_front e (avail_list e) a m1 = Ok tt m2 /\
    heap_pre e m2 bs (a :: l1 ++ l2) lu /\
    read64 m2 (avail_list e + off_length)
      = read64 m (avail_list e + off_length) /\
    read64 m2 (avail_list e + off_bytes)
      = read64 m (avail_list e + off_bytes).
Proof.
  intros Hpre.
  pose proof Hpre as (_ & Hph & (_ & Hl & Hb) & _ & Hnd & Hi).
  destruct (pre_remove_avail m bs l1 a l2 lu Hpre) as (m1 & Hex1 & Hpre1).
  assert (Ha : In a (addrs bs)).
  { apply Hi. apply in_or_app. left. apply in_or_app. simpl. auto. }
  assert (Hna : ~ In a ((l1 ++ l2) ++ lu)).
  { rewrite <- app_assoc in Hnd |- *. exact (NoDup_remove_2 _ _ _ Hnd). }
  destruct (pre_add_avail m1 bs _ lu a Hpre1 Ha Hna) as (m2 & Hex2 & Hpre2).
  pose proof Hpre2 as (_ & Hph2 & (_ & Hl2 & Hb2) & _ & _ & Hi2).
  exists m1, m2.
  split; [exact Hex1 |]. split; [exact Hpre1 |].
  split; [exact Hex2 |]. split; [exact Hpre2 |]. split.
  { rewrite Hl2, Hl. simpl length. rewrite !length_app. simpl length. lia. }
  rewrite Hb2, Hb.
  rewrite (sum_bytes_phys m m2 bs _ Hph Hph2).
  2:{ intros p Hp. apply Hi2, in_or_app. left. exact Hp. }
  simpl. rewrite !sum_bytes_app. simpl. lia.
Qed.

(** ** Initialisation and search on any memory *)


(** The loop of the search only loads, and returns a block only after
    its size passed the test. *)
Lemma find_loop_reads fuel : forall size cur m r m',
  find_loop e fuel size cur m = Ok r m' ->
  m' = m /\
  (r <> NULL ->
   mapped e (r + off_size) 8 = true /\
   wrap (size + EL_BLOCK_OVERHEAD) <= size_at m r).
Proof.
  induction fuel as [| fuel IH]; intros size cur m r m' H; [discriminate |].
  simpl in H.
  apply bind_inv in H. destruct H as (av & m1 & Hav & H).
  apply load64_inv in Hav. destruct Hav as (_ & -> & _).
  apply bind_inv in H. destruct H as (en & m2 & Hen & H).
  apply load64_inv in Hen. destruct Hen as (_ & -> & _).
  destruct (cur =? en).
  { apply ret_inv in H. destruct H as (-> & ->).
    split; [reflexivity | intros N; contradiction]. }
  apply bind_inv in H. destruct H as (cs & m3 & Hcs & H).
  apply load64_inv in Hcs. destruct Hcs as (Hmap & -> & ->).
  destruct (read64 m (cur + off_size) >=? wrap (size + EL_BLOCK_OVERHEAD))
    eqn:Hge.
  { apply ret_inv in H. destruct H as (-> & ->).
    split; [reflexivity |]. intros _. split; [exact Hmap |].
    unfold size_at. rewrite Z.geb_leb in Hge. apply Z.leb_le. exact Hge. }
  apply bind_inv in H. destruct H as (nx & m4 & Hnx & H).
  apply load64_inv in Hnx. destruct Hnx as (_ & -> & _).
  exact (IH _ _ _ _ _ H).
Qed.

(** X8.  Whatever the memory holds, a search that returns leaves it
    untouched, and a block it returns has a readable header whose size
    is at least the bound the code computes, [size + overhead] in
    [size_t] arithmetic. *)
Theorem find_first_avail_only_reads fuel size m r m' :
  el_find_first_avail e fuel size m = Ok r m' ->
  m' = m /\
  (r <> NULL ->
   mapped e (r + off_size) 8 = true /\
   wrap (size + EL_BLOCK_OVERHEAD) <= size_at m r).
Proof.
  intros H. unfold el_find_first_avail in H.
  apply bind_inv in H. destruct H as (av & m1 & Hav & H).
  apply load64_inv in Hav. destruct Hav as (_ & -> & _).
  apply bind_inv in H. destruct H as (bg & m2 & Hbg & H).
  apply load64_inv in Hbg. destruct Hbg as (_ & -> & _).
  apply bind_inv in H. destruct H as (cu & m3 & Hcu & H).
  apply load64_inv in Hcu. destruct Hcu as (_ & -> & _).
  exact (find_loop_reads _ _ _ _ _ _ H).
Qed.

(** ** Payload bytes are left alone *)

Lemma keeps_refl bs m : keeps_payloads bs m m.
Proof. intros x _. reflexivity. Qed.

Lemma keeps_trans bs m1 m2 m3 :
  keeps_payloads bs m1 m2 -> keeps_payloads bs m2 m3 ->
  keeps_payloads bs m1 m3.
Proof. intros H12 H23 x Hx. rewrite (H23 x Hx). exact (H12 x Hx). Qed.

Lemma keeps_sub bs bs' m m' :
  (forall x, payload_of bs' x -> payload_of bs x) ->
  keeps_payloads bs m m' -> keeps_payloads bs' m m'.
Proof. intros Hs H x Hx. apply H, Hs, Hx. Qed.

Lemma keeps_differ bs m m' (W : Z -> Prop) :
  differ_only m m' W -> (forall x, payload_of bs x -> ~ W x) ->
  keeps_payloads bs m m'.
Proof. intros Hd Hw x Hx. apply Hd, Hw, Hx. Qed.

Lemma payload_of_app s1 s2 x :
  payload_of (s1 ++ s2) x <-> payload_of s1 x \/ payload_of s2 x.
Proof.
  unfold payload_of. split.
  - intros (b & Hb & Hx). apply in_app_or in Hb.
    destruct Hb as [Hb | Hb]; [left | right]; exists b; auto.
  - intros [(b & Hb & Hx) | (b & Hb & Hx)]; exists b;
      (split; [apply in_or_app; auto | exact Hx]).
Qed.

Lemma payload_of_cons b s x :
  payload_of (b :: s) x <-> payload_bytes b x \/ payload_of s x.
Proof.
  unfold payload_of. split.
  - intros (c & [<- | Hc] & Hx); [left; exact Hx | right; exists c; auto].
  - intros [Hx | (c & Hc & Hx)]; [exists b | exists c]; simpl; auto.
Qed.

(** Payloads lie in the heap, apart from every header. *)
Lemma payload_not_header bs p x :
  tiled heap_base bs (heap_base + heap_size) ->
  node_of e bs p -> payload_of bs x ->
  ~ (p <= x < p + sizeof_blockhead).
Proof.
  intros Ht Hp (b & Hb & Hx) Hr. unfold payload_bytes in Hx.
  pose proof He as (E1 & E2 & E3 & E4 & E5 & E6).
  destruct (tiled_in _ _ _ _ Ht Hb) as (B1 & B2 & B3).
  destruct Hp as [Hp | (lst & [-> | ->] & [-> | ->])]; try (unf; lia).
  apply addrs_in in Hp. destruct Hp as (c & Hc & <-).
  destruct (tiled_in _ _ _ _ Ht Hc) as (C1 & C2 & C3).
  destruct (tiled_sep _ _ _ _ _ Ht Hb Hc) as [-> | [H | H]]; unf; lia.
Qed.

Lemma links_not_payload bs ns lst x :
  tiled heap_base bs (heap_base + heap_size) ->
  (forall p, In p ns -> node_of e bs p) -> is_list e lst ->
  payload_of bs x -> ~ (link_bytes ns x \/ counter_bytes lst x).
Proof.
  intros Ht Hns Hl Hx [(p & Hp & Hr) | Hr].
  - apply (payload_not_header bs p x Ht (Hns p Hp) Hx). unf. lia.
  - destruct Hx as (b & Hb & Hx). unfold payload_bytes in Hx.
    destruct (tiled_in _ _ _ _ Ht Hb) as (B1 & B2 & B3).
    pose proof He as (E1 & E2 & E3 & E4 & E5 & E6).
    unfold counter_bytes in Hr. destruct Hl as [-> | ->]; unf; lia.
Qed.

Lemma remove_keeps m bs lst l1 a l2 m' :
  phys e m bs -> is_list e lst -> list_ok m lst (l1 ++ a :: l2) ->
  NoDup (l1 ++ a :: l2) -> incl (l1 ++ a :: l2) (addrs bs) ->
  el_remove_block e lst a m = Ok tt m' -> keeps_payloads bs m m'.
Proof.
  intros Hph Hl Hlo Hnd Hi Hex.
  destruct (remove_sem m bs lst l1 a l2 Hph Hl Hlo Hnd Hi)
    as (m2 & Hex2 & _ & Hd).
  rewrite Hex in Hex2. inversion Hex2; subst m2.
  apply (keeps_differ _ _ _ _ Hd). intros x Hx.
  apply (links_not_payload bs _ lst x (proj1 Hph)); [| exact Hl | exact Hx].
  rewrite app_assoc.
  apply (list_nodes bs lst (l1 ++ l2) Hl).
  intros p Hp. apply Hi. apply in_app_or in Hp. apply in_or_app.
  simpl. tauto.
Qed.

Lemma add_keeps m bs lst l a m' :
  ctl_ok e m -> phys e m bs -> is_list e lst -> list_ok m lst l ->
  NoDup (a :: l) -> incl (a :: l) (addrs bs) ->
  el_add_block_front e lst a m = Ok tt m' -> keeps_payloads bs m m'.
Proof.
  intros Hc Hph Hl Hlo Hnd Hi Hex.
  destruct (add_sem m bs lst l a Hc Hph Hl Hlo Hnd Hi)
    as (m2 & Hex2 & _ & Hd).
  rewrite Hex in Hex2. inversion Hex2; subst m2.
  apply (keeps_differ _ _ _ _ Hd). intros x Hx.
  apply (links_not_payload bs _ lst x (proj1 Hph)); [| exact Hl | exact Hx].
  exact (list_nodes bs lst (a :: l) Hl Hi).
Qed.

Lemma pre_lists m bs la lu :
  heap_pre e m bs la lu ->
  NoDup la /\ NoDup lu /\ incl la (addrs bs) /\ incl lu (addrs bs).
Proof.
  intros (_ & _ & _ & _ & Hnd & Hi).
  destruct (NoDup_app_parts _ _ Hnd) as (H1 & H2 & _).
  split; [exact H1 |]. split; [exact H2 |].
  split; intros p Hp; apply Hi, in_or_app; auto.
Qed.

Lemma pre_remove_avail_keeps m bs l1 a l2 lu m' :
  heap_pre e m bs (l1 ++ a :: l2) lu ->
  el_remove_block e (avail_list e) a m = Ok tt m' -> keeps_payloads bs m m'.
Proof.
  intros Hpre Hex. destruct (pre_lists _ _ _ _ Hpre) as (Hnd & _ & Hi & _).
  destruct Hpre as (_ & Hph & Hla & _).
  exact (remove_keeps m bs _ l1 a l2 m' Hph (or_introl eq_refl) Hla Hnd Hi Hex).
Qed.

Lemma pre_remove_used_keeps m bs la l1 a l2 m' :
  heap_pre e m bs la (l1 ++ a :: l2) ->
  el_remove_block e (used_list e) a m = Ok tt m' -> keeps_payloads bs m m'.
Proof.
  intros Hpre Hex. destruct (pre_lists _ _ _ _ Hpre) as (_ & Hnd & _ & Hi).
  destruct Hpre as (_ & Hph & _ & Hlu & _).
  exact (remove_keeps m bs _ l1 a l2 m' Hph (or_intror eq_refl) Hlu Hnd Hi Hex).
Qed.

Lemma pre_add_avail_keeps m bs la lu a m' :
  heap_pre e m bs la lu -> In a (addrs bs) -> ~ In a (la ++ lu) ->
  el_add_block_front e (avail_list e) a m = Ok tt m' ->
  keeps_payloads bs m m'.
Proof.
  intros Hpre Ha Hna Hex.
  destruct (pre_lists _ _ _ _ Hpre) as (Hnd & _ & Hi & _).
  destruct Hpre as (Hc & Hph & Hla & _).
  apply (add_keeps m bs _ la a m' Hc Hph (or_introl eq_refl) Hla); auto.
  - constructor; [intros H; apply Hna, in_or_app; auto | exact Hnd].
  - intros p [<- | Hp]; [exact Ha | exact (Hi p Hp)].
Qed.

Lemma pre_add_used_keeps m bs la lu a m' :
  heap_pre e m bs la lu -> In a (addrs bs) -> ~ In a (la ++ lu) ->
  el_add_block_front e (used_list e) a m = Ok tt m' ->
  keeps_payloads bs m m'.
Proof.
  intros Hpre Ha Hna Hex.
  destruct (pre_lists _ _ _ _ Hpre) as (_ & Hnd & _ & Hi).
  destruct Hpre as (Hc & Hph & _ & Hlu & _).
  apply (add_keeps m bs _ lu a m' Hc Hph (or_intror eq_refl) Hlu); auto.
  - constructor; [intros H; apply Hna, in_or_app; auto | exact Hnd].
  - intros p [<- | Hp]; [exact Ha | exact (Hi p Hp)].
Qed.

Lemma set_state_keeps m bs a v m' :
  tiled heap_base bs (heap_base + heap_size) -> In a (addrs bs) ->
  set_state e a v m = Ok tt m' -> keeps_payloads bs m m'.
Proof.
  intros Ht Ha Hex. apply store8_inv in Hex. destruct Hex as (_ & ->).
  apply (keeps_differ _ _ _ (fun x => x = a + off_state)).
  - apply differ_only_write8. reflexivity.
  - intros x Hx ->.
    apply (payload_not_header bs a _ Ht (or_introl Ha) Hx). unf. lia.
Qed.

(** The four stores of a split: the block's size field, and footers
    and header from the new footer upwards. *)
Lemma split_differ m s1 a sz st s2 la lu n r m' :
  heap_pre e m (s1 ++ mkBlock a sz st :: s2) la lu ->
  0 <= n -> n + EL_BLOCK_OVERHEAD <= sz ->
  el_split_block e a n m = Ok r m' ->
  differ_only m m'
    (fun x => a <= x < a + sizeof_blockfoot \/
              a + sizeof_blockhead + n <= x < a + sz + EL_BLOCK_OVERHEAD).
Proof.
  intros (Hc & (Ht & Hb) & _) Hn0 Hn Hsplit.
  pose proof He as (E1 & E2 & E3 & E4 & E5 & E6).
  destruct (tiled_split _ _ _ _ _ Ht) as (Ht1 & Hsz & Ht2). simpl in *.
  pose proof (tiled_le _ _ _ Ht1) as L1. pose proof (tiled_le _ _ _ Ht2) as L2.
  destruct (block_ok_mid _ _ _ _ Hb) as (B1 & _). simpl in B1.
  set (m1 := write64 m (a + off_size) n).
  set (m2 := write64 m1 (a + sizeof_blockhead + n) n).
  set (m3 := write64 m2 (a + n + EL_BLOCK_OVERHEAD + off_size)
                     (sz - n - EL_BLOCK_OVERHEAD)).
  set (m4 := write64 m3 (a + n + EL_BLOCK_OVERHEAD + sizeof_blockhead
                          + (sz - n - EL_BLOCK_OVERHEAD))
                     (sz - n - EL_BLOCK_OVERHEAD)).
  assert (Hex : el_split_block e a n m = Ok (a + n + EL_BLOCK_OVERHEAD) m4).
  { unfold el_split_block, get_size, set_size. views.
    step. step. rewrite B1.
    replace (sz <? wrap (n + EL_BLOCK_OVERHEAD)) with false
      by (symmetry; apply Z.ltb_ge; unwrap; lia).
    step. fold m1.
    assert (Hs1 : size_at m1 a = n).
    { unfold m1. views. rw. unwrap. reflexivity. }
    rewrite (bind_ok _ _ _ _ _ (el_get_footer_ok m1 a n Hs1 Hn0 ltac:(lia)
               ltac:(unf; lia))).
    step. fold m2.
    assert (C2 : ctl_ok e m2 /\ size_at m2 a = n).
    { split.
      - apply (ctl_ok_frame m m2 (extent_bytes a sz) Hc).
        + unfold m2, m1.
          repeat (eapply differ_only_trans;
                  [| apply differ_only_write64; intros x Hx]);
            [apply differ_only_refl | |]; unfold extent_bytes; unf; lia.
        + unfold extent_bytes, ctl_ptr_bytes. intros. unf. lia.
      - unfold m2. views. rw. exact Hs1. }
    destruct C2 as (Hc2 & Hs2).
    rewrite (bind_ok _ _ _ _ _ (el_block_above_ok m2 a n Hc2 Hs2 Hn0
               ltac:(lia) ltac:(unf; lia))).
    replace (a + n + EL_BLOCK_OVERHEAD >=? heap_base + heap_size) with false
      by (symmetry; apply geb_false; unf; lia).
    unwrap. step. fold m3.
    assert (Hs3 : size_at m3 (a + n + EL_BLOCK_OVERHEAD)
                  = sz - n - EL_BLOCK_OVERHEAD).
    { unfold m3. views. rw. unwrap. reflexivity. }
    rewrite (bind_ok _ _ _ _ _ (el_get_footer_ok m3 _ _ Hs3 ltac:(lia)
               ltac:(unf; lia) ltac:(unf; lia))).
    step. reflexivity. }
  rewrite Hex in Hsplit. inversion Hsplit; subst r m'.
  unfold m4, m3, m2, m1.
  repeat (eapply differ_only_trans;
          [| apply differ_only_write64; intros x Hx]);
    [apply differ_only_refl | | | |]; unf; lia.
Qed.

Lemma payload_restate s1 a n st st' s2 x :
  payload_of (s1 ++ mkBlock a n st :: s2) x ->
  payload_of (s1 ++ mkBlock a n st' :: s2) x.
Proof.
  rewrite !payload_of_app, !payload_of_cons.
  unfold payload_bytes. simpl. tauto.
Qed.

Lemma payload_skip s1 b r s2 x :
  payload_of (s1 ++ b :: s2) x -> payload_of (s1 ++ b :: r :: s2) x.
Proof. rewrite !payload_of_app, !payload_of_cons. tauto. Qed.

Lemma malloc_at_keeps m s1 a sz st s2 la lu fuel n p m' :
  heap_rep e m (s1 ++ mkBlock a sz st :: s2) la lu -> 0 <= n ->
  n + EL_BLOCK_OVERHEAD < 18446744073709551616 ->
  (length la < fuel)%nat ->
  first_fit m (n + EL_BLOCK_OVERHEAD) la = a -> a <> NULL ->
  el_malloc e fuel n m = Ok p m' ->
  keeps_payloads (s1 ++ mkBlock a n EL_USED :: s2) m m'.
Proof.
  intros Hrep Hn0 Hn Hf Hff Ha Hmalloc.
  pose proof He as (E1 & E2 & E3 & E4 & E5 & E6).
  destruct (first_fit_some _ _ _ _ Hff Ha) as (l1 & l2 & -> & Hbound & Hl1).
  destruct (rep_block_state _ _ _ _ _ _ _ _ Hrep) as (Hsz & Hav & _).
  assert (Est : st = EL_AVAILABLE).
  { apply Hav. apply in_or_app. simpl. auto. }
  subst st.
  pose proof (heap_rep_pre _ _ _ _ Hrep) as Hpre.
  rewrite Hsz in Hbound.
  pose proof Hrep as (_ & (Ht & _) & _).
  destruct (tiled_split _ _ _ _ _ Ht) as (Ht1 & Hsz0 & Ht2). simpl in *.
  pose proof (tiled_le _ _ _ Ht1) as L1. pose proof (tiled_le _ _ _ Ht2) as L2.
  pose proof Hpre as (_ & _ & _ & _ & Hnd & Hi).
  assert (Hna : ~ In a ((l1 ++ l2) ++ lu)).
  { rewrite <- app_assoc in Hnd |- *. apply NoDup_remove_2 in Hnd. exact Hnd. }
  assert (Hi0 : incl ((l1 ++ l2) ++ lu)
                  (addrs (s1 ++ mkBlock a sz EL_AVAILABLE :: s2))).
  { intros q Hq. apply Hi. apply in_app_or in Hq. apply in_or_app.
    destruct Hq as [Hq | Hq]; [left | auto].
    apply in_app_or in Hq. apply in_or_app. simpl. tauto. }
  set (a' := a + n + EL_BLOCK_OVERHEAD) in *.
  assert (Hna' : ~ In a' (addrs (s1 ++ mkBlock a sz EL_AVAILABLE :: s2))).
  { apply (inner_not_addr _ _ _ _ _ _ Ht). simpl. unfold a'. unf. lia. }
  pose proof (el_find_first_avail_ok m _ _ _ fuel n Hpre Hf) as Hfind.
  rewrite (wrap_small (n + EL_BLOCK_OVERHEAD)) in Hfind by (unf; lia).
  rewrite Hff in Hfind.
  destruct (pre_remove_avail m _ l1 a l2 lu Hpre) as (m1 & Hex1 & Hpre1).
  destruct (pre_split m1 s1 a sz EL_AVAILABLE s2 _ lu n Hpre1 Hna Hn0 Hbound)
    as (m2 & g & Hex2 & Hpre2). fold a' in Hex2, Hpre2.
  destruct (pre_set_state m2 s1 a n EL_AVAILABLE _ _ lu EL_USED Hpre2 Hna)
    as (m3 & Hex3 & Hpre3); [unfold EL_USED; lia |].
  assert (Hin3 : In a (addrs (s1 ++ mkBlock a n EL_USED ::
                    mkBlock a' (sz - n - EL_BLOCK_OVERHEAD) g :: s2))).
  { rewrite addrs_app. apply in_or_app. simpl. auto. }
  destruct (pre_add_used m3 _ _ lu a Hpre3 Hin3 Hna) as (m4 & Hex4 & Hpre4).
  assert (Hpre4' : heap_pre e m4
            ((s1 ++ [mkBlock a n EL_USED]) ++
             mkBlock a' (sz - n - EL_BLOCK_OVERHEAD) g :: s2)
            (l1 ++ l2) (a :: lu)).
  { rewrite <- app_assoc. exact Hpre4. }
  assert (Hna4 : ~ In a' ((l1 ++ l2) ++ a :: lu)).
  { intros Hin. apply in_app_or in Hin. destruct Hin as [Hin | [Hin | Hin]].
    - apply Hna', Hi0, in_or_app. auto.
    - unfold a' in Hin. unf. lia.
    - apply Hna', Hi0, in_or_app. auto. }
  destruct (pre_set_state m4 _ a' _ g s2 _ _ EL_AVAILABLE Hpre4' Hna4)
    as (m5 & Hex5 & Hpre5); [unfold EL_AVAILABLE; lia |].
  rewrite <- app_assoc in Hpre5. simpl in Hpre5.
  assert (Hin5 : In a' (addrs (s1 ++ mkBlock a n EL_USED ::
                    mkBlock a' (sz - n - EL_BLOCK_OVERHEAD) EL_AVAILABLE
                    :: s2))).
  { rewrite addrs_app. apply in_or_app. simpl. auto. }
  destruct (pre_add_avail m5 _ _ _ a' Hpre5 Hin5 Hna4)
    as (m6 & Hex6 & Hpre6).
  assert (Hrun : el_malloc e fuel n m = Ok (a + sizeof_blockhead) m6).
  { unfold el_malloc.
    rewrite (bind_ok _ _ _ _ _ Hfind).
    replace (a =? NULL) with false by (symmetry; apply Z.eqb_neq; exact Ha).
    rewrite (bind_ok _ _ _ _ _ (ctl_avail_ok m (pre_ctl _ _ _ _ Hpre))).
    rewrite (bind_ok _ _ _ _ _ Hex1).
    rewrite (bind_ok _ _ _ _ _ Hex2).
    replace (a' =? NULL) with false
      by (symmetry; apply Z.eqb_neq; unfold a'; unf; lia).
    change (negb false) with true. cbv iota.
    rewrite (bind_ok _ _ _ _ _ Hex3).
    rewrite (bind_ok _ _ _ _ _ (ctl_used_ok m3 (pre_ctl _ _ _ _ Hpre3))).
    rewrite (bind_ok _ _ _ _ _ Hex4).
    rewrite (bind_ok _ _ _ _ _ Hex5).
    rewrite (bind_ok _ _ _ _ _ (ctl_avail_ok m5 (pre_ctl _ _ _ _ Hpre5))).
    rewrite (bind_ok _ _ _ _ _ Hex6).
    unfold ret, PTR_PLUS_BYTES. unwrap. reflexivity. }
  rewrite Hrun in Hmalloc. inversion Hmalloc; subst p m'.
  (* step by step *)
  assert (K1 : keeps_payloads (s1 ++ mkBlock a n EL_USED :: s2) m m1).
  { apply (keeps_sub (s1 ++ mkBlock a sz EL_AVAILABLE :: s2)).
    - intros x. rewrite !payload_of_app, !payload_of_cons.
      unfold payload_bytes. simpl. intros [H | [H | H]]; auto.
      right. left. unf. lia.
    - exact (pre_remove_avail_keeps _ _ _ _ _ _ _ Hpre Hex1). }
  assert (K2 : keeps_payloads (s1 ++ mkBlock a n EL_USED :: s2) m1 m2).
  { apply (keeps_differ _ _ _ _
             (split_differ m1 s1 a sz _ s2 _ lu n _ m2 Hpre1 Hn0 Hbound Hex2)).
    intros x. rewrite payload_of_app, payload_of_cons.
    unfold payload_bytes. simpl.
    intros [(b & Hb & Hx) | [Hx | (b & Hb & Hx)]].
    - destruct (tiled_in _ _ _ _ Ht1 Hb) as (B1 & B2 & B3).
      unfold payload_bytes in Hx. unf. lia.
    - unf. lia.
    - destruct (tiled_in _ _ _ _ Ht2 Hb) as (B1 & B2 & B3).
      unfold payload_bytes in Hx. unf. lia. }
  pose proof Hpre2 as (_ & (Ht2' & _) & _).
  assert (K3 : keeps_payloads (s1 ++ mkBlock a n EL_USED :: s2) m2 m3).
  { apply (keeps_sub (s1 ++ mkBlock a n EL_AVAILABLE ::
                        mkBlock a' (sz - n - EL_BLOCK_OVERHEAD) g :: s2)).
    - intros x Hx. apply payload_skip.
      exact (payload_restate _ _ _ _ _ _ _ Hx).
    - apply (set_state_keeps m2 _ a EL_USED m3 Ht2'); [| exact Hex3].
      rewrite addrs_app. apply in_or_app. simpl. auto. }
  assert (K4 : keeps_payloads (s1 ++ mkBlock a n EL_USED :: s2) m3 m4).
  { apply (keeps_sub (s1 ++ mkBlock a n EL_USED ::
                        mkBlock a' (sz - n - EL_BLOCK_OVERHEAD) g :: s2)).
    - intros x Hx. apply payload_skip. exact Hx.
    - exact (pre_add_used_keeps _ _ _ _ _ _ Hpre3 Hin3 Hna Hex4). }
  pose proof Hpre4 as (_ & (Ht4 & _) & _).
  assert (K5 : keeps_payloads (s1 ++ mkBlock a n EL_USED :: s2) m4 m5).
  { apply (keeps_sub (s1 ++ mkBlock a n EL_USED ::
                        mkBlock a' (sz - n - EL_BLOCK_OVERHEAD) g :: s2)).
    - intros x Hx. apply payload_skip. exact Hx.
    - apply (set_state_keeps m4 _ a' EL_AVAILABLE m5 Ht4); [| exact Hex5].
      rewrite addrs_app. apply in_or_app. simpl. auto. }
  assert (K6 : keeps_payloads (s1 ++ mkBlock a n EL_USED :: s2) m5 m6).
  { apply (keeps_sub (s1 ++ mkBlock a n EL_USED ::
               mkBlock a' (sz - n - EL_BLOCK_OVERHEAD) EL_AVAILABLE :: s2)).
    - intros x Hx. apply payload_skip. exact Hx.
    - exact (pre_add_avail_keeps _ _ _ _ _ _ Hpre5 Hin5 Hna4 Hex6). }
  exact (keeps_trans _ _ _ _ K1
          (keeps_trans _ _ _ _ K2
            (keeps_trans _ _ _ _ K3
              (keeps_trans _ _ _ _ K4 (keeps_trans _ _ _ _ K5 K6))))).
Qed.

(** X20.  A request whose bound does not wrap changes no payload byte
    of any block other than the one it splits, in use or not, and the
    [nbytes] bytes it hands out hold what they held before the call:
    [el_malloc] writes headers, footers and [el_ctl] only, and does not
    clear the memory it grants. *)
Theorem malloc_keeps_payloads m bs la lu fuel n p m' :
  heap_rep e m bs la lu -> 0 <= n ->
  n + EL_BLOCK_OVERHEAD < 18446744073709551616 ->
  el_malloc e fuel n m = Ok p m' ->
  (forall b x, In b bs -> b_addr b + sizeof_blockhead <> p ->
     payload_bytes b x -> m' x = m x) /\
  (p <> NULL -> forall x, p <= x < p + n -> m' x = m x).
Proof.
  intros Hrep Hn0 Hnb Hex.
  apply (el_malloc_mono fuel (fuel + S (length la))) in Hex; [| lia].
  assert (Hfu : (length la < fuel + S (length la))%nat) by lia.
  remember (first_fit m (n + EL_BLOCK_OVERHEAD) la) as a eqn:Hff.
  symmetry in Hff.
  destruct (Z.eq_dec a NULL) as [Ha | Ha].
  { rewrite Ha in Hff.
    pose proof (malloc_none m bs la lu _ n Hrep Hfu) as Hnone.
    rewrite wrap_small in Hnone by (unf; lia).
    rewrite (Hnone Hff) in Hex. inversion Hex. subst p m'.
    split; [reflexivity | intros N; contradiction]. }
  destruct (first_fit_some _ _ _ _ Hff Ha) as (l1 & l2 & Ela & _ & _).
  assert (Hin : In a la) by (rewrite Ela; apply in_or_app; simpl; auto).
  destruct (in_rep_avail _ _ _ _ _ Hrep Hin) as (s1 & sz & s2 & Ebs & _).
  subst bs.
  pose proof (malloc_at_keeps m s1 a sz _ s2 la lu _ n p m'
                Hrep Hn0 Hnb Hfu Hff Ha Hex) as K.
  destruct (malloc_at m s1 a sz _ s2 la lu _ n Hrep Hn0 Hnb Hfu Hff Ha)
    as (_ & _ & m2 & _ & _ & _ & _ & Hex2 & _).
  rewrite Hex2 in Hex. inversion Hex; subst p m2.
  split.
  - intros b x Hb Hne Hx. apply K.
    apply payload_of_app. apply in_app_or in Hb.
    destruct Hb as [Hb | [<- | Hb]].
    + left. exists b. auto.
    + simpl in Hne. contradiction.
    + right. apply payload_of_cons. right. exists b. auto.
  - intros _ x Hx. apply K.
    apply payload_of_app. right. apply payload_of_cons. left.
    unfold payload_bytes. simpl. lia.
Qed.

Lemma payload_merged s1 a sa st c sc stc s2 x :
  c = a + sa + EL_BLOCK_OVERHEAD -> 0 <= sa -> 0 <= sc ->
  payload_of (s1 ++ mkBlock a sa st :: mkBlock c sc stc :: s2) x ->
  payload_of (s1 ++ mkBlock a (sa + sc + EL_BLOCK_OVERHEAD) st :: s2) x.
Proof.
  intros -> Hsa Hsc. rewrite !payload_of_app, !payload_of_cons.
  unfold payload_bytes. simpl.
  intros [H | [H | [H | H]]]; auto; right; left; unf; lia.
Qed.

Lemma merge_do_keeps m s1 a sa c sc s2 la lu m' :
  heap_rep e m
    (s1 ++ mkBlock a sa EL_AVAILABLE :: mkBlock c sc EL_AVAILABLE :: s2)
    la lu ->
  el_merge_block_with_above e a m = Ok tt m' ->
  keeps_payloads
    (s1 ++ mkBlock a sa EL_AVAILABLE :: mkBlock c sc EL_AVAILABLE :: s2)
    m m'.
Proof.
  intros Hrep Hmerge. pose proof He as (E1 & E2 & E3 & E4 & E5 & E6).
  pose proof (heap_rep_pre _ _ _ _ Hrep) as Hpre.
  pose proof Hrep as (Hc & (Ht & Hb) & Hst & _ & _ & Pa & Pu).
  pose proof Hpre as (_ & _ & _ & _ & Hnd & Hi).
  destruct (tiled_split _ _ _ _ _ Ht) as (Ht1 & Hsa & Ht2). simpl in Ht2.
  destruct Ht2 as (Hca & Hsc & Ht2). simpl in Ht1, Hca, Hsa, Hsc, Ht2.
  pose proof (tiled_le _ _ _ Ht1) as L1. pose proof (tiled_le _ _ _ Ht2) as L2.
  destruct (block_ok_mid _ _ _ _ Hb) as (A1 & A2 & A3).
  destruct (block_ok_mid2 _ _ _ _ _ Hb) as (C1 & C2 & C3).
  simpl in A1, A2, A3, C1, C2, C3.
  assert (Hac : a <> c) by (unf; lia).
  assert (Hala : In a la).
  { apply (Permutation_in _ (Permutation_sym Pa)). apply members_in.
    exists (mkBlock a sa EL_AVAILABLE). repeat split.
    apply in_or_app. simpl. auto. }
  assert (Hcla : In c la).
  { apply (Permutation_in _ (Permutation_sym Pa)). apply members_in.
    exists (mkBlock c sc EL_AVAILABLE). repeat split.
    apply in_or_app. simpl. auto. }
  destruct (NoDup_app_parts _ _ Hnd) as (Hndla & Hndlu & Hdis).
  destruct (remove_split la a Hndla Hala) as (l1 & l2 & Ela & Er1).
  assert (Hndr : NoDup (l1 ++ l2)).
  { rewrite Ela in Hndla. apply NoDup_remove_1 in Hndla. exact Hndla. }
  assert (Hcr : In c (l1 ++ l2)).
  { rewrite Ela in Hcla. apply in_app_or in Hcla. apply in_or_app.
    destruct Hcla as [H | [H | H]]; [auto | contradiction | auto]. }
  destruct (remove_split _ c Hndr Hcr) as (l3 & l4 & Er & Er2).
  rewrite Ela in Hpre.
  destruct (pre_remove_avail m _ l1 a l2 lu Hpre) as (m1 & Hex1 & Hpre1).
  rewrite Er in Hpre1.
  destruct (pre_remove_avail m1 _ l3 c l4 lu Hpre1) as (m2 & Hex2 & Hpre2).
  assert (Hna : ~ In a ((l3 ++ l4) ++ lu)).
  { intros Hin. apply in_app_or in Hin. destruct Hin as [Hin | Hin].
    - rewrite Ela in Hndla. apply NoDup_remove_2 in Hndla. apply Hndla.
      rewrite Er. apply in_app_or in Hin. apply in_or_app. simpl. tauto.
    - apply (Hdis a Hala Hin). }
  assert (Hnc : ~ In c ((l3 ++ l4) ++ lu)).
  { intros Hin. apply in_app_or in Hin. destruct Hin as [Hin | Hin].
    - rewrite Er in Hndr. apply NoDup_remove_2 in Hndr. apply Hndr, Hin.
    - apply (Hdis c Hcla Hin). }
  pose proof (pre_merge_mem m2 s1 a sa _ c sc _ s2 _ lu Hpre2 Hna Hnc) as Hpre3.
  set (m3 := write64 (write64 m2 (a + off_size) (sa + sc + EL_BLOCK_OVERHEAD))
                     (c + sizeof_blockhead + sc)
                     (sa + sc + EL_BLOCK_OVERHEAD)) in *.
  assert (Hin3 : In a (addrs (s1 ++
            mkBlock a (sa + sc + EL_BLOCK_OVERHEAD) EL_AVAILABLE :: s2))).
  { rewrite addrs_app. apply in_or_app. simpl. auto. }
  destruct (pre_add_avail m3 _ _ lu a Hpre3 Hin3 Hna)
    as (m4 & Hex4 & Hpre4).
  pose proof Hpre2 as (Hc2 & (_ & Hb2') & _).
  destruct (block_ok_mid _ _ _ _ Hb2') as (A1' & A2' & A3').
  destruct (block_ok_mid2 _ _ _ _ _ Hb2') as (C1' & C2' & C3').
  simpl in A1', A2', A3', C1', C2', C3'.
  assert (Hrun : el_merge_block_with_above e a m = Ok tt m4).
  { unfold el_merge_block_with_above.
    replace (a =? NULL) with false by (symmetry; apply Z.eqb_neq; unf; lia).
    rewrite (bind_ok _ _ _ _ _ (get_state_ok m a ltac:(lia) ltac:(unf; lia))).
    rewrite A2, Z.eqb_refl. change (negb true) with false. cbv iota.
    rewrite (bind_ok _ _ _ _ _ (el_block_above_ok m a sa Hc A1 Hsa
               ltac:(lia) ltac:(unf; lia))).
    rewrite geb_false by (unf; lia). rewrite <- Hca.
    replace (c =? NULL) with false by (symmetry; apply Z.eqb_neq; unf; lia).
    rewrite (bind_ok _ _ _ _ _ (get_state_ok m c ltac:(unf; lia)
               ltac:(unf; lia))).
    rewrite C2, Z.eqb_refl. change (negb true) with false. cbv iota.
    rewrite (bind_ok _ _ _ _ _ (ctl_avail_ok m Hc)).
    rewrite (bind_ok _ _ _ _ _ Hex1).
    rewrite (bind_ok _ _ _ _ _ (ctl_avail_ok m1 (pre_ctl _ _ _ _ Hpre1))).
    rewrite (bind_ok _ _ _ _ _ Hex2).
    rewrite (bind_ok _ _ _ _ _ (get_size_ok m2 a ltac:(lia) ltac:(unf; lia))).
    rewrite (bind_ok _ _ _ _ _ (get_size_ok m2 c ltac:(unf; lia)
               ltac:(unf; lia))).
    rewrite A1', C1'. unwrap.
    unfold set_size. step.
    assert (Hsc3 : size_at (write64 m2 (a + off_size)
                     (sa + sc + EL_BLOCK_OVERHEAD)) c = sc).
    { views. rw. exact C1'. }
    rewrite (bind_ok _ _ _ _ _ (el_get_footer_ok _ c sc Hsc3 Hsc
               ltac:(unf; lia) ltac:(unf; lia))).
    step. fold m3.
    rewrite (bind_ok _ _ _ _ _ (ctl_avail_ok m3 (pre_ctl _ _ _ _ Hpre3))).
    exact Hex4. }
  rewrite Hrun in Hmerge. inversion Hmerge; subst m'.
  set (bs := s1 ++ mkBlock a sa EL_AVAILABLE ::
                   mkBlock c sc EL_AVAILABLE :: s2) in *.
  assert (K1 : keeps_payloads bs m m1)
    by exact (pre_remove_avail_keeps _ _ _ _ _ _ _ Hpre Hex1).
  assert (K2 : keeps_payloads bs m1 m2)
    by exact (pre_remove_avail_keeps _ _ _ _ _ _ _ Hpre1 Hex2).
  assert (K3 : keeps_payloads bs m2 m3).
  { apply (keeps_differ _ _ _
             (fun x => a <= x < a + sizeof_blockhead \/
                       c + sizeof_blockhead + sc <= x
                         < c + sc + EL_BLOCK_OVERHEAD)).
    - unfold m3.
      repeat (eapply differ_only_trans;
              [| apply differ_only_write64; intros x Hx]);
        [apply differ_only_refl | |]; unf; lia.
    - intros x Hx [Hr | Hr].
      + apply (payload_not_header bs a x Ht); [left | exact Hx | exact Hr].
        unfold bs. rewrite addrs_app. apply in_or_app. simpl. auto.
      + destruct Hx as (b & Hin & Hx). unfold payload_bytes in Hx.
        assert (Hcin : In (mkBlock c sc EL_AVAILABLE) bs).
        { unfold bs. apply in_or_app. simpl. auto. }
        destruct (tiled_in _ _ _ _ Ht Hin) as (B1 & B2 & B3).
        destruct (tiled_sep _ _ _ _ _ Ht Hin Hcin) as [-> | [H | H]];
          simpl in *; unf; lia. }
  assert (K4 : keeps_payloads bs m3 m4).
  { apply (keeps_sub (s1 ++
             mkBlock a (sa + sc + EL_BLOCK_OVERHEAD) EL_AVAILABLE :: s2)).
    - intros x Hx. apply (payload_merged _ _ _ _ _ _ _ _ _ Hca Hsa Hsc Hx).
    - exact (pre_add_avail_keeps _ _ _ _ _ _ Hpre3 Hin3 Hna Hex4). }
  exact (keeps_trans _ _ _ _ K1
          (keeps_trans _ _ _ _ K2 (keeps_trans _ _ _ _ K3 K4))).
Qed.

Lemma free_release_keeps m s1 a sz s2 la lu :
  heap_rep e m (s1 ++ mkBlock a sz EL_USED :: s2) la lu ->
  exists m3,
    heap_rep e m3 (s1 ++ mkBlock a sz EL_AVAILABLE :: s2)
      (a :: la) (remove Z.eq_dec a lu) /\
    el_free e (a + sizeof_blockhead) m =
      (el_merge_block_with_above e a ;;;
       below <- el_block_below e a ;;
       el_merge_block_with_above e below) m3 /\
    keeps_payloads (s1 ++ mkBlock a sz EL_USED :: s2) m m3.
Proof.
  intros Hrep. pose proof He as (E1 & E2 & E3 & E4 & E5 & E6).
  pose proof (heap_rep_pre _ _ _ _ Hrep) as Hpre.
  pose proof Hrep as (Hc & (Ht & Hb) & Hst & _ & _ & Pa & Pu).
  pose proof Hpre as (_ & _ & _ & _ & Hnd & Hi).
  destruct (tiled_split _ _ _ _ _ Ht) as (Ht1 & Hsa & Ht2).
  simpl in Ht1, Hsa, Ht2.
  pose proof (tiled_le _ _ _ Ht1) as L1. pose proof (tiled_le _ _ _ Ht2) as L2.
  destruct (NoDup_app_parts _ _ Hnd) as (Hndla & Hndlu & Hdis).
  destruct (rep_used_in _ _ _ _ _ _ _ Hrep) as (Halu & _).
  destruct (remove_split lu a Hndlu Halu) as (u1 & u2 & Elu & Er).
  rewrite Er. rewrite Elu in Hpre.
  destruct (pre_remove_used m _ la u1 a u2 Hpre) as (m1 & Hex1 & Hpre1).
  assert (Hna : ~ In a (la ++ u1 ++ u2)).
  { intros Hin. apply in_app_or in Hin. destruct Hin as [Hin | Hin].
    - apply (Hdis a Hin Halu).
    - rewrite Elu in Hndlu. apply NoDup_remove_2 in Hndlu. apply Hndlu, Hin. }
  destruct (pre_set_state m1 s1 a sz EL_USED s2 la _ EL_AVAILABLE Hpre1 Hna)
    as (m2 & Hex2 & Hpre2); [unfold EL_AVAILABLE; lia |].
  assert (Hin2 : In a (addrs (s1 ++ mkBlock a sz EL_AVAILABLE :: s2))).
  { rewrite addrs_app. apply in_or_app. simpl. auto. }
  destruct (pre_add_avail m2 _ la _ a Hpre2 Hin2 Hna)
    as (m3 & Hex3 & Hpre3).
  exists m3. split; [| split].
  - destruct Hpre3 as (Hc3 & Hph3 & Hla3 & Hlu3 & _).
    unfold heap_rep. refine (conj Hc3 (conj Hph3 (conj _ (conj Hla3
      (conj Hlu3 (conj _ _)))))).
    + apply Forall_app in Hst. destruct Hst as (Hst1 & Hst2).
      inversion Hst2 as [| ? ? _ Hst3]; subst.
      apply Forall_app. split; [assumption |].
      constructor; [left; reflexivity | assumption].
    + rewrite members_app in Pa |- *.
      rewrite (members_cons_other EL_AVAILABLE EL_USED) in Pa
        by (intros Heq; symmetry in Heq; exact (states_differ Heq)).
      rewrite members_cons_same. apply Permutation_cons_app. exact Pa.
    + rewrite members_app in Pu |- *. rewrite members_cons_same in Pu.
      rewrite (members_cons_other EL_USED EL_AVAILABLE)
        by apply states_differ.
      rewrite Elu in Pu. apply Permutation_app_inv in Pu. exact Pu.
  - unfold el_free, PTR_MINUS_BYTES.
    replace (wrap (a + sizeof_blockhead - sizeof_blockhead)) with a
      by (rewrite wrap_small; unf; lia).
    rewrite (bind_ok _ _ _ _ _ (ctl_used_ok m Hc)).
    rewrite (bind_ok _ _ _ _ _ Hex1).
    rewrite (bind_ok _ _ _ _ _ Hex2).
    rewrite (bind_ok _ _ _ _ _ (ctl_avail_ok m2 (pre_ctl _ _ _ _ Hpre2))).
    rewrite (bind_ok _ _ _ _ _ Hex3).
    reflexivity.
  - assert (K1 : keeps_payloads (s1 ++ mkBlock a sz EL_USED :: s2) m m1)
      by exact (pre_remove_used_keeps _ _ _ _ _ _ _ Hpre Hex1).
    assert (K2 : keeps_payloads (s1 ++ mkBlock a sz EL_USED :: s2) m1 m2).
    { apply (set_state_keeps m1 _ a EL_AVAILABLE m2 Ht); [| exact Hex2].
      rewrite addrs_app. apply in_or_app. simpl. auto. }
    assert (K3 : keeps_payloads (s1 ++ mkBlock a sz EL_USED :: s2) m2 m3).
    { apply (keeps_sub (s1 ++ mkBlock a sz EL_AVAILABLE :: s2)).
      - intros x Hx. exact (payload_restate _ _ _ _ _ _ _ Hx).
      - exact (pre_add_avail_keeps _ _ _ _ _ _ Hpre2 Hin2 Hna Hex3). }
    exact (keeps_trans _ _ _ _ K1 (keeps_trans _ _ _ _ K2 K3)).
Qed.

Lemma merge_above_keeps m s1 a sz s2 la lu :
  heap_rep e m (s1 ++ mkBlock a sz EL_AVAILABLE :: s2) la lu ->
  exists m' sz' s2' la',
    el_merge_block_with_above e a m = Ok tt m' /\
    heap_rep e m' (s1 ++ mkBlock a sz' EL_AVAILABLE :: s2') la' lu /\
    keeps_payloads (s1 ++ mkBlock a sz EL_AVAILABLE :: s2) m m' /\
    (forall x, payload_of (s1 ++ mkBlock a sz EL_AVAILABLE :: s2) x ->
               payload_of (s1 ++ mkBlock a sz' EL_AVAILABLE :: s2') x).
Proof.
  intros Hrep. pose proof (heap_rep_pre _ _ _ _ Hrep) as Hpre.
  destruct s2 as [| [c sc stc] s2'].
  - exists m, sz, [], la.
    split; [exact (merge_noop_top _ _ _ _ _ _ Hpre) |].
    split; [exact Hrep |]. split; [apply keeps_refl | auto].
  - assert (Hst : stc = EL_AVAILABLE \/ stc = EL_USED).
    { apply (rep_state_cases m (s1 ++ [mkBlock a sz EL_AVAILABLE])
               (mkBlock c sc stc) s2' la lu).
      rewrite <- app_assoc. exact Hrep. }
    destruct Hst as [-> | ->].
    + destruct (merge_do _ _ _ _ _ _ _ _ _ Hrep) as (m' & Hex & Hrep').
      exists m', (sz + sc + EL_BLOCK_OVERHEAD), s2',
        (a :: remove Z.eq_dec c (remove Z.eq_dec a la)).
      split; [exact Hex |]. split; [exact Hrep' |].
      split; [exact (merge_do_keeps _ _ _ _ _ _ _ _ _ _ Hrep Hex) |].
      destruct Hrep as (_ & (Ht & _) & _).
      destruct (tiled_split _ _ _ _ _ Ht) as (_ & Hsa & Ht2). simpl in Ht2.
      destruct Ht2 as (Hca & Hsc & _). simpl in Hca, Hsa, Hsc.
      intros x Hx. exact (payload_merged _ _ _ _ _ _ _ _ _ Hca Hsa Hsc Hx).
    + exists m, sz, (mkBlock c sc EL_USED :: s2'), la.
      split.
      { apply (merge_noop_above _ _ _ _ _ _ _ _ _ _ Hpre).
        intros Heq. symmetry in Heq. exact (states_differ Heq). }
      split; [exact Hrep |]. split; [apply keeps_refl | auto].
Qed.

Lemma merge_below_keeps m s1 a sz s2 la lu :
  heap_rep e m (s1 ++ mkBlock a sz EL_AVAILABLE :: s2) la lu ->
  exists m',
    (below <- el_block_below e a ;; el_merge_block_with_above e below) m
      = Ok tt m' /\
    keeps_payloads (s1 ++ mkBlock a sz EL_AVAILABLE :: s2) m m'.
Proof.
  intros Hrep.
  induction s1 as [| [z sz0 stz] s1' _] using rev_ind.
  - pose proof (heap_rep_pre _ _ _ _ Hrep) as Hpre. simpl in Hpre.
    exists m. split; [| apply keeps_refl].
    rewrite (bind_ok _ _ _ _ _ (block_below_first _ _ _ _ _ _ _ Hpre)).
    apply merge_null.
  - pose proof (rep_state_cases m s1' (mkBlock z sz0 stz)
                  (mkBlock a sz EL_AVAILABLE :: s2) la lu) as Hst.
    rewrite <- app_assoc in Hrep |- *. simpl in Hrep |- *.
    specialize (Hst Hrep). simpl in Hst.
    pose proof (heap_rep_pre _ _ _ _ Hrep) as Hpre.
    pose proof (block_below_some _ _ _ _ _ _ _ _ _ _ _ Hpre) as Hbelow.
    destruct Hst as [-> | ->].
    + destruct (merge_do _ _ _ _ _ _ _ _ _ Hrep) as (m' & Hex & Hrep').
      exists m'. split; [rewrite (bind_ok _ _ _ _ _ Hbelow); exact Hex |].
      exact (merge_do_keeps _ _ _ _ _ _ _ _ _ _ Hrep Hex).
    + exists m. split; [| apply keeps_refl].
      rewrite (bind_ok _ _ _ _ _ Hbelow).
      apply (merge_noop_state _ _ _ _ _ _ _ _ Hpre).
      intros Heq. symmetry in Heq. exact (states_differ Heq).
Qed.

(** X21.  Releasing a block in use changes no payload byte of any
    block of the heap, the released block included: [el_free] writes
    headers, footers and [el_ctl] only, so the data in every other
    block in use survives and the released bytes are not cleared. *)
Theorem free_keeps_payloads m s1 a sz s2 la lu :
  heap_rep e m (s1 ++ mkBlock a sz EL_USED :: s2) la lu ->
  exists m',
    el_free e (a + sizeof_blockhead) m = Ok tt m' /\
    forall b x, In b (s1 ++ mkBlock a sz EL_USED :: s2) ->
      payload_bytes b x -> m' x = m x.
Proof.
  intros Hrep.
  destruct (free_release_keeps _ _ _ _ _ _ _ Hrep)
    as (m3 & Hrep3 & Hfree & K3).
  destruct (merge_above_keeps _ _ _ _ _ _ _ Hrep3)
    as (m4 & sz' & s2' & la4 & Hex4 & Hrep4 & K4 & Hsub).
  destruct (merge_below_keeps _ _ _ _ _ _ _ Hrep4) as (m5 & Hex5 & K5).
  exists m5. split.
  - rewrite Hfree. rewrite (bind_ok _ _ _ _ _ Hex4). exact Hex5.
  - intros b x Hb Hx.
    assert (P : payload_of (s1 ++ mkBlock a sz EL_AVAILABLE :: s2) x).
    { apply (payload_restate _ _ _ EL_USED). exists b. auto. }
    rewrite (K5 x (Hsub x P)). rewrite (K4 x P).
    apply K3. exists b. auto.
Qed.

(** ** Splitting, and calls that return *)

(** X9.  On a block that is in neither list, [el_split_block] decides
    by the bound the code computes: a block smaller than
    [new_size + overhead] in [size_t] arithmetic is refused, NULL is
    returned and no byte changes; a block of at least
    [new_size + overhead] bytes becomes two blocks that tile the same
    bytes, of payload sizes [new_size] and
    [size - new_size - overhead], the lists stay as they are, and no
    byte changes outside the block's size field and the bytes from its
    new footer to its old footer. *)
Theorem split_follows_bound m s1 a sz st s2 la lu n :
  heap_pre e m (s1 ++ mkBlock a sz st :: s2) la lu ->
  ~ In a (la ++ lu) -> 0 <= n ->
  (sz < wrap (n + EL_BLOCK_OVERHEAD) ->
   el_split_block e a n m = Ok NULL m) /\
  (n + EL_BLOCK_OVERHEAD <= sz ->
   exists m' g,
     el_split_block e a n m = Ok (a + n + EL_BLOCK_OVERHEAD) m' /\
     heap_pre e m'
       (s1 ++ mkBlock a n st ::
              mkBlock (a + n + EL_BLOCK_OVERHEAD)
                      (sz - n - EL_BLOCK_OVERHEAD) g :: s2) la lu /\
     differ_only m m'
       (fun x => a <= x < a + sizeof_blockfoot \/
                 a + sizeof_blockhead + n <= x
                   < a + sz + EL_BLOCK_OVERHEAD)).
Proof.
  intros Hpre Hna Hn0. split.
  - intros Hlt. pose proof Hpre as (_ & (Ht & Hb) & _).
    destruct (tiled_split _ _ _ _ _ Ht) as (Ht1 & Hsz & Ht2).
    simpl in Ht1, Hsz, Ht2.
    pose proof (tiled_le _ _ _ Ht1) as L1.
    pose proof (tiled_le _ _ _ Ht2) as L2.
    destruct (block_ok_mid _ _ _ _ Hb) as (B1 & _). simpl in B1.
    apply split_refuses; [lia | unf; lia | rewrite B1; exact Hlt].
  - intros Hle.
    destruct (pre_split m s1 a sz st s2 la lu n Hpre Hna Hn0 Hle)
      as (m' & g & Hex & Hpre').
    exists m', g. split; [exact Hex |]. split; [exact Hpre' |].
    exact (split_differ m s1 a sz st s2 la lu n _ m' Hpre Hn0 Hle Hex).
Qed.

(** X22.  In every state reached by requests that do not wrap, the
    calls return without leaving the heap and [el_ctl]: [el_malloc] for
    every request whose bound does not wrap, within one loop iteration
    per member the available list's [length] field counts, and
    [el_free] for every address the application holds. *)
Theorem calls_stay_in_bounds m live :
  reaches e m live ->
  (forall n fuel, 0 <= n ->
     n + EL_BLOCK_OVERHEAD < 18446744073709551616 ->
     (Z.to_nat (read64 m (avail_list e + off_length)) < fuel)%nat ->
     exists p m', el_malloc e fuel n m = Ok p m') /\
  (forall p, In p live -> exists m', el_free e p m = Ok tt m').
Proof.
  intros Hr.
  destruct (bounded_calls_keep_heap _ _ Hr) as (bs & la & lu & Hrep & Hn & Hp).
  split.
  - intros n fuel Hn0 Hnb Hf.
    destruct (rep_avail_length _ _ _ _ Hrep) as (Hl & _).
    rewrite Hl, Nat2Z.id in Hf.
    remember (first_fit m (n + EL_BLOCK_OVERHEAD) la) as a eqn:Hff.
    symmetry in Hff.
    destruct (Z.eq_dec a NULL) as [Ha | Ha].
    + exists NULL, m. apply (malloc_none m bs la lu); [exact Hrep | exact Hf |].
      rewrite wrap_small by (unf; lia). rewrite Hff. exact Ha.
    + destruct (first_fit_some _ _ _ _ Hff Ha) as (l1 & l2 & Ela & _ & _).
      assert (Hin : In a la) by (rewrite Ela; apply in_or_app; simpl; auto).
      destruct (in_rep_avail _ _ _ _ _ Hrep Hin) as (s1 & sz & s2 & Ebs & _).
      rewrite Ebs in Hrep.
      destruct (malloc_at m s1 a sz EL_AVAILABLE s2 la lu fuel n
                  Hrep Hn0 Hnb Hf Hff Ha)
        as (k1 & k2 & m2 & _ & _ & _ & _ & Hex2 & _).
      exists (a + sizeof_blockhead), m2. exact Hex2.
  - intros p Hin.
    pose proof (Permutation_in _ Hp Hin) as Hin'.
    apply in_map_iff in Hin'. destruct Hin' as (a & <- & Ha).
    destruct (in_rep_used _ _ _ _ _ Hrep Ha) as (s1 & sz & s2 & Ebs & _).
    rewrite Ebs in Hrep, Hn.
    destruct (free_ok _ _ _ _ _ _ _ Hrep Hn) as (m2 & _ & _ & Hex2 & _).
    exists m2. exact Hex2.
Qed.

(** X23.  [el_init_blocklist] empties a list record whatever it held:
    the two sentinels point at each other, carry the states of a begin
    and an end block and NULL outer links, both counters are 0, and no
    byte outside the 96-byte record changes. *)
Theorem init_blocklist_resets_list m lst :
  is_list e lst ->
  exists m',
    el_init_blocklist e lst m = Ok tt m' /\
    list_ok m' lst [] /\
    state_at m' (beg_of lst) = EL_BEGIN_BLOCK /\
    state_at m' (end_of lst) = EL_END_BLOCK /\
    prev_at m' (beg_of lst) = NULL /\
    next_at m' (end_of lst) = NULL /\
    differ_only m m' (fun x => lst <= x < lst + sizeof_blocklist).
Proof.
  intros HL. pose proof He as (E1 & E2 & E3 & E4 & E5 & E6).
  pose proof (is_list_range _ HL) as HLr.
  eexists. split; [| split; [| split; [| split; [| split; [| split]]]]].
  - unfold el_init_blocklist, get_beg, get_end, set_state, set_size,
      set_next, set_prev.
    repeat (step; rw; unwrap). apply store64_ok. mp.
  - unfold list_ok. simpl. views. repeat split; rw; unwrap; reflexivity.
  - views. rw. reflexivity.
  - views. rw. reflexivity.
  - views. rw. unwrap. reflexivity.
  - views. rw. unwrap. reflexivity.
  - repeat (eapply differ_only_trans;
            [| first [ apply differ_only_write64; intros x Hx
                     | apply differ_only_write8 ] ]);
      [apply differ_only_refl | ..]; unf; lia.
Qed.

(** ** The dump and the teardown *)

Lemma lift_bind {A B} (c : M A) (k : A -> IO B) o m a m' :
  c m = Ok a m' -> io_bind (lift c) k o m = k a o m'.
Proof.
  intros H. unfold io_bind, lift. unfold bind at 1 2. rewrite H. reflexivity.
Qed.

Lemma io_bind_ok {A B} (c : IO A) (k : A -> IO B) o m a o' m' :
  c o m = Ok (a, o') m' -> io_bind c k o m = k a o' m'.
Proof. intros H. unfold io_bind, bind. rewrite H. reflexivity. Qed.

Lemma emit_bind {B} ev (k : unit -> IO B) o m :
  io_bind (emit ev) k o m = k tt (o ++ [ev]) m.
Proof. reflexivity. Qed.

Lemma print_loop_ok m bs lst st : forall l x i fuel out,
  phys e m bs -> is_list e lst ->
  linked m x l (end_of lst) ->
  mapped e (x + off_next) 8 = true ->
  (forall p, In p l -> exists b, In b bs /\ b_addr b = p /\ b_state b = st) ->
  read64 m (lst + off_length) = i + Z.of_nat (length l) ->
  0 <= i -> i + Z.of_nat (length l) <= INT_MAX ->
  (length l < fuel)%nat ->
  print_loop e fuel lst i x out m = Ok (tt, out ++ list_events m st i l) m.
Proof.
  pose proof He as (E1 & E2 & E3 & E4 & E5 & E6).
  induction l as [| y r IH];
    intros x i fuel out Hph HL Hl Hx Hn Hlen Hi Hmax Hf;
    pose proof (is_list_range _ HL) as HLr;
    (destruct fuel as [| f]; [simpl in Hf; lia |]).
  - simpl print_loop. unfold get_length.
    rewrite (lift_bind _ _ _ _ _ _ (load64_ok (lst + off_length) m
               ltac:(mp))).
    assert (Hlt : (i <? i + Z.of_nat (length (@nil Z))) = false)
      by (apply Z.ltb_ge; simpl; lia).
    rewrite Hlen, Hlt.
    unfold io_ret, ret. simpl. rewrite app_nil_r. reflexivity.
  - pose proof Hph as (Ht & Hb).
    destruct (Hn y (or_introl eq_refl)) as (b & Hin & Hba & Hbs).
    destruct (tiled_in _ _ _ _ Ht Hin) as (B1 & B2 & B3).
    rewrite Forall_forall in Hb.
    destruct (Hb b Hin) as (S1 & S2 & S3). rewrite Hba in *.
    simpl in Hl. destruct Hl as (Hnx & _ & Hl).
    simpl print_loop. unfold get_length, get_next, get_state, get_size.
    rewrite (lift_bind _ _ _ _ _ _ (load64_ok (lst + off_length) m
               ltac:(mp))).
    assert (Hlt : (i <? i + Z.of_nat (length (y :: r))) = true)
      by (apply Z.ltb_lt; simpl length; lia).
    rewrite Hlen, Hlt.
    unfold printf. rewrite emit_bind.
    rewrite (lift_bind _ _ _ _ _ _ (load64_ok (x + off_next) m Hx)).
    unfold next_at in Hnx. rewrite Hnx.
    rewrite emit_bind.
    rewrite (lift_bind _ _ _ _ _ _ (load8_ok (y + off_state) m ltac:(mp))).
    rewrite (lift_bind _ _ _ _ _ _ (load64_ok (y + off_size) m ltac:(mp))).
    rewrite emit_bind.
    rewrite (lift_bind _ _ _ _ _ _
               (el_get_footer_ok m y (b_size b) S1 B2 B1 B3)).
    rewrite !emit_bind.
    rewrite (lift_bind _ _ _ _ _ _
               (load64_ok (y + sizeof_blockhead + b_size b) m ltac:(mp))).
    rewrite !emit_bind.
    assert (Hsucc : int_succ i m = Ok (i + 1) m).
    { unfold int_succ.
      replace (i + 1 <=? INT_MAX) with true
        by (symmetry; apply Z.leb_le; simpl length in Hmax; lia).
      reflexivity. }
    rewrite (lift_bind _ _ _ _ _ _ Hsucc).
    rewrite (IH y (i + 1) f); try assumption.
    + unfold foot_at in S3. unfold state_at in S2. unfold size_at in S1.
      unfold read8 in S2. simpl list_events. unfold entry_events, size_at.
      rewrite S1, S3. unfold read8. rewrite S2, Hbs.
      rewrite <- !app_assoc. reflexivity.
    + mp.
    + intros p Hp. apply Hn. right. exact Hp.
    + rewrite Hlen. simpl length. lia.
    + lia.
    + simpl length in Hmax. lia.
    + simpl in Hf. lia.
Qed.

Lemma print_blocklist_ok m bs lst l st fuel out :
  phys e m bs -> is_list e lst -> list_ok m lst l ->
  read64 m (lst + off_beg) = beg_of lst ->
  (forall p, In p l -> exists b, In b bs /\ b_addr b = p /\ b_state b = st) ->
  Z.of_nat (length l) <= INT_MAX -> (length l < fuel)%nat ->
  el_print_blocklist e fuel lst out m
  = Ok (tt, out ++ blocklist_events m st l) m.
Proof.
  intros Hph HL (Hl & Hlen & Hby) Hbeg Hn Hmax Hf.
  pose proof He as (E1 & E2 & E3 & E4 & E5 & E6).
  pose proof (is_list_range _ HL) as HLr.
  unfold el_print_blocklist, get_length, get_bytes, get_beg.
  rewrite (lift_bind _ _ _ _ _ _ (load64_ok (lst + off_length) m ltac:(mp))).
  rewrite (lift_bind _ _ _ _ _ _ (load64_ok (lst + off_bytes) m ltac:(mp))).
  unfold printf. rewrite emit_bind.
  rewrite (lift_bind _ _ _ _ _ _ (load64_ok (lst + off_beg) m ltac:(mp))).
  rewrite Hbeg, Hlen, Hby.
  rewrite (print_loop_ok m bs lst st l (beg_of lst) 0 fuel _ Hph HL Hl);
    try assumption; try lia.
  - unfold blocklist_events. rewrite <- app_assoc. reflexivity.
  - mp.
Qed.

Lemma rep_list_blocks m bs la lu :
  heap_rep e m bs la lu ->
  (forall p, In p la ->
     exists b, In b bs /\ b_addr b = p /\ b_state b = EL_AVAILABLE) /\
  (forall p, In p lu ->
     exists b, In b bs /\ b_addr b = p /\ b_state b = EL_USED) /\
  EL_BLOCK_OVERHEAD * Z.of_nat (length la) <= heap_size /\
  EL_BLOCK_OVERHEAD * Z.of_nat (length lu) <= heap_size.
Proof.
  intros Hrep. pose proof (heap_rep_pre _ _ _ _ Hrep) as Hpre.
  destruct (pre_lists _ _ _ _ Hpre) as (Nda & Ndu & Ia & Iu).
  destruct Hrep as (_ & Hph & _ & (_ & _ & Hba) & (_ & _ & Hbu) & Pa & Pu).
  split; [| split; [| split]].
  - intros p Hp. apply (Permutation_in _ Pa), members_in in Hp. exact Hp.
  - intros p Hp. apply (Permutation_in _ Pu), members_in in Hp. exact Hp.
  - pose proof (list_bounds m bs la Hph Nda Ia). lia.
  - pose proof (list_bounds m bs lu Hph Ndu Iu). lia.
Qed.

Lemma print_blocklist_reports_members_aux m bs la lu fuel :
  heap_rep e m bs la lu ->
  heap_size <= EL_BLOCK_OVERHEAD * INT_MAX ->
  (length la < fuel)%nat -> (length lu < fuel)%nat ->
  (forall out, el_print_blocklist e fuel (avail_list e) out m
    = Ok (tt, out ++ blocklist_events m EL_AVAILABLE la) m) /\
  (forall out, el_print_blocklist e fuel (used_list e) out m
    = Ok (tt, out ++ blocklist_events m EL_USED lu) m).
Proof.
  intros Hrep Hmax Hfa Hfu.
  destruct (rep_list_blocks _ _ _ _ Hrep) as (Ha & Hu & La & Lu).
  pose proof Hrep as (Hc & Hph & _ & Hla & Hlu & _).
  destruct Hc as (_ & _ & _ & _ & _ & Hab & _ & Hub & _).
  split; intros out.
  - apply (print_blocklist_ok m bs _ la EL_AVAILABLE fuel out Hph
             (or_introl eq_refl) Hla Hab Ha); [unf; lia | exact Hfa].
  - apply (print_blocklist_ok m bs _ lu EL_USED fuel out Hph
             (or_intror eq_refl) Hlu Hub Hu); [unf; lia | exact Hfu].
Qed.

(** X24.  On a well-formed heap whose lists are shorter than
    [INT_MAX], [el_print_blocklist] returns without changing the memory
    after printing, for the list it is given, the list's [length] and
    [bytes] and then one entry per member, in list order from the
    front, numbered from 0: the member's address, the state of the list
    (AVAILABLE or USED), its size, its footer's address and the same
    size again as read from the footer. *)
Theorem print_blocklist_reports_members m bs la lu fuel out :
  heap_rep e m bs la lu ->
  heap_size <= EL_BLOCK_OVERHEAD * INT_MAX ->
  (length la < fuel)%nat -> (length lu < fuel)%nat ->
  el_print_blocklist e fuel (avail_list e) out m
    = Ok (tt, out ++ blocklist_events m EL_AVAILABLE la) m /\
  el_print_blocklist e fuel (used_list e) out m
    = Ok (tt, out ++ blocklist_events m EL_USED lu) m.
Proof.
  intros Hrep Hmax Hfa Hfu.
  destruct (print_blocklist_reports_members_aux m bs la lu fuel Hrep Hmax
              Hfa Hfu) as (Pa & Pu).
  split; [apply Pa | apply Pu].
Qed.

(** X25.  On such a heap [el_print_stats] prints the overhead, the
    heap bounds [heap_start] and [heap_start + heap_bytes] and the heap
    size as [el_ctl] records them, then the dump of the available list
    and the dump of the used list, and leaves the memory as it is. *)
Theorem print_stats_reports_heap m bs la lu fuel out :
  heap_rep e m bs la lu ->
  heap_size <= EL_BLOCK_OVERHEAD * INT_MAX ->
  (length la < fuel)%nat -> (length lu < fuel)%nat ->
  el_print_stats e fuel out m
  = Ok (tt,
        out ++
        [EvPrintf "HEAP STATS (overhead per node: %lu)\n"
           [AInt EL_BLOCK_OVERHEAD];
         EvPrintf "heap_start:  %p\n" [AInt heap_base];
         EvPrintf "heap_end:    %p\n" [AInt (heap_base + heap_size)];
         EvPrintf "total_bytes: %lu\n" [AInt heap_size];
         EvPrintf "AVAILABLE LIST: " []] ++
        blocklist_events m EL_AVAILABLE la ++
        [EvPrintf "USED LIST: " []] ++
        blocklist_events m EL_USED lu) m.
Proof.
  intros Hrep Hmax Hfa Hfu.
  pose proof He as (E1 & E2 & E3 & E4 & E5 & E6).
  destruct (print_blocklist_reports_members_aux m bs la lu fuel Hrep Hmax
              Hfa Hfu) as (Pa & Pu).
  pose proof Hrep as ((Hb & Hs & Hen & Hav & Hus & _) & _).
  unfold el_print_stats, printf, ctl_heap_start, ctl_heap_end, ctl_avail,
    ctl_used.
  rewrite emit_bind.
  rewrite (lift_bind _ _ _ _ _ _
             (load64_ok (ctl + off_heap_start) m ltac:(mp))).
  rewrite emit_bind.
  rewrite (lift_bind _ _ _ _ _ _
             (load64_ok (ctl + off_heap_end) m ltac:(mp))).
  rewrite emit_bind.
  rewrite (lift_bind _ _ _ _ _ _
             (load64_ok (ctl + off_heap_bytes) m ltac:(mp))).
  rewrite !emit_bind.
  rewrite (lift_bind _ _ _ _ _ _ (load64_ok (ctl + off_avail) m ltac:(mp))).
  rewrite Hb, Hs, Hen, Hav.
  rewrite (io_bind_ok _ _ _ _ _ _ _ (Pa _)).
  rewrite emit_bind.
  rewrite (lift_bind _ _ _ _ _ _ (load64_ok (ctl + off_used) m ltac:(mp))).
  rewrite Hus. rewrite Pu.
  rewrite <- !app_assoc. reflexivity.
Qed.

End Proofs.

(** ** The process: initialisation and teardown *)

Section ProcessProofs.

Variable e : env.
Hypothesis He : env_ok e.
Local Abbreviation heap_base := (env_heap_base e).
Local Abbreviation heap_size := (env_heap_size e).
Local Abbreviation ctl := (env_ctl e).

Lemma call_ok {A B} (c : env -> M A) (k : A -> Sys B) m b out a m' :
  c (space e b) m = Ok a m' ->
  Process.bind (Process.call e c) k (mkProcess m b out)
    = k a (mkProcess m' b out).
Proof.
  intros H. unfold Process.bind, Process.call. simpl. rewrite H. reflexivity.
Qed.

Lemma call_load64 {B} a (k : Z -> Sys B) m b out :
  in_ctl e a 8 = true ->
  Process.bind (Process.call e (fun s => load64 s a)) k (mkProcess m b out)
    = k (read64 m a) (mkProcess m b out).
Proof.
  intros H. apply call_ok. unfold load64, mapped.
  replace (in_ctl (space e b) a 8) with true by (destruct b; exact (eq_sym H)).
  rewrite orb_true_r. reflexivity.
Qed.

Lemma call_store64 {B} a v (k : unit -> Sys B) m b out :
  in_ctl e a 8 = true ->
  Process.bind (Process.call e (fun s => store64 s a v)) k (mkProcess m b out)
    = k tt (mkProcess (write64 m a v) b out).
Proof.
  intros H. apply call_ok. unfold store64, mapped.
  replace (in_ctl (space e b) a 8) with true by (destruct b; exact (eq_sym H)).
  rewrite orb_true_r. reflexivity.
Qed.

Lemma in_ctl_field a :
  ctl <= a -> a + 8 <= ctl + sizeof_ctl -> in_ctl e a 8 = true.
Proof.
  intros H1 H2. unfold in_ctl. apply andb_true_intro.
  split; apply Z.leb_le; assumption.
Qed.

Ltac ctl_field := apply in_ctl_field; addr.

Ltac mp := apply mapped_any; addr.

Ltac pstep :=
  first [ rewrite call_load64 by ctl_field | rewrite call_store64 by ctl_field ];
  cbv beta.

Ltac lockstep H :=
  repeat (let Hc := fresh "Hc" in
          apply bind_inv in H; destruct H as (? & ? & Hc & H);
          cbv beta zeta in H;
          erewrite call_ok by (simpl space; exact Hc); cbv beta zeta;
          clear Hc).

(** A call of [el_init] whose [mmap] is granted does to the memory what
    the memory-level [el_init] does and returns what it returns. *)
Lemma process_init_granted m0 out r m :
  0 < heap_size ->
  el_init e m0 = Ok r m ->
  Process.el_init e heap_base (mkProcess m0 false out)
    = Returned r
        (mkProcess m true
           ((out ++ [EvMmap heap_base heap_size heap_base]) ++
            (if heap_size <? EL_BLOCK_OVERHEAD
             then [EvFprintf stderr
                     "el_init: heap size %ld to small for a block overhead %ld\n"
                     [AInt heap_size; AInt EL_BLOCK_OVERHEAD]]
             else []))).
Proof.
  intros Hpos H. pose proof He as (E1 & E2 & E3 & E4 & E5 & E6).
  unfold Process.el_init.
  unfold Process.bind at 1. unfold Process.mmap.
  simpl p_heap. simpl p_mem. simpl p_out.
  replace (heap_size <=? 0) with false by (symmetry; apply Z.leb_gt; lia).
  simpl orb. cbv beta zeta. rewrite Z.eqb_refl. simpl orb.
  unfold Process.bind at 1. unfold Process.assert. rewrite Z.eqb_refl.
  unfold el_init in H. unfold bind at 1 in H. unfold mmap_anonymous in H.
  rewrite bind_store64 in H by mp. rewrite bind_store64 in H by mp.
  rewrite bind_load64 in H by mp. rewrite bind_store64 in H by mp.
  rewrite bind_load64 in H by mp. cbv beta in H.
  do 5 pstep.
  match goal with
  | |- context [read64 ?mm (ctl + off_heap_bytes) <? _] =>
      assert (Hr : read64 mm (ctl + off_heap_bytes) = heap_size)
        by (rw; unwrap; reflexivity)
  end.
  rewrite Hr in H. rewrite Hr.
  destruct (heap_size <? EL_BLOCK_OVERHEAD) eqn:Hlt.
  - pstep. apply ret_inv in H. destruct H as (-> & ->). rewrite Hr.
    reflexivity.
  - lockstep H. apply ret_inv in H. destruct H as (-> & ->).
    rewrite app_nil_r. reflexivity.
Qed.

(** Without the heap at the address asked for, [el_init] stops at its
    [assert]. *)
Lemma process_init_refused p answer :
  heap_base <> MAP_FAILED ->
  answer <> heap_base \/ p_heap p = true \/ heap_size = 0 ->
  Process.el_init e answer p = Killed SIGABRT.
Proof.
  intros Hf H. pose proof He as (E1 & E2 & E3 & E4 & E5 & E6).
  unfold Process.el_init. unfold Process.bind at 1. unfold Process.mmap.
  cbv zeta.
  assert (Hgot : ((if (heap_size <=? 0) || (p_heap p && (answer =? heap_base))
                   then MAP_FAILED else answer) =? heap_base) = false).
  { destruct ((heap_size <=? 0) || (p_heap p && (answer =? heap_base)))
      eqn:Hc.
    - apply Z.eqb_neq. intros Heq. apply Hf. symmetry. exact Heq.
    - apply orb_false_elim in Hc. destruct Hc as (Hz & Hc).
      apply Z.leb_gt in Hz.
      destruct H as [H | [H | H]]; [apply Z.eqb_neq; exact H | | lia].
      rewrite H in Hc. simpl in Hc. exact Hc. }
  unfold Process.bind at 1. unfold Process.assert. rewrite Hgot. reflexivity.
Qed.

Lemma base_not_failed : 0 < heap_size -> heap_base <> MAP_FAILED.
Proof.
  intros H. pose proof He as (E1 & E2 & E3 & E4 & E5 & E6).
  unfold MAP_FAILED. lia.
Qed.

(** X1.  A call of [el_init] on a heap with room for one block overhead
    either stops at its [assert] or sets the heap up.  When the region
    is not mapped and [mmap] returns the address asked for, the call
    returns 0 after that one library call, the region is mapped, and
    the memory, which is what the memory-level [el_init] gives, holds a
    well-formed heap: [el_ctl] records the bounds, one AVAILABLE block
    of payload size [heap_bytes - overhead] spans the heap and is the
    only member of the available list, whose counters are 1 and
    [heap_bytes], and the used list is empty with counters 0.  When
    [mmap] returns anything else, as it must while the region is still
    mapped, the process aborts. *)
Theorem init_sets_up_one_block p :
  EL_BLOCK_OVERHEAD <= heap_size ->
  (p_heap p = false ->
   exists m,
     Process.el_init e heap_base p
       = Returned 0
           (mkProcess m true
              (p_out p ++ [EvMmap heap_base heap_size heap_base])) /\
     el_init e (p_mem p) = Ok 0 m /\
     heap_rep e m
       [mkBlock heap_base (heap_size - EL_BLOCK_OVERHEAD) EL_AVAILABLE]
       [heap_base] [] /\
     read64 m (ctl + off_heap_start) = heap_base /\
     read64 m (ctl + off_heap_end) = heap_base + heap_size /\
     read64 m (avail_list e + off_length) = 1 /\
     read64 m (avail_list e + off_bytes) = heap_size /\
     read64 m (used_list e + off_length) = 0 /\
     read64 m (used_list e + off_bytes) = 0) /\
  (forall answer,
     answer <> heap_base \/ p_heap p = true ->
     Process.el_init e answer p = Killed SIGABRT).
Proof.
  intros Hsz. assert (Hpos : 0 < heap_size) by (unf; lia). split.
  - intros Hu. destruct p as [m0 b out]. simpl in Hu. subst b. simpl.
    destruct (init_ok e He m0 Hsz) as (m & Hex & Hrep).
    exists m. split.
    { rewrite (process_init_granted m0 out 0 m Hpos Hex).
      replace (heap_size <? EL_BLOCK_OVERHEAD) with false
        by (symmetry; apply Z.ltb_ge; exact Hsz).
      rewrite app_nil_r. reflexivity. }
    split; [exact Hex |]. split; [exact Hrep |].
    pose proof Hrep as ((_ & Hs & Hen & _) & (_ & Hb) & _ & (_ & Hl & Hby)
                        & (_ & Hlu & Hbu) & _).
    inversion Hb as [| ? ? (B1 & _) _]; subst. simpl in B1.
    split; [exact Hs |]. split; [exact Hen |].
    split; [rewrite Hl; reflexivity |].
    split; [rewrite Hby; simpl; rewrite B1; lia |].
    split; [rewrite Hlu; reflexivity | rewrite Hbu; reflexivity].
  - intros answer H. apply process_init_refused.
    + exact (base_not_failed Hpos).
    + destruct H as [H | H]; [left | right; left]; exact H.
Qed.


(** Once the heap is unmapped, a load from [el_ctl] still goes through
    and a load from anywhere else does not. *)
Lemma gone_load64_ctl {B} a (k : Z -> M B) m :
  in_ctl e a 8 = true ->
  bind (load64 (space e false) a) k m = k (read64 m a) m.
Proof.
  intros H. apply bind_load64. unfold mapped.
  change (in_ctl (space e false) a 8) with (in_ctl e a 8).
  rewrite H. apply orb_true_r.
Qed.

Lemma gone_load64_heap {B} a (k : Z -> M B) m :
  in_ctl e a 8 = false -> bind (load64 (space e false) a) k m = Fault.
Proof.
  intros H. unfold bind, load64, mapped.
  change (in_ctl (space e false) a 8) with (in_ctl e a 8). rewrite H.
  replace (in_heap (space e false) a 8) with false; [reflexivity |].
  symmetry. unfold in_heap. simpl.
  destruct (heap_base <=? a) eqn:H1; [| reflexivity].
  apply Z.leb_le in H1. apply Z.leb_gt. lia.
Qed.

Lemma heap_not_ctl a n :
  heap_base <= a -> a + n <= heap_base + heap_size -> 0 < n ->
  in_ctl e a 8 = false.
Proof.
  intros H1 H2 H3. pose proof He as (E1 & E2 & E3 & E4 & E5 & E6).
  unfold in_ctl. apply andb_false_iff.
  destruct E6 as [E6 | E6].
  - right. apply Z.leb_gt. unf. lia.
  - left. apply Z.leb_gt. lia.
Qed.

(** X26.  On a process whose heap is set up, [el_cleanup] calls
    [munmap] once, with exactly the start address and size [el_ctl]
    records for the heap, and then clears [heap_start] and [heap_end]
    to NULL; [heap_bytes], both list records and every other byte of
    [el_ctl] stay as they were.  The heap is unmapped from then on: a
    request on a non-empty available list and the release of any block
    that was in use kill the process at their first access to the
    heap.  A following [el_init] whose [mmap] is granted sets the heap
    up afresh. *)
Theorem cleanup_clears_bounds p bs la lu :
  0 < heap_size -> p_heap p = true -> heap_rep e (p_mem p) bs la lu ->
  exists m',
    Process.el_cleanup e p
      = Returned tt
          (mkProcess m' false (p_out p ++ [EvMunmap heap_base heap_size])) /\
    read64 m' (ctl + off_heap_start) = NULL /\
    read64 m' (ctl + off_heap_end) = NULL /\
    read64 m' (ctl + off_heap_bytes) = heap_size /\
    (forall x, ctl <= x < ctl + sizeof_ctl ->
               ~ (ctl + off_heap_start <= x < ctl + off_avail_actual) ->
               m' x = p_mem p x) /\
    (forall out fuel n,
       la <> [] -> (0 < fuel)%nat ->
       Process.call e (fun s => el_malloc s fuel n) (mkProcess m' false out)
         = Killed SIGSEGV) /\
    (forall out a,
       In a lu ->
       Process.call e (fun s => el_free s (a + sizeof_blockhead))
         (mkProcess m' false out) = Killed SIGSEGV) /\
    (EL_BLOCK_OVERHEAD <= heap_size ->
     forall out,
     exists m2,
       Process.el_init e heap_base (mkProcess m' false out)
         = Returned 0
             (mkProcess m2 true
                (out ++ [EvMmap heap_base heap_size heap_base])) /\
       heap_rep e m2
         [mkBlock heap_base (heap_size - EL_BLOCK_OVERHEAD) EL_AVAILABLE]
         [heap_base] []).
Proof.
  intros Hpos Hlive Hrep. destruct p as [m b out]. simpl in Hlive. subst b.
  simpl in Hrep. simpl p_mem. simpl p_out.
  pose proof He as (E1 & E2 & E3 & E4 & E5 & E6).
  pose proof Hrep as ((Hb & Hs & Hen & Hav & Hus & Hab & Hae & Hub & Hue)
                      & Hph & _ & (Hla & _) & _).
  destruct (rep_list_blocks e _ _ _ _ Hrep) as (Ha & Hu & _).
  set (m' := write64 (write64 m (ctl + off_heap_start) NULL)
               (ctl + off_heap_end) NULL).
  exists m'.
  split; [| split; [| split; [| split; [| split; [| split; [| split]]]]]].
  - unfold Process.el_cleanup.
    rewrite (call_ok (fun s => ctl_heap_start s) _ m true out _ m
               (load64_ok e (ctl + off_heap_start) m ltac:(mp))).
    pstep. rewrite Hs, Hb.
    unfold Process.bind at 1. unfold Process.munmap.
    simpl p_heap. simpl p_mem. simpl p_out.
    rewrite Z.eqb_refl, Z.leb_refl.
    replace (0 <? heap_size) with true by (symmetry; apply Z.ltb_lt; exact Hpos).
    simpl andb. simpl negb.
    pstep.
    unfold Process.call. simpl p_heap. simpl p_mem. simpl p_out.
    unfold store64, mapped.
    replace (in_ctl (space e false) (ctl + off_heap_end) 8) with true
      by (symmetry; apply in_ctl_field; addr).
    rewrite orb_true_r. reflexivity.
  - unfold m'. rw. unfold NULL. unwrap. reflexivity.
  - unfold m'. rw. unfold NULL. unwrap. reflexivity.
  - unfold m'. rw. exact Hb.
  - intros x Hx Hn. unfold m'.
    rewrite !write64_outside by (unf; lia). reflexivity.
  - intros out' fuel n Hne Hf.
    destruct la as [| a la']; [contradiction |].
    destruct fuel as [| fuel]; [lia |].
    destruct (Ha a (or_introl eq_refl)) as (blk & Hin & Hadr & _).
    destruct Hph as (Ht & _).
    destruct (tiled_in _ _ _ _ Ht Hin) as (T1 & T2 & T3). rewrite Hadr in *.
    simpl in Hla. destruct Hla as (Hn & _). unfold next_at in Hn.
    assert (Hmal : el_malloc (space e false) (S fuel) n m' = Fault).
    { unfold el_malloc, el_find_first_avail, ctl_avail, get_beg, get_next.
      change (env_ctl (space e false)) with ctl.
      unfold bind at 1.
      rewrite gone_load64_ctl by ctl_field.
      unfold m' at 1. rw. rewrite Hav.
      rewrite gone_load64_ctl by ctl_field.
      unfold m' at 1. rw. rewrite Hab.
      rewrite gone_load64_ctl by ctl_field.
      unfold m' at 1. rw. rewrite Hn.
      cbn [find_loop]. unfold ctl_avail, get_end, get_size.
      change (env_ctl (space e false)) with ctl.
      rewrite gone_load64_ctl by ctl_field.
      unfold m' at 1. rw. rewrite Hav.
      rewrite gone_load64_ctl by ctl_field.
      unfold m' at 1. rw. rewrite Hae.
      replace (a =? end_of (avail_list e)) with false
        by (symmetry; apply Z.eqb_neq; unf; lia).
      rewrite gone_load64_heap; [reflexivity |].
      apply (heap_not_ctl _ 8); unf; lia. }
    unfold Process.call. simpl p_heap. simpl p_mem. rewrite Hmal.
    reflexivity.
  - intros out' a Hin.
    destruct (Hu a Hin) as (blk & Hib & Hadr & _).
    destruct Hph as (Ht & _).
    destruct (tiled_in _ _ _ _ Ht Hib) as (T1 & T2 & T3). rewrite Hadr in *.
    assert (Hfr : el_free (space e false) (a + sizeof_blockhead) m' = Fault).
    { unfold el_free, ctl_used, el_remove_block, get_prev.
      change (env_ctl (space e false)) with ctl.
      rewrite gone_load64_ctl by ctl_field.
      unfold PTR_MINUS_BYTES.
      replace (a + sizeof_blockhead - sizeof_blockhead) with a by lia.
      rewrite (wrap_small a) by (unf; lia).
      unfold bind at 1.
      rewrite gone_load64_heap; [reflexivity |].
      apply (heap_not_ctl _ 8); unf; lia. }
    unfold Process.call. simpl p_heap. simpl p_mem. rewrite Hfr.
    reflexivity.
  - intros Hsz out'.
    destruct (init_ok e He m' Hsz) as (m2 & Hex & Hrep2).
    exists m2. split; [| exact Hrep2].
    rewrite (process_init_granted m' out' 0 m2 Hpos Hex).
    replace (heap_size <? EL_BLOCK_OVERHEAD) with false
      by (symmetry; apply Z.ltb_ge; exact Hsz).
    rewrite app_nil_r. reflexivity.
Qed.

End ProcessProofs.

(** ** Evaluating the model on the concrete heap *)

Ltac eval_eq := vm_compute; reflexivity.

Ltac eval_rep :=
  unfold heap_rep, ctl_ok, phys, list_ok;
  repeat match goal with
  | |- _ /\ _ => split
  | |- Forall _ [] => constructor
  | |- Forall _ (_ :: _) => constructor
  | |- block_ok _ _ => unfold block_ok
  | |- state_ok _ => unfold state_ok; vm_compute; tauto
  | |- linked _ _ _ _ => simpl linked
  | |- tiled _ _ _ => simpl tiled
  | |- Permutation _ _ => vm_compute
  | |- _ = _ => vm_compute; reflexivity
  | |- _ <= _ => vm_compute; discriminate
  end.

Lemma demo_env_ok : env_ok demo.
Proof. unfold env_ok. vm_compute. intuition discriminate. Qed.

Lemma fresh_heap_rep :
  heap_rep demo fresh_heap [mkBlock base 4056 EL_AVAILABLE] [base] [].
Proof. eval_rep; apply Permutation_refl. Qed.

(** The fresh heap is a reached state: the theorems on reached states
    apply to the runs below up to their first wrapping request. *)
Lemma fresh_heap_reached : reaches demo fresh_heap [].
Proof.
  apply (reaches_init demo boot). unfold fresh_heap.
  destruct (init_ok demo demo_env_ok boot) as (m & Hm & _).
  { vm_compute. discriminate. }
  rewrite Hm. reflexivity.
Qed.

(** ** Requests whose size wraps *)

(** C1, on the code.  After [el_malloc 16], the call
    [el_malloc (2^64 - 40)] returns the non-NULL address [base + 88],
    the payload of the block at [base + 56]; yet that block still
    records payload size 4000, not the requested size, its state is
    AVAILABLE, and it is the front block of the available list as well
    as of the used list. *)
Theorem wrapped_request_is_granted :
  value_of wrapped_run = Some (base + 32, base + 56 + sizeof_blockhead) /\
  size_at (memory_of wrapped_run) (base + 56) = 4000 /\
  4000 <> wrapping_request /\
  state_at (memory_of wrapped_run) (base + 56) = EL_AVAILABLE /\
  next_at (memory_of wrapped_run) (beg_of (avail_list demo)) = base + 56 /\
  next_at (memory_of wrapped_run) (beg_of (used_list demo)) = base + 56.
Proof. repeat split; try eval_eq. vm_compute. discriminate. Qed.

(** C3, on the code.  The block at [base + 56] has payload size 4000,
    less than [new_size + overhead] for [new_size = 2^64 - 40]; still
    [el_split_block] returns a non-NULL block and has overwritten the
    footer of the block below with [new_size]. *)
Theorem split_accepts_wrapped_size :
  size_at after_first_alloc (base + 56) = 4000 /\
  4000 < wrapping_request + EL_BLOCK_OVERHEAD /\
  value_of (el_split_block demo (base + 56) wrapping_request after_first_alloc)
    = Some (base + 56) /\
  foot_at after_first_alloc base 16 = 16 /\
  foot_at (memory_of (el_split_block demo (base + 56) wrapping_request
                        after_first_alloc)) base 16 = wrapping_request.
Proof. repeat split; eval_eq. Qed.

(** C7, on the code.  After [el_malloc 16; el_malloc (2^64 - 40)] the
    front block of the used list is the block at [base + 56], whose
    state is AVAILABLE; its [next] link leads to the end sentinel of the
    available list, and the used list's length field says 2. *)
Theorem used_list_holds_available_block :
  value_of wrapped_run = Some (base + 32, base + 88) /\
  next_at (memory_of wrapped_run) (beg_of (used_list demo)) = base + 56 /\
  state_at (memory_of wrapped_run) (base + 56) = EL_AVAILABLE /\
  next_at (memory_of wrapped_run) (base + 56) = end_of (avail_list demo) /\
  read64 (memory_of wrapped_run) (used_list demo + off_length) = 2.
Proof. repeat split; eval_eq. Qed.

(** C8, on the code.  After the same two calls the block at [base],
    which the first call handed out and which is still in use, records
    size 16 in its header and [2^64 - 40] in its footer. *)
Theorem footer_disagrees_with_header :
  value_of wrapped_run = Some (base + 32, base + 88) /\
  size_at (memory_of wrapped_run) base = 16 /\
  state_at (memory_of wrapped_run) base = EL_USED /\
  foot_at (memory_of wrapped_run) base 16 = wrapping_request /\
  wrapping_request <> 16.
Proof. repeat split; try eval_eq. vm_compute. discriminate. Qed.

(** C10, on the code.  After [el_malloc 16], [el_malloc (2^64 - 40)],
    [el_malloc 100] and the release of the first and the third result,
    the block at [base] (payload 16) and the block right above it, at
    [base + 16 + overhead], are both AVAILABLE and both linked in the
    available list. *)
Theorem adjacent_blocks_both_available :
  value_of adjacent_run = Some (base + 32, base + 88, base + 88) /\
  size_at (memory_of adjacent_run) base = 16 /\
  state_at (memory_of adjacent_run) base = EL_AVAILABLE /\
  state_at (memory_of adjacent_run) (base + 16 + EL_BLOCK_OVERHEAD)
    = EL_AVAILABLE /\
  size_at (memory_of adjacent_run) (base + 16 + EL_BLOCK_OVERHEAD) = 4000 /\
  next_at (memory_of adjacent_run) (beg_of (avail_list demo))
    = base + 16 + EL_BLOCK_OVERHEAD /\
  next_at (memory_of adjacent_run) (base + 16 + EL_BLOCK_OVERHEAD) = base.
Proof. repeat split; eval_eq. Qed.

(** C9, on the code.  On the fresh heap the search for [2^64 - 40]
    bytes returns the block at [base], not NULL: the bound
    [nbytes + overhead] wraps to 0, which the block's 4056 bytes reach.
    [el_split_block] on that block with the same size passes its test
    as well, and yet returns no block: it sets the block's size to
    [2^64 - 40] and then stores through the footer address that
    [el_get_footer] computes from that size, [base - 8], 8 bytes below
    the heap.  The split, and [el_malloc] with it, ends in that store
    outside the heap. *)
Theorem split_after_find_leaves_heap :
  value_of (el_find_first_avail demo 4 wrapping_request fresh_heap)
    = Some base /\
  base <> NULL /\
  value_of ((avail <- ctl_avail demo ;; el_remove_block demo avail base)
              fresh_heap) = Some tt /\
  size_at (memory_of ((avail <- ctl_avail demo ;;
                       el_remove_block demo avail base) fresh_heap)) base
    = 4056 /\
  wrap (wrapping_request + EL_BLOCK_OVERHEAD) = 0 /\
  value_of ((set_size demo base wrapping_request ;;;
             el_get_footer demo base)
              (memory_of ((avail <- ctl_avail demo ;;
                           el_remove_block demo avail base) fresh_heap)))
    = Some (base - 8) /\
  mapped demo (base - 8) 8 = false /\
  el_split_block demo base wrapping_request
    (memory_of ((avail <- ctl_avail demo ;;
                 el_remove_block demo avail base) fresh_heap)) = Fault /\
  el_malloc demo 4 wrapping_request fresh_heap = Fault.
Proof. repeat split; try eval_eq. vm_compute. discriminate. Qed.

(** ** Where the code differs from the claim by design *)

(** C2, counterexample.  With a 64-byte block at the front of the
    available list, followed by a 128-byte block, a request of 50 bytes
    passes over the 64-byte block, although 64 >= 50, and returns the
    128-byte block: 64 is below the bound 50 + overhead. *)
Lemma small_block_is_skipped :
  next_at small_first_heap (beg_of (avail_list demo)) = base /\
  size_at small_first_heap base = 64 /\
  next_at small_first_heap base = base + 152 /\
  size_at small_first_heap (base + 152) = 128 /\
  50 <= size_at small_first_heap base /\
  value_of (el_find_first_avail demo 4 50 small_first_heap) <> Some base /\
  value_of (el_find_first_avail demo 4 50 small_first_heap)
    = Some (base + 152) /\
  first_fit small_first_heap (50 + EL_BLOCK_OVERHEAD) [base] = NULL.
Proof. repeat split; try eval_eq; vm_compute; discriminate. Qed.

(** C6, counterexample.  The only available block of the fresh heap has
    payload 4056 = 4016 + overhead; [el_malloc 4016] shrinks it to 4016
    bytes and creates a second block, of payload size 0, above it. *)
Lemma exact_fit_block_is_split :
  size_at fresh_heap base = 4016 + EL_BLOCK_OVERHEAD /\
  value_of (el_malloc demo 4 4016 fresh_heap) = Some (base + 32) /\
  size_at (memory_of (el_malloc demo 4 4016 fresh_heap)) base = 4016 /\
  size_at (memory_of (el_malloc demo 4 4016 fresh_heap)) base
    <> size_at fresh_heap base /\
  state_at (memory_of (el_malloc demo 4 4016 fresh_heap)) base = EL_USED /\
  size_at (memory_of (el_malloc demo 4 4016 fresh_heap)) (base + 4056) = 0 /\
  state_at (memory_of (el_malloc demo 4 4016 fresh_heap)) (base + 4056)
    = EL_AVAILABLE /\
  next_at (memory_of (el_malloc demo 4 4016 fresh_heap))
    (beg_of (avail_list demo)) = base + 4056.
Proof. repeat split; try eval_eq; vm_compute; discriminate. Qed.

(** ** The general theorems at work on the concrete heap *)

Lemma three_sizes_rep :
  heap_rep demo three_sizes_heap
    [mkBlock base 64 EL_AVAILABLE; mkBlock (base + 104) 8 EL_USED;
     mkBlock (base + 152) 128 EL_AVAILABLE; mkBlock (base + 320) 3440 EL_USED;
     mkBlock (base + 3800) 256 EL_AVAILABLE]
    [base + 152; base; base + 3800] [base + 320; base + 104].
Proof. eval_rep; apply perm_swap. Qed.

Lemma sandwich_rep :
  heap_rep demo sandwich_heap
    [mkBlock base 16 EL_AVAILABLE; mkBlock (base + 56) 16 EL_USED;
     mkBlock (base + 112) 3944 EL_AVAILABLE]
    [base + 112; base] [base + 56].
Proof. eval_rep; first [apply perm_swap | apply Permutation_refl]. Qed.

(** With available blocks of 128, 64 and 256 bytes in list order, the
    search for 50 bytes returns the 128-byte block. *)
Lemma find_first_avail_first_fit_witness :
  (0 <= 50 /\ 50 + EL_BLOCK_OVERHEAD < 18446744073709551616 /\
   (length [base + 152; base; base + 3800]%Z < 4)%nat) /\
  exists r,
    el_find_first_avail demo 4 50 three_sizes_heap = Ok r three_sizes_heap /\
    r = base + 152.
Proof.
  assert (H1 : 0 <= 50) by lia.
  assert (H2 : 50 + EL_BLOCK_OVERHEAD < 18446744073709551616)
    by (vm_compute; reflexivity).
  assert (H3 : (length [base + 152; base; base + 3800]%Z < 4)%nat)
    by (simpl; lia).
  split; [auto |].
  destruct (find_first_avail_first_fit demo demo_env_ok three_sizes_heap
              _ _ _ 4 50 three_sizes_rep H1 H2 H3)
    as (r & Hr & _ & Hex).
  exists r. split; [exact Hr |].
  apply (Hex (base + 152) base (base + 3800)); try reflexivity;
    vm_compute; reflexivity.
Defined.

(** On the fresh heap a request of one byte more than the usable bytes
    is refused and the heap is the same afterwards. *)
Lemma allocate_none_leaves_heap_witness :
  (1 < 2)%nat /\
  el_malloc demo 2 (env_heap_size demo - EL_BLOCK_OVERHEAD + 1)
    (memory_of (el_init demo boot))
  = Ok NULL (memory_of (el_init demo boot)).
Proof.
  assert (Hf : (1 < 2)%nat) by lia.
  split; [exact Hf |].
  destruct (allocate_none_leaves_heap demo demo_env_ok) as (_ & H).
  apply (H boot); [| exact Hf].
  destruct (init_ok demo demo_env_ok boot) as (m & Hm & _).
  { vm_compute. discriminate. }
  rewrite Hm. reflexivity.
Defined.

(** Releasing the used block between two available ones on the concrete
    heap leaves one available block spanning the whole heap. *)
Lemma release_merges_both_neighbours_witness :
  exists m',
    el_free demo (base + 56 + sizeof_blockhead) sandwich_heap = Ok tt m' /\
    heap_rep demo m' [mkBlock base 4056 EL_AVAILABLE] [base] [] /\
    read64 m' (avail_list demo + off_length) = 1.
Proof.
  destruct (release_merges_both_neighbours demo demo_env_ok sandwich_heap
              [] base 16 (base + 56) 16 (base + 112) 3944 []
              [base + 112; base] [base + 56] sandwich_rep)
    as (m' & Hex & Hrep & _ & _ & _ & _ & _ & _ & Hlen).
  exists m'. split; [exact Hex |]. split; [exact Hrep | exact Hlen].
Defined.

(** The exact-fit request on the fresh heap. *)
Lemma exact_fit_is_split_witness :
  (0 <= 4016 /\ (length [base] < 4)%nat /\
   first_fit fresh_heap (4016 + EL_BLOCK_OVERHEAD) [base] = base /\
   base <> NULL) /\
  exists m',
    el_malloc demo 4 4016 fresh_heap = Ok (base + sizeof_blockhead) m' /\
    heap_rep demo m'
      [mkBlock base 4016 EL_USED;
       mkBlock (base + 4016 + EL_BLOCK_OVERHEAD) 0 EL_AVAILABLE]
      [base + 4016 + EL_BLOCK_OVERHEAD] [base].
Proof.
  assert (H1 : 0 <= 4016) by lia.
  assert (H2 : (length [base] < 4)%nat) by (simpl; lia).
  assert (H3 : first_fit fresh_heap (4016 + EL_BLOCK_OVERHEAD) [base] = base)
    by (vm_compute; reflexivity).
  assert (H4 : base <> NULL) by (vm_compute; discriminate).
  split; [auto |].
  destruct (exact_fit_is_split demo demo_env_ok fresh_heap [] base
              EL_AVAILABLE [] [base] [] 4 4016 fresh_heap_rep H1 H2 H3 H4)
    as (m' & Hex & Hrep).
  exists m'. split; [exact Hex |].
  replace (remove Z.eq_dec base [base]) with (@nil Z) in Hrep
    by (vm_compute; reflexivity).
  exact Hrep.
Defined.

(** The search and the split on the fresh heap for a request of 100
    bytes. *)
Lemma split_after_find_passes_test_witness :
  (0 <= 100 < 18446744073709551616 /\ (length [base] < 4)%nat) /\
  el_find_first_avail demo 4 100 fresh_heap = Ok base fresh_heap /\
  base <> NULL /\
  exists m1 m2,
    (avail <- ctl_avail demo ;; el_remove_block demo avail base) fresh_heap
      = Ok tt m1 /\
    el_split_block demo base 100 m1
      = Ok (base + 100 + EL_BLOCK_OVERHEAD) m2.
Proof.
  assert (H1 : 0 <= 100 < 18446744073709551616) by lia.
  assert (H2 : (length [base] < 4)%nat) by (simpl; lia).
  assert (Hb : base <> NULL) by (vm_compute; discriminate).
  assert (Hv : value_of (el_find_first_avail demo 4 100 fresh_heap)
               = Some base) by (vm_compute; reflexivity).
  assert (Hs : 100 + EL_BLOCK_OVERHEAD < 18446744073709551616)
    by (vm_compute; reflexivity).
  split; [auto |].
  destruct (split_after_find_passes_test demo demo_env_ok fresh_heap
              _ _ _ 4 100 fresh_heap_rep H1 H2) as (a & Hf & Hsp & _).
  rewrite Hf in Hv. simpl in Hv. injection Hv as ->.
  split; [exact Hf |]. split; [exact Hb |].
  destruct (Hsp Hb) as (m1 & Hrm & _ & _ & Hret).
  destruct (Hret Hs) as (m2 & Hex & _).
  exists m1, m2. split; [exact Hrm | exact Hex].
Defined.

(** ** Further runs on the concrete heap *)

Ltac eval_pre :=
  unfold heap_pre, ctl_ok, phys, list_ok;
  repeat match goal with
  | |- _ /\ _ => split
  | |- Forall _ [] => constructor
  | |- Forall _ (_ :: _) => constructor
  | |- block_ok _ _ => unfold block_ok
  | |- linked _ _ _ _ => simpl linked
  | |- tiled _ _ _ => simpl tiled
  | |- NoDup _ => vm_compute; repeat constructor; simpl; intuition discriminate
  | |- incl _ _ => vm_compute; intuition
  | |- _ = _ => vm_compute; reflexivity
  | |- _ <= _ => vm_compute; discriminate
  end.

Ltac perm_rev :=
  match goal with
  | |- Permutation ?l ?r => exact (Permutation_rev l)
  end.


Lemma after_first_alloc_rep :
  heap_rep demo after_first_alloc
    [mkBlock base 16 EL_USED; mkBlock (base + 56) 4000 EL_AVAILABLE]
    [base + 56] [base].
Proof. eval_rep; apply Permutation_refl. Qed.

Lemma three_used_rep :
  heap_rep demo three_used_heap
    [mkBlock base 16 EL_USED; mkBlock (base + 56) 16 EL_USED;
     mkBlock (base + 112) 16 EL_USED; mkBlock (base + 168) 3888 EL_AVAILABLE]
    [base + 168] [base + 112; base + 56; base].
Proof. eval_rep; first [apply Permutation_refl | perm_rev]. Qed.

Lemma lower_free_rep :
  heap_rep demo lower_free_heap
    [mkBlock base 16 EL_AVAILABLE; mkBlock (base + 56) 16 EL_USED;
     mkBlock (base + 112) 16 EL_USED; mkBlock (base + 168) 3888 EL_AVAILABLE]
    [base; base + 168] [base + 112; base + 56].
Proof. eval_rep; first [apply Permutation_refl | apply perm_swap]. Qed.

Lemma half_released_rep :
  heap_rep demo half_released_heap
    [mkBlock base 16 EL_AVAILABLE; mkBlock (base + 56) 4000 EL_AVAILABLE]
    [base; base + 56] [].
Proof. eval_rep; apply Permutation_refl. Qed.

Lemma detached_pre :
  heap_pre demo detached_heap [mkBlock base 4056 EL_AVAILABLE] [] [].
Proof. eval_pre. Qed.

(** ** The further properties at work on the concrete heap *)

(** The used block between two available ones. *)
Lemma header_footer_inverse_witness :
  el_get_footer demo (base + 56) sandwich_heap
    = Ok (base + 56 + sizeof_blockhead + 16) sandwich_heap /\
  el_get_header demo (base + 56 + sizeof_blockhead + 16) sandwich_heap
    = Ok (base + 56) sandwich_heap.
Proof.
  destruct (header_footer_inverse demo demo_env_ok sandwich_heap
              [mkBlock base 16 EL_AVAILABLE] (base + 56) 16 EL_USED
              [mkBlock (base + 112) 3944 EL_AVAILABLE] _ _ sandwich_rep)
    as (H1 & H2 & _).
  split; [exact H1 | exact H2].
Defined.

Lemma neighbours_are_inverse_witness :
  el_block_above demo base sandwich_heap = Ok (base + 56) sandwich_heap /\
  el_block_below demo (base + 56) sandwich_heap = Ok base sandwich_heap.
Proof.
  destruct (neighbours_are_inverse demo demo_env_ok sandwich_heap
              [] base 16 EL_AVAILABLE (base + 56) 16 EL_USED
              [mkBlock (base + 112) 3944 EL_AVAILABLE] _ _ sandwich_rep)
    as (H1 & H2 & _).
  split; [exact H1 | exact H2].
Defined.

Lemma heap_ends_have_no_neighbour_witness :
  el_block_below demo base sandwich_heap = Ok NULL sandwich_heap /\
  el_block_above demo (base + 112) sandwich_heap = Ok NULL sandwich_heap.
Proof.
  destruct (heap_ends_have_no_neighbour demo demo_env_ok sandwich_heap
              _ _ _ sandwich_rep) as (H1 & H2).
  split.
  - exact (H1 (mkBlock base 16 EL_AVAILABLE) _ eq_refl).
  - exact (H2 [mkBlock base 16 EL_AVAILABLE; mkBlock (base + 56) 16 EL_USED]
              (mkBlock (base + 112) 3944 EL_AVAILABLE) eq_refl).
Defined.

(** The block of the heap, off the lists, goes on the used list and
    comes off again. *)
Lemma add_front_then_remove_witness :
  (In base (addrs [mkBlock base 4056 EL_AVAILABLE]) /\
   ~ In base (@nil Z ++ [])) /\
  exists m1 m2,
    el_add_block_front demo (used_list demo) base detached_heap = Ok tt m1 /\
    el_remove_block demo (used_list demo) base m1 = Ok tt m2 /\
    heap_pre demo m2 [mkBlock base 4056 EL_AVAILABLE] [] [].
Proof.
  assert (H1 : In base (addrs [mkBlock base 4056 EL_AVAILABLE]))
    by (simpl; left; reflexivity).
  assert (H2 : ~ In base (@nil Z ++ [])) by (intros []).
  split; [split; assumption |].
  destruct (add_front_then_remove demo demo_env_ok detached_heap
              _ _ _ base detached_pre H1 H2)
    as (m1 & m2 & Hex1 & _ & _ & _ & Hex2 & Hpre2 & _).
  exists m1, m2. split; [exact Hex1 |]. split; [exact Hex2 | exact Hpre2].
Defined.

(** The three-member available list: the middle member, the block at
    [base], goes to the front, the other two keep their order. *)
Lemma remove_then_add_front_witness :
  exists m1 m2,
    el_remove_block demo (avail_list demo) base three_sizes_heap = Ok tt m1 /\
    heap_pre demo m1
      [mkBlock base 64 EL_AVAILABLE; mkBlock (base + 104) 8 EL_USED;
       mkBlock (base + 152) 128 EL_AVAILABLE;
       mkBlock (base + 320) 3440 EL_USED;
       mkBlock (base + 3800) 256 EL_AVAILABLE]
      [base + 152; base + 3800] [base + 320; base + 104] /\
    el_add_block_front demo (avail_list demo) base m1 = Ok tt m2 /\
    heap_pre demo m2
      [mkBlock base 64 EL_AVAILABLE; mkBlock (base + 104) 8 EL_USED;
       mkBlock (base + 152) 128 EL_AVAILABLE;
       mkBlock (base + 320) 3440 EL_USED;
       mkBlock (base + 3800) 256 EL_AVAILABLE]
      [base; base + 152; base + 3800] [base + 320; base + 104] /\
    read64 m2 (avail_list demo + off_length) = 3 /\
    read64 m2 (avail_list demo + off_bytes)
      = (128 + 64 + 256) + 3 * EL_BLOCK_OVERHEAD.
Proof.
  assert (Hl : read64 three_sizes_heap (avail_list demo + off_length) = 3)
    by (vm_compute; reflexivity).
  assert (Hb : read64 three_sizes_heap (avail_list demo + off_bytes)
               = (128 + 64 + 256) + 3 * EL_BLOCK_OVERHEAD)
    by (vm_compute; reflexivity).
  destruct (remove_then_add_front demo demo_env_ok three_sizes_heap
              _ [base + 152] base [base + 3800] _
              (heap_rep_pre demo _ _ _ _ three_sizes_rep))
    as (m1 & m2 & Hex1 & Hpre1 & Hex2 & Hpre2 & Hl2 & Hb2).
  exists m1, m2. split; [exact Hex1 |]. split; [exact Hpre1 |].
  split; [exact Hex2 |]. split; [exact Hpre2 |].
  split; [rewrite Hl2; exact Hl | rewrite Hb2; exact Hb].
Defined.

(** The search for 50 bytes on the fresh heap. *)
Lemma find_first_avail_only_reads_witness :
  el_find_first_avail demo 4 50 fresh_heap = Ok base fresh_heap /\
  wrap (50 + EL_BLOCK_OVERHEAD) <= size_at fresh_heap base.
Proof.
  assert (Hl : (length [base] < 4)%nat) by (simpl; lia).
  pose proof (el_find_first_avail_ok demo demo_env_ok fresh_heap _ _ _ 4 50
                (heap_rep_pre demo _ _ _ _ fresh_heap_rep) Hl) as Hf.
  assert (E : first_fit fresh_heap (wrap (50 + EL_BLOCK_OVERHEAD)) [base]
              = base) by (vm_compute; reflexivity).
  rewrite E in Hf.
  assert (Hb : base <> NULL) by (vm_compute; discriminate).
  split; [exact Hf |].
  destruct (find_first_avail_only_reads demo 4 50 fresh_heap base fresh_heap Hf)
    as (_ & H).
  exact (proj2 (H Hb)).
Defined.

Lemma split_follows_bound_witness :
  (~ In base (@nil Z ++ []) /\ 0 <= 16 /\ 16 + EL_BLOCK_OVERHEAD <= 4056) /\
  exists m' g,
    el_split_block demo base 16 detached_heap
      = Ok (base + 16 + EL_BLOCK_OVERHEAD) m' /\
    heap_pre demo m'
      [mkBlock base 16 EL_AVAILABLE;
       mkBlock (base + 16 + EL_BLOCK_OVERHEAD)
               (4056 - 16 - EL_BLOCK_OVERHEAD) g] [] [].
Proof.
  assert (H1 : ~ In base (@nil Z ++ [])) by (intros []).
  assert (H2 : 0 <= 16) by lia.
  assert (H3 : 16 + EL_BLOCK_OVERHEAD <= 4056) by (vm_compute; discriminate).
  split; [auto |].
  destruct (split_follows_bound demo demo_env_ok detached_heap
              [] base 4056 EL_AVAILABLE [] [] [] 16 detached_pre H1 H2)
    as (_ & H).
  destruct (H H3) as (m' & g & Hex & Hpre & _).
  exists m', g. split; [exact Hex | exact Hpre].
Defined.

(** The largest request the concrete fresh heap grants is 4016 bytes. *)
Lemma fresh_heap_limit_witness :
  exists m,
    el_init demo boot = Ok 0 m /\
    (exists m', el_malloc demo 2 4016 m
                = Ok (env_heap_base demo + sizeof_blockhead) m') /\
    el_malloc demo 2 4017 m = Ok NULL m.
Proof.
  destruct (init_ok demo demo_env_ok boot) as (m & Hm & _).
  { vm_compute. discriminate. }
  assert (Hf : (1 < 2)%nat) by lia.
  exists m. split; [exact Hm |]. split.
  - destruct (fresh_heap_limit demo demo_env_ok boot m 2 4016 Hm) as (H & _);
      [lia | vm_compute; reflexivity | exact Hf |].
    apply H. vm_compute. discriminate.
  - destruct (fresh_heap_limit demo demo_env_ok boot m 2 4017 Hm) as (_ & H);
      [lia | vm_compute; reflexivity | exact Hf |].
    apply H. vm_compute. reflexivity.
Defined.

(** One request and its release on the fresh heap. *)
Lemma malloc_free_round_trip_witness :
  exists m1 m2,
    el_malloc demo 4 16 fresh_heap = Ok (base + sizeof_blockhead) m1 /\
    el_free demo (base + sizeof_blockhead) m1 = Ok tt m2 /\
    heap_rep demo m2 [mkBlock base 4056 EL_AVAILABLE]
      ((base + sizeof_blockhead - sizeof_blockhead)
         :: remove Z.eq_dec (base + sizeof_blockhead - sizeof_blockhead)
              [base]) [].
Proof.
  assert (H0 : 0 <= 16) by lia.
  assert (Hb : 16 + EL_BLOCK_OVERHEAD < 18446744073709551616)
    by (vm_compute; reflexivity).
  assert (Hl : (length [base] < 4)%nat) by (simpl; lia).
  assert (Hff : first_fit fresh_heap (16 + EL_BLOCK_OVERHEAD) [base] = base)
    by (vm_compute; reflexivity).
  assert (Hnz : base <> NULL) by (vm_compute; discriminate).
  assert (Hpz : base + sizeof_blockhead <> NULL) by (vm_compute; discriminate).
  destruct (malloc_at demo demo_env_ok fresh_heap [] base 4056 EL_AVAILABLE
              [] [base] [] 4 16 fresh_heap_rep H0 Hb Hl Hff Hnz)
    as (_ & _ & m1 & _ & _ & _ & _ & Hex & _).
  destruct (malloc_free_round_trip demo demo_env_ok fresh_heap
              [mkBlock base 4056 EL_AVAILABLE] [base] [] 4 16
              (base + sizeof_blockhead) m1 fresh_heap_rep I H0 Hb Hex Hpz)
    as (m2 & Hfree & Hrep).
  exists m1, m2. split; [exact Hex |]. split; [exact Hfree | exact Hrep].
Defined.

(** Two requests of 16 bytes from the fresh heap. *)
Lemma two_live_reached :
  exists m1 m2,
    reaches demo m1 [base + sizeof_blockhead] /\
    reaches demo m2
      [base + 16 + EL_BLOCK_OVERHEAD + sizeof_blockhead;
       base + sizeof_blockhead].
Proof.
  assert (H0 : 0 <= 16) by lia.
  assert (Hb : 16 + EL_BLOCK_OVERHEAD < 18446744073709551616)
    by (vm_compute; reflexivity).
  assert (Hl : (length [base] < 4)%nat) by (simpl; lia).
  assert (Hff : first_fit fresh_heap (16 + EL_BLOCK_OVERHEAD) [base] = base)
    by (vm_compute; reflexivity).
  assert (Hnz : base <> NULL) by (vm_compute; discriminate).
  destruct (malloc_at demo demo_env_ok fresh_heap [] base 4056 EL_AVAILABLE
              [] [base] [] 4 16 fresh_heap_rep H0 Hb Hl Hff Hnz)
    as (l1 & l2 & m1 & _ & Ela & _ & _ & Hex1 & Hrep1).
  assert (El : l1 = [] /\ l2 = []).
  { destruct l1 as [| x [| y l1]]; inversion Ela; auto. }
  destruct El as (-> & ->). simpl app in Hrep1.
  pose proof (reaches_malloc demo fresh_heap [] 4 16 _ m1
                fresh_heap_reached H0 Hb Hex1) as Hr1.
  destruct (rep_block_state demo m1 [mkBlock base 16 EL_USED]
              (base + 16 + EL_BLOCK_OVERHEAD) (4056 - 16 - EL_BLOCK_OVERHEAD)
              EL_AVAILABLE [] _ _ Hrep1) as (Hsz & _).
  assert (Hff2 : first_fit m1 (16 + EL_BLOCK_OVERHEAD)
                   [base + 16 + EL_BLOCK_OVERHEAD]
                 = base + 16 + EL_BLOCK_OVERHEAD).
  { change (first_fit m1 (16 + EL_BLOCK_OVERHEAD)
              [base + 16 + EL_BLOCK_OVERHEAD])
      with (if size_at m1 (base + 16 + EL_BLOCK_OVERHEAD)
                >=? 16 + EL_BLOCK_OVERHEAD
            then base + 16 + EL_BLOCK_OVERHEAD else NULL).
    rewrite Hsz. vm_compute. reflexivity. }
  assert (Hnz2 : base + 16 + EL_BLOCK_OVERHEAD <> NULL)
    by (vm_compute; discriminate).
  assert (Hl2 : (length [base + 16 + EL_BLOCK_OVERHEAD]%Z < 4)%nat)
    by (simpl; lia).
  destruct (malloc_at demo demo_env_ok m1 [mkBlock base 16 EL_USED]
              (base + 16 + EL_BLOCK_OVERHEAD) (4056 - 16 - EL_BLOCK_OVERHEAD)
              EL_AVAILABLE [] [base + 16 + EL_BLOCK_OVERHEAD] [base] 4 16
              Hrep1 H0 Hb Hl2 Hff2 Hnz2)
    as (_ & _ & m2 & _ & _ & _ & _ & Hex2 & _).
  pose proof (reaches_malloc demo m1 _ 4 16 _ m2 Hr1 H0 Hb Hex2) as Hr2.
  exists m1, m2. split; [exact Hr1 | exact Hr2].
Qed.

Lemma live_payloads_disjoint_witness :
  exists m,
    reaches demo m
      [base + 16 + EL_BLOCK_OVERHEAD + sizeof_blockhead;
       base + sizeof_blockhead] /\
    (base + sizeof_blockhead
       + size_at m (base + sizeof_blockhead - sizeof_blockhead)
       + sizeof_blockfoot
       <= base + 16 + EL_BLOCK_OVERHEAD + sizeof_blockhead - sizeof_blockhead \/
     base + 16 + EL_BLOCK_OVERHEAD + sizeof_blockhead
       + size_at m (base + 16 + EL_BLOCK_OVERHEAD + sizeof_blockhead
                    - sizeof_blockhead)
       + sizeof_blockfoot
       <= base + sizeof_blockhead - sizeof_blockhead).
Proof.
  destruct two_live_reached as (_ & m & _ & Hr).
  exists m. split; [exact Hr |].
  destruct (live_payloads_disjoint demo demo_env_ok m _ Hr) as (_ & H).
  apply H.
  - right. left. reflexivity.
  - left. reflexivity.
  - vm_compute. discriminate.
Defined.

Lemma bytes_are_conserved_witness :
  exists m,
    reaches demo m
      [base + 16 + EL_BLOCK_OVERHEAD + sizeof_blockhead;
       base + sizeof_blockhead] /\
    read64 m (avail_list demo + off_bytes)
      + read64 m (used_list demo + off_bytes) = 4096 /\
    read64 m (used_list demo + off_length) = 2.
Proof.
  destruct two_live_reached as (_ & m & _ & Hr).
  exists m. split; [exact Hr |].
  exact (bytes_are_conserved demo demo_env_ok m _ Hr).
Defined.

(** After one request and its release nothing is held. *)
Lemma released_heap_is_one_block_witness :
  exists m,
    reaches demo m [] /\
    heap_rep demo m [mkBlock base 4056 EL_AVAILABLE] [base] [].
Proof.
  destruct two_live_reached as (m1 & _ & Hr1 & _).
  destruct (reaches_after_free demo demo_env_ok m1 _ (base + sizeof_blockhead)
              Hr1 (or_introl eq_refl)) as (m2 & _ & Hr2).
  assert (E : remove Z.eq_dec (base + sizeof_blockhead)
                [base + sizeof_blockhead] = []) by (vm_compute; reflexivity).
  rewrite E in Hr2.
  exists m2. split; [exact Hr2 |].
  exact (released_heap_is_one_block demo demo_env_ok m2 Hr2).
Defined.

(** A request on the fresh heap, with fuel for its one available
    block. *)
Lemma calls_stay_in_bounds_witness :
  exists p m', el_malloc demo 2 100 fresh_heap = Ok p m'.
Proof.
  destruct (calls_stay_in_bounds demo demo_env_ok fresh_heap []
              fresh_heap_reached) as (Hm & _).
  apply Hm; [lia | vm_compute; reflexivity |].
  assert (E : read64 fresh_heap (avail_list demo + off_length) = 1)
    by (vm_compute; reflexivity).
  rewrite E. simpl. lia.
Defined.

(** The available list of the sandwich heap is emptied. *)
Lemma init_blocklist_resets_list_witness :
  exists m',
    el_init_blocklist demo (avail_list demo) sandwich_heap = Ok tt m' /\
    list_ok m' (avail_list demo) [].
Proof.
  destruct (init_blocklist_resets_list demo demo_env_ok sandwich_heap
              (avail_list demo) (or_introl eq_refl))
    as (m' & Hex & Hl & _).
  exists m'. split; [exact Hex | exact Hl].
Defined.

(** The used block of the sandwich heap is not merged. *)
Lemma merge_needs_two_available_witness :
  EL_USED <> EL_AVAILABLE /\
  el_merge_block_with_above demo (base + 56) sandwich_heap
    = Ok tt sandwich_heap.
Proof.
  assert (H : EL_USED <> EL_AVAILABLE) by (vm_compute; discriminate).
  split; [exact H |].
  destruct (merge_needs_two_available demo demo_env_ok sandwich_heap
              [mkBlock base 16 EL_AVAILABLE] (base + 56) 16 EL_USED
              [mkBlock (base + 112) 3944 EL_AVAILABLE] _ _ sandwich_rep
              (or_introl H)) as (H1 & _).
  exact H1.
Defined.

(** The two available blocks of the half-released heap are merged. *)
Lemma merge_keeps_bytes_counter_witness :
  exists m' la',
    el_merge_block_with_above demo base half_released_heap = Ok tt m' /\
    heap_rep demo m'
      [mkBlock base (16 + 4000 + EL_BLOCK_OVERHEAD) EL_AVAILABLE]
      (base :: la') [] /\
    read64 m' (avail_list demo + off_bytes)
      = read64 half_released_heap (avail_list demo + off_bytes).
Proof.
  destruct (merge_keeps_bytes_counter demo demo_env_ok half_released_heap
              [] base 16 (base + 56) 4000 [] _ _ half_released_rep)
    as (m' & la' & Hex & Hrep & _ & Hb).
  exists m', la'. split; [exact Hex |]. split; [exact Hrep | exact Hb].
Defined.

(** The middle one of three used blocks is released. *)
Lemma release_without_available_neighbour_witness :
  exists m',
    el_free demo (base + 56 + sizeof_blockhead) three_used_heap = Ok tt m' /\
    heap_rep demo m'
      [mkBlock base 16 EL_USED; mkBlock (base + 56) 16 EL_AVAILABLE;
       mkBlock (base + 112) 16 EL_USED;
       mkBlock (base + 168) 3888 EL_AVAILABLE]
      [base + 56; base + 168]
      (remove Z.eq_dec (base + 56) [base + 112; base + 56; base]).
Proof.
  apply (release_without_available_neighbour demo demo_env_ok three_used_heap
           [mkBlock base 16 EL_USED] (base + 56) 16
           [mkBlock (base + 112) 16 EL_USED;
            mkBlock (base + 168) 3888 EL_AVAILABLE] _ _ three_used_rep).
  - intros s z H. apply (app_inj_tail []) in H. destruct H as (_ & <-).
    vm_compute. discriminate.
  - intros c s H. inversion H. vm_compute. discriminate.
Defined.

(** The used block below the available rest is released. *)
Lemma release_merges_above_witness :
  exists m',
    el_free demo (base + sizeof_blockhead) after_first_alloc = Ok tt m' /\
    heap_rep demo m'
      [mkBlock base (16 + 4000 + EL_BLOCK_OVERHEAD) EL_AVAILABLE]
      (base :: remove Z.eq_dec (base + 56) [base + 56])
      (remove Z.eq_dec base [base]).
Proof.
  apply (release_merges_above demo demo_env_ok after_first_alloc
           [] base 16 (base + 56) 4000 [] _ _ after_first_alloc_rep).
  intros s z H. destruct s; discriminate.
Defined.

(** The used block above the released lowest block is released. *)
Lemma release_merges_below_witness :
  exists m',
    el_free demo (base + 56 + sizeof_blockhead) lower_free_heap = Ok tt m' /\
    heap_rep demo m'
      [mkBlock base (16 + 16 + EL_BLOCK_OVERHEAD) EL_AVAILABLE;
       mkBlock (base + 112) 16 EL_USED;
       mkBlock (base + 168) 3888 EL_AVAILABLE]
      (base :: remove Z.eq_dec base [base; base + 168])
      (remove Z.eq_dec (base + 56) [base + 112; base + 56]).
Proof.
  destruct (release_merges_below demo demo_env_ok lower_free_heap
              [] base 16 (base + 56) 16
              [mkBlock (base + 112) 16 EL_USED;
               mkBlock (base + 168) 3888 EL_AVAILABLE] _ _ lower_free_rep)
    as (m' & Hex & Hrep & _).
  - intros c s H. inversion H. vm_compute. discriminate.
  - exists m'. split; [exact Hex | exact Hrep].
Defined.

(** A second request leaves the payload of the first block alone. *)
Lemma malloc_keeps_payloads_witness :
  exists m',
    el_malloc demo 4 16 after_first_alloc
      = Ok (base + 56 + sizeof_blockhead) m' /\
    forall x, payload_bytes (mkBlock base 16 EL_USED) x ->
              m' x = after_first_alloc x.
Proof.
  assert (H0 : 0 <= 16) by lia.
  assert (Hb : 16 + EL_BLOCK_OVERHEAD < 18446744073709551616)
    by (vm_compute; reflexivity).
  assert (Hl : (length [base + 56]%Z < 4)%nat) by (simpl; lia).
  assert (Hff : first_fit after_first_alloc (16 + EL_BLOCK_OVERHEAD)
                  [base + 56] = base + 56) by (vm_compute; reflexivity).
  assert (Hnz : base + 56 <> NULL) by (vm_compute; discriminate).
  destruct (malloc_at demo demo_env_ok after_first_alloc
              [mkBlock base 16 EL_USED] (base + 56) 4000 EL_AVAILABLE
              [] [base + 56] [base] 4 16 after_first_alloc_rep
              H0 Hb Hl Hff Hnz)
    as (_ & _ & m' & _ & _ & _ & _ & Hex & _).
  exists m'. split; [exact Hex |].
  destruct (malloc_keeps_payloads demo demo_env_ok after_first_alloc
              _ _ _ 4 16 _ m' after_first_alloc_rep H0 Hb Hex) as (H & _).
  intros x Hx. apply (H (mkBlock base 16 EL_USED)).
  - left. reflexivity.
  - vm_compute. discriminate.
  - exact Hx.
Defined.

(** Releasing the middle block leaves the payloads of all three. *)
Lemma free_keeps_payloads_witness :
  exists m',
    el_free demo (base + 56 + sizeof_blockhead) three_used_heap = Ok tt m' /\
    forall x, payload_bytes (mkBlock (base + 112) 16 EL_USED) x ->
              m' x = three_used_heap x.
Proof.
  destruct (free_keeps_payloads demo demo_env_ok three_used_heap
              [mkBlock base 16 EL_USED] (base + 56) 16
              [mkBlock (base + 112) 16 EL_USED;
               mkBlock (base + 168) 3888 EL_AVAILABLE] _ _ three_used_rep)
    as (m' & Hex & H).
  exists m'. split; [exact Hex |].
  intros x Hx. apply (H (mkBlock (base + 112) 16 EL_USED)); [| exact Hx].
  right. right. left. reflexivity.
Defined.

(** The dump of the sandwich heap: two available blocks, the most
    recently released first, and one used block. *)
Lemma print_blocklist_reports_members_witness :
  el_print_blocklist demo 4 (avail_list demo) [] sandwich_heap
    = Ok (tt, [] ++ blocklist_events sandwich_heap EL_AVAILABLE
                      [base + 112; base]) sandwich_heap /\
  el_print_blocklist demo 4 (used_list demo) [] sandwich_heap
    = Ok (tt, [] ++ blocklist_events sandwich_heap EL_USED [base + 56])
         sandwich_heap /\
  list_events sandwich_heap EL_USED 0 [base + 56]
    = entry_events 0 (base + 56) EL_USED 16.
Proof.
  assert (Hs : env_heap_size demo <= EL_BLOCK_OVERHEAD * INT_MAX)
    by (vm_compute; discriminate).
  assert (Ha : (length [base + 112; base]%Z < 4)%nat) by (simpl; lia).
  assert (Hu : (length [base + 56]%Z < 4)%nat) by (simpl; lia).
  destruct (print_blocklist_reports_members demo demo_env_ok sandwich_heap
              _ _ _ 4 [] sandwich_rep Hs Ha Hu) as (H1 & H2).
  split; [exact H1 |]. split; [exact H2 |].
  vm_compute. reflexivity.
Defined.

Lemma print_stats_reports_heap_witness :
  exists out,
    el_print_stats demo 4 [] sandwich_heap = Ok (tt, out) sandwich_heap /\
    nth_error out 1 = Some (EvPrintf "heap_start:  %p\n" [AInt base]).
Proof.
  assert (Hs : env_heap_size demo <= EL_BLOCK_OVERHEAD * INT_MAX)
    by (vm_compute; discriminate).
  assert (Ha : (length [base + 112; base]%Z < 4)%nat) by (simpl; lia).
  assert (Hu : (length [base + 56]%Z < 4)%nat) by (simpl; lia).
  eexists. split.
  - exact (print_stats_reports_heap demo demo_env_ok sandwich_heap
             _ _ _ 4 [] sandwich_rep Hs Ha Hu).
  - reflexivity.
Defined.

(** ** The process on the concrete heap *)

(** The first call of [el_init] in a process, with [mmap] granted, and
    the same call with [mmap] refused. *)
Lemma init_sets_up_one_block_witness :
  EL_BLOCK_OVERHEAD <= env_heap_size demo /\
  (exists m,
     Process.el_init demo base (mkProcess boot false [])
       = Returned 0 (mkProcess m true [EvMmap base 4096 base]) /\
     el_init demo boot = Ok 0 m /\
     heap_rep demo m [mkBlock base 4056 EL_AVAILABLE] [base] [] /\
     read64 m (avail_list demo + off_length) = 1 /\
     read64 m (avail_list demo + off_bytes) = 4096) /\
  Process.el_init demo MAP_FAILED (mkProcess boot false []) = Killed SIGABRT.
Proof.
  assert (H : EL_BLOCK_OVERHEAD <= env_heap_size demo)
    by (vm_compute; discriminate).
  assert (Hn : MAP_FAILED <> env_heap_base demo) by (vm_compute; discriminate).
  split; [exact H |].
  destruct (init_sets_up_one_block demo demo_env_ok (mkProcess boot false []) H)
    as (Hgo & Hstop).
  split.
  - destruct (Hgo eq_refl) as (m & Hex & Hmem & Hrep & _ & _ & Hl & Hb & _).
    exists m. split; [exact Hex |]. split; [exact Hmem |].
    split; [exact Hrep |]. split; [exact Hl | exact Hb].
  - exact (Hstop MAP_FAILED (or_introl Hn)).
Defined.


(** The teardown of the heap after one allocation, a request and a
    release after it, and a new initialisation. *)
Lemma cleanup_clears_bounds_witness :
  (0 < env_heap_size demo /\ EL_BLOCK_OVERHEAD <= env_heap_size demo) /\
  exists m',
    Process.el_cleanup demo (mkProcess after_first_alloc true [])
      = Returned tt (mkProcess m' false [EvMunmap base 4096]) /\
    read64 m' (env_ctl demo + off_heap_start) = NULL /\
    read64 m' (env_ctl demo + off_heap_end) = NULL /\
    Process.call demo (fun s => el_malloc s 4 100) (mkProcess m' false [])
      = Killed SIGSEGV /\
    Process.call demo (fun s => el_free s (base + sizeof_blockhead))
      (mkProcess m' false []) = Killed SIGSEGV /\
    exists m2,
      Process.el_init demo base (mkProcess m' false [])
        = Returned 0 (mkProcess m2 true [EvMmap base 4096 base]) /\
      heap_rep demo m2 [mkBlock base 4056 EL_AVAILABLE] [base] [].
Proof.
  assert (H0 : 0 < env_heap_size demo) by (vm_compute; reflexivity).
  assert (H1 : EL_BLOCK_OVERHEAD <= env_heap_size demo)
    by (vm_compute; discriminate).
  assert (Hne : [base + 56] <> @nil Z) by discriminate.
  assert (Hf : (0 < 4)%nat) by lia.
  split; [split; assumption |].
  destruct (cleanup_clears_bounds demo demo_env_ok
              (mkProcess after_first_alloc true []) _ _ _ H0 eq_refl
              after_first_alloc_rep)
    as (m' & Hex & Hs & He & _ & _ & Hmal & Hfree & Hinit).
  exists m'. split; [exact Hex |]. split; [exact Hs |]. split; [exact He |].
  split; [exact (Hmal [] 4%nat 100 Hne Hf) |].
  split; [exact (Hfree [] base (or_introl eq_refl)) |].
  exact (Hinit H1 []).
Defined.
